(** * confluent: persistent hash-consed treaps (set.h, map.h)

    A shallow embedding of the confluent containers.  A [node_ptr] is the
    address of an immutable node together with the node it points to; the
    intern table of a provider is threaded through every algorithm as
    explicit state.  Reference counts and the [next_] chain pointer are not
    modelled: nodes stay in the table, which only changes what is reclaimed,
    never what a live pointer refers to. *)

From Stdlib Require Import ZArith List Bool Lia PeanoNat Sorted Permutation.
Import ListNotations.
Local Open Scope Z_scope.

Set Implicit Arguments.

(** ** Machine words: [size_t] on a 64-bit target *)

Module Word.

Definition width : Z := 64.
Definition modulus : Z := 2 ^ width.

Definition wrap (z : Z) : Z := z mod modulus.

Definition add (a b : Z) : Z := wrap (a + b).
Definition sub (a b : Z) : Z := wrap (a - b).
Definition shl (a n : Z) : Z := wrap (Z.shiftl a n).
Definition shr (a n : Z) : Z := Z.shiftr a n.
Definition xor (a b : Z) : Z := Z.lxor a b.
Definition not (a : Z) : Z := wrap (Z.lnot a).

End Word.

(** Thomas Wang's 64 bit mix function. *)
Definition intmix (key : Z) : Z :=
  let key := Word.add (Word.not key) (Word.shl key 21) in
  let key := Word.xor key (Word.shr key 24) in
  let key := Word.add (Word.add key (Word.shl key 3)) (Word.shl key 8) in
  let key := Word.xor key (Word.shr key 14) in
  let key := Word.add (Word.add key (Word.shl key 2)) (Word.shl key 4) in
  let key := Word.xor key (Word.shr key 28) in
  let key := Word.add key (Word.shl key 31) in
  key.

Definition hash_combine (h1 h2 : Z) : Z :=
  Word.xor h1
    (Word.add (Word.add (Word.add h2 0x9e3779b9) (Word.shl h1 6))
       (Word.shr h1 2)).

Definition hash_combine3 (h1 h2 h3 : Z) : Z :=
  hash_combine (hash_combine h1 h2) h3.

Definition hash_combine4 (h1 h2 h3 h4 : Z) : Z :=
  hash_combine (hash_combine h1 h2) (hash_combine h3 h4).

Arguments Word.wrap : simpl never.
Arguments intmix : simpl never.
Arguments hash_combine : simpl never.
Arguments hash_combine3 : simpl never.
Arguments hash_combine4 : simpl never.

(** ** Nodes and node pointers

    [node V X] is what a [node_ptr<Traits>] denotes: [null], or the address
    of a node with its (constant) fields.  [value_], [hash_], [left_] and
    [right_] are common to the set and the map specialisation; [extra_]
    holds the fields that differ ([priority_] and [size_] for a set node,
    [key_node_] for a map node). *)

Inductive node (V X : Type) : Type :=
| null : node V X
| Node (addr : nat) (value_ : V) (extra_ : X) (hash_ : Z)
       (left_ right_ : node V X).

Arguments null {V X}.

Inductive ranking : Type := LEFT | SAME | RIGHT | NOT_SAME.

(** ** State and failure

    A computation runs on the provider's state and either returns a value
    with the new state or fails ([None]): an assertion that does not hold,
    a null pointer dereferenced, or the recursion budget of the model used
    up. *)

Definition M (St A : Type) : Type := St -> option (A * St).

Definition ret {St A} (a : A) : M St A := fun s => Some (a, s).

Definition fail {St A} : M St A := fun _ => None.

Definition bind {St A B} (c : M St A) (k : A -> M St B) : M St B :=
  fun s => match c s with
           | Some (a, s') => k a s'
           | None => None
           end.

(** [c], started in [s], returns [a]. *)
Definition yields {St A} (c : M St A) (s : St) (a : A) : Prop :=
  exists s', c s = Some (a, s').

Declare Scope m_scope.
Delimit Scope m_scope with M.
Notation "x <- c ;; k" := (bind c (fun x => k))
  (at level 61, c at next level, right associativity) : m_scope.
Notation "' ( x , y ) <- c ;; k" := (bind c (fun xy => let '(x, y) := xy in k))
  (at level 61, x name, y name, c at next level, right associativity) : m_scope.
Local Open Scope m_scope.

(** ** Traits and environment

    What the generic algorithms of namespace [internal] use of their
    template parameter: the accessors of [node<Traits>] ([Traits]), and the
    functors of the provider with the two [make_node] overloads ([Env]). *)

Class Traits (K V X : Type) : Type := {
  key_of : V -> K;
  priority_of : X -> Z;
  size_of : X -> Z
}.

Class Env (K V X St : Type) : Type := {
  compare : K -> K -> bool;
  equal : K -> K -> bool;
  make_node_from : node V X -> node V X -> node V X -> M St (node V X);
  make_node_value : V -> M St (node V X)
}.

Module Internal.

Section Generic.

Context {K V X St : Type} {Tr : Traits K V X} {En : Env K V X St}.

Local Notation "'nodeptr'" := (node V X).

(** Address held by a pointer; the null pointer holds 0. *)
Definition address (p : nodeptr) : nat :=
  match p with
  | null => O
  | Node a _ _ _ _ _ => a
  end.

(** [node_ptr::operator==] *)
Definition ptr_eq (p q : nodeptr) : bool := Nat.eqb (address p) (address q).

(** [node_ptr::operator bool] *)
Definition is_null (p : nodeptr) : bool :=
  match p with
  | null => true
  | Node _ _ _ _ _ _ => false
  end.

Definition hash (p : nodeptr) : Z :=
  match p with
  | null => 0
  | Node _ _ _ h _ _ => h
  end.

Definition size (p : nodeptr) : Z :=
  match p with
  | null => 0
  | Node _ _ x _ _ _ => size_of x
  end.

(** [node::priority()]; a null pointer has none, 0 stands for it. *)
Definition priority (p : nodeptr) : Z :=
  match p with
  | null => 0
  | Node _ _ x _ _ _ => priority_of x
  end.

Definition rank (left right : nodeptr) : ranking :=
  match left, right with
  | Node _ lv lx _ _ _, Node _ rv rx _ _ _ =>
      if priority_of lx <? priority_of rx then LEFT
      else if priority_of rx <? priority_of lx then RIGHT
      else if compare (key_of lv) (key_of rv) then LEFT
      else if compare (key_of rv) (key_of lv) then RIGHT
      else SAME
  | _, _ => SAME
  end.

Definition replace_left (parent child : nodeptr) : M St nodeptr :=
  match parent with
  | null => fail
  | Node _ _ _ _ l r =>
      if ptr_eq l child then ret parent else make_node_from parent child r
  end.

Definition replace_right (parent child : nodeptr) : M St nodeptr :=
  match parent with
  | null => fail
  | Node _ _ _ _ l r =>
      if ptr_eq r child then ret parent else make_node_from parent l child
  end.

Fixpoint join (left : nodeptr) : nodeptr -> M St nodeptr :=
  fix join_right (right : nodeptr) : M St nodeptr :=
    match left, right with
    | null, _ => ret right
    | _, null => ret left
    | Node _ _ _ _ _ lr, Node _ _ _ _ rl _ =>
        match rank left right with
        | LEFT => j <- join lr right ;; replace_right left j
        | RIGHT => j <- join_right rl ;; replace_left right j
        | _ => fail
        end
    end.

Fixpoint split (p : nodeptr) (key : K) : M St (nodeptr * nodeptr) :=
  match p with
  | null => ret (null, null)
  | Node _ v _ _ l r =>
      if compare (key_of v) key then
        '(s1, s2) <- split r key ;;
        n <- replace_right p s1 ;;
        ret (n, s2)
      else
        '(s1, s2) <- split l key ;;
        n <- replace_left p s2 ;;
        ret (s1, n)
  end.

(** Number of nodes below a pointer; the recursion budget of the merge
    algorithms is taken from it. *)
Fixpoint nodes (p : nodeptr) : nat :=
  match p with
  | null => O
  | Node _ _ _ _ l r => S (nodes l + nodes r)
  end.

Fixpoint set_union_rec (fuel : nat) (left right : nodeptr) : M St nodeptr :=
  match fuel with
  | O => fail
  | S fuel =>
      if ptr_eq left right || is_null right then ret left
      else if is_null left then ret right
      else
        match left, right with
        | Node _ lv _ _ ll lr, Node _ rv _ _ rl rr =>
            match rank left right with
            | LEFT =>
                '(s1, s2) <- split right (key_of lv) ;;
                a <- set_union_rec fuel ll s1 ;;
                b <- set_union_rec fuel lr s2 ;;
                make_node_from left a b
            | RIGHT =>
                '(s1, s2) <- split left (key_of rv) ;;
                a <- set_union_rec fuel s1 rl ;;
                b <- set_union_rec fuel s2 rr ;;
                make_node_from right a b
            | _ =>
                a <- set_union_rec fuel ll rl ;;
                b <- set_union_rec fuel lr rr ;;
                make_node_from left a b
            end
        | _, _ => fail
        end
  end.

Definition set_union (left right : nodeptr) : M St nodeptr :=
  set_union_rec (S (nodes left + nodes right)) left right.

Fixpoint set_intersection_rec (fuel : nat)
    (ranker : nodeptr -> nodeptr -> ranking) (left right : nodeptr)
    : M St nodeptr :=
  match fuel with
  | O => fail
  | S fuel =>
      if is_null left || is_null right then ret null
      else if ptr_eq left right then ret left
      else
        match left, right with
        | Node _ lv _ _ ll lr, Node _ rv _ _ rl rr =>
            match ranker left right with
            | LEFT =>
                '(s1, s2) <- split right (key_of lv) ;;
                a <- set_intersection_rec fuel ranker ll s1 ;;
                b <- set_intersection_rec fuel ranker lr s2 ;;
                join a b
            | RIGHT =>
                '(s1, s2) <- split left (key_of rv) ;;
                a <- set_intersection_rec fuel ranker s1 rl ;;
                b <- set_intersection_rec fuel ranker s2 rr ;;
                join a b
            | NOT_SAME =>
                a <- set_intersection_rec fuel ranker ll rl ;;
                b <- set_intersection_rec fuel ranker lr rr ;;
                join a b
            | SAME =>
                a <- set_intersection_rec fuel ranker ll rl ;;
                b <- set_intersection_rec fuel ranker lr rr ;;
                make_node_from left a b
            end
        | _, _ => fail
        end
  end.

Definition set_intersection (ranker : nodeptr -> nodeptr -> ranking)
    (left right : nodeptr) : M St nodeptr :=
  set_intersection_rec (S (nodes left + nodes right)) ranker left right.

Fixpoint set_difference_rec (fuel : nat)
    (ranker : nodeptr -> nodeptr -> ranking) (left right : nodeptr)
    : M St nodeptr :=
  match fuel with
  | O => fail
  | S fuel =>
      if ptr_eq left right || is_null left then ret null
      else if is_null right then ret left
      else
        match left, right with
        | Node _ lv _ _ ll lr, Node _ rv _ _ rl rr =>
            match ranker left right with
            | LEFT =>
                '(s1, s2) <- split right (key_of lv) ;;
                a <- set_difference_rec fuel ranker ll s1 ;;
                b <- set_difference_rec fuel ranker lr s2 ;;
                make_node_from left a b
            | RIGHT =>
                '(s1, s2) <- split left (key_of rv) ;;
                a <- set_difference_rec fuel ranker s1 rl ;;
                b <- set_difference_rec fuel ranker s2 rr ;;
                join a b
            | NOT_SAME =>
                a <- set_difference_rec fuel ranker ll rl ;;
                b <- set_difference_rec fuel ranker lr rr ;;
                make_node_from left a b
            | SAME =>
                a <- set_difference_rec fuel ranker ll rl ;;
                b <- set_difference_rec fuel ranker lr rr ;;
                join a b
            end
        | _, _ => fail
        end
  end.

Definition set_difference (ranker : nodeptr -> nodeptr -> ranking)
    (left right : nodeptr) : M St nodeptr :=
  set_difference_rec (S (nodes left + nodes right)) ranker left right.

Fixpoint set_symmetric_rec (fuel : nat) (left right : nodeptr)
    : M St nodeptr :=
  match fuel with
  | O => fail
  | S fuel =>
      if is_null left then ret right
      else if is_null right then ret left
      else if ptr_eq left right then ret null
      else
        match left, right with
        | Node _ lv _ _ ll lr, Node _ rv _ _ rl rr =>
            match rank left right with
            | LEFT =>
                '(s1, s2) <- split right (key_of lv) ;;
                a <- set_symmetric_rec fuel ll s1 ;;
                b <- set_symmetric_rec fuel lr s2 ;;
                make_node_from left a b
            | RIGHT =>
                '(s1, s2) <- split left (key_of rv) ;;
                a <- set_symmetric_rec fuel s1 rl ;;
                b <- set_symmetric_rec fuel s2 rr ;;
                make_node_from right a b
            | _ =>
                a <- set_symmetric_rec fuel ll rl ;;
                b <- set_symmetric_rec fuel lr rr ;;
                join a b
            end
        | _, _ => fail
        end
  end.

Definition set_symmetric (left right : nodeptr) : M St nodeptr :=
  set_symmetric_rec (S (nodes left + nodes right)) left right.

Fixpoint includes_rec (fuel : nat)
    (ranker : nodeptr -> nodeptr -> ranking) (left right : nodeptr)
    : M St bool :=
  match fuel with
  | O => fail
  | S fuel =>
      if ptr_eq left right || is_null right then ret true
      else if size left <? size right then ret false
      else
        match left, right with
        | Node _ lv _ _ ll lr, Node _ rv _ _ rl rr =>
            match ranker left right with
            | LEFT =>
                '(s1, s2) <- split right (key_of lv) ;;
                b1 <- includes_rec fuel ranker ll s1 ;;
                if b1 then includes_rec fuel ranker lr s2 else ret false
            | SAME =>
                b1 <- includes_rec fuel ranker ll rl ;;
                if b1 then includes_rec fuel ranker lr rr else ret false
            | _ => ret false
            end
        | _, _ => fail
        end
  end.

Definition includes (ranker : nodeptr -> nodeptr -> ranking)
    (left right : nodeptr) : M St bool :=
  includes_rec (S (nodes left + nodes right)) ranker left right.

(** [make_node(env, first, last, max_depth)]: bulk build from an input
    range.  The iterator is the list of elements not yet consumed; the
    computation returns the built tree and the advanced iterator.  Every
    call that does not return [null] consumes an element, so the number of
    remaining elements bounds the recursion and the loop.

    [range_loop] is the [for] loop of the function, [branch] its recursive
    call. *)
Fixpoint range_loop (branch : list V -> Z -> M St (nodeptr * list V))
    (max_depth : Z) (budget : nat) (root : nodeptr) (first : list V)
    (depth : Z) : M St (nodeptr * list V) :=
  match budget with
  | O => fail
  | S budget =>
      if depth <? max_depth then
        '(b, first) <- branch first depth ;;
        if is_null b then ret (root, first)
        else
          root <- set_union root b ;;
          range_loop branch max_depth budget root first (depth + 1)
      else ret (root, first)
  end.

Fixpoint make_node_range_rec (fuel : nat) (first : list V) (max_depth : Z)
    : M St (nodeptr * list V) :=
  match fuel with
  | O => fail
  | S fuel =>
      match first with
      | [] => ret (null, [])
      | v :: first =>
          root <- make_node_value v ;;
          range_loop (make_node_range_rec fuel) max_depth
            (S (length first)) root first 0
      end
  end.

(** [make_node(env, first, last)] *)
Definition make_node_range (first : list V) : M St nodeptr :=
  '(root, _) <- make_node_range_rec (S (length first)) first
                  (Word.modulus - 1) ;;
  ret root.

(** The [node_ptr<Traits>* p] in-out parameter of the functions below is
    modelled by passing the pointer in and returning the new one beside the
    function's result. *)
Definition add (p q : nodeptr) : M St (Z * nodeptr) :=
  let n := size p in
  p <- set_union p q ;;
  ret (Word.sub (size p) n, p).

Definition diff (ranker : nodeptr -> nodeptr -> ranking) (p q : nodeptr)
    : M St (Z * nodeptr) :=
  let n := size p in
  p <- set_difference ranker p q ;;
  ret (Word.sub n (size p), p).

Definition intersect (ranker : nodeptr -> nodeptr -> ranking) (p q : nodeptr)
    : M St (Z * nodeptr) :=
  let n := size p in
  p <- set_intersection ranker p q ;;
  ret (Word.sub n (size p), p).

Definition insert (p : nodeptr) (value : V) : M St (Z * nodeptr) :=
  q <- make_node_value value ;;
  add p q.

Definition insert_range (p : nodeptr) (first : list V) : M St (Z * nodeptr) :=
  q <- make_node_range first ;;
  add p q.

Definition assign (first : list V) : M St nodeptr :=
  make_node_range first.

(** [erase(env, p, key)] returning the pair of the new tree and a flag. *)
Fixpoint erase_key (p : nodeptr) (key : K) : M St (nodeptr * bool) :=
  match p with
  | null => ret (null, false)
  | Node _ v _ _ l r =>
      if compare (key_of v) key then
        '(s1, s2) <- erase_key r key ;;
        if s2 then n <- replace_right p s1 ;; ret (n, true)
        else ret (p, false)
      else
        '(s1, s2) <- erase_key l key ;;
        if s2 then n <- replace_left p s1 ;; ret (n, true)
        else if negb (equal (key_of v) key) then ret (p, true)
        else n <- join l r ;; ret (n, true)
  end.

(** [erase(env, node_ptr* p, key)] *)
Definition erase (p : nodeptr) (key : K) : M St (Z * nodeptr) :=
  let n := size p in
  '(p, _) <- erase_key p key ;;
  ret (Word.sub n (size p), p).

Definition symmetric (p q : nodeptr) : M St nodeptr :=
  set_symmetric p q.

(** [tail]: the [while] loop descends to the right, the recursive call to
    the left; both are the one structural recursion here. *)
Fixpoint tail (p : nodeptr) (first : Z) : M St nodeptr :=
  match p with
  | null => if first =? 0 then ret null else fail
  | Node _ _ _ _ l r =>
      if size l <? first then tail r (Word.sub first (Word.add (size l) 1))
      else if first =? 0 then ret p
      else t <- tail l first ;; replace_left p t
  end.

Fixpoint head (p : nodeptr) (last : Z) : M St nodeptr :=
  match p with
  | null => if last =? 0 then ret null else fail
  | Node _ _ _ _ l r =>
      if last <=? size l then head l last
      else if last =? size p then ret p
      else h <- head r (Word.sub (Word.sub last (size l)) 1) ;;
           replace_right p h
  end.

(** [erase(env, p, first, last)] *)
Definition erase_range (p : nodeptr) (first last : Z) : M St (Z * nodeptr) :=
  let n := size p in
  h <- head p first ;;
  t <- tail p last ;;
  p <- join h t ;;
  ret (Word.sub n (size p), p).

Definition retain (p : nodeptr) (first last : Z) : M St (Z * nodeptr) :=
  let n := size p in
  h <- head p last ;;
  p <- tail h first ;;
  ret (Word.sub n (size p), p).

(** The loops of [at_index]; [None] is a null pointer dereferenced. *)
Fixpoint at_index_loop (p : nodeptr) (k : Z) : option nodeptr :=
  match p with
  | null => None
  | Node _ _ _ _ l r =>
      if size l <? k then at_index_loop r (Word.sub k (Word.add (size l) 1))
      else if k <? size l then at_index_loop l k
      else Some p
  end.

(** [at_index]: [None] is also the failed assertion [k < size(p)]. *)
Definition at_index (p : nodeptr) (k : Z) : option nodeptr :=
  if k <? size p then at_index_loop p k else None.

(** [lower_bound]: [comparer] reads the node's value. *)
Fixpoint lower_bound_from (p : nodeptr) (comparer : V -> bool)
    (best : nodeptr * Z) (pos : Z) : nodeptr * Z :=
  match p with
  | null => best
  | Node _ v _ _ l r =>
      if comparer v then
        lower_bound_from r comparer best (Word.add pos (Word.add (size l) 1))
      else
        lower_bound_from l comparer (p, Word.add pos (size l)) pos
  end.

Definition lower_bound (p : nodeptr) (comparer : V -> bool) : nodeptr * Z :=
  lower_bound_from p comparer (null, size p) 0.

End Generic.

End Internal.

(** ** Iterators

    [iterator<Traits>]: the position, the node there once it has been looked
    up, and the stack of the nodes above it that a step may return to.  The
    functions read [container_->node_]; it is passed to them as [root]. *)

Module Iter.

Section Iter.

Context {K V X : Type} {Tr : Traits K V X}.

Local Notation "'nodeptr'" := (node V X).

Record iterator : Type := {
  pos_ : Z;
  node_ : nodeptr;
  stack_ : list nodeptr;
  decrementing_ : bool
}.

(** [iterator(container, pos, node)] *)
Definition make (pos : Z) (n : nodeptr) : iterator :=
  {| pos_ := pos; node_ := n; stack_ := []; decrementing_ := false |}.

(** [iterator(container, std::pair<const node_type*, size_t>)] *)
Definition of_bound (p : nodeptr * Z) : iterator := make (snd p) (fst p).

(** [iterator(const iterator&)] *)
Definition copy (other : iterator) : iterator :=
  make (pos_ other) (node_ other).

(** [operator==] and [operator<] *)
Definition eq (this other : iterator) : bool := pos_ this =? pos_ other.

Definition lt (this other : iterator) : bool := pos_ this <? pos_ other.

(** The [do] loop of [increment]: the nodes left on the way down are
    pushed; [None] is a null pointer dereferenced. *)
Fixpoint seek_incrementing (p : nodeptr) (k : Z) (stack : list nodeptr)
    : option (nodeptr * list nodeptr) :=
  match p with
  | null => None
  | Node _ _ _ _ l r =>
      if Internal.size l <? k then
        seek_incrementing r
          (Word.sub k (Word.add (Internal.size l) 1)) stack
      else if k <? Internal.size l then seek_incrementing l k (p :: stack)
      else Some (p, stack)
  end.

(** The [do] loop of [decrement]. *)
Fixpoint seek_decrementing (p : nodeptr) (k : Z) (stack : list nodeptr)
    : option (nodeptr * list nodeptr) :=
  match p with
  | null => None
  | Node _ _ _ _ l r =>
      if Internal.size l <? k then
        seek_decrementing r
          (Word.sub k (Word.add (Internal.size l) 1)) (p :: stack)
      else if k <? Internal.size l then seek_decrementing l k stack
      else Some (p, stack)
  end.

(** [while (node_->left_) { stack_.push_back(node_); node_ = left_ }] *)
Fixpoint leftmost (p : nodeptr) (stack : list nodeptr)
    : option (nodeptr * list nodeptr) :=
  match p with
  | null => None
  | Node _ _ _ _ l _ =>
      match l with
      | null => Some (p, stack)
      | Node _ _ _ _ _ _ => leftmost l (p :: stack)
      end
  end.

(** [while (node_->right_) { stack_.push_back(node_); node_ = right_ }] *)
Fixpoint rightmost (p : nodeptr) (stack : list nodeptr)
    : option (nodeptr * list nodeptr) :=
  match p with
  | null => None
  | Node _ _ _ _ _ r =>
      match r with
      | null => Some (p, stack)
      | Node _ _ _ _ _ _ => rightmost r (p :: stack)
      end
  end.

Definition moved (pos : Z) (decrementing : bool)
    (found : option (nodeptr * list nodeptr)) : option iterator :=
  match found with
  | Some (n, stack) =>
      Some {| pos_ := pos; node_ := n; stack_ := stack;
              decrementing_ := decrementing |}
  | None => None
  end.

Definition increment (root : nodeptr) (it : iterator) : option iterator :=
  let pos := Word.add (pos_ it) 1 in
  let stack := if decrementing_ it then [] else stack_ it in
  match stack with
  | [] => moved pos false (seek_incrementing root pos [])
  | top :: rest =>
      match node_ it with
      | null => None
      | Node _ _ _ _ _ r =>
          match r with
          | null => moved pos false (Some (top, rest))
          | Node _ _ _ _ _ _ => moved pos false (leftmost r stack)
          end
      end
  end.

Definition decrement (root : nodeptr) (it : iterator) : option iterator :=
  let pos := Word.sub (pos_ it) 1 in
  let stack := if decrementing_ it then stack_ it else [] in
  match stack with
  | [] => moved pos true (seek_decrementing root pos [])
  | top :: rest =>
      match node_ it with
      | null => None
      | Node _ _ _ _ l _ =>
          match l with
          | null => moved pos true (Some (top, rest))
          | Node _ _ _ _ _ _ => moved pos true (rightmost l stack)
          end
      end
  end.

Definition reset (root : nodeptr) (it : iterator) (pos : Z)
    : option iterator :=
  if (pos =? Word.add (pos_ it) 1) && negb (pos =? Internal.size root)
  then increment root it
  else if pos =? Word.sub (pos_ it) 1 then decrement root it
  else if negb (pos_ it =? pos) then
    Some {| pos_ := pos; node_ := null; stack_ := [];
            decrementing_ := decrementing_ it |}
  else Some it.

(** [operator+=] and [operator-=]: [k] is a [difference_type]. *)
Definition plus_assign (root : nodeptr) (it : iterator) (k : Z)
    : option iterator :=
  reset root it (Word.add (pos_ it) (Word.wrap k)).

Definition minus_assign (root : nodeptr) (it : iterator) (k : Z)
    : option iterator :=
  reset root it (Word.sub (pos_ it) (Word.wrap k)).

(** [operator++()] and [operator--()] *)
Definition pre_increment (root : nodeptr) (it : iterator)
    : option iterator :=
  plus_assign root it 1.

Definition pre_decrement (root : nodeptr) (it : iterator)
    : option iterator :=
  minus_assign root it 1.

(** [operator+] and [operator-] *)
Definition plus (it : iterator) (k : Z) : iterator :=
  make (Word.add (pos_ it) (Word.wrap k)) null.

Definition minus (it : iterator) (k : Z) : iterator :=
  make (Word.sub (pos_ it) (Word.wrap k)) null.

(** [find_node]: the node is kept in the iterator; [None] is the failed
    assertion [pos_ < size(container_->node_)]. *)
Definition find_node (root : nodeptr) (it : iterator)
    : option (nodeptr * iterator) :=
  if pos_ it <? Internal.size root then
    match node_ it with
    | null =>
        match Internal.at_index root (pos_ it) with
        | Some n =>
            Some (n, {| pos_ := pos_ it; node_ := n; stack_ := stack_ it;
                        decrementing_ := decrementing_ it |})
        | None => None
        end
    | Node _ _ _ _ _ _ => Some (node_ it, it)
    end
  else None.

(** [operator*] *)
Definition deref (root : nodeptr) (it : iterator) : option (V * iterator) :=
  match find_node root it with
  | Some (Node _ v _ _ _ _, it') => Some (v, it')
  | _ => None
  end.

(** The statement [for (auto x : container)] of the examples, from [it] to
    [last], collecting the values it binds [x] to; [fuel] bounds the number
    of rounds. *)
Fixpoint range_for (fuel : nat) (root : nodeptr) (it last : iterator)
    : option (list V) :=
  if eq it last then Some []
  else
    match fuel with
    | O => None
    | S fuel =>
        match deref root it with
        | Some (x, it) =>
            match pre_increment root it with
            | Some it =>
                match range_for fuel root it last with
                | Some xs => Some (x :: xs)
                | None => None
                end
            | None => None
            end
        | None => None
        end
    end.

(** A step of a walk with an iterator. *)
Inductive step : Type :=
| Increment
| Decrement
| Plus (k : Z)
| Minus (k : Z).

Definition walk_step (root : nodeptr) (it : iterator) (m : step)
    : option iterator :=
  match m with
  | Increment => pre_increment root it
  | Decrement => pre_decrement root it
  | Plus k => plus_assign root it k
  | Minus k => minus_assign root it k
  end.

Fixpoint walk (root : nodeptr) (it : iterator) (ms : list step)
    : option iterator :=
  match ms with
  | [] => Some it
  | m :: ms =>
      match walk_step root it m with
      | Some it => walk root it ms
      | None => None
      end
  end.

End Iter.

End Iter.

(** ** The intern table

    [hash_table<Traits>] keeps the live nodes in chains selected by
    [hash_ & (bucket_count_ - 1)].  A chain is searched for a node with the
    same [hash_], the same children and an equal value; as equal [hash_]
    means the same chain, the search sees every node of the table that can
    match, and the table is kept here as the list of its nodes in the order
    they were inserted. *)

Module HashTable.

Section Table.

Context {V X : Type}.

Variable equal_value : V -> V -> bool.

Definition hash_table : Type := list (node V X).

Definition matches (key p : node V X) : bool :=
  match p, key with
  | Node _ pv _ ph pl pr, Node _ kv _ kh kl kr =>
      (ph =? kh) && Internal.ptr_eq pl kl && Internal.ptr_eq pr kr
      && equal_value pv kv
  | _, _ => false
  end.

Definition insert (key : node V X) (t : hash_table)
    : node V X * hash_table :=
  match find (matches key) t with
  | Some p => (p, t)
  | None => (key, t ++ [key])
  end.

(** Address of the node the next [new] returns. *)
Definition fresh (t : hash_table) : nat := S (length t).

Definition get_unique_node (p : node V X) : M hash_table (node V X) :=
  fun t => Some (insert p t).

End Table.

End HashTable.

(** ** Set nodes and the set provider *)

Record set_fields : Type := { priority_ : Z; size_ : Z }.

Record set_provider (T : Type) : Type := {
  key_comp : T -> T -> bool;
  key_hash : T -> Z;
  key_eq : T -> T -> bool
}.

Module SetNode.

Section SetNode.

Context {T : Type}.

Variable provider : set_provider T.

Definition set_node : Type := node T set_fields.

Definition table : Type := @HashTable.hash_table T set_fields.

#[export] Instance set_traits : Traits T T set_fields := {
  key_of := fun v => v;
  priority_of := priority_;
  size_of := size_
}.

(** [node<Traits, set_tag>::create] *)
Definition create (value : T) (left right : set_node) (priority : Z)
    : M table set_node :=
  fun t =>
    let sz := 1 + Internal.size left + Internal.size right in
    let h := hash_combine3 (Internal.hash left) (Internal.hash right)
               priority in
    let p := Node (HashTable.fresh t) value
               {| priority_ := priority; size_ := sz |} h left right in
    HashTable.get_unique_node (key_eq provider) p t.

(** [make_node(env, value, left, right)] *)
Definition make_node (value : T) (left right : set_node)
    : M table set_node :=
  create value left right (intmix (Word.wrap (key_hash provider value))).

(** [make_node(env, parent, left, right)] *)
Definition make_node_parent (parent left right : set_node)
    : M table set_node :=
  match parent with
  | null => fail
  | Node _ v x _ _ _ => create v left right (priority_ x)
  end.

#[export] Instance set_env : Env T T set_fields table := {
  compare := key_comp provider;
  equal := key_eq provider;
  make_node_from := make_node_parent;
  make_node_value := fun v => make_node v null null
}.

End SetNode.

End SetNode.

(** ** The set container

    [provider_] is the identity of the shared [set_provider] object the set
    holds; the methods run in the environment of that provider, whose intern
    table is the state.  An iterator argument is its position [pos_]. *)

Module CSet.

Record set (T : Type) : Type := {
  provider_ : nat;
  node_ : node T set_fields
}.

Section Methods.

Context {T : Type}.

Variable provider : set_provider T.

#[local] Existing Instance SetNode.set_traits.
#[local] Instance env : Env T T set_fields (@SetNode.table T) :=
  SetNode.set_env provider.

Local Notation "'table'" := (@SetNode.table T).

(** [assert(provider_ == other.provider_)] *)
Definition check (this other : set T) : bool :=
  Nat.eqb (provider_ this) (provider_ other).

(** The assertions of [check(first, last)] on the positions of the two
    iterators, which are [size_t] values. *)
Definition check_range (this : set T) (first last : Z) : bool :=
  (0 <=? first) && (last <? Word.modulus)
  && (first <=? last) && (last <=? Internal.size (node_ this)).

Definition with_node (this : set T) (p : node T set_fields) : set T :=
  {| provider_ := provider_ this; node_ := p |}.

(** [set(provider)] *)
Definition new (provider_id : nat) : set T :=
  {| provider_ := provider_id; node_ := null |}.

Definition insert (this : set T) (value : T) : M table (Z * set T) :=
  '(n, p) <- Internal.insert (node_ this) value ;;
  ret (n, with_node this p).

Definition insert_range (this : set T) (first : list T)
    : M table (Z * set T) :=
  '(n, p) <- Internal.insert_range (node_ this) first ;;
  ret (n, with_node this p).

Definition insert_set (this other : set T) : M table (Z * set T) :=
  if check this other then
    '(n, p) <- Internal.add (node_ this) (node_ other) ;;
    ret (n, with_node this p)
  else fail.

(** [set(first, last, provider)] *)
Definition from_range (first : list T) (provider_id : nat)
    : M table (set T) :=
  '(_, s) <- insert_range (new provider_id) first ;;
  ret s.

Definition erase (this : set T) (key : T) : M table (Z * set T) :=
  '(n, p) <- Internal.erase (node_ this) key ;;
  ret (n, with_node this p).

Definition erase_range (this : set T) (first last : Z)
    : M table (Z * set T) :=
  if check_range this first last then
    '(n, p) <- Internal.erase_range (node_ this) first last ;;
    ret (n, with_node this p)
  else fail.

Definition erase_set (this other : set T) : M table (Z * set T) :=
  if check this other then
    '(n, p) <- Internal.diff Internal.rank (node_ this) (node_ other) ;;
    ret (n, with_node this p)
  else fail.

Definition retain_range (this : set T) (first last : Z)
    : M table (Z * set T) :=
  if check_range this first last then
    '(n, p) <- Internal.retain (node_ this) first last ;;
    ret (n, with_node this p)
  else fail.

Definition retain_set (this other : set T) : M table (Z * set T) :=
  if check this other then
    '(n, p) <- Internal.intersect Internal.rank (node_ this) (node_ other) ;;
    ret (n, with_node this p)
  else fail.

Definition clear (this : set T) : set T :=
  if Internal.is_null (node_ this) then this else with_node this null.

(** [operator=(std::initializer_list)] *)
Definition assign_list (this : set T) (ilist : list T) : M table (set T) :=
  p <- Internal.assign ilist ;;
  ret (with_node this p).

(** [operator|] *)
Definition union (this rhs : set T) : M table (set T) :=
  if check this rhs then
    p <- Internal.set_union (node_ this) (node_ rhs) ;;
    ret (with_node this p)
  else fail.

(** [operator|=] *)
Definition union_assign (this rhs : set T) : M table (set T) :=
  if check this rhs then
    '(_, s) <- insert_set this rhs ;;
    ret s
  else fail.

(** [operator&] *)
Definition intersection (this rhs : set T) : M table (set T) :=
  if check this rhs then
    p <- Internal.set_intersection Internal.rank (node_ this) (node_ rhs) ;;
    ret (with_node this p)
  else fail.

(** [operator&=] *)
Definition intersection_assign (this rhs : set T) : M table (set T) :=
  if check this rhs then
    '(_, s) <- retain_set this rhs ;;
    ret s
  else fail.

(** [operator-] *)
Definition difference (this rhs : set T) : M table (set T) :=
  if check this rhs then
    p <- Internal.set_difference Internal.rank (node_ this) (node_ rhs) ;;
    ret (with_node this p)
  else fail.

(** [operator-=] *)
Definition difference_assign (this rhs : set T) : M table (set T) :=
  if check this rhs then
    '(_, s) <- erase_set this rhs ;;
    ret s
  else fail.

(** [operator^] *)
Definition symmetric (this rhs : set T) : M table (set T) :=
  if check this rhs then
    p <- Internal.set_symmetric (node_ this) (node_ rhs) ;;
    ret (with_node this p)
  else fail.

(** [operator^=] *)
Definition symmetric_assign (this rhs : set T) : M table (set T) :=
  if check this rhs then
    p <- Internal.symmetric (node_ this) (node_ rhs) ;;
    ret (with_node this p)
  else fail.

Definition count (this : set T) (key : T) : Z :=
  match fst (Internal.lower_bound (node_ this)
               (fun v => key_comp provider v key)) with
  | null => 0
  | Node _ v _ _ _ _ => if key_eq provider v key then 1 else 0
  end.

Definition at_index (this : set T) (k : Z) : option T :=
  match Internal.at_index (node_ this) k with
  | Some (Node _ v _ _ _ _) => Some v
  | _ => None
  end.

(** [begin], [end], [lower_bound], [upper_bound], [equal_range] and
    [find] *)
Definition begin_ (this : set T) : @Iter.iterator T set_fields :=
  Iter.make 0 null.

Definition end_ (this : set T) : @Iter.iterator T set_fields :=
  Iter.make (Internal.size (node_ this)) null.

Definition lower_bound (this : set T) (key : T)
    : @Iter.iterator T set_fields :=
  Iter.of_bound (Internal.lower_bound (node_ this)
                   (fun v => key_comp provider v key)).

Definition upper_bound (this : set T) (key : T)
    : @Iter.iterator T set_fields :=
  Iter.of_bound (Internal.lower_bound (node_ this)
                   (fun v => negb (key_comp provider key v))).

Definition equal_range (this : set T) (key : T)
    : @Iter.iterator T set_fields * @Iter.iterator T set_fields :=
  (lower_bound this key, upper_bound this key).

Definition find (this : set T) (key : T) : @Iter.iterator T set_fields :=
  let bound := Internal.lower_bound (node_ this)
                 (fun v => key_comp provider v key) in
  match fst bound with
  | Node _ v _ _ _ _ =>
      if key_eq provider v key then Iter.of_bound bound else end_ this
  | null => end_ this
  end.

Definition includes (this other : set T) : M table bool :=
  if check this other then
    Internal.includes Internal.rank (node_ this) (node_ other)
  else fail.

Definition empty (this : set T) : bool := Internal.is_null (node_ this).

Definition size (this : set T) : Z := Internal.size (node_ this).

Definition hash (this : set T) : Z := Internal.hash (node_ this).

(** [operator==]: [None] is the failed provider assertion. *)
Definition eq (this rhs : set T) : option bool :=
  if check this rhs then Some (Internal.ptr_eq (node_ this) (node_ rhs))
  else None.

(** [operator!=] *)
Definition neq (this rhs : set T) : bool :=
  negb (Internal.ptr_eq (node_ this) (node_ rhs)).

End Methods.

(** *** Assignment and swap on set objects

    [operator=] and [swap] take the other set by reference, which may be
    the set itself; the objects live in a store and are named by their
    index in it. *)

Section Objects.

Context {T : Type}.

Definition store : Type := list (set T).

Definition update (st : store) (i : nat) (f : set T -> set T) : store :=
  match nth_error st i with
  | Some s => firstn i st ++ f s :: skipn (S i) st
  | None => st
  end.

(** [set& operator=(const set& other)] *)
Definition assign (this other : nat) (st : store) : option store :=
  match nth_error st this, nth_error st other with
  | Some _, Some _ =>
      let st := update st this clear in
      match nth_error st other with
      | Some o =>
          let st := update st this
                      (fun s => {| provider_ := provider_ o;
                                   node_ := node_ s |}) in
          match nth_error st other with
          | Some o =>
              Some (update st this
                      (fun s => {| provider_ := provider_ s;
                                   node_ := node_ o |}))
          | None => None
          end
      | None => None
      end
  | _, _ => None
  end.

(** [void swap(set& other)] *)
Definition swap (this other : nat) (st : store) : option store :=
  match nth_error st this, nth_error st other with
  | Some a, Some b =>
      let st := update st this
                  (fun s => {| provider_ := provider_ b; node_ := node_ s |})
      in
      let st := update st other
                  (fun s => {| provider_ := provider_ a; node_ := node_ s |})
      in
      let st := update st this
                  (fun s => {| provider_ := provider_ s; node_ := node_ b |})
      in
      Some (update st other
              (fun s => {| provider_ := provider_ s; node_ := node_ a |}))
  | _, _ => None
  end.

End Objects.

End CSet.

(** ** Map nodes and the map provider

    A map node holds its pair and [key_node_], the node of the same shape in
    the linked set provider; the state is the pair of the two intern
    tables. *)

Record map_provider (K T : Type) : Type := {
  mapped_hash : T -> Z;
  mapped_eq : T -> T -> bool;
  set_provider_ : set_provider K
}.

Module MapNode.

Section MapNode.

Context {K T : Type}.

Variable provider : map_provider K T.

Definition key_node : Type := node K set_fields.

Definition map_node : Type := node (K * T) key_node.

Record state : Type := {
  key_table : @SetNode.table K;
  table : @HashTable.hash_table (K * T) key_node
}.

#[local] Existing Instance SetNode.set_traits.

#[export] Instance map_traits : Traits K (K * T) key_node := {
  key_of := fst;
  priority_of := fun kn =>
    match kn with
    | null => 0
    | Node _ _ x _ _ _ => priority_ x
    end;
  size_of := fun kn => Internal.size kn
}.

(** [env.equal(const value_type&, const value_type&)] *)
Definition value_eq (lhs rhs : K * T) : bool :=
  key_eq (set_provider_ provider) (fst lhs) (fst rhs)
  && mapped_eq provider (snd lhs) (snd rhs).

(** [left ? left->key_node() : nullptr] *)
Definition key_node_of (p : map_node) : key_node :=
  match p with
  | null => null
  | Node _ _ kn _ _ _ => kn
  end.

(** Run a computation of the key set's environment [key_set_env_]. *)
Definition in_key_set_env {A} (c : M (@SetNode.table K) A) : M state A :=
  fun s => match c (key_table s) with
           | Some (a, t) => Some (a, {| key_table := t; table := table s |})
           | None => None
           end.

(** [node<Traits, map_tag>::create] *)
Definition create (value : K * T) (kn : key_node) (left right : map_node)
    (mapped_hash : Z) : M state map_node :=
  fun s =>
    match kn with
    | null => None
    | Node _ _ _ kh _ _ =>
        let h := hash_combine4 (Internal.hash left) (Internal.hash right)
                   mapped_hash kh in
        let p := Node (HashTable.fresh (table s)) value kn h left right in
        match HashTable.get_unique_node value_eq p (table s) with
        | Some (q, t) => Some (q, {| key_table := key_table s; table := t |})
        | None => None
        end
    end.

(** [make_node(env, value, key_node, left, right)] *)
Definition make_node_keyed (value : K * T) (kn : key_node)
    (left right : map_node) : M state map_node :=
  create value kn left right (Word.wrap (mapped_hash provider (snd value))).

(** [make_node(env, value, left, right)] *)
Definition make_node (value : K * T) (left right : map_node)
    : M state map_node :=
  kn <- in_key_set_env
          (SetNode.make_node (set_provider_ provider) (fst value)
             (key_node_of left) (key_node_of right)) ;;
  make_node_keyed value kn left right.

(** [make_node(env, parent, left, right)] *)
Definition make_node_parent (parent left right : map_node)
    : M state map_node :=
  match parent with
  | null => fail
  | Node _ v pk _ _ _ =>
      kn <- in_key_set_env
              (SetNode.make_node_parent (set_provider_ provider) pk
                 (key_node_of left) (key_node_of right)) ;;
      make_node_keyed v kn left right
  end.

#[export] Instance map_env : Env K (K * T) key_node state := {
  compare := key_comp (set_provider_ provider);
  equal := key_eq (set_provider_ provider);
  make_node_from := make_node_parent;
  make_node_value := fun v => make_node v null null
}.

(** [erase(env, p, key)] with a pair for [key]: [compare] reads the keys of
    the two pairs, [equal] their keys and their mapped values. *)
Fixpoint erase_value (p : map_node) (value : K * T)
    : M state (map_node * bool) :=
  match p with
  | null => ret (null, false)
  | Node _ v _ _ l r =>
      if key_comp (set_provider_ provider) (fst v) (fst value) then
        '(s1, s2) <- erase_value r value ;;
        if s2 then n <- Internal.replace_right p s1 ;; ret (n, true)
        else ret (p, false)
      else
        '(s1, s2) <- erase_value l value ;;
        if s2 then n <- Internal.replace_left p s1 ;; ret (n, true)
        else if negb (value_eq v value) then ret (p, true)
        else n <- Internal.join l r ;; ret (n, true)
  end.

(** [erase(env, node_ptr* p, key)] with a pair for [key]. *)
Definition erase_value_n (p : map_node) (value : K * T)
    : M state (Z * map_node) :=
  let n := Internal.size p in
  '(p, _) <- erase_value p value ;;
  ret (Word.sub n (Internal.size p), p).

(** [insert_or_assign_n] *)
Definition insert_or_assign_n (p q : map_node) : M state (bool * map_node) :=
  r <- Internal.set_union q p ;;
  ret (negb (Internal.ptr_eq r p), r).

(** [insert_or_assign(env, p, value)] *)
Definition insert_or_assign (p : map_node) (value : K * T)
    : M state (bool * map_node) :=
  q <- make_node value null null ;;
  insert_or_assign_n p q.

(** [insert_or_assign(env, p, first, last)] *)
Definition insert_or_assign_range (p : map_node) (first : list (K * T))
    : M state (bool * map_node) :=
  q <- Internal.make_node_range first ;;
  insert_or_assign_n p q.

(** [set_intersection(env, left, right)] of map.h: [left] is a tree of the
    map and [right] a tree of its key set. *)
Fixpoint set_intersection_keys_rec (fuel : nat) (left : map_node)
    (right : key_node) : M state map_node :=
  match fuel with
  | O => fail
  | S fuel =>
      if Internal.is_null left || Internal.is_null right then ret null
      else if Internal.ptr_eq (key_node_of left) right then ret left
      else
        match left, right with
        | Node _ lv _ _ ll lr, Node _ rv _ _ rl rr =>
            match Internal.rank
                    (En := SetNode.set_env (set_provider_ provider))
                    (key_node_of left) right with
            | LEFT =>
                '(s1, s2) <- in_key_set_env
                               (Internal.split
                                  (En := SetNode.set_env
                                           (set_provider_ provider))
                                  right (fst lv)) ;;
                a <- set_intersection_keys_rec fuel ll s1 ;;
                b <- set_intersection_keys_rec fuel lr s2 ;;
                Internal.join a b
            | RIGHT =>
                '(s1, s2) <- Internal.split left rv ;;
                a <- set_intersection_keys_rec fuel s1 rl ;;
                b <- set_intersection_keys_rec fuel s2 rr ;;
                Internal.join a b
            | _ =>
                a <- set_intersection_keys_rec fuel ll rl ;;
                b <- set_intersection_keys_rec fuel lr rr ;;
                make_node_parent left a b
            end
        | _, _ => fail
        end
  end.

Definition set_intersection_keys (left : map_node) (right : key_node)
    : M state map_node :=
  set_intersection_keys_rec (S (Internal.nodes left + Internal.nodes right))
    left right.

(** [set_difference(env, left, right)] of map.h. *)
Fixpoint set_difference_keys_rec (fuel : nat) (left : map_node)
    (right : key_node) : M state map_node :=
  match fuel with
  | O => fail
  | S fuel =>
      if Internal.is_null left
         || Internal.ptr_eq (key_node_of left) right then ret null
      else if Internal.is_null right then ret left
      else
        match left, right with
        | Node _ lv _ _ ll lr, Node _ rv _ _ rl rr =>
            match Internal.rank
                    (En := SetNode.set_env (set_provider_ provider))
                    (key_node_of left) right with
            | LEFT =>
                '(s1, s2) <- in_key_set_env
                               (Internal.split
                                  (En := SetNode.set_env
                                           (set_provider_ provider))
                                  right (fst lv)) ;;
                a <- set_difference_keys_rec fuel ll s1 ;;
                b <- set_difference_keys_rec fuel lr s2 ;;
                make_node_parent left a b
            | RIGHT =>
                '(s1, s2) <- Internal.split left rv ;;
                a <- set_difference_keys_rec fuel s1 rl ;;
                b <- set_difference_keys_rec fuel s2 rr ;;
                Internal.join a b
            | _ =>
                a <- set_difference_keys_rec fuel ll rl ;;
                b <- set_difference_keys_rec fuel lr rr ;;
                Internal.join a b
            end
        | _, _ => fail
        end
  end.

Definition set_difference_keys (left : map_node) (right : key_node)
    : M state map_node :=
  set_difference_keys_rec (S (Internal.nodes left + Internal.nodes right))
    left right.

(** [diff(env, p, q)] and [intersect(env, p, q)] of map.h. *)
Definition diff_keys (p : map_node) (q : key_node) : M state (Z * map_node) :=
  let n := Internal.size p in
  p <- set_difference_keys p q ;;
  ret (Word.sub n (Internal.size p), p).

Definition intersect_keys (p : map_node) (q : key_node)
    : M state (Z * map_node) :=
  let n := Internal.size p in
  p <- set_intersection_keys p q ;;
  ret (Word.sub n (Internal.size p), p).

End MapNode.

End MapNode.

(** ** The map container *)

Inductive exception : Type := out_of_range.

Module CMap.

Record map (K T : Type) : Type := {
  provider_ : nat;
  node_ : node (K * T) (node K set_fields)
}.

Section Methods.

Context {K T : Type}.

Variable provider : map_provider K T.

(** Identity of [provider_->set_provider()]. *)
Variable set_provider_id : nat.

#[local] Existing Instance MapNode.map_traits.
#[local] Instance env
  : Env K (K * T) (node K set_fields) (@MapNode.state K T) :=
  MapNode.map_env provider.

Local Notation "'state'" := (@MapNode.state K T).

Definition check (this other : map K T) : bool :=
  Nat.eqb (provider_ this) (provider_ other).

Definition with_node (this : map K T) (p : MapNode.map_node) : map K T :=
  {| provider_ := provider_ this; node_ := p |}.

Definition new (provider_id : nat) : map K T :=
  {| provider_ := provider_id; node_ := null |}.

(** [map::rank] *)
Definition rank (left right : @MapNode.map_node K T) : ranking :=
  match Internal.rank left right, left, right with
  | SAME, Node _ lv _ _ _ _, Node _ rv _ _ _ _ =>
      if negb (mapped_eq provider (snd lv) (snd rv)) then NOT_SAME else SAME
  | r, _, _ => r
  end.

Definition insert (this : map K T) (value : K * T) : M state (Z * map K T) :=
  '(n, p) <- Internal.insert (node_ this) value ;;
  ret (n, with_node this p).

Definition insert_or_assign (this : map K T) (value : K * T)
    : M state (bool * map K T) :=
  '(b, p) <- MapNode.insert_or_assign provider (node_ this) value ;;
  ret (b, with_node this p).

Definition erase (this : map K T) (key : K) : M state (Z * map K T) :=
  '(n, p) <- Internal.erase (node_ this) key ;;
  ret (n, with_node this p).

Definition insert_map (this other : map K T) : M state (Z * map K T) :=
  if check this other then
    '(n, p) <- Internal.add (node_ this) (node_ other) ;;
    ret (n, with_node this p)
  else fail.

Definition insert_or_assign_map (this other : map K T)
    : M state (bool * map K T) :=
  if check this other then
    '(b, p) <- MapNode.insert_or_assign_n provider (node_ this)
                 (node_ other) ;;
    ret (b, with_node this p)
  else fail.

Definition erase_map (this other : map K T) : M state (Z * map K T) :=
  if check this other then
    '(n, p) <- Internal.diff rank (node_ this) (node_ other) ;;
    ret (n, with_node this p)
  else fail.

Definition retain_map (this other : map K T) : M state (Z * map K T) :=
  if check this other then
    '(n, p) <- Internal.intersect rank (node_ this) (node_ other) ;;
    ret (n, with_node this p)
  else fail.

(** [operator|] *)
Definition union (this rhs : map K T) : M state (map K T) :=
  if check this rhs then
    p <- Internal.set_union (node_ this) (node_ rhs) ;;
    ret (with_node this p)
  else fail.

(** [operator&] on maps *)
Definition intersection (this rhs : map K T) : M state (map K T) :=
  if check this rhs then
    p <- Internal.set_intersection rank (node_ this) (node_ rhs) ;;
    ret (with_node this p)
  else fail.

(** [operator-] on maps *)
Definition difference (this rhs : map K T) : M state (map K T) :=
  if check this rhs then
    p <- Internal.set_difference rank (node_ this) (node_ rhs) ;;
    ret (with_node this p)
  else fail.

Definition includes (this other : map K T) : M state bool :=
  if check this other then
    Internal.includes rank (node_ this) (node_ other)
  else fail.

(** [operator|=], [operator&=] and [operator-=] on maps: the assertion is
    made once more by the method they call. *)
Definition union_assign (this rhs : map K T) : M state (map K T) :=
  if check this rhs then
    '(_, m) <- insert_map this rhs ;;
    ret m
  else fail.

Definition intersection_assign (this rhs : map K T) : M state (map K T) :=
  if check this rhs then
    '(_, m) <- retain_map this rhs ;;
    ret m
  else fail.

Definition difference_assign (this rhs : map K T) : M state (map K T) :=
  if check this rhs then
    '(_, m) <- erase_map this rhs ;;
    ret m
  else fail.

(** [check(const key_set_type&)] *)
Definition check_key_set (this : map K T) (other : CSet.set K) : bool :=
  Nat.eqb set_provider_id (CSet.provider_ other).

(** [map::erase(const key_set_type&)] *)
Definition erase_key_set (this : map K T) (other : CSet.set K)
    : M state (Z * map K T) :=
  if check_key_set this other then
    '(n, p) <- MapNode.diff_keys provider (node_ this) (CSet.node_ other) ;;
    ret (n, with_node this p)
  else fail.

(** [map::retain(const key_set_type&)] *)
Definition retain_key_set (this : map K T) (other : CSet.set K)
    : M state (Z * map K T) :=
  if check_key_set this other then
    '(n, p) <- MapNode.intersect_keys provider (node_ this)
                 (CSet.node_ other) ;;
    ret (n, with_node this p)
  else fail.

(** [operator&] and [operator-] with a key set *)
Definition intersection_key_set (this : map K T) (rhs : CSet.set K)
    : M state (map K T) :=
  if check_key_set this rhs then
    p <- MapNode.set_intersection_keys provider (node_ this)
           (CSet.node_ rhs) ;;
    ret (with_node this p)
  else fail.

Definition difference_key_set (this : map K T) (rhs : CSet.set K)
    : M state (map K T) :=
  if check_key_set this rhs then
    p <- MapNode.set_difference_keys provider (node_ this)
           (CSet.node_ rhs) ;;
    ret (with_node this p)
  else fail.

(** [operator&=] and [operator-=] with a key set *)
Definition intersection_key_set_assign (this : map K T) (rhs : CSet.set K)
    : M state (map K T) :=
  if check_key_set this rhs then
    '(_, m) <- retain_key_set this rhs ;;
    ret m
  else fail.

Definition difference_key_set_assign (this : map K T) (rhs : CSet.set K)
    : M state (map K T) :=
  if check_key_set this rhs then
    '(_, m) <- erase_key_set this rhs ;;
    ret m
  else fail.

Definition clear (this : map K T) : map K T :=
  if Internal.is_null (node_ this) then this else with_node this null.

(** [map::at]: the exception thrown, or the mapped value. *)
Definition at_ (this : map K T) (key : K) : exception + T :=
  match fst (Internal.lower_bound (node_ this)
          (fun v => key_comp (set_provider_ provider) (fst v) key)) with
  | null => inl out_of_range
  | Node _ v _ _ _ _ =>
      if negb (key_eq (set_provider_ provider) (fst v) key)
      then inl out_of_range
      else inr (snd v)
  end.

(** [map::insert(first, last)] *)
Definition insert_range (this : map K T) (first : list (K * T))
    : M state (Z * map K T) :=
  '(n, p) <- Internal.insert_range (node_ this) first ;;
  ret (n, with_node this p).

(** [map::insert_or_assign(first, last)] *)
Definition insert_or_assign_range (this : map K T) (first : list (K * T))
    : M state (bool * map K T) :=
  '(b, p) <- MapNode.insert_or_assign_range provider (node_ this) first ;;
  ret (b, with_node this p).

(** [operator=(std::initializer_list)] *)
Definition assign_list (this : map K T) (ilist : list (K * T))
    : M state (map K T) :=
  p <- Internal.assign ilist ;;
  ret (with_node this p).

(** [map::erase(const value_type&)] *)
Definition erase_value (this : map K T) (value : K * T)
    : M state (Z * map K T) :=
  '(n, p) <- MapNode.erase_value_n provider (node_ this) value ;;
  ret (n, with_node this p).

(** The assertions of [check(first, last)] on the positions of the two
    iterators. *)
Definition check_range (this : map K T) (first last : Z) : bool :=
  (0 <=? first) && (last <? Word.modulus)
  && (first <=? last) && (last <=? Internal.size (node_ this)).

(** [map::erase(iterator, iterator)] *)
Definition erase_range (this : map K T) (first last : Z)
    : M state (Z * map K T) :=
  if check_range this first last then
    '(n, p) <- Internal.erase_range (node_ this) first last ;;
    ret (n, with_node this p)
  else fail.

(** [map::retain(iterator, iterator)] *)
Definition retain_range (this : map K T) (first last : Z)
    : M state (Z * map K T) :=
  if check_range this first last then
    '(n, p) <- Internal.retain (node_ this) first last ;;
    ret (n, with_node this p)
  else fail.

(** [map(first, last, provider)] and [map(ilist, provider)] *)
Definition from_range (first : list (K * T)) (provider_id : nat)
    : M state (map K T) :=
  '(_, m) <- insert_range (new provider_id) first ;;
  ret m.

(** [map::count(key)]: the search runs in the key nodes. *)
Definition count (this : map K T) (key : K) : Z :=
  match fst (Internal.lower_bound (Tr := SetNode.set_traits)
               (MapNode.key_node_of (node_ this))
               (fun v => key_comp (set_provider_ provider) v key)) with
  | null => 0
  | Node _ v _ _ _ _ =>
      if key_eq (set_provider_ provider) v key then 1 else 0
  end.

(** [map::count(key, mapped)] *)
Definition count_pair (this : map K T) (key : K) (mapped : T) : Z :=
  match fst (Internal.lower_bound (node_ this)
               (fun v => key_comp (set_provider_ provider) (fst v) key)) with
  | null => 0
  | Node _ v _ _ _ _ =>
      if key_eq (set_provider_ provider) (fst v) key
         && mapped_eq provider (snd v) mapped
      then 1 else 0
  end.

Definition at_index (this : map K T) (k : Z) : option (K * T) :=
  match Internal.at_index (node_ this) k with
  | Some (Node _ v _ _ _ _) => Some v
  | _ => None
  end.

(** [begin], [end], [lower_bound], [upper_bound], [equal_range] and
    [find] *)
Local Notation "'iterator'" := (@Iter.iterator (K * T) (node K set_fields)).

Definition begin_ (this : map K T) : iterator := Iter.make 0 null.

Definition end_ (this : map K T) : iterator :=
  Iter.make (Internal.size (node_ this)) null.

Definition lower_bound (this : map K T) (key : K) : iterator :=
  Iter.of_bound
    (Internal.lower_bound (node_ this)
       (fun v => key_comp (set_provider_ provider) (fst v) key)).

Definition upper_bound (this : map K T) (key : K) : iterator :=
  Iter.of_bound
    (Internal.lower_bound (node_ this)
       (fun v => negb (key_comp (set_provider_ provider) key (fst v)))).

Definition equal_range (this : map K T) (key : K)
    : iterator * iterator :=
  (lower_bound this key, upper_bound this key).

Definition find (this : map K T) (key : K) : iterator :=
  let bound := Internal.lower_bound (node_ this)
                 (fun v => key_comp (set_provider_ provider) (fst v) key) in
  match fst bound with
  | Node _ v _ _ _ _ =>
      if key_eq (set_provider_ provider) (fst v) key
      then Iter.of_bound bound else end_ this
  | null => end_ this
  end.

Definition key_set (this : map K T) : CSet.set K :=
  {| CSet.provider_ := set_provider_id;
     CSet.node_ := MapNode.key_node_of (node_ this) |}.

Definition size (this : map K T) : Z := Internal.size (node_ this).

Definition hash (this : map K T) : Z := Internal.hash (node_ this).

(** [operator==] *)
Definition eq (this other : map K T) : bool :=
  Internal.ptr_eq (node_ this) (node_ other).

End Methods.

Section Objects.

Context {K T : Type}.

Definition store : Type := list (map K T).

Definition update (st : store) (i : nat) (f : map K T -> map K T) : store :=
  match nth_error st i with
  | Some s => firstn i st ++ f s :: skipn (S i) st
  | None => st
  end.

(** [map& operator=(const map& other)] *)
Definition assign (this other : nat) (st : store) : option store :=
  match nth_error st this, nth_error st other with
  | Some _, Some _ =>
      let st := update st this clear in
      match nth_error st other with
      | Some o =>
          let st := update st this
                      (fun s => {| provider_ := provider_ o;
                                   node_ := node_ s |}) in
          match nth_error st other with
          | Some o =>
              Some (update st this
                      (fun s => {| provider_ := provider_ s;
                                   node_ := node_ o |}))
          | None => None
          end
      | None => None
      end
  | _, _ => None
  end.

(** [void swap(map& other)] *)
Definition swap (this other : nat) (st : store) : option store :=
  match nth_error st this, nth_error st other with
  | Some a, Some b =>
      let st := update st this
                  (fun s => {| provider_ := provider_ b; node_ := node_ s |})
      in
      let st := update st other
                  (fun s => {| provider_ := provider_ a; node_ := node_ s |})
      in
      let st := update st this
                  (fun s => {| provider_ := provider_ s; node_ := node_ b |})
      in
      Some (update st other
              (fun s => {| provider_ := provider_ s; node_ := node_ a |}))
  | _, _ => None
  end.

End Objects.

End CMap.

(** ** Programs over the containers of one map provider

    A world holds the state of a map provider and of the set provider it
    extends, and the set and map objects of a program, named by their index.
    A command is one call of a public operation; a binary operator appends
    its result as a new object. *)

Module World.

Section World.

Context {K T : Type}.

Variable provider : map_provider K T.

(** Identities of the two provider objects. *)
Definition set_provider_id : nat := 0.
Definition map_provider_id : nat := 1.

Record world : Type := {
  state : @MapNode.state K T;
  sets : list (CSet.set K);
  maps : list (CMap.map K T)
}.

Definition init : world :=
  {| state := {| MapNode.key_table := []; MapNode.table := [] |};
     sets := []; maps := [] |}.

(** The public operations of [set] and [map] that build or change a
    container or a table.

    - [SNew], [MNew]: the constructor from a provider.
    - [SCopy], [MCopy]: the copy and the move constructor, which both copy
      the provider and the node pointer.
    - [SFromRange], [MFromRange]: the constructors from an input range and
      from an initializer list.
    - [SFromIterators], [MFromIterators]: the constructor from two
      iterators of a container.
    - [SInsertRange], [MInsertRange], [MInsertOrAssignRange]: [insert] and
      [insert_or_assign] of an input range or of an initializer list.
    - [SSwap], [MSwap]: [swap] and the move assignment, which swaps.
    - [SAssign], [MAssign]: the copy assignment; [SAssignList],
      [MAssignList]: the assignment of an initializer list.
    - [SClear], [MClear]: [clear], which the destructor calls.
    - [MEraseKeySet], [MRetainKeySet], [MIntersectionKeySet],
      [MDifferenceKeySet] and the two assigning forms: the merges of a
      map, at index [i] of the maps, with a key set, at index [j] of the
      sets.
    - [SIncludes], [MIncludes]: [includes], an observer whose splits may
      add nodes to the tables.

    The remaining observers ([find], the bounds, [at], [at_index],
    [count], [size], [hash], the comparisons and the iterators) read a
    container and leave the tables as they are; they are functions of
    [CSet], [CMap] and [Iter]. *)
Inductive command : Type :=
| SNew
| SCopy (i : nat)
| SFromRange (l : list K)
| SFromIterators (i : nat) (first last : Z)
| SInsert (i : nat) (v : K)
| SInsertRange (i : nat) (l : list K)
| SInsertSet (i j : nat)
| SErase (i : nat) (k : K)
| SEraseRange (i : nat) (first last : Z)
| SEraseSet (i j : nat)
| SRetainRange (i : nat) (first last : Z)
| SRetainSet (i j : nat)
| SClear (i : nat)
| SSwap (i j : nat)
| SAssign (i j : nat)
| SAssignList (i : nat) (l : list K)
| SUnion (i j : nat)
| SUnionAssign (i j : nat)
| SIntersection (i j : nat)
| SIntersectionAssign (i j : nat)
| SDifference (i j : nat)
| SDifferenceAssign (i j : nat)
| SSymmetric (i j : nat)
| SSymmetricAssign (i j : nat)
| MNew
| MCopy (i : nat)
| MInsert (i : nat) (v : K * T)
| MInsertMap (i j : nat)
| MInsertOrAssign (i : nat) (v : K * T)
| MInsertOrAssignMap (i j : nat)
| MErase (i : nat) (k : K)
| MEraseMap (i j : nat)
| MRetainMap (i j : nat)
| MClear (i : nat)
| MSwap (i j : nat)
| MAssign (i j : nat)
| MUnion (i j : nat)
| MIntersection (i j : nat)
| MDifference (i j : nat)
| MKeySet (i : nat)
| SIncludes (i j : nat)
| MFromRange (l : list (K * T))
| MFromIterators (i : nat) (first last : Z)
| MInsertRange (i : nat) (l : list (K * T))
| MInsertOrAssignRange (i : nat) (l : list (K * T))
| MAssignList (i : nat) (l : list (K * T))
| MEraseValue (i : nat) (v : K * T)
| MEraseRange (i : nat) (first last : Z)
| MRetainRange (i : nat) (first last : Z)
| MEraseKeySet (i j : nat)
| MRetainKeySet (i j : nat)
| MUnionAssign (i j : nat)
| MIntersectionAssign (i j : nat)
| MDifferenceAssign (i j : nat)
| MIntersectionKeySet (i j : nat)
| MDifferenceKeySet (i j : nat)
| MIntersectionKeySetAssign (i j : nat)
| MDifferenceKeySetAssign (i j : nat)
| MIncludes (i j : nat).

Local Notation "'sp'" := (set_provider_ provider).

(** Run a set operation in the environment of the set provider and store
    the set it returns at index [i] ([None]: append it). *)
Definition set_step {A} (w : world) (i : option nat)
    (c : M (@SetNode.table K) (A * CSet.set K)) : option world :=
  match MapNode.in_key_set_env c (state w) with
  | Some ((_, s), st) =>
      Some {| state := st;
              sets := match i with
                      | Some i => CSet.update (sets w) i (fun _ => s)
                      | None => sets w ++ [s]
                      end;
              maps := maps w |}
  | None => None
  end.

Definition map_step {A} (w : world) (i : option nat)
    (c : M (@MapNode.state K T) (A * CMap.map K T)) : option world :=
  match c (state w) with
  | Some ((_, m), st) =>
      Some {| state := st;
              sets := sets w;
              maps := match i with
                      | Some i => CMap.update (maps w) i (fun _ => m)
                      | None => maps w ++ [m]
                      end |}
  | None => None
  end.

Definition with_sets (w : world) (l : list (CSet.set K)) : world :=
  {| state := state w; sets := l; maps := maps w |}.

Definition with_maps (w : world) (l : list (CMap.map K T)) : world :=
  {| state := state w; sets := sets w; maps := l |}.

(** Tag the result of an operator with a unit in place of a count. *)
Definition unit_of {St A} (c : M St A) : M St (unit * A) :=
  a <- c ;; ret (tt, a).

(** An observer that runs in the tables: the object it is called on is
    stored back unchanged, with what the call returned. *)
Definition observed {St A B} (c : M St A) (this : B) : M St (A * B) :=
  a <- c ;; ret (a, this).

Definition exec (c : command) (w : world) : option world :=
  let set_at i := nth_error (sets w) i in
  let map_at i := nth_error (maps w) i in
  let set1 i (f : CSet.set K -> option world) :=
    match set_at i with Some a => f a | None => None end in
  let set2 i j (f : CSet.set K -> CSet.set K -> option world) :=
    match set_at i, set_at j with
    | Some a, Some b => f a b
    | _, _ => None
    end in
  let map1 i (f : CMap.map K T -> option world) :=
    match map_at i with Some a => f a | None => None end in
  let map2 i j (f : CMap.map K T -> CMap.map K T -> option world) :=
    match map_at i, map_at j with
    | Some a, Some b => f a b
    | _, _ => None
    end in
  let map_set i j (f : CMap.map K T -> CSet.set K -> option world) :=
    match map_at i, set_at j with
    | Some a, Some b => f a b
    | _, _ => None
    end in
  match c with
  | SNew => Some (with_sets w (sets w ++ [CSet.new set_provider_id]))
  | SCopy i => set1 i (fun a => Some (with_sets w (sets w ++ [a])))
  | SFromRange l =>
      set_step w None (unit_of (CSet.from_range sp l set_provider_id))
  | SFromIterators i first last =>
      set1 i (fun a => set_step w None (CSet.retain_range sp a first last))
  | SInsert i v => set1 i (fun a => set_step w (Some i) (CSet.insert sp a v))
  | SInsertRange i l =>
      set1 i (fun a => set_step w (Some i) (CSet.insert_range sp a l))
  | SInsertSet i j =>
      set2 i j (fun a b => set_step w (Some i) (CSet.insert_set sp a b))
  | SErase i k => set1 i (fun a => set_step w (Some i) (CSet.erase sp a k))
  | SEraseRange i first last =>
      set1 i (fun a =>
                set_step w (Some i) (CSet.erase_range sp a first last))
  | SEraseSet i j =>
      set2 i j (fun a b => set_step w (Some i) (CSet.erase_set sp a b))
  | SRetainRange i first last =>
      set1 i (fun a =>
                set_step w (Some i) (CSet.retain_range sp a first last))
  | SRetainSet i j =>
      set2 i j (fun a b => set_step w (Some i) (CSet.retain_set sp a b))
  | SClear i =>
      set1 i (fun a =>
                Some (with_sets w (CSet.update (sets w) i CSet.clear)))
  | SSwap i j => option_map (with_sets w) (CSet.swap i j (sets w))
  | SAssign i j => option_map (with_sets w) (CSet.assign i j (sets w))
  | SAssignList i l =>
      set1 i (fun a =>
                set_step w (Some i) (unit_of (CSet.assign_list sp a l)))
  | SUnion i j =>
      set2 i j (fun a b => set_step w None (unit_of (CSet.union sp a b)))
  | SUnionAssign i j =>
      set2 i j (fun a b =>
                  set_step w (Some i) (unit_of (CSet.union_assign sp a b)))
  | SIntersection i j =>
      set2 i j (fun a b =>
                  set_step w None (unit_of (CSet.intersection sp a b)))
  | SIntersectionAssign i j =>
      set2 i j (fun a b =>
                  set_step w (Some i)
                    (unit_of (CSet.intersection_assign sp a b)))
  | SDifference i j =>
      set2 i j (fun a b =>
                  set_step w None (unit_of (CSet.difference sp a b)))
  | SDifferenceAssign i j =>
      set2 i j (fun a b =>
                  set_step w (Some i)
                    (unit_of (CSet.difference_assign sp a b)))
  | SSymmetric i j =>
      set2 i j (fun a b =>
                  set_step w None (unit_of (CSet.symmetric sp a b)))
  | SSymmetricAssign i j =>
      set2 i j (fun a b =>
                  set_step w (Some i)
                    (unit_of (CSet.symmetric_assign sp a b)))
  | MNew => Some (with_maps w (maps w ++ [CMap.new map_provider_id]))
  | MCopy i => map1 i (fun a => Some (with_maps w (maps w ++ [a])))
  | MInsert i v =>
      map1 i (fun a => map_step w (Some i) (CMap.insert provider a v))
  | MInsertMap i j =>
      map2 i j (fun a b =>
                  map_step w (Some i) (CMap.insert_map provider a b))
  | MInsertOrAssign i v =>
      map1 i (fun a =>
                map_step w (Some i) (CMap.insert_or_assign provider a v))
  | MInsertOrAssignMap i j =>
      map2 i j (fun a b =>
                  map_step w (Some i)
                    (CMap.insert_or_assign_map provider a b))
  | MErase i k =>
      map1 i (fun a => map_step w (Some i) (CMap.erase provider a k))
  | MEraseMap i j =>
      map2 i j (fun a b => map_step w (Some i) (CMap.erase_map provider a b))
  | MRetainMap i j =>
      map2 i j (fun a b =>
                  map_step w (Some i) (CMap.retain_map provider a b))
  | MClear i =>
      map1 i (fun a =>
                Some (with_maps w (CMap.update (maps w) i CMap.clear)))
  | MSwap i j => option_map (with_maps w) (CMap.swap i j (maps w))
  | MAssign i j => option_map (with_maps w) (CMap.assign i j (maps w))
  | MUnion i j =>
      map2 i j (fun a b => map_step w None (unit_of (CMap.union provider a b)))
  | MIntersection i j =>
      map2 i j (fun a b =>
                  map_step w None (unit_of (CMap.intersection provider a b)))
  | MDifference i j =>
      map2 i j (fun a b =>
                  map_step w None (unit_of (CMap.difference provider a b)))
  | MKeySet i =>
      map1 i (fun a =>
                Some (with_sets w
                        (sets w ++ [CMap.key_set set_provider_id a])))
  | SIncludes i j =>
      set2 i j (fun a b =>
                  set_step w (Some i) (observed (CSet.includes sp a b) a))
  | MFromRange l =>
      map_step w None (unit_of (CMap.from_range provider l map_provider_id))
  | MFromIterators i first last =>
      map1 i (fun a =>
                map_step w None (CMap.retain_range provider a first last))
  | MInsertRange i l =>
      map1 i (fun a => map_step w (Some i) (CMap.insert_range provider a l))
  | MInsertOrAssignRange i l =>
      map1 i (fun a =>
                map_step w (Some i)
                  (CMap.insert_or_assign_range provider a l))
  | MAssignList i l =>
      map1 i (fun a =>
                map_step w (Some i)
                  (unit_of (CMap.assign_list provider a l)))
  | MEraseValue i v =>
      map1 i (fun a => map_step w (Some i) (CMap.erase_value provider a v))
  | MEraseRange i first last =>
      map1 i (fun a =>
                map_step w (Some i)
                  (CMap.erase_range provider a first last))
  | MRetainRange i first last =>
      map1 i (fun a =>
                map_step w (Some i)
                  (CMap.retain_range provider a first last))
  | MEraseKeySet i j =>
      map_set i j (fun a b =>
                     map_step w (Some i)
                       (CMap.erase_key_set provider set_provider_id a b))
  | MRetainKeySet i j =>
      map_set i j (fun a b =>
                     map_step w (Some i)
                       (CMap.retain_key_set provider set_provider_id a b))
  | MUnionAssign i j =>
      map2 i j (fun a b =>
                  map_step w (Some i)
                    (unit_of (CMap.union_assign provider a b)))
  | MIntersectionAssign i j =>
      map2 i j (fun a b =>
                  map_step w (Some i)
                    (unit_of (CMap.intersection_assign provider a b)))
  | MDifferenceAssign i j =>
      map2 i j (fun a b =>
                  map_step w (Some i)
                    (unit_of (CMap.difference_assign provider a b)))
  | MIntersectionKeySet i j =>
      map_set i j (fun a b =>
                     map_step w None
                       (unit_of (CMap.intersection_key_set provider
                                   set_provider_id a b)))
  | MDifferenceKeySet i j =>
      map_set i j (fun a b =>
                     map_step w None
                       (unit_of (CMap.difference_key_set provider
                                   set_provider_id a b)))
  | MIntersectionKeySetAssign i j =>
      map_set i j (fun a b =>
                     map_step w (Some i)
                       (unit_of (CMap.intersection_key_set_assign provider
                                   set_provider_id a b)))
  | MDifferenceKeySetAssign i j =>
      map_set i j (fun a b =>
                     map_step w (Some i)
                       (unit_of (CMap.difference_key_set_assign provider
                                   set_provider_id a b)))
  | MIncludes i j =>
      map2 i j (fun a b =>
                  map_step w (Some i)
                    (observed (CMap.includes provider a b) a))
  end.

Fixpoint run (prog : list command) (w : world) : option world :=
  match prog with
  | [] => Some w
  | c :: prog =>
      match exec c w with
      | Some w => run prog w
      | None => None
      end
  end.

End World.

End World.

(** ** Specification vocabulary

    Contents of a tree, the order [(priority, key)] that [rank] decides, the
    shape invariants I1 and I2, and what the algorithms assume of the
    provider's functors and of the store of nodes. *)

Module Spec.

Section Spec.

Context {K V X St : Type} {Tr : Traits K V X} {En : Env K V X St}.

(** The priority of a node as a function of its key. *)
Variable prio : K -> Z.

(** In-order traversal. *)
Fixpoint elems (t : node V X) : list V :=
  match t with
  | null => []
  | Node _ v _ _ l r => elems l ++ v :: elems r
  end.

Definition keys (t : node V X) : list K := map key_of (elems t).

(** The tree holds an element with key [k]. *)
Definition has_key (t : node V X) (k : K) : Prop :=
  exists z, In z (elems t) /\ key_of z = k.

(** [beforeb k1 k2]: a node with key [k1] ranks [LEFT] of one with key
    [k2]. *)
Definition beforeb (k1 k2 : K) : bool :=
  (prio k1 <? prio k2) || ((prio k1 =? prio k2) && compare k1 k2).

Definition rank_keys (k1 k2 : K) : ranking :=
  if prio k1 <? prio k2 then LEFT
  else if prio k2 <? prio k1 then RIGHT
  else if compare k1 k2 then LEFT
  else if compare k2 k1 then RIGHT
  else SAME.

(** I1 (search order on keys) and I2 (the root ranks [LEFT] of every node
    below it), at every node. *)
Fixpoint treap (t : node V X) : Prop :=
  match t with
  | null => True
  | Node _ v _ _ l r =>
      treap l /\ treap r
      /\ (forall x, In x (elems l) -> compare (key_of x) (key_of v) = true)
      /\ (forall x, In x (elems r) -> compare (key_of v) (key_of x) = true)
      /\ (forall x, In x (elems l) -> beforeb (key_of v) (key_of x) = true)
      /\ (forall x, In x (elems r) -> beforeb (key_of v) (key_of x) = true)
  end.

(** I2 as the spec words it: at every node the priority is at most the
    priority of each child, and the node ranks [LEFT] of each child. *)
Definition child_ok (parent child : node V X) : Prop :=
  child = null
  \/ (Internal.priority parent <= Internal.priority child
      /\ Internal.rank parent child = LEFT).

Fixpoint heap_ordered (t : node V X) : Prop :=
  match t with
  | null => True
  | Node _ _ _ _ l r =>
      child_ok t l /\ child_ok t r /\ heap_ordered l /\ heap_ordered r
  end.

(** I1 as the spec words it: the in-order traversal ascends. *)
Definition ascending (t : node V X) : Prop :=
  StronglySorted (fun x y => compare (key_of x) (key_of y) = true) (elems t).

(** A comparer that holds on a lower part of the order, as the ones
    [lower_bound] is called with. *)
Definition lower_part (cmp : V -> bool) : Prop :=
  forall x y, compare (key_of x) (key_of y) = true ->
              cmp y = true -> cmp x = true.

(** The positions a walk passes stay between the beginning and the end of
    a container of [size] elements. *)
Definition offset (m : Iter.step) : Z :=
  match m with
  | Iter.Increment => 1
  | Iter.Decrement => -1
  | Iter.Plus k => k
  | Iter.Minus k => - k
  end.

Fixpoint in_range (size pos : Z) (ms : list Iter.step) : Prop :=
  match ms with
  | [] => True
  | m :: ms =>
      0 <= pos + offset m <= size /\ in_range size (pos + offset m) ms
  end.

Fixpoint destination (pos : Z) (ms : list Iter.step) : Z :=
  match ms with
  | [] => pos
  | m :: ms => destination (pos + offset m) ms
  end.

(** The result of a look-up with its stack on top of [acc]. *)
Definition pushed (acc : list (node V X))
    (r : option (node V X * list (node V X)))
    : option (node V X * list (node V X)) :=
  match r with
  | Some (n, st) => Some (n, st ++ acc)
  | None => None
  end.

(** The iterator is at a position of the tree under [root] or at its end;
    the node it holds, if any, is the node at the position; its stack, if
    not empty, is the one a look-up from the root builds. *)
Definition iter_ok (root : node V X) (it : Iter.iterator) : Prop :=
  0 <= Iter.pos_ it <= Internal.size root
  /\ (Iter.node_ it = null
      \/ Internal.at_index_loop root (Iter.pos_ it) = Some (Iter.node_ it))
  /\ (Iter.stack_ it = []
      \/ (if Iter.decrementing_ it
          then Iter.seek_decrementing root (Iter.pos_ it) []
          else Iter.seek_incrementing root (Iter.pos_ it) [])
         = Some (Iter.node_ it, Iter.stack_ it)).

(** A ranker that refines [rank]: nodes that rank [SAME] are [NOT_SAME]
    unless their values agree ([map::rank] with the mapped equality;
    [internal::rank] itself when every two values agree). *)
Definition rank_with (same : V -> V -> bool) (left right : node V X)
    : ranking :=
  match Internal.rank left right, left, right with
  | SAME, Node _ lv _ _ _ _, Node _ rv _ _ _ _ =>
      if same lv rv then SAME else NOT_SAME
  | r, _, _ => r
  end.

(** The tree holds an element with the key of [y] that agrees with [y]. *)
Definition agrees (same : V -> V -> bool) (y : V) (t : node V X) : Prop :=
  exists z, In z (elems t) /\ key_of z = key_of y /\ same y z = true.

(** Every element of [q] has an element of [p] that agrees with it. *)
Definition covers (same : V -> V -> bool) (p q : node V X) : Prop :=
  forall z, In z (elems q) ->
    exists y, In y (elems p) /\ key_of y = key_of z /\ same y z = true.

(** [y] is the first element of [l] with its key. *)
Definition first_of (l : list V) (y : V) : Prop :=
  exists l1 l2, l = l1 ++ y :: l2
                /\ forall z, In z l1 -> key_of z <> key_of y.

(** The functors are a strict total order and the equality that goes with
    it. *)
Record order_ok : Prop := {
  compare_irrefl : forall x, compare x x = false;
  compare_trans : forall x y z,
    compare x y = true -> compare y z = true -> compare x z = true;
  compare_total : forall x y,
    compare x y = false -> compare y x = false -> x = y;
  equal_spec : forall x y, equal x y = true <-> x = y
}.

(** What the algorithms rely on of the node store: [Inv] is the invariant of
    the state, [live s p] says that [p] is null or a node of the store. *)
Record store_ok (Inv : St -> Prop) (live : St -> node V X -> Prop)
    : Prop := {
  live_null : forall s, live s null;
  live_children : forall s a v x h l r,
    Inv s -> live s (Node a v x h l r) -> live s l /\ live s r;
  live_fields : forall s a v x h l r,
    Inv s -> live s (Node a v x h l r) ->
    priority_of x = prio (key_of v)
    /\ size_of x = 1 + Internal.size l + Internal.size r
    /\ a <> O;
  live_address : forall s p q,
    Inv s -> live s p -> live s q ->
    Internal.address p = Internal.address q -> p = q;
  live_unique : forall s a v x h l r a' x' h',
    Inv s -> live s (Node a v x h l r) -> live s (Node a' v x' h' l r) ->
    Node a v x h l r = Node a' v x' h' l r;
  make_node_from_ok : forall s a v x h l0 r0 l r,
    Inv s -> live s (Node a v x h l0 r0) -> live s l -> live s r ->
    exists a' x' h' s',
      make_node_from (Node a v x h l0 r0) l r s
        = Some (Node a' v x' h' l r, s')
      /\ Inv s' /\ (forall q, live s q -> live s' q)
      /\ live s' (Node a' v x' h' l r);
  make_node_value_ok : forall s v,
    Inv s ->
    exists a' x' h' s',
      make_node_value v s = Some (Node a' v x' h' null null, s')
      /\ Inv s' /\ (forall q, live s q -> live s' q)
      /\ live s' (Node a' v x' h' null null)
}.

(** What a call of [make_node(env, first, last, depth)] returns: a treap of
    the elements it consumed, and either the input is used up or more than
    [depth] elements were consumed. *)
Definition range_post (live : St -> node V X -> Prop) (first : list V)
    (depth : Z) (nr : node V X * list V) (s' : St) : Prop :=
  live s' (fst nr) /\ treap (fst nr)
  /\ exists used,
       first = used ++ snd nr
       /\ (forall y, In y (elems (fst nr)) <-> first_of used y)
       /\ (fst nr = null -> first = [])
       /\ (snd nr = [] \/ depth < Z.of_nat (length used)).

(** A computation started in [s] returns, keeps the invariant and the live
    nodes, and its result satisfies [Q]. *)
Definition returns {A} (Inv : St -> Prop) (live : St -> node V X -> Prop)
    (c : M St A) (s : St) (Q : A -> St -> Prop) : Prop :=
  exists a s',
    c s = Some (a, s') /\ Inv s'
    /\ (forall q, live s q -> live s' q) /\ Q a s'.

End Spec.

End Spec.

(** ** Invariants of the intern tables *)

Module TableSpec.

Section TableSpec.

Context {V X : Type}.

Variable equal_value : V -> V -> bool.

(** What the fields of a node of this table satisfy. *)
Variable fields_ok : node V X -> Prop.

(** A pointer is live: null, or the address of a node of the table. *)
Definition live (t : @HashTable.hash_table V X) (p : node V X) : Prop :=
  p = null \/ In p t.

(** The nodes are at distinct addresses, their children are live, their
    fields are as [create] computed them, and no two of them match (I4). *)
Record table_inv (t : @HashTable.hash_table V X) : Prop := {
  inv_address : forall i n,
    nth_error t i = Some n -> Internal.address n = S i;
  inv_children : forall a v x h l r,
    In (Node a v x h l r) t -> live t l /\ live t r;
  inv_fields : forall n, In n t -> fields_ok n;
  inv_unique : forall p q,
    In p t -> In q t -> HashTable.matches equal_value p q = true -> p = q
}.

End TableSpec.

End TableSpec.

Module SetSpec.

Section SetSpec.

Context {T : Type}.

Variable provider : set_provider T.

#[local] Existing Instance SetNode.set_traits.

(** [intmix(env.hash(value))] *)
Definition prio (k : T) : Z := intmix (Word.wrap (key_hash provider k)).

(** I3 for a set node, and the priority [make_node] gave it. *)
Definition fields_ok (n : node T set_fields) : Prop :=
  match n with
  | null => True
  | Node _ v x h l r =>
      priority_ x = prio v
      /\ size_ x = 1 + Internal.size l + Internal.size r
      /\ h = hash_combine3 (Internal.hash l) (Internal.hash r) (priority_ x)
  end.

(** I3 at every node below a pointer: the hash is the combination of the
    children's hashes and the priority. *)
Fixpoint hashed (n : node T set_fields) : Prop :=
  match n with
  | null => True
  | Node _ _ x h l r =>
      h = hash_combine3 (Internal.hash l) (Internal.hash r) (priority_ x)
      /\ hashed l /\ hashed r
  end.

Definition Inv (t : @SetNode.table T) : Prop :=
  TableSpec.table_inv (key_eq provider) fields_ok t.

Definition live (t : @SetNode.table T) (p : node T set_fields) : Prop :=
  TableSpec.live t p.

(** The provider's functors are a strict total order with its equality. *)
Definition provider_ok : Prop :=
  @Spec.order_ok T T set_fields (@SetNode.table T) (SetNode.set_env provider).

Definition treap (p : node T set_fields) : Prop :=
  @Spec.treap T T set_fields (@SetNode.table T) SetNode.set_traits
    (SetNode.set_env provider) prio p.

(** I1 and I2 as the specification words them, for a set tree. *)
Definition shape (p : node T set_fields) : Prop :=
  @Spec.ascending T T set_fields (@SetNode.table T) SetNode.set_traits
    (SetNode.set_env provider) p
  /\ @Spec.heap_ordered T T set_fields (@SetNode.table T) SetNode.set_traits
       (SetNode.set_env provider) p.

(** A set object of the provider with identity [id], in table [t]. *)
Definition valid (id : nat) (t : @SetNode.table T) (s : CSet.set T) : Prop :=
  CSet.provider_ s = id /\ live t (CSet.node_ s) /\ treap (CSet.node_ s).

End SetSpec.

End SetSpec.

Module MapSpec.

Section MapSpec.

Context {K T : Type}.

Variable provider : map_provider K T.

#[local] Existing Instance SetNode.set_traits.
#[local] Existing Instance MapNode.map_traits.

Definition prio (k : K) : Z := SetSpec.prio (set_provider_ provider) k.

(** I5 and the hash of a map node: the key node is a live node of the key
    table holding the key, over the key nodes of the children. *)
Definition fields_ok (kt : @SetNode.table K)
    (n : node (K * T) (node K set_fields)) : Prop :=
  match n with
  | null => True
  | Node _ v kn h l r =>
      In kn kt
      /\ (exists a x kh,
            kn = Node a (fst v) x kh (MapNode.key_node_of l)
                   (MapNode.key_node_of r))
      /\ h = hash_combine4 (Internal.hash l) (Internal.hash r)
               (Word.wrap (mapped_hash provider (snd v))) (Internal.hash kn)
  end.

Definition Inv (s : @MapNode.state K T) : Prop :=
  SetSpec.Inv (set_provider_ provider) (MapNode.key_table s)
  /\ TableSpec.table_inv (MapNode.value_eq provider)
       (fields_ok (MapNode.key_table s)) (MapNode.table s).

Definition live (s : @MapNode.state K T)
    (p : node (K * T) (node K set_fields)) : Prop :=
  TableSpec.live (MapNode.table s) p.

(** The functors of the key set and the mapped equality. *)
Definition provider_ok : Prop :=
  SetSpec.provider_ok (set_provider_ provider)
  /\ (forall x y, mapped_eq provider x y = true <-> x = y).

Definition treap (p : node (K * T) (node K set_fields)) : Prop :=
  @Spec.treap K (K * T) (node K set_fields) (@MapNode.state K T)
    MapNode.map_traits (MapNode.map_env provider) prio p.

(** The hash at every node below a pointer: the combination of the
    children's hashes, the hash of the mapped value and the hash of the key
    node. *)
Fixpoint hashed (n : node (K * T) (node K set_fields)) : Prop :=
  match n with
  | null => True
  | Node _ v kn h l r =>
      h = hash_combine4 (Internal.hash l) (Internal.hash r)
            (Word.wrap (mapped_hash provider (snd v))) (Internal.hash kn)
      /\ hashed l /\ hashed r
  end.

(** I1 and I2 as the specification words them, for a map tree. *)
Definition shape (p : node (K * T) (node K set_fields)) : Prop :=
  @Spec.ascending K (K * T) (node K set_fields) (@MapNode.state K T)
    MapNode.map_traits (MapNode.map_env provider) p
  /\ @Spec.heap_ordered K (K * T) (node K set_fields) (@MapNode.state K T)
       MapNode.map_traits (MapNode.map_env provider) p.

(** The invariant, with the nodes of a key table [k0] kept live. *)
Definition Inv_from (k0 : @SetNode.table K) (s : @MapNode.state K T)
    : Prop :=
  Inv s
  /\ forall q, SetSpec.live k0 q -> SetSpec.live (MapNode.key_table s) q.

(** A map object of the provider with identity [id], in state [s]. *)
Definition valid (id : nat) (s : @MapNode.state K T) (m : CMap.map K T)
    : Prop :=
  CMap.provider_ m = id /\ live s (CMap.node_ m) /\ treap (CMap.node_ m).

(** A computation over the two tables returns, keeps the invariant and
    keeps live every node of both tables it started from. *)
Definition returns {A} (c : M (@MapNode.state K T) A)
    (s : @MapNode.state K T) (Q : A -> @MapNode.state K T -> Prop) : Prop :=
  Spec.returns (Inv_from (MapNode.key_table s)) live c s Q.

End MapSpec.

End MapSpec.

Module WorldSpec.

Section WorldSpec.

Context {K T : Type}.

Variable provider : map_provider K T.

(** Every object of the world is a container of its provider over a treap
    of live nodes. *)
Definition ok (w : @World.world K T) : Prop :=
  MapSpec.Inv provider (World.state w)
  /\ Forall (SetSpec.valid (set_provider_ provider) World.set_provider_id
              (MapNode.key_table (World.state w))) (World.sets w)
  /\ Forall (MapSpec.valid provider World.map_provider_id (World.state w))
       (World.maps w).

(** The worlds a program of public operations leads to. *)
Definition reachable (w : @World.world K T) : Prop :=
  exists prog, World.run provider prog World.init = Some w.

End WorldSpec.

End WorldSpec.

(** ** A program over integer keys

    The providers of [set<int>] and [map<int, int>] with the default
    functors [std::less], [std::hash] (the identity on integers) and
    [std::equal_to], a program that builds three sets and a map, and a
    second program that goes on to build and merge further maps. *)

Module Demo.

Definition set_of_int : set_provider Z := {|
  key_comp := Z.ltb;
  key_hash := fun z => z;
  key_eq := Z.eqb
|}.

Definition map_of_int : map_provider Z Z := {|
  mapped_hash := fun z => z;
  mapped_eq := Z.eqb;
  set_provider_ := set_of_int
|}.

Definition program : list (@World.command Z Z) :=
  [ World.SFromRange [1; 3; 5; 7];
    World.SFromRange [5; 4; 3];
    World.SFromRange [9; 5];
    World.SNew;
    World.SInsert 3 4;
    World.SInsert 3 3;
    World.SInsert 3 5;
    World.MNew;
    World.MInsert 0 (1, 10);
    World.MInsert 0 (2, 20);
    World.MInsertOrAssign 0 (2, 21);
    World.MInsert 0 (7, 70);
    World.MErase 0 7 ].

Definition world : @World.world Z Z :=
  Eval vm_compute in
    match World.run map_of_int program World.init with
    | Some w => w
    | None => World.init
    end.

Definition set_at (i : nat) : CSet.set Z :=
  nth i (World.sets world) (CSet.new World.set_provider_id).

Definition map_at (i : nat) : CMap.map Z Z :=
  nth i (World.maps world) (CMap.new World.map_provider_id).

(** Two set objects of different providers. *)
Definition objects : @CSet.store Z :=
  [ {| CSet.provider_ := 0; CSet.node_ := CSet.node_ (set_at 0) |};
    {| CSet.provider_ := 5; CSet.node_ := null |} ].

(** A second program: the first one, then maps built from ranges, the
    merges of two maps, the merges of a map with a key set, and the updates
    by a range, by a pair and by two iterators. *)
Definition merge_program : list (@World.command Z Z) :=
  program ++
  [ World.MFromRange [(2, 20); (3, 30)];
    World.MFromRange [(2, 21); (1, 10)];
    World.MFromRange [(1, 10)];
    World.MFromRange [(2, 20)];
    World.MUnion 0 1;
    World.MUnion 1 0;
    World.MKeySet 0;
    World.MIntersectionKeySet 1 4;
    World.MDifferenceKeySet 1 4;
    World.MCopy 5;
    World.MEraseKeySet 9 4;
    World.MCopy 5;
    World.MRetainKeySet 10 0;
    World.MCopy 6;
    World.MIntersectionKeySetAssign 11 1;
    World.MCopy 6;
    World.MDifferenceKeySetAssign 12 1;
    World.MCopy 1;
    World.MInsertRange 13 [(4, 40); (2, 99)];
    World.MInsertOrAssignRange 13 [(2, 22)];
    World.MEraseValue 13 (3, 31);
    World.MEraseValue 13 (3, 30);
    World.MCopy 5;
    World.MEraseRange 14 0 1;
    World.MFromIterators 5 1 3;
    World.MCopy 5;
    World.MRetainRange 16 0 2;
    World.MCopy 0;
    World.MUnionAssign 17 1;
    World.MCopy 0;
    World.MIntersectionAssign 18 2;
    World.MCopy 0;
    World.MDifferenceAssign 19 3;
    World.MCopy 0;
    World.MAssignList 20 [(3, 30); (2, 20)];
    World.MIncludes 0 3;
    World.SIncludes 0 1 ].

Definition merge_world : @World.world Z Z :=
  Eval vm_compute in
    match World.run map_of_int merge_program World.init with
    | Some w => w
    | None => World.init
    end.

Definition merged_set (i : nat) : CSet.set Z :=
  nth i (World.sets merge_world) (CSet.new World.set_provider_id).

Definition merged_map (i : nat) : CMap.map Z Z :=
  nth i (World.maps merge_world) (CMap.new World.map_provider_id).

End Demo.

(** * Machine words *)

Unset Implicit Arguments.

Module WordFacts.

Lemma modulus_eq : Word.modulus = 18446744073709551616.
Proof. reflexivity. Qed.

Lemma wrap_small z : 0 <= z < Word.modulus -> Word.wrap z = z.
Proof. intros H. unfold Word.wrap. apply Z.mod_small. exact H. Qed.

Lemma wrap_range z : 0 <= Word.wrap z < Word.modulus.
Proof.
  unfold Word.wrap. apply Z.mod_pos_bound. rewrite modulus_eq. lia.
Qed.

Lemma sub_small a b :
  0 <= b <= a -> a < Word.modulus -> Word.sub a b = a - b.
Proof. intros H1 H2. unfold Word.sub. apply wrap_small. lia. Qed.

Lemma add_small a b :
  0 <= a -> 0 <= b -> a + b < Word.modulus -> Word.add a b = a + b.
Proof. intros H1 H2 H3. unfold Word.add. apply wrap_small. lia. Qed.

(** [hash_combine] with the one reduction at the end. *)
Lemma hash_combine_spec h1 h2 :
  hash_combine h1 h2
  = Z.lxor h1
      ((h2 + 0x9e3779b9 + Z.shiftl h1 6 + Z.shiftr h1 2) mod 2 ^ 64).
Proof.
  unfold hash_combine, Word.xor, Word.add, Word.shl, Word.shr, Word.wrap,
    Word.modulus, Word.width.
  rewrite <- Z.add_mod by lia. rewrite Z.add_mod_idemp_l by lia.
  reflexivity.
Qed.

End WordFacts.

Set Implicit Arguments.
(** * Facts about treaps *)

Module Facts.

Import Spec.

Section Pure.

Context {K V X St : Type} {Tr : Traits K V X} {En : Env K V X St}.

Variable prio : K -> Z.

Hypothesis Hord : order_ok.

Local Notation "'nodeptr'" := (node V X).
Local Notation "'treap'" := (treap prio).
Local Notation "'beforeb'" := (beforeb prio).
Local Notation "'rank_keys'" := (rank_keys prio).

Lemma compare_asym x y : compare x y = true -> compare y x = false.
Proof.
  intros H. destruct (compare y x) eqn:E; [|reflexivity].
  rewrite <- (compare_irrefl Hord x). symmetry.
  eapply compare_trans; eauto.
Qed.

Lemma beforeb_irrefl k : beforeb k k = false.
Proof.
  unfold Spec.beforeb. rewrite Z.ltb_irrefl, Z.eqb_refl, (compare_irrefl Hord).
  reflexivity.
Qed.

Lemma beforeb_trans a b c :
  beforeb a b = true -> beforeb b c = true -> beforeb a c = true.
Proof.
  unfold Spec.beforeb. intros H1 H2.
  apply orb_true_iff in H1. apply orb_true_iff in H2. apply orb_true_iff.
  rewrite andb_true_iff in *. rewrite Z.ltb_lt, Z.eqb_eq in *.
  destruct H1 as [H1|[H1 H1']], H2 as [H2|[H2 H2']];
    try (left; lia).
  right. split; [lia|]. eapply compare_trans; eauto.
Qed.

Lemma beforeb_total a b :
  beforeb a b = false -> beforeb b a = false -> a = b.
Proof.
  unfold Spec.beforeb. intros H1 H2.
  apply orb_false_iff in H1. apply orb_false_iff in H2.
  destruct H1 as [H1 H1'], H2 as [H2 H2'].
  apply Z.ltb_ge in H1, H2.
  assert (E : prio a = prio b) by lia.
  rewrite E, Z.eqb_refl in *. simpl in *.
  apply (compare_total Hord); assumption.
Qed.

Lemma beforeb_asym a b : beforeb a b = true -> beforeb b a = false.
Proof.
  intros H. destruct (beforeb b a) eqn:E; [|reflexivity].
  rewrite <- (beforeb_irrefl a). symmetry.
  eapply beforeb_trans; eauto.
Qed.

(** The three outcomes of [rank] on keys. *)
Lemma rank_keys_cases a b :
  (rank_keys a b = LEFT /\ beforeb a b = true)
  \/ (rank_keys a b = RIGHT /\ beforeb b a = true)
  \/ (rank_keys a b = SAME /\ a = b).
Proof.
  unfold Spec.rank_keys, Spec.beforeb.
  destruct (prio a <? prio b) eqn:E1; [left; auto|].
  destruct (prio b <? prio a) eqn:E2; [right; left; auto|].
  apply Z.ltb_ge in E1, E2.
  assert (E : prio a = prio b) by lia.
  rewrite E, Z.eqb_refl. simpl.
  destruct (compare a b) eqn:C1; [left; auto|].
  destruct (compare b a) eqn:C2; [right; left; auto|].
  right; right. split; [reflexivity|]. apply (compare_total Hord); assumption.
Qed.

Lemma in_elems_node y a v x h (l r : nodeptr) :
  In y (elems (Node a v x h l r)) <-> In y (elems l) \/ y = v \/ In y (elems r).
Proof.
  simpl. rewrite in_app_iff. simpl. intuition.
Qed.

Lemma treap_keys_unique (t : nodeptr) x y :
  treap t -> In x (elems t) -> In y (elems t) ->
  key_of x = key_of y -> x = y.
Proof.
  induction t as [|a v e h l IHl r IHr]; simpl; [tauto|].
  intros (Tl & Tr' & Ll & Lr & _ & _) Hx Hy E.
  rewrite in_app_iff in Hx, Hy. simpl in Hx, Hy.
  assert (Irr := compare_irrefl Hord).
  destruct Hx as [Hx|[Hx|Hx]], Hy as [Hy|[Hy|Hy]]; subst; auto.
  - apply Ll in Hx. rewrite E, Irr in Hx. discriminate.
  - apply Ll in Hx. apply Lr in Hy.
    rewrite E in Hx. pose proof (compare_trans Hord _ _ _ Hx Hy) as C.
    rewrite Irr in C. discriminate.
  - apply Ll in Hy. rewrite <- E, Irr in Hy. discriminate.
  - apply Lr in Hy. rewrite <- E, Irr in Hy. discriminate.
  - apply Ll in Hy. apply Lr in Hx.
    rewrite <- E in Hy. pose proof (compare_trans Hord _ _ _ Hy Hx) as C.
    rewrite Irr in C. discriminate.
  - apply Lr in Hx. rewrite E, Irr in Hx. discriminate.
Qed.

Lemma treap_left_iff a v x h (l r : nodeptr) y :
  treap (Node a v x h l r) ->
  (In y (elems l) <->
   In y (elems (Node a v x h l r)) /\ compare (key_of y) (key_of v) = true).
Proof.
  intros T. pose proof T as (Tl & Tr' & Ll & Lr & _ & _).
  rewrite in_elems_node. split.
  - intros H. auto.
  - intros [[H|[H|H]] C]; auto.
    + subst. rewrite (compare_irrefl Hord) in C. discriminate.
    + apply Lr in H. apply compare_asym in H. congruence.
Qed.

Lemma treap_right_iff a v x h (l r : nodeptr) y :
  treap (Node a v x h l r) ->
  (In y (elems r) <->
   In y (elems (Node a v x h l r)) /\ compare (key_of v) (key_of y) = true).
Proof.
  intros T. pose proof T as (Tl & Tr' & Ll & Lr & _ & _).
  rewrite in_elems_node. split.
  - intros H. auto.
  - intros [[H|[H|H]] C]; auto.
    + apply Ll in H. apply compare_asym in H. congruence.
    + subst. rewrite (compare_irrefl Hord) in C. discriminate.
Qed.

(** I1 as a sorted list. *)
Lemma treap_sorted (t : nodeptr) :
  treap t ->
  StronglySorted (fun x y => compare (key_of x) (key_of y) = true) (elems t).
Proof.
  induction t as [|a v e h l IHl r IHr]; simpl; [constructor|].
  intros (Tl & Tr' & Ll & Lr & _ & _).
  specialize (IHl Tl). specialize (IHr Tr').
  assert (G : forall l1 l2,
             StronglySorted (fun x y => compare (key_of x) (key_of y) = true) l1 ->
             StronglySorted (fun x y => compare (key_of x) (key_of y) = true) l2 ->
             (forall x y, In x l1 -> In y l2 -> compare (key_of x) (key_of y) = true) ->
             StronglySorted (fun x y => compare (key_of x) (key_of y) = true) (l1 ++ l2)).
  { induction l1 as [|z l1 IH]; simpl; intros l2 S1 S2 H12; [assumption|].
    inversion S1; subst. constructor.
    - apply IH; auto.
    - apply Forall_app. split; [assumption|].
      apply Forall_forall. intros y Hy. apply H12; auto. }
  apply G; auto.
  - constructor; [assumption|]. apply Forall_forall. exact Lr.
  - intros x y Hx [Hy|Hy].
    + subst. auto.
    + eapply compare_trans; eauto.
Qed.

Lemma treap_NoDup (t : nodeptr) : treap t -> NoDup (elems t).
Proof.
  intros T. apply treap_sorted in T.
  induction T as [|z l S IH F]; constructor; auto.
  intros Hin. rewrite Forall_forall in F. apply F in Hin.
  rewrite (compare_irrefl Hord) in Hin. discriminate.
Qed.

Lemma treap_NoDup_keys (t : nodeptr) : treap t -> NoDup (keys t).
Proof.
  intros T. apply treap_sorted in T. unfold keys.
  induction T as [|z l S IH F]; simpl; constructor; auto.
  intros Hin. apply in_map_iff in Hin. destruct Hin as (y & E & Hy).
  rewrite Forall_forall in F. apply F in Hy.
  rewrite E, (compare_irrefl Hord) in Hy. discriminate.
Qed.

(** The root of a treap ranks before every other element. *)
Lemma treap_root_first a v x h (l r : nodeptr) y :
  treap (Node a v x h l r) -> In y (elems (Node a v x h l r)) ->
  y = v \/ beforeb (key_of v) (key_of y) = true.
Proof.
  intros (Tl & Tr' & Ll & Lr & Bl & Br) H.
  apply in_elems_node in H. destruct H as [H|[H|H]]; auto.
Qed.

Lemma compare_neq x y : compare x y = true -> x <> y.
Proof.
  intros H ->. rewrite (compare_irrefl Hord) in H. discriminate.
Qed.

Lemma beforeb_neq x y : beforeb x y = true -> x <> y.
Proof.
  intros H ->. rewrite beforeb_irrefl in H. discriminate.
Qed.

(** Everything in a treap ranks after whatever ranks before its root. *)
Lemma treap_all_after a v x h (l r : nodeptr) k y :
  treap (Node a v x h l r) -> beforeb k (key_of v) = true ->
  In y (elems (Node a v x h l r)) -> beforeb k (key_of y) = true.
Proof.
  intros T B H. destruct (treap_root_first _ T H) as [->|B'];
    [assumption|]. eapply beforeb_trans; eauto.
Qed.

Lemma treap_after_no_key a v x h (l r : nodeptr) k :
  treap (Node a v x h l r) -> beforeb k (key_of v) = true ->
  ~ has_key (Node a v x h l r) k.
Proof.
  intros T B (z & Hz & E). pose proof (treap_all_after _ _ T B Hz) as B'.
  rewrite E, beforeb_irrefl in B'. discriminate.
Qed.

Lemma has_key_node a v x h (l r : nodeptr) k :
  has_key (Node a v x h l r) k <->
  has_key l k \/ key_of v = k \/ has_key r k.
Proof.
  unfold has_key. split.
  - intros (z & Hz & E). apply in_elems_node in Hz.
    destruct Hz as [Hz|[->|Hz]]; eauto.
  - intros [(z & Hz & E)|[E|(z & Hz & E)]].
    + exists z. rewrite in_elems_node. auto.
    + exists v. rewrite in_elems_node. auto.
    + exists z. rewrite in_elems_node. auto.
Qed.

Lemma has_key_null k : ~ has_key (@null V X) k.
Proof. intros (z & Hz & _). exact Hz. Qed.

Lemma nodes_length (p : nodeptr) : Internal.nodes p = length (elems p).
Proof.
  induction p as [|a v e h l IHl r IHr]; simpl; [reflexivity|].
  rewrite length_app. simpl. lia.
Qed.

Lemma nodes_incl (p q : nodeptr) :
  treap p -> (forall y, In y (elems p) -> In y (elems q)) ->
  (Internal.nodes p <= Internal.nodes q)%nat.
Proof.
  intros T H. rewrite !nodes_length.
  apply NoDup_incl_length; [apply treap_NoDup; assumption|exact H].
Qed.

Lemma compare_lt_nlt x y k :
  compare x k = true -> compare y k = false -> compare x y = true.
Proof.
  intros H1 H2. destruct (compare x y) eqn:C1; [reflexivity|].
  destruct (compare y x) eqn:C2.
  - rewrite (compare_trans Hord _ _ _ C2 H1) in H2. discriminate.
  - rewrite (compare_total Hord _ _ C1 C2) in H1. congruence.
Qed.

Lemma compare_nlt_lt x y k :
  compare k x = false -> compare k y = true -> compare x y = true.
Proof.
  intros H1 H2. destruct (compare x y) eqn:C1; [reflexivity|].
  destruct (compare y x) eqn:C2.
  - rewrite (compare_trans Hord _ _ _ H2 C2) in H1. discriminate.
  - rewrite (compare_total Hord _ _ C1 C2) in H1. congruence.
Qed.

(** Lists without duplicates that have the same elements have the same
    length. *)
Lemma NoDup_same_length {A} (l l' : list A) :
  NoDup l -> NoDup l' -> (forall x, In x l <-> In x l') ->
  length l = length l'.
Proof.
  intros N N' H. apply Permutation_length, NoDup_Permutation; assumption.
Qed.

Lemma length_added (n p : nodeptr) v :
  treap n -> treap p -> ~ In v (elems p) ->
  (forall y, In y (elems n) <-> In y (elems p) \/ y = v) ->
  length (elems n) = S (length (elems p)).
Proof.
  intros Tn Tp Nv H.
  change (S (length (elems p))) with (length (v :: elems p)).
  apply NoDup_same_length.
  - apply treap_NoDup. assumption.
  - constructor; [assumption|]. apply treap_NoDup. assumption.
  - intros y. rewrite H. simpl. intuition.
Qed.

Lemma length_removed (n p : nodeptr) v :
  treap n -> treap p -> In v (elems p) ->
  (forall y, In y (elems n) <-> In y (elems p) /\ y <> v) ->
  length (elems p) = S (length (elems n)).
Proof.
  intros Tn Tp Hv H.
  change (S (length (elems n))) with (length (v :: elems n)).
  apply NoDup_same_length.
  - apply treap_NoDup. assumption.
  - constructor; [|apply treap_NoDup; assumption].
    intros Hn. apply H in Hn. tauto.
  - intros y. simpl. rewrite H. split.
    + intros Hy. destruct (equal (key_of y) (key_of v)) eqn:E.
      * left. apply (equal_spec Hord) in E. symmetry.
        apply (treap_keys_unique p); auto.
      * right. split; [assumption|]. intros ->.
        rewrite (proj2 (equal_spec Hord _ _) eq_refl) in E. discriminate.
    + intros [<-|(Hy & _)]; assumption.
Qed.

Lemma first_of_nil y : ~ first_of (@nil V) y.
Proof.
  intros (l1 & l2 & E & _). destruct l1; discriminate.
Qed.

Lemma first_of_cons v l y :
  first_of (v :: l) y <-> y = v \/ (first_of l y /\ key_of v <> key_of y).
Proof.
  split.
  - intros (l1 & l2 & E & N). destruct l1 as [|z l1].
    + injection E as -> _. auto.
    + injection E as <- ->. right. split.
      * exists l1, l2. split; [reflexivity|]. intros u Hu. apply N. right.
        assumption.
      * apply N. left. reflexivity.
  - intros [->|((l1 & l2 & -> & N) & Nv)].
    + exists [], l. split; [reflexivity|]. intros z [].
    + exists (v :: l1), l2. split; [reflexivity|].
      intros z [<-|Hz]; auto.
Qed.

Lemma first_of_app l1 l2 y :
  first_of (l1 ++ l2) y <->
  first_of l1 y
  \/ (first_of l2 y /\ forall z, In z l1 -> key_of z <> key_of y).
Proof.
  induction l1 as [|v l1 IH]; simpl.
  - split; [intros H; right; split; [assumption|intros z []]|].
    intros [H|(H & _)]; [destruct (first_of_nil H)|assumption].
  - rewrite !first_of_cons, IH. split.
    + intros [->|([H|(H & N)] & Nv)]; auto.
      right. split; [assumption|]. intros z [<-|Hz]; auto.
    + intros [[->|(H & Nv)]|(H & N)]; auto.
      right. split; [right; split; [assumption|]|]; auto.
Qed.

Lemma first_of_in l y : first_of l y -> In y l.
Proof.
  intros (l1 & l2 & -> & _). apply in_or_app. right. left. reflexivity.
Qed.

Lemma first_of_key l k :
  (exists z, In z l /\ key_of z = k) <->
  (exists y, first_of l y /\ key_of y = k).
Proof.
  split.
  - induction l as [|v l IH]; intros (z & Hz & E); [destruct Hz|].
    destruct (equal (key_of v) k) eqn:Q.
    + apply (equal_spec Hord) in Q. exists v. split; [|assumption].
      apply first_of_cons. auto.
    + assert (Nv : key_of v <> k).
      { intros E'. apply (equal_spec Hord) in E'. congruence. }
      destruct Hz as [->|Hz]; [congruence|].
      destruct IH as (y & Hy & Ey); [eauto|].
      exists y. split; [|assumption]. apply first_of_cons. right.
      split; [assumption|]. congruence.
  - intros (y & Hy & E). exists y. split; [|assumption].
    apply first_of_in. assumption.
Qed.

Lemma in_firstn {A} n (l : list A) x : In x (firstn n l) -> In x l.
Proof.
  intros H. rewrite <- (firstn_skipn n l). apply in_or_app. auto.
Qed.

Lemma in_skipn {A} n (l : list A) x : In x (skipn n l) -> In x l.
Proof.
  intros H. rewrite <- (firstn_skipn n l). apply in_or_app. auto.
Qed.

Lemma sorted_app_lt {A} (R : A -> A -> Prop) (l1 l2 : list A) x y :
  StronglySorted R (l1 ++ l2) -> In x l1 -> In y l2 -> R x y.
Proof.
  induction l1 as [|z l1 IH]; simpl; intros S Hx Hy; [destruct Hx|].
  inversion S as [|? ? S' F]; subst.
  destruct Hx as [->|Hx].
  - rewrite Forall_forall in F. apply F. apply in_or_app. auto.
  - apply IH; assumption.
Qed.

(** In a treap, the elements before a position are below the elements from
    a later position on. *)
Lemma treap_firstn_skipn (p : nodeptr) i j x y :
  treap p -> (i <= j)%nat ->
  In x (firstn i (elems p)) -> In y (skipn j (elems p)) ->
  compare (key_of x) (key_of y) = true.
Proof.
  intros T Hij Hx Hy. apply treap_sorted in T.
  rewrite <- (firstn_skipn i (elems p)) in T.
  apply (@sorted_app_lt V (fun x y => compare (key_of x) (key_of y) = true)
           _ _ x y T Hx).
  rewrite <- (firstn_skipn (j - i) (skipn i (elems p))).
  apply in_or_app. right. rewrite skipn_skipn.
  replace (j - i + i)%nat with j by lia. assumption.
Qed.

(** Two ascending lists of the same elements are the same list. *)
Lemma sorted_ext (l1 l2 : list V) :
  StronglySorted (fun x y => compare (key_of x) (key_of y) = true) l1 ->
  StronglySorted (fun x y => compare (key_of x) (key_of y) = true) l2 ->
  (forall x, In x l1 <-> In x l2) -> l1 = l2.
Proof.
  intros S1. revert l2.
  induction S1 as [|a l1 S1 IH F1]; intros l2 S2 H.
  - destruct l2 as [|b l2]; [reflexivity|].
    destruct (proj2 (H b) (or_introl eq_refl)).
  - destruct S2 as [|b l2 S2 F2].
    { destruct (proj1 (H a) (or_introl eq_refl)). }
    rewrite Forall_forall in F1, F2.
    assert (E : a = b).
    { destruct (proj1 (H a) (or_introl eq_refl)) as [E|Ha]; [auto|].
      destruct (proj2 (H b) (or_introl eq_refl)) as [E|Hb]; [auto|].
      pose proof (compare_asym _ _ (F1 _ Hb)) as N.
      rewrite (F2 _ Ha) in N. discriminate. }
    subst b. f_equal. apply IH; [assumption|].
    intros x. split; intros Hx.
    + destruct (proj1 (H x) (or_intror Hx)) as [E|Hx']; [|assumption].
      subst x. pose proof (F1 _ Hx) as C.
      rewrite (compare_irrefl Hord) in C. discriminate.
    + destruct (proj2 (H x) (or_intror Hx)) as [E|Hx']; [|assumption].
      subst x. pose proof (F2 _ Hx) as C.
      rewrite (compare_irrefl Hord) in C. discriminate.
Qed.

Lemma sorted_skipn {A} (R : A -> A -> Prop) n (l : list A) :
  StronglySorted R l -> StronglySorted R (skipn n l).
Proof.
  revert l. induction n as [|n IH]; intros l S; [exact S|].
  destruct S as [|a l S F]; [constructor|]. simpl. apply IH, S.
Qed.

Lemma sorted_app_skipn {A} (R : A -> A -> Prop) n (l1 l2 : list A) :
  StronglySorted R (l1 ++ l2) -> StronglySorted R (l1 ++ skipn n l2).
Proof.
  induction l1 as [|a l1 IH]; simpl; intros S.
  - apply sorted_skipn, S.
  - inversion S as [|? ? S' F]; subst. constructor; [apply IH, S'|].
    rewrite Forall_forall in *. intros x Hx. apply F.
    apply in_app_or in Hx. apply in_or_app.
    destruct Hx as [Hx|Hx]; [auto|]. right. exact (in_skipn _ _ _ Hx).
Qed.

(** The elements outside a range of positions, in order. *)
Lemma treap_outside_sorted (p : nodeptr) i j :
  treap p -> (i <= j)%nat ->
  StronglySorted (fun x y => compare (key_of x) (key_of y) = true)
    (firstn i (elems p) ++ skipn j (elems p)).
Proof.
  intros T Hij. apply treap_sorted in T.
  rewrite <- (firstn_skipn i (elems p)) in T.
  replace (skipn j (elems p)) with (skipn (j - i) (skipn i (elems p))).
  - apply sorted_app_skipn, T.
  - rewrite skipn_skipn. f_equal. lia.
Qed.

(** Lists without duplicates: the same multiset is the same set. *)
Lemma NoDup_perm_iff {A} (l l' : list A) :
  NoDup l -> NoDup l' ->
  (Permutation l l' <-> forall y, In y l <-> In y l').
Proof.
  intros N N'. split.
  - intros P y. split; [apply Permutation_in, P|].
    apply Permutation_in, Permutation_sym, P.
  - apply NoDup_Permutation; assumption.
Qed.

End Pure.

End Facts.

(** * The algorithms on a store of hash-consed nodes *)

Module Algo.

Import Spec Facts.

Section Store.

Context {K V X St : Type} {Tr : Traits K V X} {En : Env K V X St}.

Variable prio : K -> Z.
Variable Inv : St -> Prop.
Variable live : St -> node V X -> Prop.

Hypothesis Hord : order_ok.
Hypothesis Hst : store_ok prio Inv live.

Local Notation "'nodeptr'" := (node V X).
Local Notation "'treap'" := (treap prio).
Local Notation "'beforeb'" := (beforeb prio).
Local Notation "'rank_keys'" := (rank_keys prio).
Local Notation "'returns'" := (returns Inv live).

Lemma st_children s a v x h (l r : nodeptr) :
  Inv s -> live s (Node a v x h l r) -> live s l /\ live s r.
Proof. apply (live_children Hst). Qed.

Lemma st_fields s a v x h (l r : nodeptr) :
  Inv s -> live s (Node a v x h l r) ->
  priority_of x = prio (key_of v)
  /\ size_of x = 1 + Internal.size l + Internal.size r
  /\ a <> O.
Proof. apply (live_fields Hst). Qed.

Lemma st_address s (p q : nodeptr) :
  Inv s -> live s p -> live s q ->
  Internal.address p = Internal.address q -> p = q.
Proof. apply (live_address Hst). Qed.

Lemma st_unique s a v x h (l r : nodeptr) a' x' h' :
  Inv s -> live s (Node a v x h l r) -> live s (Node a' v x' h' l r) ->
  Node a v x h l r = Node a' v x' h' l r.
Proof. apply (live_unique Hst). Qed.

Lemma st_null s : live s null.
Proof. apply (live_null Hst). Qed.

Lemma st_make_from s a v x h l0 r0 (l r : nodeptr) :
  Inv s -> live s (Node a v x h l0 r0) -> live s l -> live s r ->
  exists a' x' h' s',
    make_node_from (Node a v x h l0 r0) l r s = Some (Node a' v x' h' l r, s')
    /\ Inv s' /\ (forall q, live s q -> live s' q)
    /\ live s' (Node a' v x' h' l r).
Proof. apply (make_node_from_ok Hst). Qed.

Lemma st_make_value s v :
  Inv s ->
  exists a' x' h' s',
    make_node_value v s = Some (Node a' v x' h' null null, s')
    /\ Inv s' /\ (forall q, live s q -> live s' q)
    /\ live s' (Node a' v x' h' null null).
Proof. apply (make_node_value_ok Hst). Qed.

Lemma returns_ret {A} (a : A) s (Q : A -> St -> Prop) :
  Inv s -> Q a s -> returns (ret a) s Q.
Proof.
  intros HI HQ. exists a, s. auto.
Qed.

Lemma returns_bind {A B} (c : M St A) (k : A -> M St B) s
    (Q1 : A -> St -> Prop) (Q2 : B -> St -> Prop) :
  returns c s Q1 ->
  (forall a s', Inv s' -> (forall q, live s q -> live s' q) -> Q1 a s' ->
                returns (k a) s' Q2) ->
  returns (bind c k) s Q2.
Proof.
  intros (a & s1 & E & HI & Hl & HQ) Hk.
  destruct (Hk a s1 HI Hl HQ) as (b & s2 & E2 & HI2 & Hl2 & HQ2).
  exists b, s2. unfold bind. rewrite E. repeat split; auto.
Qed.

Lemma returns_weaken {A} (c : M St A) s (Q1 Q2 : A -> St -> Prop) :
  returns c s Q1 -> (forall a s', Inv s' -> (forall q, live s q -> live s' q) -> Q1 a s' -> Q2 a s') ->
  returns c s Q2.
Proof.
  intros (a & s1 & E & HI & Hl & HQ) H. exists a, s1. auto.
Qed.

Lemma ptr_eq_live s (p q : nodeptr) :
  Inv s -> live s p -> live s q ->
  (Internal.ptr_eq p q = true <-> p = q).
Proof.
  intros HI Hp Hq. unfold Internal.ptr_eq. rewrite Nat.eqb_eq. split.
  - exact (st_address HI Hp Hq).
  - intros ->. reflexivity.
Qed.

Lemma ptr_eq_false s (p q : nodeptr) :
  Inv s -> live s p -> live s q ->
  (Internal.ptr_eq p q = false <-> p <> q).
Proof.
  intros HI Hp Hq. rewrite <- (ptr_eq_live HI Hp Hq).
  destruct (Internal.ptr_eq p q); intuition congruence.
Qed.

Lemma rank_live s a v x h l r a' v' x' h' l' r' :
  Inv s -> live s (Node a v x h l r) -> live s (Node a' v' x' h' l' r') ->
  Internal.rank (Node a v x h l r) (Node a' v' x' h' l' r')
  = rank_keys (key_of v) (key_of v').
Proof.
  intros HI H1 H2.
  destruct (st_fields HI H1) as (P1 & _).
  destruct (st_fields HI H2) as (P2 & _).
  unfold Internal.rank, Spec.rank_keys. rewrite P1, P2. reflexivity.
Qed.

Lemma size_live s (p : nodeptr) :
  Inv s -> live s p -> Internal.size p = Z.of_nat (length (elems p)).
Proof.
  intros HI. induction p as [|a v e h l IHl r IHr]; intros Hp; [reflexivity|].
  destruct (st_children HI Hp) as (Hl & Hr).
  destruct (st_fields HI Hp) as (_ & S & _).
  cbn [Internal.size elems]. rewrite S, IHl, IHr by assumption.
  rewrite length_app. cbn [length]. lia.
Qed.

(** Canonical form: a live treap is determined by its elements. *)
Lemma canonical s (p q : nodeptr) :
  Inv s -> live s p -> live s q -> treap p -> treap q ->
  (forall y, In y (elems p) <-> In y (elems q)) -> p = q.
Proof.
  intros HI. revert q.
  induction p as [|a v e h l IHl r IHr]; intros q Hp Hq Tp Tq Hin.
  - destruct q as [|a' v' e' h' l' r']; [reflexivity|].
    exfalso. apply (Hin v'). apply in_elems_node. auto.
  - destruct q as [|a' v' e' h' l' r'].
    + exfalso. apply (Hin v). apply in_elems_node. auto.
    + assert (Hv : In v (elems (Node a' v' e' h' l' r'))).
      { apply Hin. apply in_elems_node. auto. }
      assert (Hv' : In v' (elems (Node a v e h l r))).
      { apply Hin. apply in_elems_node. auto. }
      assert (E : v = v').
      { destruct (treap_root_first _ Tq Hv) as [E|B1]; [assumption|].
        destruct (treap_root_first _ Tp Hv') as [E|B2]; [congruence|].
        apply (beforeb_asym prio Hord) in B1. congruence. }
      subst v'.
      destruct (st_children HI Hp) as (Hl & Hr).
      destruct (st_children HI Hq) as (Hl' & Hr').
      assert (El : l = l').
      { apply IHl; try assumption; try apply Tp; try apply Tq.
        intros y. rewrite (treap_left_iff Hord y Tp), (treap_left_iff Hord y Tq).
        rewrite Hin. reflexivity. }
      assert (Er : r = r').
      { apply IHr; try assumption; try apply Tp; try apply Tq.
        intros y. rewrite (treap_right_iff Hord y Tp), (treap_right_iff Hord y Tq).
        rewrite Hin. reflexivity. }
      subst l' r'. eapply st_unique; eauto.
Qed.

Lemma treap_node a v x h (l r : nodeptr) :
  treap l -> treap r ->
  (forall y, In y (elems l) -> compare (key_of y) (key_of v) = true) ->
  (forall y, In y (elems r) -> compare (key_of v) (key_of y) = true) ->
  (forall y, In y (elems l) -> beforeb (key_of v) (key_of y) = true) ->
  (forall y, In y (elems r) -> beforeb (key_of v) (key_of y) = true) ->
  treap (Node a v x h l r).
Proof.
  simpl. intuition.
Qed.

(** [replace_left] and [replace_right] return a live node with the parent's
    value and the new child. *)
Lemma replace_left_ok s a v x h l r (child : nodeptr) :
  Inv s -> live s (Node a v x h l r) -> live s child ->
  returns (Internal.replace_left (Node a v x h l r) child) s
    (fun n s' => live s' n /\ exists a' x' h', n = Node a' v x' h' child r).
Proof.
  intros HI Hp Hc. unfold Internal.replace_left.
  destruct (st_children HI Hp) as (Hl & Hr).
  destruct (Internal.ptr_eq l child) eqn:E.
  - apply (ptr_eq_live HI Hl Hc) in E. subst child.
    apply returns_ret; [assumption|]. split; [assumption|]. eauto.
  - destruct (st_make_from HI Hp Hc Hr)
      as (a' & x' & h' & s' & E' & HI' & Hext & Hn).
    exists (Node a' v x' h' child r), s'. repeat split; eauto.
Qed.

Lemma replace_right_ok s a v x h l r (child : nodeptr) :
  Inv s -> live s (Node a v x h l r) -> live s child ->
  returns (Internal.replace_right (Node a v x h l r) child) s
    (fun n s' => live s' n /\ exists a' x' h', n = Node a' v x' h' l child).
Proof.
  intros HI Hp Hc. unfold Internal.replace_right.
  destruct (st_children HI Hp) as (Hl & Hr).
  destruct (Internal.ptr_eq r child) eqn:E.
  - apply (ptr_eq_live HI Hr Hc) in E. subst child.
    apply returns_ret; [assumption|]. split; [assumption|]. eauto.
  - destruct (st_make_from HI Hp Hl Hc)
      as (a' & x' & h' & s' & E' & HI' & Hext & Hn).
    exists (Node a' v x' h' l child), s'. repeat split; eauto.
Qed.

Lemma make_node_from_returns s a v x h l0 r0 (l r : nodeptr) :
  Inv s -> live s (Node a v x h l0 r0) -> live s l -> live s r ->
  returns (make_node_from (Node a v x h l0 r0) l r) s
    (fun n s' => live s' n /\ exists a' x' h', n = Node a' v x' h' l r).
Proof.
  intros HI Hp Hl Hr.
  destruct (st_make_from HI Hp Hl Hr)
    as (a' & x' & h' & s' & E' & HI' & Hext & Hn).
  exists (Node a' v x' h' l r), s'. repeat split; eauto.
Qed.

(** [split] partitions a treap at [key]. *)
Lemma split_ok (p : nodeptr) key s :
  Inv s -> live s p -> treap p ->
  returns (Internal.split p key) s
    (fun ab s' =>
       live s' (fst ab) /\ live s' (snd ab)
       /\ treap (fst ab) /\ treap (snd ab)
       /\ (forall y, In y (elems (fst ab)) <->
                     In y (elems p) /\ compare (key_of y) key = true)
       /\ (forall y, In y (elems (snd ab)) <->
                     In y (elems p) /\ compare (key_of y) key = false)).
Proof.
  revert s. induction p as [|a v e h l IHl r IHr]; intros s HI Hp Tp.
  - simpl. apply returns_ret; [assumption|]. simpl.
    repeat split; auto using st_null; tauto.
  - destruct (st_children HI Hp) as (Hl & Hr).
    pose proof Tp as (Tl & Tr' & Ll & Lr & Bl & Br).
    cbn [Internal.split]. destruct (compare (key_of v) key) eqn:C.
    + eapply returns_bind; [apply (IHr s HI Hr Tr')|].
      intros [s1 s2] s1' HI1 Hext1 (L1 & L2 & T1 & T2 & I1 & I2).
      cbn [fst snd] in *.
      eapply returns_bind; [apply replace_right_ok; auto|].
      intros n s2' HI2 Hext2 (Ln & a' & x' & h' & ->).
      apply returns_ret; [assumption|]. cbn [fst snd].
      split; [assumption|]. split; [auto|].
      assert (Tn : treap (Node a' v x' h' l s1)).
      { apply treap_node; auto.
        - intros y Hy. apply I1 in Hy. apply Lr. tauto.
        - intros y Hy. apply I1 in Hy. apply Br. tauto. }
      split; [assumption|]. split; [assumption|]. split.
      * intros y. rewrite !in_elems_node, I1. split.
        -- intros [H|[H|H]]; [| |tauto].
           ++ split; [auto|]. eapply (compare_trans Hord); eauto.
           ++ subst. auto.
        -- intros [[H|[H|H]] Cy]; auto.
      * intros y. rewrite I2, in_elems_node. split; [tauto|].
        intros [[H|[H|H]] Cy]; auto.
        -- apply Ll in H. rewrite (compare_trans Hord _ _ _ H C) in Cy.
           discriminate.
        -- subst. congruence.
    + eapply returns_bind; [apply (IHl s HI Hl Tl)|].
      intros [s1 s2] s1' HI1 Hext1 (L1 & L2 & T1 & T2 & I1 & I2).
      cbn [fst snd] in *.
      eapply returns_bind; [apply replace_left_ok; auto|].
      intros n s2' HI2 Hext2 (Ln & a' & x' & h' & ->).
      apply returns_ret; [assumption|]. cbn [fst snd].
      split; [auto|]. split; [assumption|].
      assert (Tn : treap (Node a' v x' h' s2 r)).
      { apply treap_node; auto.
        - intros y Hy. apply I2 in Hy. apply Ll. tauto.
        - intros y Hy. apply I2 in Hy. apply Bl. tauto. }
      split; [assumption|]. split; [assumption|]. split.
      * intros y. rewrite I1, in_elems_node. split; [tauto|].
        intros [[H|[H|H]] Cy]; auto.
        -- subst. congruence.
        -- apply Lr in H.
           rewrite (compare_trans Hord _ _ _ H Cy) in C. discriminate.
      * intros y. rewrite !in_elems_node, I2. split.
        -- intros [H|[H|H]]; [tauto| |].
           ++ subst. auto.
           ++ split; [auto|]. destruct (compare (key_of y) key) eqn:Cy; auto.
              apply Lr in H.
              rewrite (compare_trans Hord _ _ _ H Cy) in C. discriminate.
        -- intros [[H|[H|H]] Cy]; auto.
Qed.

(** [join] of two treaps whose keys are separated. *)
Lemma join_ok (p q : nodeptr) s :
  Inv s -> live s p -> live s q -> treap p -> treap q ->
  (forall x y, In x (elems p) -> In y (elems q) ->
               compare (key_of x) (key_of y) = true) ->
  returns (Internal.join p q) s
    (fun n s' =>
       live s' n /\ treap n
       /\ (forall y, In y (elems n) <-> In y (elems p) \/ In y (elems q))).
Proof.
  revert q s.
  induction p as [|a v e h l IHl r IHr].
  - intros q s HI Hp Hq Tp Tq Sep. destruct q; cbn [Internal.join];
      (apply returns_ret; [assumption|]; split; [assumption|];
       split; [assumption|]; intros y; simpl; tauto).
  - induction q as [|a' v' e' h' l' IHl' r' IHr'];
      intros s HI Hp Hq Tp Tq Sep.
    + cbn [Internal.join]. apply returns_ret; [assumption|].
      split; [assumption|]. split; [assumption|]. intros y; simpl; tauto.
    + destruct (st_children HI Hp) as (Hl & Hr).
      destruct (st_children HI Hq) as (Hl' & Hr').
      pose proof Tp as (Tl & Tr' & Ll & Lr & Bl & Br).
      pose proof Tq as (Tl' & Tr'' & Ll' & Lr' & Bl' & Br').
      assert (Cvv : compare (key_of v) (key_of v') = true).
      { apply Sep; apply in_elems_node; auto. }
      change (Internal.join (Node a v e h l r) (Node a' v' e' h' l' r'))
        with (match Internal.rank (Node a v e h l r) (Node a' v' e' h' l' r') with
              | LEFT => bind (Internal.join r (Node a' v' e' h' l' r'))
                          (fun j => Internal.replace_right (Node a v e h l r) j)
              | RIGHT => bind (Internal.join (Node a v e h l r) l')
                          (fun j => Internal.replace_left (Node a' v' e' h' l' r') j)
              | _ => fail
              end).
      rewrite (rank_live HI Hp Hq).
      destruct (rank_keys_cases prio Hord (key_of v) (key_of v'))
        as [(-> & B)|[(-> & B)|(-> & E)]].
      * eapply returns_bind.
        { apply (IHr (Node a' v' e' h' l' r') s); auto.
          intros x y Hx Hy. apply Sep; [apply in_elems_node|]; auto. }
        intros j s1 HI1 Hext1 (Lj & Tj & Ij).
        eapply returns_weaken; [apply replace_right_ok; auto|].
        intros n s2 HI2 Hext2 (Ln & a2 & x2 & h2 & ->).
        split; [assumption|]. split.
        -- apply treap_node; auto.
           ++ intros y Hy. apply Ij in Hy. destruct Hy as [Hy|Hy]; auto.
              apply Sep; [apply in_elems_node|]; auto.
           ++ intros y Hy. apply Ij in Hy. destruct Hy as [Hy|Hy]; auto.
              apply in_elems_node in Hy. destruct Hy as [Hy|[Hy|Hy]].
              ** eapply (beforeb_trans prio Hord); eauto.
              ** subst. assumption.
              ** eapply (beforeb_trans prio Hord); eauto.
        -- intros y. rewrite !in_elems_node, Ij, in_elems_node. tauto.
      * eapply returns_bind.
        { apply (IHl' s); auto.
          intros x y Hx Hy. apply Sep; [|apply in_elems_node]; auto. }
        intros j s1 HI1 Hext1 (Lj & Tj & Ij).
        eapply returns_weaken; [apply replace_left_ok; auto|].
        intros n s2 HI2 Hext2 (Ln & a2 & x2 & h2 & ->).
        split; [assumption|]. split.
        -- apply treap_node; auto.
           ++ intros y Hy. apply Ij in Hy. destruct Hy as [Hy|Hy]; auto.
              apply Sep; [|apply in_elems_node]; auto.
           ++ intros y Hy. apply Ij in Hy. destruct Hy as [Hy|Hy]; auto.
              apply in_elems_node in Hy. destruct Hy as [Hy|[Hy|Hy]].
              ** eapply (beforeb_trans prio Hord); eauto.
              ** subst. assumption.
              ** eapply (beforeb_trans prio Hord); eauto.
        -- intros y. rewrite !in_elems_node, Ij, in_elems_node. tauto.
      * rewrite E, (compare_irrefl Hord) in Cvv. discriminate.
Qed.

(** [set_union]: the elements of the left tree, and those of the right
    tree whose key the left tree does not hold. *)
Lemma set_union_rec_ok fuel (p q : nodeptr) s :
  Inv s -> live s p -> live s q -> treap p -> treap q ->
  (Internal.nodes p + Internal.nodes q < fuel)%nat ->
  returns (Internal.set_union_rec fuel p q) s
    (fun n s' =>
       live s' n /\ treap n
       /\ (forall y, In y (elems n) <->
             In y (elems p) \/ (In y (elems q) /\ ~ has_key p (key_of y)))).
Proof.
  revert p q s. induction fuel as [|fuel IH]; intros p q s HI Hp Hq Tp Tq Hf;
    [lia|].
  cbn [Internal.set_union_rec].
  destruct (Internal.ptr_eq p q || Internal.is_null q) eqn:E1.
  { apply returns_ret; [assumption|]. split; [assumption|].
    split; [assumption|]. intros y. split; [auto|].
    intros [H|[H NK]]; [assumption|].
    apply orb_true_iff in E1. destruct E1 as [E1|E1].
    - apply (ptr_eq_live HI Hp Hq) in E1. subst. assumption.
    - destruct q; [destruct H|discriminate]. }
  apply orb_false_iff in E1. destruct E1 as [E1 E2].
  destruct p as [|a v e h l r].
  { cbn [Internal.is_null]. apply returns_ret; [assumption|].
    split; [assumption|]. split; [assumption|]. intros y. split.
    - intros H. right. split; [assumption|]. apply has_key_null.
    - intros [[]|[H _]]. assumption. }
  destruct q as [|a' v' e' h' l' r']; [discriminate|].
  cbn [Internal.is_null]. cbv iota.
  destruct (st_children HI Hp) as (Hl & Hr).
  destruct (st_children HI Hq) as (Hl' & Hr').
  pose proof Tp as (Tl & Tr' & Ll & Lr & Bl & Br).
  pose proof Tq as (Tl' & Tr'' & Ll' & Lr' & Bl' & Br').
  cbn [Internal.nodes] in Hf.
  rewrite (rank_live HI Hp Hq).
  destruct (rank_keys_cases prio Hord (key_of v) (key_of v'))
    as [(-> & B)|[(-> & B)|(-> & E)]].
  - (* LEFT *)
    eapply returns_bind; [apply (split_ok (key_of v) HI Hq Tq)|].
    intros [s1 s2] t1 HI1 X1 (L1 & L2 & T1 & T2 & I1 & I2).
    cbn [fst snd] in *.
    assert (N1 : (Internal.nodes s1 <= Internal.nodes (Node a' v' e' h' l' r'))%nat)
      by (apply (nodes_incl prio Hord); [assumption|];
          intros y Hy; apply I1 in Hy; tauto).
    assert (N2 : (Internal.nodes s2 <= Internal.nodes (Node a' v' e' h' l' r'))%nat)
      by (apply (nodes_incl prio Hord); [assumption|];
          intros y Hy; apply I2 in Hy; tauto).
    cbn [Internal.nodes] in N1, N2.
    eapply returns_bind; [apply (IH l s1 t1); auto; lia|].
    intros a1 t2 HI2 X2 (La & Ta & Ia).
    eapply returns_bind; [apply (IH r s2 t2); auto; lia|].
    intros b1 t3 HI3 X3 (Lb & Tb & Ib).
    eapply returns_weaken; [apply make_node_from_returns; auto|].
    intros n t4 HI4 X4 (Ln & a2 & x2 & h2 & ->).
    assert (After : forall y, In y (elems (Node a' v' e' h' l' r')) ->
                              beforeb (key_of v) (key_of y) = true).
    { intros y Hy. exact (treap_all_after Hord _ _ Tq B Hy). }
    assert (Gt : forall y, In y (elems s2) ->
                           compare (key_of v) (key_of y) = true).
    { intros y Hy. apply I2 in Hy. destruct Hy as (Hy & C).
      destruct (compare (key_of v) (key_of y)) eqn:C'; [reflexivity|].
      pose proof (compare_total Hord _ _ C C') as E.
      apply After in Hy. rewrite E, (beforeb_irrefl prio Hord) in Hy.
      discriminate. }
    split; [assumption|]. split.
    + apply treap_node; auto.
      * intros y Hy. apply Ia in Hy. destruct Hy as [Hy|(Hy & _)]; auto.
        apply I1 in Hy. tauto.
      * intros y Hy. apply Ib in Hy. destruct Hy as [Hy|(Hy & _)]; auto.
      * intros y Hy. apply Ia in Hy. destruct Hy as [Hy|(Hy & _)]; auto.
        apply I1 in Hy. apply After. tauto.
      * intros y Hy. apply Ib in Hy. destruct Hy as [Hy|(Hy & _)]; auto.
        apply I2 in Hy. apply After. tauto.
    + intros y. rewrite (in_elems_node y a2 v x2 h2 a1 b1), Ia, Ib, I1, I2.
      rewrite (in_elems_node y a v e h l r), has_key_node. split.
      * intros [[H|((H & C) & NK)]|[H|[H|((H & C) & NK)]]]; auto.
        -- right. split; [assumption|].
           intros [K1|[K1|(z & Hz & K1)]]; [tauto| |].
           ++ rewrite K1, (compare_irrefl Hord) in C. discriminate.
           ++ apply Lr in Hz. rewrite K1 in Hz.
              rewrite (compare_asym Hord _ _ Hz) in C. discriminate.
        -- right. split; [assumption|].
           intros [(z & Hz & K1)|[K1|K1]]; [| |tauto].
           ++ apply Ll in Hz. rewrite K1 in Hz.
              assert (G : compare (key_of v) (key_of y) = true)
                by (apply Gt, I2; auto).
              rewrite (compare_asym Hord _ _ Hz) in G. discriminate.
           ++ apply After in H. rewrite K1, (beforeb_irrefl prio Hord) in H.
              discriminate.
      * intros [[H|[H|H]]|(H & NK)]; auto.
        destruct (compare (key_of y) (key_of v)) eqn:C.
        -- left. right. split; [auto|]. tauto.
        -- right. right. right. split; [auto|]. tauto.
  - (* RIGHT *)
    eapply returns_bind; [apply (split_ok (key_of v') HI Hp Tp)|].
    intros [s1 s2] t1 HI1 X1 (L1 & L2 & T1 & T2 & I1 & I2).
    cbn [fst snd] in *.
    assert (N1 : (Internal.nodes s1 <= Internal.nodes (Node a v e h l r))%nat)
      by (apply (nodes_incl prio Hord); [assumption|];
          intros y Hy; apply I1 in Hy; tauto).
    assert (N2 : (Internal.nodes s2 <= Internal.nodes (Node a v e h l r))%nat)
      by (apply (nodes_incl prio Hord); [assumption|];
          intros y Hy; apply I2 in Hy; tauto).
    cbn [Internal.nodes] in N1, N2.
    eapply returns_bind; [apply (IH s1 l' t1); auto; lia|].
    intros a1 t2 HI2 X2 (La & Ta & Ia).
    eapply returns_bind; [apply (IH s2 r' t2); auto; lia|].
    intros b1 t3 HI3 X3 (Lb & Tb & Ib).
    eapply returns_weaken; [apply make_node_from_returns; auto 6|].
    intros n t4 HI4 X4 (Ln & a2 & x2 & h2 & ->).
    assert (After : forall y, In y (elems (Node a v e h l r)) ->
                              beforeb (key_of v') (key_of y) = true).
    { intros y Hy. exact (treap_all_after Hord _ _ Tp B Hy). }
    assert (Gt : forall y, In y (elems s2) ->
                           compare (key_of v') (key_of y) = true).
    { intros y Hy. apply I2 in Hy. destruct Hy as (Hy & C).
      destruct (compare (key_of v') (key_of y)) eqn:C'; [reflexivity|].
      pose proof (compare_total Hord _ _ C C') as E.
      apply After in Hy. rewrite E, (beforeb_irrefl prio Hord) in Hy.
      discriminate. }
    assert (HK : forall k, has_key (Node a v e h l r) k <->
                           has_key s1 k \/ has_key s2 k).
    { intros k. unfold has_key. split.
      - intros (z & Hz & K1).
        destruct (compare (key_of z) (key_of v')) eqn:C.
        + left. exists z. rewrite I1. auto.
        + right. exists z. rewrite I2. auto.
      - intros [(z & Hz & K1)|(z & Hz & K1)]; exists z.
        + apply I1 in Hz. tauto.
        + apply I2 in Hz. tauto. }
    split; [assumption|]. split.
    + apply treap_node; auto.
      * intros y Hy. apply Ia in Hy. destruct Hy as [Hy|(Hy & _)]; auto.
        apply I1 in Hy. tauto.
      * intros y Hy. apply Ib in Hy. destruct Hy as [Hy|(Hy & _)]; auto.
      * intros y Hy. apply Ia in Hy. destruct Hy as [Hy|(Hy & _)]; auto.
        apply I1 in Hy. apply After. tauto.
      * intros y Hy. apply Ib in Hy. destruct Hy as [Hy|(Hy & _)]; auto.
        apply I2 in Hy. apply After. tauto.
    + intros y. rewrite in_elems_node, Ia, Ib, I1, I2, HK.
      rewrite (in_elems_node y a' v' e' h' l' r'). split.
      * intros [[(H & C)|(H & NK)]|[H|[(H & C)|(H & NK)]]]; auto.
        -- right. split; [auto|]. intros [K1|(z & Hz & K1)]; [tauto|].
           apply Gt in Hz. rewrite K1 in Hz. apply Ll' in H.
           rewrite (compare_asym Hord _ _ Hz) in H. discriminate.
        -- subst y. right. split; [auto|].
           rewrite <- HK. eapply (treap_after_no_key Hord); eauto.
        -- right. split; [auto|]. intros [(z & Hz & K1)|K1]; [|tauto].
           apply I1 in Hz. destruct Hz as (_ & Hz). rewrite K1 in Hz.
           apply Lr' in H.
           rewrite (compare_asym Hord _ _ Hz) in H. discriminate.
      * intros [H|(H & NK)].
        -- destruct (compare (key_of y) (key_of v')) eqn:C; auto 6.
        -- destruct H as [H|[H|H]]; auto.
           ++ left. right. split; [assumption|]. tauto.
           ++ right. right. right. split; [assumption|]. tauto.
  - (* SAME *)
    eapply returns_bind; [apply (IH l l' s); auto; lia|].
    intros a1 t2 HI2 X2 (La & Ta & Ia).
    eapply returns_bind; [apply (IH r r' t2); auto; lia|].
    intros b1 t3 HI3 X3 (Lb & Tb & Ib).
    eapply returns_weaken; [apply make_node_from_returns; auto|].
    intros n t4 HI4 X4 (Ln & a2 & x2 & h2 & ->).
    rewrite <- E in *.
    split; [assumption|]. split.
    + apply treap_node; auto.
      * intros y Hy. apply Ia in Hy. destruct Hy as [Hy|(Hy & _)]; auto.
      * intros y Hy. apply Ib in Hy. destruct Hy as [Hy|(Hy & _)]; auto.
      * intros y Hy. apply Ia in Hy. destruct Hy as [Hy|(Hy & _)]; auto.
      * intros y Hy. apply Ib in Hy. destruct Hy as [Hy|(Hy & _)]; auto.
    + intros y. rewrite in_elems_node, Ia, Ib.
      rewrite (in_elems_node y a v e h l r), (in_elems_node y a' v' e' h' l' r').
      rewrite has_key_node. split.
      * intros [[H|(H & NK)]|[H|[H|(H & NK)]]]; auto.
        -- right. split; [auto|]. intros [K1|[K1|(z & Hz & K1)]]; [tauto| |].
           ++ apply Ll' in H. rewrite K1, (compare_irrefl Hord) in H.
              discriminate.
           ++ apply Lr in Hz. rewrite K1 in Hz. apply Ll' in H.
              rewrite (compare_asym Hord _ _ Hz) in H. discriminate.
        -- right. split; [auto|]. intros [(z & Hz & K1)|[K1|K1]]; [| |tauto].
           ++ apply Ll in Hz. rewrite K1 in Hz. apply Lr' in H.
              rewrite (compare_asym Hord _ _ Hz) in H. discriminate.
           ++ apply Lr' in H. rewrite K1, (compare_irrefl Hord) in H.
              discriminate.
      * intros [[H|[H|H]]|([H|[H|H]] & NK)]; auto.
        -- left. right. split; [assumption|]. tauto.
        -- subst y. exfalso. apply NK. auto.
        -- right. right. right. split; [assumption|]. tauto.
Qed.

Section Ranker.

Variable same : V -> V -> bool.
Variable ranker : nodeptr -> nodeptr -> ranking.

Hypothesis same_refl : forall y, same y y = true.
Hypothesis ranker_spec : forall p q, ranker p q = rank_with same p q.

Local Notation "'agrees'" := (agrees same).

Lemma ranker_cases s a v x h l r a' v' x' h' l' r' :
  Inv s -> live s (Node a v x h l r) -> live s (Node a' v' x' h' l' r') ->
  let p := Node a v x h l r in
  let q := Node a' v' x' h' l' r' in
  (ranker p q = LEFT /\ beforeb (key_of v) (key_of v') = true)
  \/ (ranker p q = RIGHT /\ beforeb (key_of v') (key_of v) = true)
  \/ (ranker p q = SAME /\ key_of v = key_of v' /\ same v v' = true)
  \/ (ranker p q = NOT_SAME /\ key_of v = key_of v' /\ same v v' = false).
Proof.
  intros HI Hp Hq p q. subst p q. rewrite ranker_spec. unfold rank_with.
  rewrite (rank_live HI Hp Hq).
  destruct (rank_keys_cases prio Hord (key_of v) (key_of v'))
    as [(-> & B)|[(-> & B)|(-> & E)]]; auto.
  destruct (same v v') eqn:S; auto 6.
Qed.

Lemma agrees_incl y (p q : nodeptr) :
  (forall z, In z (elems p) -> In z (elems q)) -> agrees y p -> agrees y q.
Proof.
  intros H (z & Hz & E). exists z. auto.
Qed.

Lemma agrees_has_key y (p : nodeptr) : agrees y p -> has_key p (key_of y).
Proof.
  intros (z & Hz & E & _). exists z. auto.
Qed.

Lemma agrees_self y (p : nodeptr) : In y (elems p) -> agrees y p.
Proof.
  intros H. exists y. auto.
Qed.

(** [set_intersection]: the elements of the left tree that the right tree
    agrees with. *)
Lemma set_intersection_rec_ok fuel (p q : nodeptr) s :
  Inv s -> live s p -> live s q -> treap p -> treap q ->
  (Internal.nodes p + Internal.nodes q < fuel)%nat ->
  returns (Internal.set_intersection_rec fuel ranker p q) s
    (fun n s' =>
       live s' n /\ treap n
       /\ (forall y, In y (elems n) <-> In y (elems p) /\ agrees y q)).
Proof.
  revert p q s. induction fuel as [|fuel IH]; intros p q s HI Hp Hq Tp Tq Hf;
    [lia|].
  cbn [Internal.set_intersection_rec].
  destruct (Internal.is_null p || Internal.is_null q) eqn:E1.
  { apply returns_ret; [assumption|]. split; [apply st_null|].
    split; [exact I|]. intros y. split; [intros []|].
    intros (H & z & Hz & _).
    apply orb_true_iff in E1. destruct E1 as [E1|E1].
    - destruct p; [destruct H|discriminate].
    - destruct q; [destruct Hz|discriminate]. }
  apply orb_false_iff in E1. destruct E1 as [E1 E2].
  destruct (Internal.ptr_eq p q) eqn:E3.
  { apply (ptr_eq_live HI Hp Hq) in E3. subst q.
    apply returns_ret; [assumption|]. split; [assumption|].
    split; [assumption|]. intros y. split; [|tauto].
    intros H. split; [assumption|]. apply agrees_self. assumption. }
  destruct p as [|a v e h l r]; [discriminate|].
  destruct q as [|a' v' e' h' l' r']; [discriminate|].
  destruct (st_children HI Hp) as (Hl & Hr).
  destruct (st_children HI Hq) as (Hl' & Hr').
  pose proof Tp as (Tl & Tr' & Ll & Lr & Bl & Br).
  pose proof Tq as (Tl' & Tr'' & Ll' & Lr' & Bl' & Br').
  cbn [Internal.nodes] in Hf.
  destruct (ranker_cases HI Hp Hq)
    as [(-> & B)|[(-> & B)|[(-> & E & S)|(-> & E & S)]]].
  - (* LEFT *)
    eapply returns_bind; [apply (split_ok (key_of v) HI Hq Tq)|].
    intros [s1 s2] t1 HI1 X1 (L1 & L2 & T1 & T2 & I1 & I2).
    cbn [fst snd] in *.
    assert (N1 : (Internal.nodes s1 <= Internal.nodes (Node a' v' e' h' l' r'))%nat)
      by (apply (nodes_incl prio Hord); [assumption|];
          intros y Hy; apply I1 in Hy; tauto).
    assert (N2 : (Internal.nodes s2 <= Internal.nodes (Node a' v' e' h' l' r'))%nat)
      by (apply (nodes_incl prio Hord); [assumption|];
          intros y Hy; apply I2 in Hy; tauto).
    cbn [Internal.nodes] in N1, N2.
    eapply returns_bind; [apply (IH l s1 t1); auto; lia|].
    intros a1 t2 HI2 X2 (La & Ta & Ia).
    eapply returns_bind; [apply (IH r s2 t2); auto; lia|].
    intros b1 t3 HI3 X3 (Lb & Tb & Ib).
    eapply returns_weaken.
    { apply join_ok; auto. intros x y Hx Hy.
      apply Ia in Hx. apply Ib in Hy.
      eapply (compare_trans Hord); [apply Ll|apply Lr]; tauto. }
    intros n t4 HI4 X4 (Ln & Tn & In').
    split; [assumption|]. split; [assumption|].
    intros y. rewrite In', Ia, Ib, in_elems_node. split.
    + intros [(H & A)|(H & A)]; (split; [auto|]);
        (eapply agrees_incl; [|exact A]); intros z Hz;
        [apply I1 in Hz|apply I2 in Hz]; tauto.
    + intros ([H|[H|H]] & A).
      * left. split; [assumption|]. destruct A as (z & Hz & K1 & S).
        exists z. rewrite I1, K1. auto.
      * subst y. exfalso. apply agrees_has_key in A.
        exact (treap_after_no_key Hord Tq B A).
      * right. split; [assumption|]. destruct A as (z & Hz & K1 & S).
        exists z. rewrite I2, K1. repeat split; auto.
        apply (compare_asym Hord). auto.
  - (* RIGHT *)
    eapply returns_bind; [apply (split_ok (key_of v') HI Hp Tp)|].
    intros [s1 s2] t1 HI1 X1 (L1 & L2 & T1 & T2 & I1 & I2).
    cbn [fst snd] in *.
    assert (N1 : (Internal.nodes s1 <= Internal.nodes (Node a v e h l r))%nat)
      by (apply (nodes_incl prio Hord); [assumption|];
          intros y Hy; apply I1 in Hy; tauto).
    assert (N2 : (Internal.nodes s2 <= Internal.nodes (Node a v e h l r))%nat)
      by (apply (nodes_incl prio Hord); [assumption|];
          intros y Hy; apply I2 in Hy; tauto).
    cbn [Internal.nodes] in N1, N2.
    eapply returns_bind; [apply (IH s1 l' t1); auto; lia|].
    intros a1 t2 HI2 X2 (La & Ta & Ia).
    eapply returns_bind; [apply (IH s2 r' t2); auto; lia|].
    intros b1 t3 HI3 X3 (Lb & Tb & Ib).
    eapply returns_weaken.
    { apply join_ok; auto. intros x y Hx Hy.
      apply Ia in Hx. apply Ib in Hy.
      destruct Hx as (Hx & _). destruct Hy as (_ & z & Hz & K1 & _).
      apply I1 in Hx. apply Lr' in Hz. rewrite K1 in Hz.
      eapply (compare_trans Hord); [|exact Hz]. tauto. }
    intros n t4 HI4 X4 (Ln & Tn & In').
    split; [assumption|]. split; [assumption|].
    intros y. rewrite In', Ia, Ib, I1, I2. split.
    + intros [((H & C) & A)|((H & C) & A)]; (split; [auto|]);
        (eapply agrees_incl; [|exact A]); intros z Hz;
        apply in_elems_node; auto.
    + intros (H & z & Hz & K1 & S).
      apply in_elems_node in Hz. destruct Hz as [Hz|[Hz|Hz]].
      * left. split; [|exists z; auto]. split; [assumption|].
        rewrite <- K1. auto.
      * subst z. exfalso. apply (treap_after_no_key Hord Tp B).
        exists y. auto.
      * right. split; [|exists z; auto]. split; [assumption|].
        rewrite <- K1. apply (compare_asym Hord). auto.
  - (* SAME *)
    eapply returns_bind; [apply (IH l l' s); auto; lia|].
    intros a1 t2 HI2 X2 (La & Ta & Ia).
    eapply returns_bind; [apply (IH r r' t2); auto; lia|].
    intros b1 t3 HI3 X3 (Lb & Tb & Ib).
    eapply returns_weaken; [apply make_node_from_returns; auto|].
    intros n t4 HI4 X4 (Ln & a2 & x2 & h2 & ->).
    split; [assumption|]. split.
    + apply treap_node; auto.
      * intros y Hy. apply Ia in Hy. apply Ll. tauto.
      * intros y Hy. apply Ib in Hy. apply Lr. tauto.
      * intros y Hy. apply Ia in Hy. apply Bl. tauto.
      * intros y Hy. apply Ib in Hy. apply Br. tauto.
    + intros y. rewrite in_elems_node, Ia, Ib.
      rewrite (in_elems_node y a v e h l r). split.
      * intros [(H & A)|[H|(H & A)]].
        -- split; [auto|]. eapply agrees_incl; [|exact A].
           intros z Hz. apply in_elems_node. auto.
        -- subst y. split; [auto|]. exists v'.
           rewrite in_elems_node. auto.
        -- split; [auto|]. eapply agrees_incl; [|exact A].
           intros z Hz. apply in_elems_node. auto.
      * intros ([H|[H|H]] & z & Hz & K1 & S'); auto.
        -- left. split; [assumption|]. exists z. repeat split; auto.
           apply (treap_left_iff Hord z Tq). split; [assumption|].
           rewrite K1, <- E. auto.
        -- right. right. split; [assumption|]. exists z. repeat split; auto.
           apply (treap_right_iff Hord z Tq). split; [assumption|].
           rewrite K1, <- E. auto.
  - (* NOT_SAME *)
    eapply returns_bind; [apply (IH l l' s); auto; lia|].
    intros a1 t2 HI2 X2 (La & Ta & Ia).
    eapply returns_bind; [apply (IH r r' t2); auto; lia|].
    intros b1 t3 HI3 X3 (Lb & Tb & Ib).
    eapply returns_weaken.
    { apply join_ok; auto. intros x y Hx Hy.
      apply Ia in Hx. apply Ib in Hy.
      eapply (compare_trans Hord); [apply Ll|apply Lr]; tauto. }
    intros n t4 HI4 X4 (Ln & Tn & In').
    split; [assumption|]. split; [assumption|].
    intros y. rewrite In', Ia, Ib, in_elems_node. split.
    + intros [(H & A)|(H & A)]; (split; [auto|]);
        (eapply agrees_incl; [|exact A]); intros z Hz;
        apply in_elems_node; auto.
    + intros ([H|[H|H]] & z & Hz & K1 & S').
      * left. split; [assumption|]. exists z. repeat split; auto.
        apply (treap_left_iff Hord z Tq). split; [assumption|].
        rewrite K1, <- E. auto.
      * subst y. exfalso.
        assert (z = v'); [|congruence].
        apply (treap_keys_unique prio Hord (Node a' v' e' h' l' r')); auto.
        -- apply in_elems_node. auto.
        -- congruence.
      * right. split; [assumption|]. exists z. repeat split; auto.
        apply (treap_right_iff Hord z Tq). split; [assumption|].
        rewrite K1, <- E. auto.
Qed.

(** [set_difference]: the elements of the left tree that the right tree
    does not agree with. *)
Lemma set_difference_rec_ok fuel (p q : nodeptr) s :
  Inv s -> live s p -> live s q -> treap p -> treap q ->
  (Internal.nodes p + Internal.nodes q < fuel)%nat ->
  returns (Internal.set_difference_rec fuel ranker p q) s
    (fun n s' =>
       live s' n /\ treap n
       /\ (forall y, In y (elems n) <-> In y (elems p) /\ ~ agrees y q)).
Proof.
  revert p q s. induction fuel as [|fuel IH]; intros p q s HI Hp Hq Tp Tq Hf;
    [lia|].
  cbn [Internal.set_difference_rec].
  destruct (Internal.ptr_eq p q || Internal.is_null p) eqn:E1.
  { apply returns_ret; [assumption|]. split; [apply st_null|].
    split; [exact I|]. intros y. split; [intros []|].
    intros (H & NA).
    apply orb_true_iff in E1. destruct E1 as [E1|E1].
    - apply (ptr_eq_live HI Hp Hq) in E1. subst q.
      apply NA, agrees_self, H.
    - destruct p; [destruct H|discriminate]. }
  apply orb_false_iff in E1. destruct E1 as [E1 E2].
  destruct q as [|a' v' e' h' l' r'].
  { cbn [Internal.is_null]. apply returns_ret; [assumption|].
    split; [assumption|]. split; [assumption|]. intros y. split; [|tauto].
    intros H. split; [assumption|]. intros (z & [] & _). }
  destruct p as [|a v e h l r]; [discriminate|].
  cbn [Internal.is_null]. cbv iota.
  destruct (st_children HI Hp) as (Hl & Hr).
  destruct (st_children HI Hq) as (Hl' & Hr').
  pose proof Tp as (Tl & Tr' & Ll & Lr & Bl & Br).
  pose proof Tq as (Tl' & Tr'' & Ll' & Lr' & Bl' & Br').
  cbn [Internal.nodes] in Hf.
  destruct (ranker_cases HI Hp Hq)
    as [(-> & B)|[(-> & B)|[(-> & E & S)|(-> & E & S)]]].
  - (* LEFT *)
    eapply returns_bind; [apply (split_ok (key_of v) HI Hq Tq)|].
    intros [s1 s2] t1 HI1 X1 (L1 & L2 & T1 & T2 & I1 & I2).
    cbn [fst snd] in *.
    assert (N1 : (Internal.nodes s1 <= Internal.nodes (Node a' v' e' h' l' r'))%nat)
      by (apply (nodes_incl prio Hord); [assumption|];
          intros y Hy; apply I1 in Hy; tauto).
    assert (N2 : (Internal.nodes s2 <= Internal.nodes (Node a' v' e' h' l' r'))%nat)
      by (apply (nodes_incl prio Hord); [assumption|];
          intros y Hy; apply I2 in Hy; tauto).
    cbn [Internal.nodes] in N1, N2.
    eapply returns_bind; [apply (IH l s1 t1); auto; lia|].
    intros a1 t2 HI2 X2 (La & Ta & Ia).
    eapply returns_bind; [apply (IH r s2 t2); auto; lia|].
    intros b1 t3 HI3 X3 (Lb & Tb & Ib).
    eapply returns_weaken; [apply make_node_from_returns; auto|].
    intros n t4 HI4 X4 (Ln & a2 & x2 & h2 & ->).
    split; [assumption|]. split.
    + apply treap_node; auto.
      * intros y Hy. apply Ia in Hy. apply Ll. tauto.
      * intros y Hy. apply Ib in Hy. apply Lr. tauto.
      * intros y Hy. apply Ia in Hy. apply Bl. tauto.
      * intros y Hy. apply Ib in Hy. apply Br. tauto.
    + intros y. rewrite in_elems_node, Ia, Ib.
      rewrite (in_elems_node y a v e h l r). split.
      * intros [(H & NA)|[H|(H & NA)]].
        -- split; [auto|]. intros (z & Hz & K1 & S). apply NA.
           exists z. rewrite I1, K1. auto.
        -- subst y. split; [auto|]. intros A. apply agrees_has_key in A.
           exact (treap_after_no_key Hord Tq B A).
        -- split; [auto|]. intros (z & Hz & K1 & S). apply NA.
           exists z. rewrite I2, K1. repeat split; auto.
           apply (compare_asym Hord). auto.
      * intros ([H|[H|H]] & NA); auto.
        -- left. split; [assumption|]. intros A. apply NA.
           eapply agrees_incl; [|exact A]. intros z Hz. apply I1 in Hz. tauto.
        -- right. right. split; [assumption|]. intros A. apply NA.
           eapply agrees_incl; [|exact A]. intros z Hz. apply I2 in Hz. tauto.
  - (* RIGHT *)
    eapply returns_bind; [apply (split_ok (key_of v') HI Hp Tp)|].
    intros [s1 s2] t1 HI1 X1 (L1 & L2 & T1 & T2 & I1 & I2).
    cbn [fst snd] in *.
    assert (N1 : (Internal.nodes s1 <= Internal.nodes (Node a v e h l r))%nat)
      by (apply (nodes_incl prio Hord); [assumption|];
          intros y Hy; apply I1 in Hy; tauto).
    assert (N2 : (Internal.nodes s2 <= Internal.nodes (Node a v e h l r))%nat)
      by (apply (nodes_incl prio Hord); [assumption|];
          intros y Hy; apply I2 in Hy; tauto).
    cbn [Internal.nodes] in N1, N2.
    eapply returns_bind; [apply (IH s1 l' t1); auto; lia|].
    intros a1 t2 HI2 X2 (La & Ta & Ia).
    eapply returns_bind; [apply (IH s2 r' t2); auto; lia|].
    intros b1 t3 HI3 X3 (Lb & Tb & Ib).
    eapply returns_weaken.
    { apply join_ok; auto. intros x y Hx Hy.
      apply Ia in Hx. apply Ib in Hy.
      destruct Hx as (Hx & _). destruct Hy as (Hy & _).
      apply I1 in Hx. apply I2 in Hy.
      eapply (compare_lt_nlt Hord); [apply Hx|apply Hy]. }
    intros n t4 HI4 X4 (Ln & Tn & In').
    split; [assumption|]. split; [assumption|].
    intros y. rewrite In', Ia, Ib, I1, I2. split.
    + intros [((H & C) & NA)|((H & C) & NA)]; (split; [auto|]);
        intros (z & Hz & K1 & S); apply in_elems_node in Hz;
        destruct Hz as [Hz|[Hz|Hz]].
      * apply NA. exists z. auto.
      * subst z. rewrite K1, (compare_irrefl Hord) in C. discriminate.
      * apply Lr' in Hz. rewrite K1 in Hz.
        rewrite (compare_asym Hord _ _ Hz) in C. discriminate.
      * apply Ll' in Hz. rewrite K1 in Hz. congruence.
      * subst z. apply (treap_after_no_key Hord Tp B). exists y. auto.
      * apply NA. exists z. auto.
    + intros (H & NA).
      destruct (compare (key_of y) (key_of v')) eqn:C.
      * left. split; [auto|]. intros A. apply NA.
        eapply agrees_incl; [|exact A]. intros z Hz.
        apply in_elems_node. auto.
      * right. split; [auto|]. intros A. apply NA.
        eapply agrees_incl; [|exact A]. intros z Hz.
        apply in_elems_node. auto.
  - (* SAME *)
    eapply returns_bind; [apply (IH l l' s); auto; lia|].
    intros a1 t2 HI2 X2 (La & Ta & Ia).
    eapply returns_bind; [apply (IH r r' t2); auto; lia|].
    intros b1 t3 HI3 X3 (Lb & Tb & Ib).
    eapply returns_weaken.
    { apply join_ok; auto. intros x y Hx Hy.
      apply Ia in Hx. apply Ib in Hy.
      eapply (compare_trans Hord); [apply Ll|apply Lr]; tauto. }
    intros n t4 HI4 X4 (Ln & Tn & In').
    split; [assumption|]. split; [assumption|].
    intros y. rewrite In', Ia, Ib, in_elems_node. split.
    + intros [(H & NA)|(H & NA)]; (split; [auto|]);
        intros (z & Hz & K1 & S'); apply NA; exists z; repeat split; auto.
      * apply (treap_left_iff Hord z Tq). split; [assumption|].
        rewrite K1, <- E. auto.
      * apply (treap_right_iff Hord z Tq). split; [assumption|].
        rewrite K1, <- E. auto.
    + intros ([H|[H|H]] & NA).
      * left. split; [assumption|]. intros A. apply NA.
        eapply agrees_incl; [|exact A]. intros z Hz.
        apply in_elems_node. auto.
      * subst y. exfalso. apply NA. exists v'.
        rewrite in_elems_node. auto.
      * right. split; [assumption|]. intros A. apply NA.
        eapply agrees_incl; [|exact A]. intros z Hz.
        apply in_elems_node. auto.
  - (* NOT_SAME *)
    eapply returns_bind; [apply (IH l l' s); auto; lia|].
    intros a1 t2 HI2 X2 (La & Ta & Ia).
    eapply returns_bind; [apply (IH r r' t2); auto; lia|].
    intros b1 t3 HI3 X3 (Lb & Tb & Ib).
    eapply returns_weaken; [apply make_node_from_returns; auto|].
    intros n t4 HI4 X4 (Ln & a2 & x2 & h2 & ->).
    split; [assumption|]. split.
    + apply treap_node; auto.
      * intros y Hy. apply Ia in Hy. apply Ll. tauto.
      * intros y Hy. apply Ib in Hy. apply Lr. tauto.
      * intros y Hy. apply Ia in Hy. apply Bl. tauto.
      * intros y Hy. apply Ib in Hy. apply Br. tauto.
    + intros y. rewrite in_elems_node, Ia, Ib.
      rewrite (in_elems_node y a v e h l r). split.
      * intros [(H & NA)|[H|(H & NA)]]; (split; [auto|]);
          intros (z & Hz & K1 & S').
        -- apply NA. exists z. repeat split; auto.
           apply (treap_left_iff Hord z Tq). split; [assumption|].
           rewrite K1, <- E. auto.
        -- subst y. assert (z = v'); [|congruence].
           apply (treap_keys_unique prio Hord (Node a' v' e' h' l' r')); auto.
           ++ apply in_elems_node. auto.
           ++ congruence.
        -- apply NA. exists z. repeat split; auto.
           apply (treap_right_iff Hord z Tq). split; [assumption|].
           rewrite K1, <- E. auto.
      * intros ([H|[H|H]] & NA); auto.
        -- left. split; [assumption|]. intros A. apply NA.
           eapply agrees_incl; [|exact A]. intros z Hz.
           apply in_elems_node. auto.
        -- right. right. split; [assumption|]. intros A. apply NA.
           eapply agrees_incl; [|exact A]. intros z Hz.
           apply in_elems_node. auto.
Qed.

Lemma covers_length (p q : nodeptr) :
  treap p -> treap q -> covers same p q ->
  (length (elems q) <= length (elems p))%nat.
Proof.
  intros Tp Tq C.
  rewrite <- (length_map key_of (elems q)), <- (length_map key_of (elems p)).
  apply NoDup_incl_length; [apply (treap_NoDup_keys prio Hord); assumption|].
  intros k Hk. apply in_map_iff in Hk. destruct Hk as (z & <- & Hz).
  destruct (C z Hz) as (y & Hy & E & _). rewrite <- E.
  apply in_map. assumption.
Qed.

(** [includes] decides whether the left tree covers the right one. *)
Lemma includes_rec_ok fuel (p q : nodeptr) s :
  Inv s -> live s p -> live s q -> treap p -> treap q ->
  (Internal.nodes p + Internal.nodes q < fuel)%nat ->
  returns (Internal.includes_rec fuel ranker p q) s
    (fun b _ => b = true <-> covers same p q).
Proof.
  revert p q s. induction fuel as [|fuel IH]; intros p q s HI Hp Hq Tp Tq Hf;
    [lia|].
  cbn [Internal.includes_rec].
  destruct (Internal.ptr_eq p q || Internal.is_null q) eqn:E1.
  { apply returns_ret; [assumption|]. split; [|reflexivity]. intros _.
    apply orb_true_iff in E1. destruct E1 as [E1|E1].
    - apply (ptr_eq_live HI Hp Hq) in E1. subst q.
      intros z Hz. exists z. auto.
    - destruct q; [intros z []|discriminate]. }
  apply orb_false_iff in E1. destruct E1 as [E1 E2].
  rewrite (size_live HI Hp), (size_live HI Hq).
  destruct (Z.of_nat (length (elems p)) <? Z.of_nat (length (elems q))) eqn:E3.
  { apply returns_ret; [assumption|]. split; [discriminate|].
    intros C. apply Z.ltb_lt in E3.
    pose proof (covers_length Tp Tq C). lia. }
  apply Z.ltb_ge in E3.
  destruct q as [|a' v' e' h' l' r']; [discriminate|].
  destruct p as [|a v e h l r].
  { exfalso. cbn [elems length] in E3. rewrite length_app in E3.
    cbn [length] in E3. lia. }
  destruct (st_children HI Hp) as (Hl & Hr).
  destruct (st_children HI Hq) as (Hl' & Hr').
  pose proof Tp as (Tl & Tr' & Ll & Lr & Bl & Br).
  pose proof Tq as (Tl' & Tr'' & Ll' & Lr' & Bl' & Br').
  cbn [Internal.nodes] in Hf.
  destruct (ranker_cases HI Hp Hq)
    as [(-> & B)|[(-> & B)|[(-> & E & S)|(-> & E & S)]]].
  - (* LEFT *)
    eapply returns_bind; [apply (split_ok (key_of v) HI Hq Tq)|].
    intros [s1 s2] t1 HI1 X1 (L1 & L2 & T1 & T2 & I1 & I2).
    cbn [fst snd] in *.
    assert (N1 : (Internal.nodes s1 <= Internal.nodes (Node a' v' e' h' l' r'))%nat)
      by (apply (nodes_incl prio Hord); [assumption|];
          intros y Hy; apply I1 in Hy; tauto).
    assert (N2 : (Internal.nodes s2 <= Internal.nodes (Node a' v' e' h' l' r'))%nat)
      by (apply (nodes_incl prio Hord); [assumption|];
          intros y Hy; apply I2 in Hy; tauto).
    cbn [Internal.nodes] in N1, N2.
    assert (C1 : covers same (Node a v e h l r) (Node a' v' e' h' l' r') ->
                 covers same l s1).
    { intros C z Hz. apply I1 in Hz. destruct Hz as (Hz & Cz).
      destruct (C z Hz) as (y & Hy & K1 & S). exists y. repeat split; auto.
      apply (treap_left_iff Hord y Tp). rewrite K1. auto. }
    assert (C2 : covers same (Node a v e h l r) (Node a' v' e' h' l' r') ->
                 covers same r s2).
    { intros C z Hz. apply I2 in Hz. destruct Hz as (Hz & Cz).
      destruct (C z Hz) as (y & Hy & K1 & S). exists y. repeat split; auto.
      apply in_elems_node in Hy. destruct Hy as [Hy|[Hy|Hy]]; auto.
      - apply Ll in Hy. rewrite K1 in Hy. congruence.
      - subst y. exfalso. apply (treap_after_no_key Hord Tq B).
        exists z. auto. }
    eapply returns_bind; [apply (IH l s1 t1); auto; lia|].
    intros b1 t2 HI2 X2 Hb1. destruct b1.
    + eapply returns_weaken; [apply (IH r s2 t2); auto; lia|].
      intros b2 t3 HI3 X3 Hb2. cbv beta in *. rewrite Hb2. split; [|exact C2].
      intros Cr z Hz. destruct (compare (key_of z) (key_of v)) eqn:Cz.
      * destruct (proj1 Hb1 eq_refl z) as (y & Hy & K1 & S);
          [apply I1; auto|].
        exists y. rewrite in_elems_node. auto.
      * destruct (Cr z) as (y & Hy & K1 & S); [apply I2; auto|].
        exists y. rewrite in_elems_node. auto.
    + apply returns_ret; [assumption|]. split; [discriminate|].
      intros C. apply Hb1, C1, C.
  - (* RIGHT *)
    apply returns_ret; [assumption|]. split; [discriminate|].
    intros C. exfalso. destruct (C v') as (y & Hy & K1 & _).
    { apply in_elems_node. auto. }
    apply (treap_after_no_key Hord Tp B). exists y. auto.
  - (* SAME *)
    eapply returns_bind; [apply (IH l l' s); auto; lia|].
    intros b1 t2 HI2 X2 Hb1.
    assert (C1 : covers same (Node a v e h l r) (Node a' v' e' h' l' r') ->
                 covers same l l').
    { intros C z Hz. destruct (C z) as (y & Hy & K1 & S');
        [apply in_elems_node; auto|].
      exists y. repeat split; auto.
      apply (treap_left_iff Hord y Tp). rewrite K1, E. auto. }
    assert (C2 : covers same (Node a v e h l r) (Node a' v' e' h' l' r') ->
                 covers same r r').
    { intros C z Hz. destruct (C z) as (y & Hy & K1 & S');
        [apply in_elems_node; auto|].
      exists y. repeat split; auto.
      apply (treap_right_iff Hord y Tp). rewrite K1, E. auto. }
    destruct b1.
    + eapply returns_weaken; [apply (IH r r' t2); auto; lia|].
      intros b2 t3 HI3 X3 Hb2. cbv beta in *. rewrite Hb2. split; [|exact C2].
      intros Cr z Hz. apply in_elems_node in Hz.
      destruct Hz as [Hz|[Hz|Hz]].
      * destruct (proj1 Hb1 eq_refl z Hz) as (y & Hy & K1 & S').
        exists y. rewrite in_elems_node. auto.
      * subst z. exists v. rewrite in_elems_node. auto.
      * destruct (Cr z Hz) as (y & Hy & K1 & S').
        exists y. rewrite in_elems_node. auto.
    + apply returns_ret; [assumption|]. split; [discriminate|].
      intros C. apply Hb1, C1, C.
  - (* NOT_SAME *)
    apply returns_ret; [assumption|]. split; [discriminate|].
    intros C. exfalso. destruct (C v') as (y & Hy & K1 & S').
    { apply in_elems_node. auto. }
    assert (y = v); [|congruence].
    apply (treap_keys_unique prio Hord (Node a v e h l r)); auto.
    + apply in_elems_node. auto.
    + congruence.
Qed.

End Ranker.

(** What [split] says of keys. *)
Lemma split_has_key (p s1 s2 : nodeptr) key :
  (forall y, In y (elems s1) <->
             In y (elems p) /\ compare (key_of y) key = true) ->
  (forall y, In y (elems s2) <->
             In y (elems p) /\ compare (key_of y) key = false) ->
  forall k,
    (has_key s1 k <-> has_key p k /\ compare k key = true)
    /\ (has_key s2 k <-> has_key p k /\ compare k key = false).
Proof.
  intros I1 I2 k. unfold has_key. split; split.
  - intros (z & Hz & <-). apply I1 in Hz. split; [exists z|]; tauto.
  - intros ((z & Hz & <-) & C). exists z. rewrite I1. auto.
  - intros (z & Hz & <-). apply I2 in Hz. split; [exists z|]; tauto.
  - intros ((z & Hz & <-) & C). exists z. rewrite I2. auto.
Qed.

Lemma has_key_left a v x h (l r : nodeptr) k :
  treap (Node a v x h l r) ->
  (has_key l k <-> has_key (Node a v x h l r) k /\ compare k (key_of v) = true).
Proof.
  intros T. unfold has_key. split.
  - intros (z & Hz & <-). apply (treap_left_iff Hord z T) in Hz.
    split; [exists z|]; tauto.
  - intros ((z & Hz & <-) & C). exists z.
    rewrite (treap_left_iff Hord z T). auto.
Qed.

Lemma has_key_right a v x h (l r : nodeptr) k :
  treap (Node a v x h l r) ->
  (has_key r k <-> has_key (Node a v x h l r) k /\ compare (key_of v) k = true).
Proof.
  intros T. unfold has_key. split.
  - intros (z & Hz & <-). apply (treap_right_iff Hord z T) in Hz.
    split; [exists z|]; tauto.
  - intros ((z & Hz & <-) & C). exists z.
    rewrite (treap_right_iff Hord z T). auto.
Qed.

Lemma in_has_key (p : nodeptr) y : In y (elems p) -> has_key p (key_of y).
Proof. intros H. exists y. auto. Qed.

(** [set_symmetric]: the elements of either tree whose key the other tree
    does not hold. *)
Lemma set_symmetric_rec_ok fuel (p q : nodeptr) s :
  Inv s -> live s p -> live s q -> treap p -> treap q ->
  (Internal.nodes p + Internal.nodes q < fuel)%nat ->
  returns (Internal.set_symmetric_rec fuel p q) s
    (fun n s' =>
       live s' n /\ treap n
       /\ (forall y, In y (elems n) <->
             (In y (elems p) /\ ~ has_key q (key_of y))
             \/ (In y (elems q) /\ ~ has_key p (key_of y)))).
Proof.
  revert p q s. induction fuel as [|fuel IH]; intros p q s HI Hp Hq Tp Tq Hf;
    [lia|].
  cbn [Internal.set_symmetric_rec].
  destruct p as [|a v e h l r].
  { cbn [Internal.is_null]. apply returns_ret; [assumption|].
    split; [assumption|]. split; [assumption|]. intros y. split.
    - intros H. right. split; [assumption|]. apply has_key_null.
    - intros [([] & _)|(H & _)]. assumption. }
  destruct q as [|a' v' e' h' l' r'].
  { cbn [Internal.is_null]. apply returns_ret; [assumption|].
    split; [assumption|]. split; [assumption|]. intros y. split.
    - intros H. left. split; [assumption|]. apply has_key_null.
    - intros [(H & _)|([] & _)]. assumption. }
  cbn [Internal.is_null].
  destruct (Internal.ptr_eq (Node a v e h l r) (Node a' v' e' h' l' r')) eqn:E3.
  { apply (ptr_eq_live HI Hp Hq) in E3. rewrite <- E3.
    apply returns_ret; [assumption|]. split; [apply st_null|].
    split; [exact I|]. intros y. split; [intros []|].
    intros [(H & NK)|(H & NK)]; apply NK, in_has_key, H. }
  destruct (st_children HI Hp) as (Hl & Hr).
  destruct (st_children HI Hq) as (Hl' & Hr').
  pose proof Tp as (Tl & Tr' & Ll & Lr & Bl & Br).
  pose proof Tq as (Tl' & Tr'' & Ll' & Lr' & Bl' & Br').
  cbn [Internal.nodes] in Hf.
  rewrite (rank_live HI Hp Hq).
  destruct (rank_keys_cases prio Hord (key_of v) (key_of v'))
    as [(-> & B)|[(-> & B)|(-> & E)]].
  - (* LEFT *)
    eapply returns_bind; [apply (split_ok (key_of v) HI Hq Tq)|].
    intros [s1 s2] t1 HI1 X1 (L1 & L2 & T1 & T2 & I1 & I2).
    cbn [fst snd] in *.
    assert (N1 : (Internal.nodes s1 <= Internal.nodes (Node a' v' e' h' l' r'))%nat)
      by (apply (nodes_incl prio Hord); [assumption|];
          intros y Hy; apply I1 in Hy; tauto).
    assert (N2 : (Internal.nodes s2 <= Internal.nodes (Node a' v' e' h' l' r'))%nat)
      by (apply (nodes_incl prio Hord); [assumption|];
          intros y Hy; apply I2 in Hy; tauto).
    cbn [Internal.nodes] in N1, N2.
    eapply returns_bind; [apply (IH l s1 t1); auto; lia|].
    intros a1 t2 HI2 X2 (La & Ta & Ia).
    eapply returns_bind; [apply (IH r s2 t2); auto; lia|].
    intros b1 t3 HI3 X3 (Lb & Tb & Ib).
    eapply returns_weaken; [apply make_node_from_returns; auto|].
    intros n t4 HI4 X4 (Ln & a2 & x2 & h2 & ->).
    pose proof (split_has_key _ _ _ _ I1 I2) as HK.
    assert (After : forall y, In y (elems (Node a' v' e' h' l' r')) ->
                              beforeb (key_of v) (key_of y) = true).
    { intros y Hy. exact (treap_all_after Hord _ _ Tq B Hy). }
    assert (NKv : ~ has_key (Node a' v' e' h' l' r') (key_of v)).
    { exact (treap_after_no_key Hord Tq B). }
    assert (Gt : forall y, In y (elems s2) ->
                           compare (key_of v) (key_of y) = true).
    { intros y Hy. apply I2 in Hy. destruct Hy as (Hy & C).
      destruct (compare (key_of v) (key_of y)) eqn:C'; [reflexivity|].
      pose proof (compare_total Hord _ _ C C') as E.
      exfalso. apply NKv. exists y. auto. }
    split; [assumption|]. split.
    + apply treap_node; auto.
      * intros y Hy. apply Ia in Hy. destruct Hy as [(Hy & _)|(Hy & _)]; auto.
        apply I1 in Hy. tauto.
      * intros y Hy. apply Ib in Hy. destruct Hy as [(Hy & _)|(Hy & _)]; auto.
      * intros y Hy. apply Ia in Hy. destruct Hy as [(Hy & _)|(Hy & _)]; auto.
        apply I1 in Hy. apply After. tauto.
      * intros y Hy. apply Ib in Hy. destruct Hy as [(Hy & _)|(Hy & _)]; auto.
        apply I2 in Hy. apply After. tauto.
    + intros y. rewrite (in_elems_node y a2 v x2 h2 a1 b1), Ia, Ib.
      rewrite (in_elems_node y a v e h l r).
      rewrite (has_key_node a v e h l r).
      destruct (HK (key_of y)) as (HK1 & HK2). rewrite HK1, HK2, I1, I2.
      split.
      * intros [[(H & NK)|((H & C) & NK)]|[H|[(H & NK)|((H & C) & NK)]]].
        -- left. split; [auto|]. intros K1. apply NK. split; [assumption|].
           apply Ll. assumption.
        -- right. split; [assumption|].
           intros [K1|[K1|(z & Hz & K1)]]; [tauto| |].
           ++ rewrite K1, (compare_irrefl Hord) in C. discriminate.
           ++ apply Lr in Hz. rewrite K1 in Hz.
              rewrite (compare_asym Hord _ _ Hz) in C. discriminate.
        -- subst y. left. split; [auto|]. assumption.
        -- left. split; [auto|]. intros K1. apply NK. split; [assumption|].
           apply (compare_asym Hord). apply Lr. assumption.
        -- right. split; [assumption|].
           intros [(z & Hz & K1)|[K1|K1]]; [| |tauto].
           ++ apply Ll in Hz. rewrite K1 in Hz. congruence.
           ++ apply NKv. rewrite K1. apply in_has_key. assumption.
      * intros [([H|[H|H]] & NK)|(H & NK)].
        -- left. left. split; [assumption|]. tauto.
        -- auto.
        -- right. right. left. split; [assumption|]. tauto.
        -- destruct (compare (key_of y) (key_of v)) eqn:C.
           ++ left. right. split; [auto|]. tauto.
           ++ right. right. right. split; [auto|]. tauto.
  - (* RIGHT *)
    eapply returns_bind; [apply (split_ok (key_of v') HI Hp Tp)|].
    intros [s1 s2] t1 HI1 X1 (L1 & L2 & T1 & T2 & I1 & I2).
    cbn [fst snd] in *.
    assert (N1 : (Internal.nodes s1 <= Internal.nodes (Node a v e h l r))%nat)
      by (apply (nodes_incl prio Hord); [assumption|];
          intros y Hy; apply I1 in Hy; tauto).
    assert (N2 : (Internal.nodes s2 <= Internal.nodes (Node a v e h l r))%nat)
      by (apply (nodes_incl prio Hord); [assumption|];
          intros y Hy; apply I2 in Hy; tauto).
    cbn [Internal.nodes] in N1, N2.
    eapply returns_bind; [apply (IH s1 l' t1); auto; lia|].
    intros a1 t2 HI2 X2 (La & Ta & Ia).
    eapply returns_bind; [apply (IH s2 r' t2); auto; lia|].
    intros b1 t3 HI3 X3 (Lb & Tb & Ib).
    eapply returns_weaken; [apply make_node_from_returns; auto 6|].
    intros n t4 HI4 X4 (Ln & a2 & x2 & h2 & ->).
    pose proof (split_has_key _ _ _ _ I1 I2) as HK.
    assert (After : forall y, In y (elems (Node a v e h l r)) ->
                              beforeb (key_of v') (key_of y) = true).
    { intros y Hy. exact (treap_all_after Hord _ _ Tp B Hy). }
    assert (NKv : ~ has_key (Node a v e h l r) (key_of v')).
    { exact (treap_after_no_key Hord Tp B). }
    assert (Gt : forall y, In y (elems s2) ->
                           compare (key_of v') (key_of y) = true).
    { intros y Hy. apply I2 in Hy. destruct Hy as (Hy & C).
      destruct (compare (key_of v') (key_of y)) eqn:C'; [reflexivity|].
      pose proof (compare_total Hord _ _ C C') as E.
      exfalso. apply NKv. exists y. auto. }
    split; [assumption|]. split.
    + apply treap_node; auto.
      * intros y Hy. apply Ia in Hy. destruct Hy as [(Hy & _)|(Hy & _)]; auto.
        apply I1 in Hy. tauto.
      * intros y Hy. apply Ib in Hy. destruct Hy as [(Hy & _)|(Hy & _)]; auto.
      * intros y Hy. apply Ia in Hy. destruct Hy as [(Hy & _)|(Hy & _)]; auto.
        apply I1 in Hy. apply After. tauto.
      * intros y Hy. apply Ib in Hy. destruct Hy as [(Hy & _)|(Hy & _)]; auto.
        apply I2 in Hy. apply After. tauto.
    + intros y. rewrite (in_elems_node y a2 v' x2 h2 a1 b1), Ia, Ib.
      rewrite (in_elems_node y a' v' e' h' l' r').
      rewrite (has_key_node a' v' e' h' l' r').
      destruct (HK (key_of y)) as (HK1 & HK2). rewrite HK1, HK2, I1, I2.
      split.
      * intros [[((H & C) & NK)|(H & NK)]|[H|[((H & C) & NK)|(H & NK)]]].
        -- left. split; [assumption|].
           intros [K1|[K1|(z & Hz & K1)]]; [tauto| |].
           ++ rewrite K1, (compare_irrefl Hord) in C. discriminate.
           ++ apply Lr' in Hz. rewrite K1 in Hz.
              rewrite (compare_asym Hord _ _ Hz) in C. discriminate.
        -- right. split; [auto|]. intros K1. apply NK. split; [assumption|].
           apply Ll'. assumption.
        -- subst y. right. split; [auto|]. assumption.
        -- left. split; [assumption|].
           intros [(z & Hz & K1)|[K1|K1]]; [| |tauto].
           ++ apply Ll' in Hz. rewrite K1 in Hz. congruence.
           ++ apply NKv. rewrite K1. apply in_has_key. assumption.
        -- right. split; [auto|]. intros K1. apply NK. split; [assumption|].
           apply (compare_asym Hord). apply Lr'. assumption.
      * intros [(H & NK)|([H|[H|H]] & NK)].
        -- destruct (compare (key_of y) (key_of v')) eqn:C.
           ++ left. left. split; [auto|]. tauto.
           ++ right. right. left. split; [auto|]. tauto.
        -- left. right. split; [assumption|]. tauto.
        -- auto.
        -- right. right. right. split; [assumption|]. tauto.
  - (* SAME *)
    eapply returns_bind; [apply (IH l l' s); auto; lia|].
    intros a1 t2 HI2 X2 (La & Ta & Ia).
    eapply returns_bind; [apply (IH r r' t2); auto; lia|].
    intros b1 t3 HI3 X3 (Lb & Tb & Ib).
    eapply returns_weaken.
    { apply join_ok; auto. intros x y Hx Hy.
      apply Ia in Hx. apply Ib in Hy.
      assert (Cx : compare (key_of x) (key_of v) = true).
      { destruct Hx as [(Hx & _)|(Hx & _)]; [auto|]. rewrite E. auto. }
      assert (Cy : compare (key_of v) (key_of y) = true).
      { destruct Hy as [(Hy & _)|(Hy & _)]; [auto|]. rewrite E. auto. }
      eapply (compare_trans Hord); eauto. }
    intros n t4 HI4 X4 (Ln & Tn & In').
    split; [assumption|]. split; [assumption|].
    intros y. rewrite In', Ia, Ib.
    rewrite (in_elems_node y a v e h l r), (in_elems_node y a' v' e' h' l' r').
    rewrite (has_key_left (key_of y) Tp), (has_key_right (key_of y) Tp).
    rewrite (has_key_left (key_of y) Tq), (has_key_right (key_of y) Tq).
    rewrite <- E.
    split.
    * intros [[(H & NK)|(H & NK)]|[(H & NK)|(H & NK)]].
      -- left. split; [auto|]. intros K1. apply NK. auto.
      -- right. split; [auto|]. intros K1. apply NK. split; [assumption|].
         rewrite E. auto.
      -- left. split; [auto|]. intros K1. apply NK. auto.
      -- right. split; [auto|]. intros K1. apply NK. split; [assumption|].
         rewrite E. auto.
    * intros [([H|[H|H]] & NK)|([H|[H|H]] & NK)].
      -- left. left. split; [assumption|]. tauto.
      -- subst y. exfalso. apply NK. exists v'. rewrite in_elems_node. auto.
      -- right. left. split; [assumption|]. tauto.
      -- left. right. split; [assumption|]. tauto.
      -- subst y. exfalso. apply NK. exists v. rewrite in_elems_node. auto.
      -- right. right. split; [assumption|]. tauto.
Qed.

(** The merges with the recursion budget they take. *)
Lemma set_union_ok (p q : nodeptr) s :
  Inv s -> live s p -> live s q -> treap p -> treap q ->
  returns (Internal.set_union p q) s
    (fun n s' =>
       live s' n /\ treap n
       /\ (forall y, In y (elems n) <->
             In y (elems p) \/ (In y (elems q) /\ ~ has_key p (key_of y)))).
Proof.
  intros. unfold Internal.set_union. apply set_union_rec_ok; auto.
Qed.

Lemma set_symmetric_ok (p q : nodeptr) s :
  Inv s -> live s p -> live s q -> treap p -> treap q ->
  returns (Internal.set_symmetric p q) s
    (fun n s' =>
       live s' n /\ treap n
       /\ (forall y, In y (elems n) <->
             (In y (elems p) /\ ~ has_key q (key_of y))
             \/ (In y (elems q) /\ ~ has_key p (key_of y)))).
Proof.
  intros. unfold Internal.set_symmetric. apply set_symmetric_rec_ok; auto.
Qed.

Section RankerTop.

Variable same : V -> V -> bool.
Variable ranker : nodeptr -> nodeptr -> ranking.

Hypothesis same_refl : forall y, same y y = true.
Hypothesis ranker_spec : forall p q, ranker p q = rank_with same p q.

Lemma set_intersection_ok (p q : nodeptr) s :
  Inv s -> live s p -> live s q -> treap p -> treap q ->
  returns (Internal.set_intersection ranker p q) s
    (fun n s' =>
       live s' n /\ treap n
       /\ (forall y, In y (elems n) <-> In y (elems p) /\ agrees same y q)).
Proof.
  intros. unfold Internal.set_intersection.
  apply set_intersection_rec_ok; auto.
Qed.

Lemma set_difference_ok (p q : nodeptr) s :
  Inv s -> live s p -> live s q -> treap p -> treap q ->
  returns (Internal.set_difference ranker p q) s
    (fun n s' =>
       live s' n /\ treap n
       /\ (forall y, In y (elems n) <-> In y (elems p) /\ ~ agrees same y q)).
Proof.
  intros. unfold Internal.set_difference.
  apply set_difference_rec_ok; auto.
Qed.

Lemma includes_ok (p q : nodeptr) s :
  Inv s -> live s p -> live s q -> treap p -> treap q ->
  returns (Internal.includes ranker p q) s
    (fun b _ => b = true <-> covers same p q).
Proof.
  intros. unfold Internal.includes. apply includes_rec_ok; auto.
Qed.

End RankerTop.

(** [internal::rank] is the ranker that lets every two values agree. *)
Lemma rank_is_rank_with (p q : nodeptr) :
  Internal.rank p q = rank_with (fun _ _ => true) p q.
Proof.
  unfold rank_with. destruct (Internal.rank p q) eqn:E; try reflexivity.
  destruct p, q; reflexivity.
Qed.

Lemma agrees_true y (q : nodeptr) :
  agrees (fun _ _ => true) y q <-> has_key q (key_of y).
Proof.
  unfold agrees, has_key. split.
  - intros (z & Hz & E & _). eauto.
  - intros (z & Hz & E). eauto.
Qed.

(** [erase(env, p, key)]: the flag says that some element is not below
    [key]; the tree returned is [p] without the element of that key. *)
Lemma erase_key_ok (p : nodeptr) key s :
  Inv s -> live s p -> treap p ->
  returns (Internal.erase_key p key) s
    (fun nb s' =>
       live s' (fst nb) /\ treap (fst nb)
       /\ (forall y, In y (elems (fst nb)) <->
                     In y (elems p) /\ key_of y <> key)
       /\ (snd nb = true <->
           exists y, In y (elems p) /\ compare (key_of y) key = false)).
Proof.
  revert s. induction p as [|a v e h l IHl r IHr]; intros s HI Hp Tp.
  - cbn [Internal.erase_key]. apply returns_ret; [assumption|].
    cbn [fst snd elems]. split; [assumption|]. split; [exact I|].
    split; [tauto|]. split; [discriminate|]. intros (y & [] & _).
  - destruct (st_children HI Hp) as (Hl & Hr).
    pose proof Tp as (Tl & Tr' & Ll & Lr & Bl & Br).
    cbn [Internal.erase_key]. destruct (compare (key_of v) key) eqn:C.
    + eapply returns_bind; [apply (IHr s HI Hr Tr')|].
      intros [s1 s2] t1 HI1 X1 (L1 & T1 & I1 & F1). cbn [fst snd] in *.
      assert (Fp : (exists y, In y (elems (Node a v e h l r))
                             /\ compare (key_of y) key = false)
                   <-> (exists y, In y (elems r)
                                  /\ compare (key_of y) key = false)).
      { split.
        - intros (y & Hy & Cy). apply in_elems_node in Hy.
          destruct Hy as [Hy|[Hy|Hy]]; [| |eauto].
          + apply Ll in Hy.
            rewrite (compare_trans Hord _ _ _ Hy C) in Cy. discriminate.
          + subst y. congruence.
        - intros (y & Hy & Cy). exists y. rewrite in_elems_node. auto. }
      destruct s2.
      * eapply returns_bind; [apply replace_right_ok; auto|].
        intros n t2 HI2 X2 (Ln & a' & x' & h' & ->).
        apply returns_ret; [assumption|]. cbn [fst snd].
        split; [assumption|]. split.
        -- apply treap_node; auto.
           ++ intros y Hy. apply I1 in Hy. apply Lr. tauto.
           ++ intros y Hy. apply I1 in Hy. apply Br. tauto.
        -- split.
           ++ intros y. rewrite !in_elems_node, I1. split.
              ** intros [H|[H|(H & N)]]; [| |auto].
                 --- split; [auto|]. intros E. apply Ll in H.
                     rewrite <- E in C.
                     rewrite (compare_asym Hord _ _ H) in C. discriminate.
                 --- subst y. split; [auto|]. intros E.
                     rewrite E, (compare_irrefl Hord) in C. discriminate.
              ** intros ([H|[H|H]] & N); auto.
           ++ rewrite Fp, <- F1. tauto.
      * apply returns_ret; [assumption|]. cbn [fst snd].
        split; [auto|]. split; [assumption|]. split.
        -- intros y. split; [|tauto]. intros H. split; [assumption|].
           intros E. apply in_elems_node in H. destruct H as [H|[H|H]].
           ++ apply Ll in H. rewrite <- E in C.
              rewrite (compare_asym Hord _ _ H) in C. discriminate.
           ++ subst y. rewrite E, (compare_irrefl Hord) in C. discriminate.
           ++ destruct (compare (key_of y) key) eqn:Cy.
              ** rewrite E, (compare_irrefl Hord) in Cy. discriminate.
              ** assert (false = true); [|discriminate].
                 apply F1. eauto.
        -- rewrite Fp, <- F1. tauto.
    + eapply returns_bind; [apply (IHl s HI Hl Tl)|].
      intros [s1 s2] t1 HI1 X1 (L1 & T1 & I1 & F1). cbn [fst snd] in *.
      assert (Fp : exists y, In y (elems (Node a v e h l r))
                             /\ compare (key_of y) key = false).
      { exists v. rewrite in_elems_node. auto. }
      destruct s2.
      * eapply returns_bind; [apply replace_left_ok; auto|].
        intros n t2 HI2 X2 (Ln & a' & x' & h' & ->).
        apply returns_ret; [assumption|]. cbn [fst snd].
        destruct (proj1 F1 eq_refl) as (y0 & Hy0 & Cy0).
        assert (Cv : compare key (key_of v) = true).
        { apply (compare_nlt_lt Hord) with (k := key_of y0); auto. }
        split; [assumption|]. split.
        -- apply treap_node; auto.
           ++ intros y Hy. apply I1 in Hy. apply Ll. tauto.
           ++ intros y Hy. apply I1 in Hy. apply Bl. tauto.
        -- split; [|tauto].
           intros y. rewrite !in_elems_node, I1. split.
           ++ intros [(H & N)|[H|H]]; [auto| |].
              ** subst y. split; [auto|]. intros E.
                 rewrite E, (compare_irrefl Hord) in Cv. discriminate.
              ** split; [auto|]. intros E. apply Lr in H. rewrite E in H.
                 rewrite (compare_asym Hord _ _ H) in Cv. discriminate.
           ++ intros ([H|[H|H]] & N); auto.
      * assert (Nl : forall y, In y (elems l) -> key_of y <> key).
        { intros y Hy E. destruct (compare (key_of y) key) eqn:Cy.
          - rewrite E, (compare_irrefl Hord) in Cy. discriminate.
          - assert (false = true); [|discriminate]. apply F1. eauto. }
        assert (Nr : key_of v <> key ->
                     forall y, In y (elems r) -> key_of y <> key).
        { intros N y Hy E. apply Lr in Hy. rewrite E in Hy. congruence. }
        destruct (equal (key_of v) key) eqn:Q; cbn [negb].
        -- apply (equal_spec Hord) in Q.
           eapply returns_bind.
           { apply join_ok; auto. intros x y Hx Hy.
             eapply (compare_trans Hord); eauto. }
           intros n t2 HI2 X2 (Ln & Tn & In').
           apply returns_ret; [assumption|]. cbn [fst snd].
           split; [assumption|]. split; [assumption|]. split; [|tauto].
           intros y. rewrite In', in_elems_node. split.
           ++ intros [H|H].
              ** split; [auto|]. apply Nl. assumption.
              ** split; [auto|]. intros E. apply Lr in H.
                 rewrite E, <- Q, (compare_irrefl Hord) in H. discriminate.
           ++ intros ([H|[H|H]] & N); auto.
              subst y. congruence.
        -- assert (Q' : key_of v <> key).
           { intros E. apply (equal_spec Hord) in E. congruence. }
           apply returns_ret; [assumption|]. cbn [fst snd].
           split; [auto|]. split; [assumption|]. split; [|tauto].
           intros y. split; [|tauto]. intros H. split; [assumption|].
           apply in_elems_node in H. destruct H as [H|[H|H]].
           ++ apply Nl. assumption.
           ++ subst y. assumption.
           ++ apply Nr; assumption.
Qed.

(** *** Bulk build *)

Local Notation "'range_post'" := (range_post prio live).

Lemma range_loop_ok branch max_depth N :
  (forall first depth s,
     Inv s -> (length first < N)%nat ->
     returns (branch first depth) s (range_post first depth)) ->
  forall budget root first depth s used0,
    Inv s -> live s root -> treap root ->
    (forall y, In y (elems root) <-> first_of used0 y) ->
    (length first < budget)%nat -> (length first < N)%nat ->
    depth < Z.of_nat (length used0) ->
    returns (Internal.range_loop branch max_depth budget root first depth) s
      (fun nr s' =>
         live s' (fst nr) /\ treap (fst nr)
         /\ exists used,
              first = used ++ snd nr
              /\ (forall y, In y (elems (fst nr)) <->
                            first_of (used0 ++ used) y)
              /\ (snd nr = []
                  \/ max_depth < Z.of_nat (length (used0 ++ used)))).
Proof.
  intros Hbranch. induction budget as [|budget IH];
    intros root first depth s used0 HI Hr Tr' Ir Hb HN Hd; [lia|].
  cbn [Internal.range_loop].
  destruct (depth <? max_depth) eqn:D.
  - eapply returns_bind; [apply (Hbranch first depth s HI HN)|].
    intros [b rest] s1 HI1 X1 (Lb & Tb & used & E & Ib & Nb & Db).
    cbn [fst snd] in *.
    destruct b as [|ba bv be bh bl br].
    + cbn [Internal.is_null]. apply returns_ret; [assumption|].
      cbn [fst snd]. split; [auto|]. split; [assumption|].
      specialize (Nb eq_refl). rewrite Nb in E. symmetry in E.
      apply app_eq_nil in E. destruct E as (-> & ->). subst first.
      exists []. split; [reflexivity|].
      split; [intros y; rewrite app_nil_r; apply Ir|auto].
    + cbn [Internal.is_null].
      assert (Hu : used <> []).
      { intros ->. apply (first_of_nil (y := bv)). apply Ib.
        apply in_elems_node. auto. }
      assert (Lu : (0 < length used)%nat).
      { destruct used; [congruence|simpl; lia]. }
      eapply returns_bind; [apply set_union_ok; auto|].
      intros root' s2 HI2 X2 (Lr' & Tr'' & Ir').
      assert (Er : first = used ++ rest) by assumption.
      assert (Hlen : (length rest < length first)%nat).
      { rewrite Er, length_app. lia. }
      eapply returns_weaken.
      { apply (IH root' rest (depth + 1) s2 (used0 ++ used)); auto;
          try lia.
        - intros y. rewrite Ir', Ir, Ib, first_of_app. split.
          + intros [H|(H & NK)]; [auto|]. right. split; [assumption|].
            intros z Hz E'. apply NK.
            destruct (proj1 (first_of_key Hord used0 (key_of y)))
              as (u & Hu' & Eu); [eauto|].
            exists u. rewrite Ir. auto.
          + intros [H|(H & NK)]; [auto|]. right. split; [assumption|].
            intros (u & Hu' & Eu). apply Ir in Hu'.
            apply first_of_in in Hu'. exact (NK u Hu' Eu).
        - rewrite length_app. lia. }
      intros [n rest'] s3 HI3 X3 (Ln & Tn & used' & E' & In' & Dn).
      cbn [fst snd] in *. split; [assumption|]. split; [assumption|].
      exists (used ++ used'). rewrite Er, E', <- !app_assoc.
      split; [reflexivity|]. rewrite <- app_assoc in Dn.
      split; [|assumption].
      intros y. rewrite In', <- app_assoc. reflexivity.
  - apply returns_ret; [assumption|]. cbn [fst snd].
    split; [assumption|]. split; [assumption|].
    exists []. split; [reflexivity|].
    split; [intros y; rewrite app_nil_r; apply Ir|].
    right. rewrite app_nil_r. apply Z.ltb_ge in D. lia.
Qed.

Lemma make_node_range_rec_ok fuel first max_depth s :
  Inv s -> (length first < fuel)%nat ->
  returns (Internal.make_node_range_rec fuel first max_depth) s
    (range_post first max_depth).
Proof.
  revert first max_depth s.
  induction fuel as [|fuel IH]; intros first max_depth s HI Hf; [lia|].
  cbn [Internal.make_node_range_rec].
  destruct first as [|v first].
  - apply returns_ret; [assumption|]. unfold Spec.range_post. cbn [fst snd].
    split; [apply st_null|]. split; [exact I|].
    exists []. split; [reflexivity|]. split; [|auto].
    intros y. split; [intros []|]. intros H. destruct (first_of_nil H).
  - cbn [length] in Hf.
    destruct (st_make_value v HI) as (a' & x' & h' & s1 & E & HI1 & X1 & L1).
    apply returns_bind
      with (Q1 := fun n s' => live s' n /\ n = Node a' v x' h' null null).
    { exists (Node a' v x' h' null null), s1.
      split; [exact E|]. split; [exact HI1|]. split; [exact X1|].
      exact (conj L1 eq_refl). }
    intros root s2 HI2 X2 (L2 & ->).
    eapply returns_weaken.
    { apply (@range_loop_ok (Internal.make_node_range_rec fuel) max_depth
               fuel)
        with (used0 := [v]); auto; try lia.
      - simpl. tauto.
      - intros y. cbn [elems app]. rewrite first_of_cons. split.
        + intros [->|[]]. auto.
        + intros [->|(H & _)]; [left; reflexivity|].
          destruct (first_of_nil H).
      - simpl. lia. }
    intros [n rest] s3 HI3 X3 (Ln & Tn & used & E' & In' & Dn).
    unfold Spec.range_post. cbn [fst snd] in *.
    split; [assumption|]. split; [assumption|].
    exists (v :: used). split; [simpl; congruence|].
    split; [assumption|]. split; [|assumption].
    intros ->. exfalso. apply (In' v). apply first_of_cons. auto.
Qed.

Lemma make_node_range_ok first s :
  Inv s -> Z.of_nat (length first) < Word.modulus - 1 ->
  returns (Internal.make_node_range first) s
    (fun n s' =>
       live s' n /\ treap n
       /\ (forall y, In y (elems n) <-> first_of first y)).
Proof.
  intros HI Hlen. unfold Internal.make_node_range.
  eapply returns_bind.
  { apply (@make_node_range_rec_ok (S (length first)) first
             (Word.modulus - 1) s HI). lia. }
  intros [n rest] s1 HI1 X1 (Ln & Tn & used & E & In' & _ & Dn).
  cbn [fst snd] in *. apply returns_ret; [assumption|].
  split; [assumption|]. split; [assumption|].
  destruct Dn as [->|Dn].
  - rewrite app_nil_r in E. subst used. assumption.
  - exfalso. rewrite E, length_app in Hlen. lia.
Qed.

(** *** Positional operations *)

Lemma size_nonneg s (p : nodeptr) : Inv s -> live s p -> 0 <= Internal.size p.
Proof. intros HI Hp. rewrite (size_live HI Hp). lia. Qed.

(** [head(env, p, last)]: the first [last] elements. *)
Lemma head_ok (p : nodeptr) last s :
  Inv s -> live s p -> treap p ->
  0 <= last <= Internal.size p -> last < Word.modulus ->
  returns (Internal.head p last) s
    (fun n s' =>
       live s' n /\ treap n
       /\ elems n = firstn (Z.to_nat last) (elems p)).
Proof.
  revert last s. induction p as [|a v e h l IHl r IHr];
    intros last s HI Hp Tp Hlast Hmod.
  - cbn [Internal.head Internal.size] in *.
    replace last with 0 by lia. cbn [Z.eqb]. apply returns_ret; [assumption|].
    split; [assumption|]. split; [exact I|]. reflexivity.
  - destruct (st_children HI Hp) as (Hl & Hr).
    pose proof Tp as (Tl & Tr' & Ll & Lr & Bl & Br).
    pose proof (size_live HI Hp) as Sp.
    pose proof (size_live HI Hl) as Sl.
    pose proof (size_live HI Hr) as Sr.
    cbn [elems] in Sp. rewrite length_app in Sp. cbn [length] in Sp.
    cbn [Internal.head].
    destruct (last <=? Internal.size l) eqn:C1.
    + apply Z.leb_le in C1.
      eapply returns_weaken; [apply (IHl last s); auto; lia|].
      intros n s1 HI1 X1 (Ln & Tn & Een).
      split; [assumption|]. split; [assumption|].
      rewrite Een. cbn [elems]. rewrite firstn_app.
      replace (Z.to_nat last - length (elems l))%nat with O by lia.
      cbn [firstn]. rewrite app_nil_r. reflexivity.
    + apply Z.leb_gt in C1.
      destruct (last =? Internal.size (Node a v e h l r)) eqn:C2.
      * apply Z.eqb_eq in C2. apply returns_ret; [assumption|].
        split; [assumption|]. split; [assumption|].
        rewrite C2, Sp, Nat2Z.id. cbn [elems].
        rewrite <- (firstn_all (elems l ++ v :: elems r)) at 1.
        rewrite length_app. reflexivity.
      * apply Z.eqb_neq in C2.
        assert (Hs : Word.sub (Word.sub last (Internal.size l)) 1
                     = last - Internal.size l - 1).
        { rewrite (WordFacts.sub_small last (Internal.size l)) by lia.
          apply WordFacts.sub_small; lia. }
        rewrite Hs.
        eapply returns_bind; [apply (IHr _ s); auto; lia|].
        intros n s1 HI1 X1 (Ln & Tn & Een).
        eapply returns_weaken; [apply replace_right_ok; auto|].
        intros n' s2 HI2 X2 (Ln' & a' & x' & h' & ->).
        split; [assumption|]. split.
        -- apply treap_node; auto.
           ++ intros y Hy. rewrite Een in Hy. apply in_firstn in Hy. auto.
           ++ intros y Hy. rewrite Een in Hy. apply in_firstn in Hy. auto.
        -- cbn [elems]. rewrite Een, firstn_app.
           rewrite (@firstn_all2 V (Z.to_nat last) (elems l)) by lia.
           replace (Z.to_nat last - length (elems l))%nat
             with (S (Z.to_nat (last - Internal.size l - 1))) by lia.
           reflexivity.
Qed.

(** [tail(env, p, first)]: the elements from position [first] on. *)
Lemma tail_ok (p : nodeptr) first s :
  Inv s -> live s p -> treap p ->
  0 <= first <= Internal.size p -> first < Word.modulus ->
  returns (Internal.tail p first) s
    (fun n s' =>
       live s' n /\ treap n
       /\ elems n = skipn (Z.to_nat first) (elems p)).
Proof.
  revert first s. induction p as [|a v e h l IHl r IHr];
    intros first s HI Hp Tp Hfirst Hmod.
  - cbn [Internal.tail Internal.size] in *.
    replace first with 0 by lia. cbn [Z.eqb]. apply returns_ret; [assumption|].
    split; [assumption|]. split; [exact I|]. reflexivity.
  - destruct (st_children HI Hp) as (Hl & Hr).
    pose proof Tp as (Tl & Tr' & Ll & Lr & Bl & Br).
    pose proof (size_live HI Hp) as Sp.
    pose proof (size_live HI Hl) as Sl.
    pose proof (size_live HI Hr) as Sr.
    cbn [elems] in Sp. rewrite length_app in Sp. cbn [length] in Sp.
    cbn [Internal.tail].
    destruct (Internal.size l <? first) eqn:C1.
    + apply Z.ltb_lt in C1.
      assert (Hs : Word.sub first (Word.add (Internal.size l) 1)
                   = first - Internal.size l - 1).
      { rewrite WordFacts.add_small by lia.
        rewrite WordFacts.sub_small by lia. lia. }
      rewrite Hs.
      eapply returns_weaken; [apply (IHr _ s); auto; lia|].
      intros n s1 HI1 X1 (Ln & Tn & Een).
      split; [assumption|]. split; [assumption|].
      rewrite Een. cbn [elems]. rewrite skipn_app.
      rewrite (@skipn_all2 V (Z.to_nat first) (elems l)) by lia.
      replace (Z.to_nat first - length (elems l))%nat
        with (S (Z.to_nat (first - Internal.size l - 1))) by lia.
      reflexivity.
    + apply Z.ltb_ge in C1.
      destruct (first =? 0) eqn:C2.
      * apply Z.eqb_eq in C2. subst first.
        apply returns_ret; [assumption|].
        split; [assumption|]. split; [assumption|]. reflexivity.
      * apply Z.eqb_neq in C2.
        eapply returns_bind; [apply (IHl first s); auto; lia|].
        intros n s1 HI1 X1 (Ln & Tn & Een).
        eapply returns_weaken; [apply replace_left_ok; auto|].
        intros n' s2 HI2 X2 (Ln' & a' & x' & h' & ->).
        split; [assumption|]. split.
        -- apply treap_node; auto.
           ++ intros y Hy. rewrite Een in Hy. apply in_skipn in Hy. auto.
           ++ intros y Hy. rewrite Een in Hy. apply in_skipn in Hy. auto.
        -- cbn [elems]. rewrite Een, skipn_app.
           replace (Z.to_nat first - length (elems l))%nat with O by lia.
           reflexivity.
Qed.

(** [erase(env, p, first, last)] keeps the elements outside the range. *)
Lemma erase_range_ok (p : nodeptr) first last s :
  Inv s -> live s p -> treap p ->
  0 <= first <= last -> last <= Internal.size p -> last < Word.modulus ->
  returns (Internal.erase_range p first last) s
    (fun nr s' =>
       live s' (snd nr) /\ treap (snd nr)
       /\ (forall y, In y (elems (snd nr)) <->
             In y (firstn (Z.to_nat first) (elems p))
             \/ In y (skipn (Z.to_nat last) (elems p)))).
Proof.
  intros HI Hp Tp Hf Hl Hm. unfold Internal.erase_range.
  eapply returns_bind; [apply (head_ok (last := first) HI Hp Tp); lia|].
  intros hd s1 HI1 X1 (Lh & Th & Eh).
  eapply returns_bind; [apply (tail_ok (first := last) HI1 (X1 _ Hp) Tp); lia|].
  intros tl s2 HI2 X2 (Lt & Tt & Et).
  eapply returns_bind.
  { apply join_ok; auto. intros x y Hx Hy. rewrite Eh in Hx. rewrite Et in Hy.
    apply (@treap_firstn_skipn _ _ _ _ _ _ prio Hord p (Z.to_nat first)
             (Z.to_nat last)); auto. lia. }
  intros n s3 HI3 X3 (Ln & Tn & In').
  apply returns_ret; [assumption|]. cbn [snd].
  split; [assumption|]. split; [assumption|].
  intros y. rewrite In', Eh, Et. reflexivity.
Qed.

(** [retain(env, p, first, last)] keeps the elements of the range. *)
Lemma retain_ok (p : nodeptr) first last s :
  Inv s -> live s p -> treap p ->
  0 <= first <= last -> last <= Internal.size p -> last < Word.modulus ->
  returns (Internal.retain p first last) s
    (fun nr s' =>
       live s' (snd nr) /\ treap (snd nr)
       /\ elems (snd nr)
          = skipn (Z.to_nat first) (firstn (Z.to_nat last) (elems p))).
Proof.
  intros HI Hp Tp Hf Hl Hm. unfold Internal.retain.
  eapply returns_bind; [apply (head_ok (last := last) HI Hp Tp); lia|].
  intros hd s1 HI1 X1 (Lh & Th & Eh).
  pose proof (size_live HI Hp) as Sp.
  pose proof (size_live HI1 Lh) as Sh.
  rewrite Eh, length_firstn in Sh.
  eapply returns_bind; [apply (tail_ok (first := first) HI1 Lh Th); lia|].
  intros tl s2 HI2 X2 (Lt & Tt & Et).
  apply returns_ret; [assumption|]. cbn [snd].
  split; [assumption|]. split; [assumption|].
  rewrite Et, Eh. reflexivity.
Qed.

(** *** Element operations and their counts *)

Lemma treap_leaf a v x h : treap (Node a v x h null null).
Proof. simpl. tauto. Qed.

Lemma length_incl (p q : nodeptr) :
  treap p -> (forall y, In y (elems p) -> In y (elems q)) ->
  (length (elems p) <= length (elems q))%nat.
Proof.
  intros T H. apply NoDup_incl_length; [|exact H].
  apply (treap_NoDup prio Hord). assumption.
Qed.

(** [add]: the union, and the number of elements it has more. *)
Lemma add_ok (p q : nodeptr) s :
  Inv s -> live s p -> live s q -> treap p -> treap q ->
  returns (Internal.add p q) s
    (fun nr s' =>
       live s' (snd nr) /\ treap (snd nr)
       /\ (forall y, In y (elems (snd nr)) <->
             In y (elems p) \/ (In y (elems q) /\ ~ has_key p (key_of y)))
       /\ fst nr = Word.wrap (Z.of_nat (length (elems (snd nr))
                                         - length (elems p)))
       /\ (length (elems p) <= length (elems (snd nr)))%nat).
Proof.
  intros HI Hp Hq Tp Tq. unfold Internal.add.
  eapply returns_bind; [apply set_union_ok; eauto|].
  intros r s1 HI1 X1 (Lr & Tr' & Ir). apply returns_ret; [assumption|].
  cbn [fst snd]. split; [assumption|]. split; [assumption|].
  split; [assumption|].
  assert (Hle : (length (elems p) <= length (elems r))%nat).
  { apply length_incl; [assumption|]. intros y Hy. apply Ir. auto. }
  split; [|assumption].
  rewrite (size_live HI1 Lr), (size_live HI Hp). unfold Word.sub.
  f_equal. lia.
Qed.

(** [diff] and [intersect]: the number of elements removed. *)
Lemma diff_ok same ranker (p q : nodeptr) s :
  (forall y, same y y = true) ->
  (forall p q, ranker p q = rank_with same p q) ->
  Inv s -> live s p -> live s q -> treap p -> treap q ->
  returns (Internal.diff ranker p q) s
    (fun nr s' =>
       live s' (snd nr) /\ treap (snd nr)
       /\ (forall y, In y (elems (snd nr)) <->
             In y (elems p) /\ ~ agrees same y q)
       /\ fst nr = Word.wrap (Z.of_nat (length (elems p)
                                         - length (elems (snd nr))))).
Proof.
  intros Hsame Hrk HI Hp Hq Tp Tq. unfold Internal.diff.
  eapply returns_bind; [apply (@set_difference_ok same ranker Hsame Hrk); eauto|].
  intros r s1 HI1 X1 (Lr & Tr' & Ir). apply returns_ret; [assumption|].
  cbn [fst snd]. split; [assumption|]. split; [assumption|].
  split; [assumption|].
  assert (Hle : (length (elems r) <= length (elems p))%nat).
  { apply length_incl; [assumption|]. intros y Hy. apply Ir in Hy. tauto. }
  rewrite (size_live HI1 Lr), (size_live HI Hp). unfold Word.sub.
  f_equal. lia.
Qed.

Lemma intersect_ok same ranker (p q : nodeptr) s :
  (forall y, same y y = true) ->
  (forall p q, ranker p q = rank_with same p q) ->
  Inv s -> live s p -> live s q -> treap p -> treap q ->
  returns (Internal.intersect ranker p q) s
    (fun nr s' =>
       live s' (snd nr) /\ treap (snd nr)
       /\ (forall y, In y (elems (snd nr)) <->
             In y (elems p) /\ agrees same y q)
       /\ fst nr = Word.wrap (Z.of_nat (length (elems p)
                                         - length (elems (snd nr))))).
Proof.
  intros Hsame Hrk HI Hp Hq Tp Tq. unfold Internal.intersect.
  eapply returns_bind; [apply (@set_intersection_ok same ranker Hsame Hrk); eauto|].
  intros r s1 HI1 X1 (Lr & Tr' & Ir). apply returns_ret; [assumption|].
  cbn [fst snd]. split; [assumption|]. split; [assumption|].
  split; [assumption|].
  assert (Hle : (length (elems r) <= length (elems p))%nat).
  { apply length_incl; [assumption|]. intros y Hy. apply Ir in Hy. tauto. }
  rewrite (size_live HI1 Lr), (size_live HI Hp). unfold Word.sub.
  f_equal. lia.
Qed.

(** [insert(env, p, value)] *)
Lemma insert_ok (p : nodeptr) v s :
  Inv s -> live s p -> treap p ->
  returns (Internal.insert p v) s
    (fun nr s' =>
       live s' (snd nr) /\ treap (snd nr)
       /\ (forall y, In y (elems (snd nr)) <->
             In y (elems p) \/ (y = v /\ ~ has_key p (key_of v)))
       /\ (has_key p (key_of v) -> fst nr = 0 /\ snd nr = p)
       /\ (~ has_key p (key_of v) -> fst nr = 1)).
Proof.
  intros HI Hp Tp. unfold Internal.insert.
  destruct (st_make_value v HI) as (a' & x' & h' & s1 & E & HI1 & X1 & L1).
  apply returns_bind
    with (Q1 := fun n s' => live s' n /\ n = Node a' v x' h' null null).
  { exists (Node a' v x' h' null null), s1.
    split; [exact E|]. split; [exact HI1|]. split; [exact X1|].
    exact (conj L1 eq_refl). }
  intros q s2 HI2 X2 (Lq & ->).
  eapply returns_weaken; [apply add_ok; auto; apply treap_leaf|].
  intros [n r] s3 HI3 X3 (Lr & Tr' & Ir & Ecnt & Hle). cbn [fst snd] in *.
  assert (Ir' : forall y, In y (elems r) <->
                  In y (elems p) \/ (y = v /\ ~ has_key p (key_of v))).
  { intros y. rewrite Ir. cbn [elems app]. split.
    - intros [H|([<-|[]] & NK)]; auto.
    - intros [H|(-> & NK)]; [auto|]. right. split; [left; reflexivity|].
      exact NK. }
  split; [assumption|]. split; [assumption|]. split; [assumption|]. split.
  - intros HK.
    assert (r = p).
    { apply (canonical HI3); auto. intros y. rewrite Ir'. tauto. }
    subst r. split; [|reflexivity]. rewrite Ecnt, Nat.sub_diag. reflexivity.
  - intros NK.
    assert (length (elems r) = S (length (elems p))).
    { apply (@length_added _ _ _ _ _ _ prio Hord r p v); auto.
      - intros Hv. apply NK. exists v. auto.
      - intros y. rewrite Ir'. tauto. }
    rewrite Ecnt. replace (length (elems r) - length (elems p))%nat
      with 1%nat by lia. reflexivity.
Qed.

(** [erase(env, p, key)] on the pointer. *)
Lemma erase_ok (p : nodeptr) key s :
  Inv s -> live s p -> treap p ->
  returns (Internal.erase p key) s
    (fun nr s' =>
       live s' (snd nr) /\ treap (snd nr)
       /\ (forall y, In y (elems (snd nr)) <->
             In y (elems p) /\ key_of y <> key)
       /\ (has_key p key -> fst nr = 1)
       /\ (~ has_key p key -> fst nr = 0 /\ snd nr = p)).
Proof.
  intros HI Hp Tp. unfold Internal.erase.
  eapply returns_bind; [apply erase_key_ok; eauto|].
  intros [r b] s1 HI1 X1 (Lr & Tr' & Ir & _). cbn [fst snd] in *.
  apply returns_ret; [assumption|]. cbn [fst snd].
  split; [assumption|]. split; [assumption|]. split; [assumption|].
  rewrite (size_live HI1 Lr), (size_live HI Hp). unfold Word.sub. split.
  - intros (z & Hz & Ez).
    assert (length (elems p) = S (length (elems r))).
    { apply (@length_removed _ _ _ _ _ _ prio Hord r p z); auto. intros y. rewrite Ir. split.
      - intros (Hy & N). split; [assumption|]. congruence.
      - intros (Hy & N). split; [assumption|]. intros E. apply N.
        apply (treap_keys_unique prio Hord p); auto. congruence. }
    replace (Z.of_nat (length (elems p)) - Z.of_nat (length (elems r)))
      with 1 by lia. reflexivity.
  - intros NK.
    assert (r = p).
    { apply (canonical HI1); auto. intros y. rewrite Ir. split; [tauto|].
      intros Hy. split; [assumption|]. intros E. apply NK. exists y. auto. }
    subst r. split; [|reflexivity]. rewrite Z.sub_diag. reflexivity.
Qed.

(** [lower_bound] with the comparer of [find], [count] and [at]: the first
    element not below [key]. *)
Lemma lower_bound_from_ok (p : nodeptr) key best pos :
  treap p ->
  let r := fst (Internal.lower_bound_from p
                  (fun v => compare (key_of v) key) best pos) in
  (r = fst best
   /\ forall y, In y (elems p) -> compare (key_of y) key = true)
  \/ (exists a v x h l' r',
        r = Node a v x h l' r' /\ In v (elems p)
        /\ compare (key_of v) key = false
        /\ forall y, In y (elems p) -> compare (key_of y) key = false ->
                     y = v \/ compare (key_of v) (key_of y) = true).
Proof.
  revert best pos. induction p as [|a v e h l IHl r IHr];
    intros best pos Tp; cbn zeta.
  - left. split; [reflexivity|]. intros y [].
  - pose proof Tp as (Tl & Tr' & Ll & Lr & Bl & Br).
    cbn [Internal.lower_bound_from].
    destruct (compare (key_of v) key) eqn:C.
    + destruct (IHr best (Word.add pos (Word.add (Internal.size l) 1)) Tr')
        as [(E & A)|(a1 & v1 & x1 & h1 & l1 & r1 & E & Hv & Cv & M)].
      * left. split; [exact E|]. intros y Hy.
        apply in_elems_node in Hy. destruct Hy as [Hy|[->|Hy]]; auto.
        eapply (compare_trans Hord); eauto.
      * right. exists a1, v1, x1, h1, l1, r1. split; [exact E|].
        split; [apply in_elems_node; auto|]. split; [exact Cv|].
        intros y Hy Cy. apply in_elems_node in Hy.
        destruct Hy as [Hy|[->|Hy]]; auto.
        -- apply Ll in Hy.
           rewrite (compare_trans Hord _ _ _ Hy C) in Cy. discriminate.
        -- congruence.
    + destruct (IHl (Node a v e h l r, Word.add pos (Internal.size l)) pos Tl)
        as [(E & A)|(a1 & v1 & x1 & h1 & l1 & r1 & E & Hv & Cv & M)].
      * right. exists a, v, e, h, l, r. split; [exact E|].
        split; [apply in_elems_node; auto|]. split; [exact C|].
        intros y Hy Cy. apply in_elems_node in Hy.
        destruct Hy as [Hy|[->|Hy]]; auto.
        apply A in Hy. congruence.
      * right. exists a1, v1, x1, h1, l1, r1. split; [exact E|].
        split; [apply in_elems_node; auto|]. split; [exact Cv|].
        intros y Hy Cy. apply in_elems_node in Hy.
        destruct Hy as [Hy|[->|Hy]]; auto.
        right. eapply (compare_trans Hord); [apply Ll; exact Hv|].
        apply Lr. exact Hy.
Qed.

(** The node [lower_bound] finds holds the element with key [key], if the
    tree has one. *)
Lemma lower_bound_find (p : nodeptr) key :
  treap p ->
  let r := fst (Internal.lower_bound p (fun v => compare (key_of v) key)) in
  (forall z, In z (elems p) -> key_of z = key ->
             exists a x h l' r', r = Node a z x h l' r')
  /\ (~ has_key p key ->
      r = null \/ exists a v x h l' r',
                    r = Node a v x h l' r' /\ key_of v <> key).
Proof.
  intros Tp r. subst r. unfold Internal.lower_bound.
  destruct (@lower_bound_from_ok p key (null, Internal.size p) 0 Tp)
    as [(E & A)|(a1 & v1 & x1 & h1 & l1 & r1 & E & Hv & Cv & M)].
  - split.
    + intros z Hz Ez. apply A in Hz.
      rewrite Ez, (compare_irrefl Hord) in Hz. discriminate.
    + intros _. left. exact E.
  - split.
    + intros z Hz Ez. rewrite E.
      assert (Cz : compare (key_of z) key = false).
      { rewrite Ez. apply (compare_irrefl Hord). }
      destruct (M z Hz Cz) as [->|C]; [eauto 6|].
      rewrite Ez in C. congruence.
    + intros NK. right. exists a1, v1, x1, h1, l1, r1.
      split; [exact E|]. intros Ev. apply NK. exists v1. auto.
Qed.

(** *** Bulk insertion *)

Lemma make_node_range_valid first s :
  Inv s ->
  returns (Internal.make_node_range first) s
    (fun n s' =>
       live s' n /\ treap n
       /\ (forall y, In y (elems n) -> In y first)
       /\ (Z.of_nat (length first) < Word.modulus - 1 ->
           forall y, In y (elems n) <-> first_of first y)).
Proof.
  intros HI. unfold Internal.make_node_range.
  eapply returns_bind.
  { apply (@make_node_range_rec_ok (S (length first)) first
             (Word.modulus - 1) s HI). lia. }
  intros [n rest] s1 HI1 X1 (Ln & Tn & used & E & In' & _ & Dn).
  cbn [fst snd] in *. apply returns_ret; [assumption|].
  split; [assumption|]. split; [assumption|]. split.
  - intros y Hy. apply In' in Hy. apply first_of_in in Hy.
    rewrite E. apply in_or_app. left. exact Hy.
  - intros Hlen. destruct Dn as [->|Dn].
    + rewrite app_nil_r in E. subst used. assumption.
    + exfalso. rewrite E, length_app in Hlen. lia.
Qed.

Lemma insert_range_ok (p : nodeptr) first s :
  Inv s -> live s p -> treap p ->
  returns (Internal.insert_range p first) s
    (fun nr s' =>
       live s' (snd nr) /\ treap (snd nr)
       /\ (forall y, In y (elems (snd nr)) ->
                     In y (elems p) \/ In y first)
       /\ (Z.of_nat (length first) < Word.modulus - 1 ->
           forall y, In y (elems (snd nr)) <->
             In y (elems p)
             \/ (first_of first y /\ ~ has_key p (key_of y)))
       /\ fst nr = Word.wrap (Z.of_nat (length (elems (snd nr))
                                         - length (elems p)))
       /\ (length (elems p) <= length (elems (snd nr)))%nat).
Proof.
  intros HI Lp Tp. unfold Internal.insert_range.
  eapply returns_bind; [apply make_node_range_valid; exact HI|].
  intros q s1 HI1 X1 (Lq & Tq & Sq & Iq).
  eapply returns_weaken; [apply add_ok; auto|].
  intros [n r] s2 HI2 X2 (Lr & Tr' & Ir & En' & Hle). cbn [fst snd] in *.
  split; [assumption|]. split; [assumption|]. split.
  - intros y Hy. apply Ir in Hy. destruct Hy as [Hy|(Hy & _)]; auto.
  - split; [|auto]. intros Hlen y. rewrite Ir, (Iq Hlen). reflexivity.
Qed.

Lemma assign_ok first s :
  Inv s ->
  returns (Internal.assign first) s
    (fun n s' =>
       live s' n /\ treap n
       /\ (forall y, In y (elems n) -> In y first)
       /\ (Z.of_nat (length first) < Word.modulus - 1 ->
           forall y, In y (elems n) <-> first_of first y)).
Proof. intros HI. unfold Internal.assign. apply make_node_range_valid, HI. Qed.

(** *** Shape as the specification words it *)

Lemma treap_ascending (p : nodeptr) : treap p -> ascending p.
Proof. intros Tp. exact (treap_sorted prio Hord p Tp). Qed.

Lemma treap_child_ok s a v x h l r (c : nodeptr) :
  Inv s -> live s (Node a v x h l r) -> live s c ->
  (forall y, In y (elems c) -> beforeb (key_of v) (key_of y) = true) ->
  child_ok (Node a v x h l r) c.
Proof.
  intros HI Lp Lc B. destruct c as [|ca cv cx ch cl cr]; [left; reflexivity|].
  right. destruct (st_fields HI Lp) as (P & _).
  destruct (st_fields HI Lc) as (Pc & _).
  assert (B' : beforeb (key_of v) (key_of cv) = true).
  { apply B. apply in_elems_node. auto. }
  rewrite (rank_live HI Lp Lc). cbn [Internal.priority]. rewrite P, Pc.
  unfold Spec.beforeb in B'. unfold Spec.rank_keys.
  apply orb_true_iff in B'. destruct B' as [B'|B'].
  - rewrite B'. apply Z.ltb_lt in B'. split; [lia|reflexivity].
  - apply andb_true_iff in B'. destruct B' as (E & C).
    apply Z.eqb_eq in E. rewrite E, Z.ltb_irrefl, C.
    split; [lia|reflexivity].
Qed.

Lemma treap_heap_ordered s (p : nodeptr) :
  Inv s -> live s p -> treap p -> heap_ordered p.
Proof.
  induction p as [|a v x h l IHl r IHr]; intros HI Lp Tp; [exact I|].
  destruct (st_children HI Lp) as (Ll & Lr).
  destruct Tp as (Tl & Tr' & _ & _ & Bl & Br). cbn [heap_ordered].
  split; [eapply treap_child_ok; eauto|].
  split; [eapply treap_child_ok; eauto|]. auto.
Qed.

(** *** Ranges of positions, with the order and the count *)

Lemma treap_elems_ext (p : nodeptr) (l : list V) :
  treap p ->
  StronglySorted (fun x y => compare (key_of x) (key_of y) = true) l ->
  (forall y, In y (elems p) <-> In y l) -> elems p = l.
Proof.
  intros Tp Sl H. apply (sorted_ext Hord); [|assumption|assumption].
  exact (treap_sorted prio Hord p Tp).
Qed.

Lemma erase_range_full (p : nodeptr) first last s :
  Inv s -> live s p -> treap p ->
  0 <= first <= last -> last <= Internal.size p -> last < Word.modulus ->
  returns (Internal.erase_range p first last) s
    (fun nr s' =>
       live s' (snd nr) /\ treap (snd nr)
       /\ elems (snd nr)
          = firstn (Z.to_nat first) (elems p)
            ++ skipn (Z.to_nat last) (elems p)
       /\ fst nr = last - first).
Proof.
  intros HI Hp Tp Hf Hl Hm.
  destruct (erase_range_ok HI Hp Tp Hf Hl Hm)
    as ([n r] & s' & E & HI' & X' & Lr & Tr' & Ir).
  cbn [fst snd] in *. exists (n, r), s'.
  split; [exact E|]. split; [exact HI'|]. split; [exact X'|].
  cbn [fst snd]. split; [assumption|]. split; [assumption|].
  assert (El : elems r = firstn (Z.to_nat first) (elems p)
                         ++ skipn (Z.to_nat last) (elems p)).
  { apply treap_elems_ext; [assumption| |].
    - apply (treap_outside_sorted prio Hord); [assumption|lia].
    - intros y. rewrite Ir, in_app_iff. reflexivity. }
  split; [exact El|].
  unfold Internal.erase_range, bind in E.
  destruct (Internal.head p first s) as [[hd s1]|]; [|discriminate].
  destruct (Internal.tail p last s1) as [[tl s2]|]; [|discriminate].
  destruct (Internal.join hd tl s2) as [[j s3]|]; [|discriminate].
  unfold ret in E. injection E as <- <- <-.
  pose proof (size_live HI Hp) as Sp.
  rewrite (size_live HI' Lr), Sp, El, length_app, length_firstn, length_skipn.
  rewrite Sp in Hl. unfold Word.sub.
  match goal with
  | |- Word.wrap ?z = _ => replace z with (last - first) by lia
  end.
  apply WordFacts.wrap_small. lia.
Qed.

Lemma retain_full (p : nodeptr) first last s :
  Inv s -> live s p -> treap p ->
  0 <= first <= last -> last <= Internal.size p -> last < Word.modulus ->
  returns (Internal.retain p first last) s
    (fun nr s' =>
       live s' (snd nr) /\ treap (snd nr)
       /\ elems (snd nr)
          = skipn (Z.to_nat first) (firstn (Z.to_nat last) (elems p))
       /\ fst nr = Word.wrap (Internal.size p - (last - first))).
Proof.
  intros HI Hp Tp Hf Hl Hm.
  destruct (retain_ok HI Hp Tp Hf Hl Hm)
    as ([n r] & s' & E & HI' & X' & Lr & Tr' & El).
  cbn [fst snd] in *. exists (n, r), s'.
  split; [exact E|]. split; [exact HI'|]. split; [exact X'|].
  cbn [fst snd]. split; [assumption|]. split; [assumption|].
  split; [exact El|].
  unfold Internal.retain, bind in E.
  destruct (Internal.head p last s) as [[hd s1]|]; [|discriminate].
  destruct (Internal.tail hd first s1) as [[tl s2]|]; [|discriminate].
  unfold ret in E. injection E as <- <- <-.
  pose proof (size_live HI Hp) as Sp.
  rewrite (size_live HI' Lr), El, length_skipn, length_firstn.
  rewrite Sp in Hl. rewrite Sp. unfold Word.sub. f_equal. lia.
Qed.

Lemma make_node_value_returns s v :
  Inv s ->
  returns (make_node_value v) s
    (fun n s' => live s' n /\ treap n /\ elems n = [v]).
Proof.
  intros HI.
  destruct (st_make_value v HI) as (a' & x' & h' & s1 & E & HI1 & X1 & L1).
  exists (Node a' v x' h' null null), s1.
  split; [exact E|]. split; [exact HI1|]. split; [exact X1|].
  split; [exact L1|]. split; [apply treap_leaf|reflexivity].
Qed.

(** *** Positions *)

(** [at_index] below the asserted bound: the node found holds the element
    at position [k] of the ascending sequence. *)
Lemma at_index_loop_ok s (p : nodeptr) k :
  Inv s -> live s p -> 0 <= k < Internal.size p -> k < Word.modulus ->
  exists a v x h l r,
    Internal.at_index_loop p k = Some (Node a v x h l r)
    /\ nth_error (elems p) (Z.to_nat k) = Some v.
Proof.
  intros HI. revert k. induction p as [|a v e h l IHl r IHr];
    intros k Hp Hk Hm.
  - cbn [Internal.size] in Hk. lia.
  - destruct (st_children HI Hp) as (Hl & Hr).
    pose proof (size_live HI Hp) as Sp.
    pose proof (size_live HI Hl) as Sl.
    pose proof (size_live HI Hr) as Sr.
    cbn [elems] in Sp. rewrite length_app in Sp. cbn [length] in Sp.
    cbn [Internal.at_index_loop elems].
    destruct (Internal.size l <? k) eqn:C1.
    + apply Z.ltb_lt in C1.
      rewrite (WordFacts.add_small (Internal.size l) 1) by lia.
      rewrite WordFacts.sub_small by lia.
      destruct (IHr (k - (Internal.size l + 1)) Hr) as
        (a1 & v1 & x1 & h1 & l1 & r1 & E & N); [lia|lia|].
      exists a1, v1, x1, h1, l1, r1. split; [exact E|].
      rewrite nth_error_app2 by lia.
      replace (Z.to_nat k - length (elems l))%nat
        with (S (Z.to_nat (k - (Internal.size l + 1)))) by lia.
      exact N.
    + apply Z.ltb_ge in C1. destruct (k <? Internal.size l) eqn:C2.
      * apply Z.ltb_lt in C2.
        destruct (IHl k Hl) as (a1 & v1 & x1 & h1 & l1 & r1 & E & N);
          [lia|lia|].
        exists a1, v1, x1, h1, l1, r1. split; [exact E|].
        rewrite nth_error_app1 by lia. exact N.
      * apply Z.ltb_ge in C2. exists a, v, e, h, l, r.
        split; [reflexivity|]. rewrite nth_error_app2 by lia.
        replace (Z.to_nat k - length (elems l))%nat with 0%nat by lia.
        reflexivity.
Qed.

Lemma at_index_ok s (p : nodeptr) k :
  Inv s -> live s p -> 0 <= k < Word.modulus ->
  (k < Internal.size p ->
   exists a v x h l r,
     Internal.at_index p k = Some (Node a v x h l r)
     /\ nth_error (elems p) (Z.to_nat k) = Some v)
  /\ (Internal.size p <= k -> Internal.at_index p k = None).
Proof.
  intros HI Hp Hk. unfold Internal.at_index. split; intros H.
  - rewrite (proj2 (Z.ltb_lt _ _)) by exact H.
    apply (at_index_loop_ok HI Hp); lia.
  - rewrite (proj2 (Z.ltb_ge _ _)) by exact H. reflexivity.
Qed.

Lemma filter_all {A : Type} (f : A -> bool) (l : list A) :
  (forall x, In x l -> f x = true) -> filter f l = l.
Proof.
  induction l as [|x l IH]; intros H; [reflexivity|]. cbn [filter].
  rewrite (H x (or_introl eq_refl)). f_equal. apply IH. intros y Hy.
  apply H. right. exact Hy.
Qed.

Lemma filter_none {A : Type} (f : A -> bool) (l : list A) :
  (forall x, In x l -> f x = false) -> filter f l = [].
Proof.
  induction l as [|x l IH]; intros H; [reflexivity|]. cbn [filter].
  rewrite (H x (or_introl eq_refl)). apply IH. intros y Hy.
  apply H. right. exact Hy.
Qed.

(** [lower_bound]: the position found is the number of elements on which
    the comparer holds, and the node found is the node there. *)
Lemma lower_bound_from_pos s (p : nodeptr) cmp best pos :
  Inv s -> live s p -> treap p -> lower_part cmp ->
  0 <= pos -> pos + Internal.size p < Word.modulus ->
  let c := length (filter cmp (elems p)) in
  (c = length (elems p)
   /\ Internal.lower_bound_from p cmp best pos = best)
  \/ (exists a v x h l r,
        Internal.lower_bound_from p cmp best pos
        = (Node a v x h l r, pos + Z.of_nat c)
        /\ nth_error (elems p) c = Some v /\ cmp v = false
        /\ Internal.at_index_loop p (Z.of_nat c) = Some (Node a v x h l r)).
Proof.
  intros HI Hp Tp Hc. revert best pos Hp Tp.
  induction p as [|a v e h l IHl r IHr]; intros best pos Hp Tp H0 Hm;
    cbn zeta.
  - left. split; reflexivity.
  - pose proof Tp as (Tl & Tr' & Ll & Lr & _).
    destruct (st_children HI Hp) as (Hl & Hr).
    pose proof (size_live HI Hp) as Sp.
    pose proof (size_live HI Hl) as Sl.
    pose proof (size_live HI Hr) as Sr.
    cbn [elems] in Sp. rewrite length_app in Sp. cbn [length] in Sp.
    cbn [Internal.lower_bound_from Internal.at_index_loop elems].
    rewrite filter_app. cbn [filter]. destruct (cmp v) eqn:C.
    + rewrite (filter_all cmp (elems l))
        by (intros y Hy; apply (Hc y v); auto).
      rewrite (WordFacts.add_small (Internal.size l) 1) by lia.
      rewrite WordFacts.add_small by lia.
      destruct (IHr best (pos + (Internal.size l + 1)) Hr Tr')
        as [(E & R)|(a1 & v1 & x1 & h1 & l1 & r1 & R & N & F & A)];
        [lia|lia| |].
      * left. split; [|exact R]. rewrite !length_app. cbn [length].
        rewrite E. reflexivity.
      * right. exists a1, v1, x1, h1, l1, r1.
        assert (Lf : (length (filter cmp (elems r)) < length (elems r))%nat)
          by (apply nth_error_Some; rewrite N; discriminate).
        split; [|split; [|split; [exact F|]]].
        -- rewrite R. f_equal. rewrite length_app. cbn [length]. lia.
        -- rewrite length_app. cbn [length].
           rewrite nth_error_app2 by lia.
           replace (length (elems l)
                    + S (length (filter cmp (elems r)))
                    - length (elems l))%nat
             with (S (length (filter cmp (elems r)))) by lia.
           exact N.
        -- rewrite length_app. cbn [length].
           rewrite (proj2 (Z.ltb_lt _ _)) by lia.
           rewrite WordFacts.sub_small by lia.
           replace (Z.of_nat (length (elems l)
                              + S (length (filter cmp (elems r))))
                    - (Internal.size l + 1))
             with (Z.of_nat (length (filter cmp (elems r)))) by lia.
           exact A.
    + rewrite (filter_none cmp (elems r)).
      2:{ intros y Hy. destruct (cmp y) eqn:Cy; [|reflexivity].
          rewrite (Hc v y (Lr y Hy) Cy) in C. discriminate. }
      rewrite app_nil_r. rewrite WordFacts.add_small by lia.
      right.
      pose proof (filter_length_le cmp (elems l)) as Lf.
      rewrite (proj2 (Z.ltb_ge _ _)) by lia.
      destruct (IHl (Node a v e h l r, pos + Internal.size l) pos Hl Tl)
        as [(E & R)|(a1 & v1 & x1 & h1 & l1 & r1 & R & N & F & A)];
        [lia|lia| |].
      * exists a, v, e, h, l, r. split; [|split; [|split; [exact C|]]].
        -- rewrite R, E, Sl. reflexivity.
        -- rewrite E. rewrite nth_error_app2 by lia.
           rewrite Nat.sub_diag. reflexivity.
        -- rewrite (proj2 (Z.ltb_ge _ _)) by lia. reflexivity.
      * exists a1, v1, x1, h1, l1, r1. split; [exact R|].
        assert (Lf' : (length (filter cmp (elems l)) < length (elems l))%nat)
          by (apply nth_error_Some; rewrite N; discriminate).
        split; [|split; [exact F|]].
        -- rewrite nth_error_app1; [exact N|exact Lf'].
        -- rewrite (proj2 (Z.ltb_lt _ _)) by lia. exact A.
Qed.

Lemma lower_bound_pos s (p : nodeptr) cmp :
  Inv s -> live s p -> treap p -> lower_part cmp ->
  Internal.size p < Word.modulus ->
  let c := length (filter cmp (elems p)) in
  snd (Internal.lower_bound p cmp) = Z.of_nat c
  /\ ((c = length (elems p) /\ fst (Internal.lower_bound p cmp) = null)
      \/ (exists a v x h l r,
            fst (Internal.lower_bound p cmp) = Node a v x h l r
            /\ nth_error (elems p) c = Some v /\ cmp v = false
            /\ Internal.at_index_loop p (Z.of_nat c)
               = Some (Node a v x h l r))).
Proof.
  intros HI Hp Tp Hc Hm. cbn zeta. unfold Internal.lower_bound.
  destruct (@lower_bound_from_pos s p cmp (null, Internal.size p) 0
              HI Hp Tp Hc)
    as [(E & R)|(a1 & v1 & x1 & h1 & l1 & r1 & R & N & F & A)];
    [lia|lia| |].
  - rewrite R. cbn [fst snd]. split.
    + rewrite (size_live HI Hp). rewrite E. reflexivity.
    + left. split; [exact E|reflexivity].
  - rewrite R. cbn [fst snd]. split; [reflexivity|].
    right. exists a1, v1, x1, h1, l1, r1. auto.
Qed.

Lemma lower_part_lower key :
  lower_part (fun v => compare (key_of v) key).
Proof. intros x y C H. exact (compare_trans Hord _ _ _ C H). Qed.

Lemma lower_part_upper key :
  lower_part (fun v => negb (compare key (key_of v))).
Proof.
  intros x y C H. destruct (compare key (key_of x)) eqn:E; [|reflexivity].
  rewrite (compare_trans Hord _ _ _ E C) in H. discriminate.
Qed.

Lemma sorted_nth {A : Type} (R : A -> A -> Prop) (l : list A) :
  StronglySorted R l ->
  forall i j x y, (i < j)%nat ->
    nth_error l i = Some x -> nth_error l j = Some y -> R x y.
Proof.
  induction 1 as [|a l S IH F]; intros i j x y Hij Hi Hj.
  - destruct i; discriminate.
  - destruct j as [|j]; [lia|]. cbn [nth_error] in Hj. destruct i as [|i].
    + cbn [nth_error] in Hi. injection Hi as <-.
      rewrite Forall_forall in F. apply F. exact (nth_error_In _ _ Hj).
    + cbn [nth_error] in Hi. apply (IH i j); [lia|assumption|assumption].
Qed.

(** In an ascending sequence the elements on which a comparer of a lower
    part holds are the first ones. *)
Lemma filter_prefix cmp (l : list V) :
  StronglySorted (fun x y => compare (key_of x) (key_of y) = true) l ->
  lower_part cmp ->
  forall k v, nth_error l k = Some v ->
              (cmp v = true <-> (k < length (filter cmp l))%nat).
Proof.
  intros S Hc. induction S as [|a l S IH F]; intros k v Hk.
  - destruct k; discriminate.
  - cbn [filter]. destruct (cmp a) eqn:C.
    + cbn [length]. destruct k as [|k].
      * cbn [nth_error] in Hk. injection Hk as <-. split; [lia|auto].
      * cbn [nth_error] in Hk. rewrite (IH k v Hk). lia.
    + rewrite (filter_none cmp l).
      2:{ intros y Hy. destruct (cmp y) eqn:Cy; [|reflexivity].
          rewrite Forall_forall in F.
          rewrite (Hc a y (F y Hy) Cy) in C. discriminate. }
      cbn [length]. split; [|lia]. intros Cv. destruct k as [|k].
      * cbn [nth_error] in Hk. injection Hk as <-. congruence.
      * cbn [nth_error] in Hk. apply nth_error_In in Hk.
        rewrite Forall_forall in F.
        rewrite (Hc a v (F v Hk) Cv) in C. discriminate.
Qed.

(** The position [lower_bound] returns splits the ascending sequence where
    the comparer stops to hold. *)
Lemma bound_spec s (p : nodeptr) cmp :
  Inv s -> live s p -> treap p -> lower_part cmp ->
  Internal.size p < Word.modulus ->
  let b := snd (Internal.lower_bound p cmp) in
  0 <= b <= Internal.size p
  /\ forall k v, nth_error (elems p) k = Some v ->
                 (cmp v = true <-> Z.of_nat k < b).
Proof.
  intros HI Hp Tp Hc Hm. cbn zeta.
  destruct (lower_bound_pos HI Hp Tp Hc Hm) as (E & _).
  rewrite E. split.
  - rewrite (size_live HI Hp). pose proof (filter_length_le cmp (elems p)).
    lia.
  - intros k v Hk.
    rewrite (filter_prefix (treap_sorted prio Hord p Tp) Hc k Hk). lia.
Qed.

(** The bound of the comparer of [find]: the element with the key, at its
    position, if the tree has one. *)
Lemma lower_bound_found s (p : nodeptr) key z :
  Inv s -> live s p -> treap p -> Internal.size p < Word.modulus ->
  In z (elems p) -> key_of z = key ->
  exists a x h l r k,
    Internal.lower_bound p (fun v => compare (key_of v) key)
    = (Node a z x h l r, Z.of_nat k)
    /\ nth_error (elems p) k = Some z.
Proof.
  intros HI Hp Tp Hm Hz Ez.
  pose proof (treap_sorted prio Hord p Tp) as S.
  pose proof (lower_part_lower key) as Hc.
  destruct (In_nth_error _ _ Hz) as (kz & Hkz).
  pose proof (filter_prefix S Hc kz Hkz) as Pz. cbv beta in Pz.
  rewrite Ez, (compare_irrefl Hord) in Pz.
  destruct (lower_bound_pos HI Hp Tp Hc Hm)
    as (E & [(C & _)|(a1 & v1 & x1 & h1 & l1 & r1 & R & N & F & _)]).
  - assert (kz < length (elems p))%nat
      by (apply nth_error_Some; rewrite Hkz; discriminate).
    rewrite C in Pz. apply Pz in H. discriminate.
  - set (c := length (filter (fun v => compare (key_of v) key) (elems p)))
      in *.
    assert (kz = c).
    { destruct (Nat.lt_trichotomy kz c) as [L|[L|L]]; [|exact L|].
      - apply Pz in L. discriminate.
      - pose proof (sorted_nth S L N Hkz) as C. cbv beta in C.
        rewrite Ez in C. congruence. }
    subst kz. rewrite N in Hkz. injection Hkz as ->.
    exists a1, x1, h1, l1, r1, c. split; [|exact N].
    rewrite <- E, <- R. apply surjective_pairing.
Qed.

(** The two bounds of [equal_range] around a key. *)
Lemma equal_range_width s (p : nodeptr) key :
  Inv s -> live s p -> treap p -> Internal.size p < Word.modulus ->
  let lb := snd (Internal.lower_bound p
                   (fun v => compare (key_of v) key)) in
  let ub := snd (Internal.lower_bound p
                   (fun v => negb (compare key (key_of v)))) in
  (has_key p key -> ub = lb + 1) /\ (~ has_key p key -> ub = lb).
Proof.
  intros HI Hp Tp Hm. cbn zeta.
  pose proof (treap_sorted prio Hord p Tp) as Srt.
  destruct (lower_bound_pos HI Hp Tp (lower_part_lower key) Hm)
    as (El & _).
  destruct (lower_bound_pos HI Hp Tp (lower_part_upper key) Hm)
    as (Eu & _).
  rewrite El, Eu.
  pose proof (filter_prefix Srt (lower_part_lower key)) as Pl.
  pose proof (filter_prefix Srt (lower_part_upper key)) as Pu.
  cbv beta in Pl, Pu.
  set (cl := length (filter (fun v => compare (key_of v) key) (elems p)))
    in *.
  set (cu := length (filter (fun v => negb (compare key (key_of v)))
                       (elems p))) in *.
  assert (Ll : (cl <= length (elems p))%nat) by apply filter_length_le.
  assert (Lu : (cu <= length (elems p))%nat) by apply filter_length_le.
  split.
  - intros (z & Hz & Ez). destruct (In_nth_error _ _ Hz) as (kz & Hkz).
    assert (cl = kz).
    { destruct (Nat.lt_trichotomy kz cl) as [L|[L|L]]; [|auto|].
      - apply (Pl kz z Hkz) in L.
        rewrite Ez, (compare_irrefl Hord) in L. discriminate.
      - destruct (nth_error (elems p) cl) as [y|] eqn:Ey.
        + pose proof (sorted_nth Srt L Ey Hkz) as C. cbv beta in C.
          rewrite Ez in C. apply (Pl cl y Ey) in C. lia.
        + apply nth_error_None in Ey.
          assert (kz < length (elems p))%nat
            by (apply nth_error_Some; rewrite Hkz; discriminate).
          lia. }
    assert (cu = S kz).
    { assert (kz < cu)%nat.
      { apply (Pu kz z Hkz). rewrite Ez, (compare_irrefl Hord).
        reflexivity. }
      destruct (Nat.eq_dec cu (S kz)) as [|N]; [assumption|].
      destruct (nth_error (elems p) (S kz)) as [y|] eqn:Ey.
      - assert (L : (S kz < cu)%nat) by lia.
        apply (Pu (S kz) y Ey) in L.
        assert (C : compare (key_of z) (key_of y) = true).
        { apply (sorted_nth Srt (i := kz) (j := S kz)); [lia|auto|auto]. }
        rewrite Ez in C. rewrite C in L. discriminate.
      - apply nth_error_None in Ey. lia. }
    lia.
  - intros NK. f_equal. unfold cl, cu. f_equal. apply filter_ext_in.
    intros y Hy. destruct (compare (key_of y) key) eqn:C1.
    + rewrite (compare_asym Hord _ _ C1). reflexivity.
    + destruct (compare key (key_of y)) eqn:C2; [reflexivity|].
      exfalso. apply NK. exists y. split; [exact Hy|].
      exact (compare_total Hord _ _ C1 C2).
Qed.

(** The element at a position has as many elements below it as the
    position tells. *)
Lemma nth_rank (p : nodeptr) k v :
  treap p -> nth_error (elems p) k = Some v ->
  length (filter (fun x => compare (key_of x) (key_of v)) (elems p)) = k.
Proof.
  intros Tp N. pose proof (treap_sorted prio Hord p Tp) as Srt.
  pose proof (filter_prefix Srt (lower_part_lower (key_of v))) as P.
  cbv beta in P.
  set (c := length (filter (fun x => compare (key_of x) (key_of v))
                      (elems p))) in *.
  assert (Lc : (c <= length (elems p))%nat) by apply filter_length_le.
  destruct (Nat.lt_trichotomy k c) as [L|[L|L]]; [|exact (eq_sym L)|].
  - apply (P k v N) in L. rewrite (compare_irrefl Hord) in L.
    discriminate.
  - destruct (nth_error (elems p) c) as [y|] eqn:Ey.
    + pose proof (sorted_nth Srt L Ey N) as C. cbv beta in C.
      apply (P c y Ey) in C. lia.
    + apply nth_error_None in Ey.
      assert (k < length (elems p))%nat
        by (apply nth_error_Some; rewrite N; discriminate).
      lia.
Qed.

(** *** Iterators *)

Lemma pushed_pushed (acc1 acc2 : list nodeptr) r :
  pushed acc2 (pushed acc1 r) = pushed (acc1 ++ acc2) r.
Proof.
  destruct r as [[n st]|]; [|reflexivity]. cbn [pushed].
  rewrite app_assoc. reflexivity.
Qed.

Lemma pushed_nil (r : option (nodeptr * list nodeptr)) : pushed [] r = r.
Proof.
  destruct r as [[n st]|]; [|reflexivity]. cbn [pushed].
  rewrite app_nil_r. reflexivity.
Qed.

Lemma seek_incrementing_acc (p : nodeptr) k acc :
  Iter.seek_incrementing p k acc
  = pushed acc (Iter.seek_incrementing p k []).
Proof.
  revert k acc. induction p as [|a v e h l IHl r IHr]; intros k acc;
    [reflexivity|].
  cbn [Iter.seek_incrementing].
  destruct (Internal.size l <? k); [apply IHr|].
  destruct (k <? Internal.size l); [|reflexivity].
  rewrite (IHl k (_ :: acc)), (IHl k [_]), pushed_pushed. reflexivity.
Qed.

Lemma seek_decrementing_acc (p : nodeptr) k acc :
  Iter.seek_decrementing p k acc
  = pushed acc (Iter.seek_decrementing p k []).
Proof.
  revert k acc. induction p as [|a v e h l IHl r IHr]; intros k acc;
    [reflexivity|].
  cbn [Iter.seek_decrementing].
  destruct (Internal.size l <? k).
  - rewrite (IHr _ (_ :: acc)), (IHr _ [_]), pushed_pushed. reflexivity.
  - destruct (k <? Internal.size l); [apply IHl|reflexivity].
Qed.

Lemma leftmost_acc (p : nodeptr) acc :
  Iter.leftmost p acc = pushed acc (Iter.leftmost p []).
Proof.
  revert acc. induction p as [|a v e h l IHl r IHr]; intros acc;
    [reflexivity|].
  cbn [Iter.leftmost]. destruct l as [|la lv le lh ll lr]; [reflexivity|].
  rewrite (IHl (_ :: acc)), (IHl [_]), pushed_pushed. reflexivity.
Qed.

Lemma rightmost_acc (p : nodeptr) acc :
  Iter.rightmost p acc = pushed acc (Iter.rightmost p []).
Proof.
  revert acc. induction p as [|a v e h l IHl r IHr]; intros acc;
    [reflexivity|].
  cbn [Iter.rightmost]. destruct r as [|ra rv re rh rl rr]; [reflexivity|].
  rewrite (IHr (_ :: acc)), (IHr [_]), pushed_pushed. reflexivity.
Qed.

(** Both look-ups end at the node [at_index] finds. *)
Lemma seek_incrementing_index (p : nodeptr) k acc :
  option_map fst (Iter.seek_incrementing p k acc)
  = Internal.at_index_loop p k.
Proof.
  revert k acc. induction p as [|a v e h l IHl r IHr]; intros k acc;
    [reflexivity|].
  cbn [Iter.seek_incrementing Internal.at_index_loop].
  destruct (Internal.size l <? k); [apply IHr|].
  destruct (k <? Internal.size l); [apply IHl|reflexivity].
Qed.

Lemma seek_decrementing_index (p : nodeptr) k acc :
  option_map fst (Iter.seek_decrementing p k acc)
  = Internal.at_index_loop p k.
Proof.
  revert k acc. induction p as [|a v e h l IHl r IHr]; intros k acc;
    [reflexivity|].
  cbn [Iter.seek_decrementing Internal.at_index_loop].
  destruct (Internal.size l <? k); [apply IHr|].
  destruct (k <? Internal.size l); [apply IHl|reflexivity].
Qed.

Lemma at_index_loop_lt s (p : nodeptr) k n :
  Inv s -> live s p -> 0 <= k < Word.modulus ->
  Internal.at_index_loop p k = Some n -> k < Internal.size p.
Proof.
  intros HI. revert k. induction p as [|a v e h l IHl r IHr];
    intros k Hp Hk E; [discriminate|].
  destruct (st_children HI Hp) as (Hl & Hr).
  pose proof (size_live HI Hp) as Sp.
  pose proof (size_live HI Hl) as Sl.
  pose proof (size_live HI Hr) as Sr.
  cbn [elems] in Sp. rewrite length_app in Sp. cbn [length] in Sp.
  cbn [Internal.at_index_loop] in E.
  destruct (Internal.size l <? k) eqn:C1.
  - apply Z.ltb_lt in C1.
    rewrite (WordFacts.add_small (Internal.size l) 1) in E by lia.
    rewrite WordFacts.sub_small in E by lia.
    apply IHr in E; [lia|exact Hr|lia].
  - apply Z.ltb_ge in C1. lia.
Qed.

Lemma size_node s a v e h (l r : nodeptr) :
  Inv s -> live s (Node a v e h l r) ->
  Internal.size (Node a v e h l r) = Internal.size l + 1 + Internal.size r
  /\ 0 <= Internal.size l /\ 0 <= Internal.size r
  /\ live s l /\ live s r.
Proof.
  intros HI Hp. destruct (st_children HI Hp) as (Hl & Hr).
  destruct (st_fields HI Hp) as (_ & S & _).
  pose proof (size_nonneg HI Hl). pose proof (size_nonneg HI Hr).
  cbn [Internal.size]. rewrite S. repeat split; auto; lia.
Qed.

Lemma size_not_null s (p : nodeptr) :
  Inv s -> live s p -> p <> null -> 0 < Internal.size p.
Proof.
  intros HI Hp N. destruct p as [|a v e h l r]; [contradiction|].
  destruct (size_node HI Hp) as (S & Pl & Pr & _). lia.
Qed.

Lemma size_null : Internal.size (@null V X) = 0.
Proof. reflexivity. Qed.

Lemma leftmost_node a v e h (l r : nodeptr) acc :
  l <> null ->
  Iter.leftmost (Node a v e h l r) acc
  = Iter.leftmost l (Node a v e h l r :: acc).
Proof. intros N. destruct l; [contradiction|reflexivity]. Qed.

Lemma rightmost_node a v e h (l r : nodeptr) acc :
  r <> null ->
  Iter.rightmost (Node a v e h l r) acc
  = Iter.rightmost r (Node a v e h l r :: acc).
Proof. intros N. destruct r; [contradiction|reflexivity]. Qed.

Lemma null_dec (p : nodeptr) : p = null \/ p <> null.
Proof. destruct p; [left; reflexivity|right; discriminate]. Qed.

(** From the first position the look-up is the descent to the left. *)
Lemma seek_incrementing_first s (p : nodeptr) acc :
  Inv s -> live s p -> p <> null ->
  Iter.seek_incrementing p 0 acc = Iter.leftmost p acc.
Proof.
  intros HI. revert acc. induction p as [|a v e h l IHl r _];
    intros acc Hp N; [contradiction|].
  destruct (size_node HI Hp) as (S & Pl & Pr & Hl & Hr).
  cbn [Iter.seek_incrementing].
  rewrite (proj2 (Z.ltb_ge _ _)) by lia.
  destruct (null_dec l) as [->|Nl]; [reflexivity|].
  pose proof (size_not_null HI Hl Nl).
  rewrite (proj2 (Z.ltb_lt _ _)) by lia.
  rewrite leftmost_node by exact Nl. apply IHl; assumption.
Qed.

(** From the last position the look-up is the descent to the right. *)
Lemma seek_decrementing_last s (p : nodeptr) acc :
  Inv s -> live s p -> p <> null -> Internal.size p < Word.modulus ->
  Iter.seek_decrementing p (Internal.size p - 1) acc
  = Iter.rightmost p acc.
Proof.
  intros HI. revert acc. induction p as [|a v e h l _ r IHr];
    intros acc Hp N Hm; [contradiction|].
  destruct (size_node HI Hp) as (S & Pl & Pr & Hl & Hr).
  cbn [Iter.seek_decrementing].
  destruct (null_dec r) as [->|Nr].
  - rewrite size_null in S.
    rewrite (proj2 (Z.ltb_ge _ _)) by lia.
    rewrite (proj2 (Z.ltb_ge _ _)) by lia. reflexivity.
  - pose proof (size_not_null HI Hr Nr).
    rewrite (proj2 (Z.ltb_lt _ _)) by lia.
    rewrite (WordFacts.add_small (Internal.size l) 1) by lia.
    rewrite WordFacts.sub_small by lia.
    replace (Internal.size (Node a v e h l r) - 1 - (Internal.size l + 1))
      with (Internal.size r - 1) by lia.
    rewrite rightmost_node by exact Nr. apply IHr; [assumption|assumption|].
    lia.
Qed.

(** What [increment] does with a stack is the look-up of the next
    position. *)
Lemma seek_incrementing_next s (p : nodeptr) k n st :
  Inv s -> live s p -> Internal.size p < Word.modulus ->
  0 <= k < Internal.size p ->
  Iter.seek_incrementing p k [] = Some (n, st) ->
  match n with
  | null => False
  | Node _ _ _ _ _ r =>
      match r with
      | null =>
          match st with
          | [] => k + 1 = Internal.size p
          | top :: rest =>
              k + 1 < Internal.size p
              /\ Iter.seek_incrementing p (k + 1) [] = Some (top, rest)
          end
      | Node _ _ _ _ _ _ =>
          k + 1 < Internal.size p
          /\ Iter.seek_incrementing p (k + 1) [] = Iter.leftmost r st
      end
  end.
Proof.
  intros HI. revert k n st. induction p as [|a v e h l IHl r IHr];
    intros k n st Hp Hm Hk E; [discriminate|].
  destruct (size_node HI Hp) as (S & Pl & Pr & Hl & Hr).
  cbn [Iter.seek_incrementing] in E |- *.
  destruct (Internal.size l <? k) eqn:C1.
  - apply Z.ltb_lt in C1.
    rewrite (WordFacts.add_small (Internal.size l) 1) in E |- * by lia.
    rewrite WordFacts.sub_small in E by lia.
    assert (B1 : Internal.size r < Word.modulus) by lia.
    assert (B2 : 0 <= k - (Internal.size l + 1) < Internal.size r) by lia.
    specialize (IHr _ n st Hr B1 B2 E).
    rewrite (proj2 (Z.ltb_lt (Internal.size l) (k + 1))) by lia.
    rewrite WordFacts.sub_small by lia.
    replace (k + 1 - (Internal.size l + 1))
      with (k - (Internal.size l + 1) + 1) by lia.
    destruct n as [|na nv ne nh nl nr]; [exact IHr|].
    destruct nr as [|ra rv re rh rl rr].
    + destruct st as [|top rest]; [lia|].
      destruct IHr as (B & R). split; [lia|exact R].
    + destruct IHr as (B & R). split; [lia|exact R].
  - apply Z.ltb_ge in C1. destruct (k <? Internal.size l) eqn:C2.
    + apply Z.ltb_lt in C2. rewrite seek_incrementing_acc in E.
      destruct (Iter.seek_incrementing l k []) as [[n' st']|] eqn:E';
        [|discriminate].
      cbn [pushed] in E. injection E as <- <-.
      assert (B1 : Internal.size l < Word.modulus) by lia.
      assert (B2 : 0 <= k < Internal.size l) by lia.
      specialize (IHl k n' st' Hl B1 B2 E').
      destruct n' as [|na nv ne nh nl nr]; [exact IHl|].
      destruct nr as [|ra rv re rh rl rr].
      * destruct st' as [|top rest].
        -- cbn [app]. split; [lia|].
           rewrite (proj2 (Z.ltb_ge _ _)) by lia.
           rewrite (proj2 (Z.ltb_ge _ _)) by lia. reflexivity.
        -- destruct IHl as (B & R). cbn [app]. split; [lia|].
           rewrite (proj2 (Z.ltb_ge _ _)) by lia.
           rewrite (proj2 (Z.ltb_lt _ _)) by lia.
           rewrite seek_incrementing_acc, R. reflexivity.
      * destruct IHl as (B & R). split; [lia|].
        rewrite (proj2 (Z.ltb_ge _ _)) by lia.
        rewrite (proj2 (Z.ltb_lt _ _)) by lia.
        rewrite seek_incrementing_acc, R.
        rewrite (leftmost_acc _ st'), (leftmost_acc _ (st' ++ _)).
        apply pushed_pushed.
    + apply Z.ltb_ge in C2. injection E as <- <-.
      destruct (null_dec r) as [->|Nr].
      * rewrite size_null in S. lia.
      * pose proof (size_not_null HI Hr Nr).
        assert (G : k + 1 < Internal.size (Node a v e h l r)
                    /\ (if Internal.size l <? k + 1
                        then Iter.seek_incrementing r
                               (Word.sub (k + 1)
                                  (Word.add (Internal.size l) 1)) []
                        else if k + 1 <? Internal.size l
                             then Iter.seek_incrementing l (k + 1)
                                    [Node a v e h l r]
                             else Some (Node a v e h l r, []))
                       = Iter.leftmost r []).
        { split; [lia|].
          rewrite (proj2 (Z.ltb_lt _ _)) by lia.
          rewrite (WordFacts.add_small (Internal.size l) 1) by lia.
          rewrite WordFacts.sub_small by lia.
          replace (k + 1 - (Internal.size l + 1)) with 0 by lia.
          apply (seek_incrementing_first _ HI Hr Nr). }
        destruct r; [contradiction|exact G].
Qed.

(** What [decrement] does with a stack is the look-up of the position
    before. *)
Lemma seek_decrementing_prev s (p : nodeptr) k n st :
  Inv s -> live s p -> Internal.size p < Word.modulus ->
  0 <= k < Internal.size p ->
  Iter.seek_decrementing p k [] = Some (n, st) ->
  match n with
  | null => False
  | Node _ _ _ _ l _ =>
      match l with
      | null =>
          match st with
          | [] => k = 0
          | top :: rest =>
              0 < k
              /\ Iter.seek_decrementing p (k - 1) [] = Some (top, rest)
          end
      | Node _ _ _ _ _ _ =>
          0 < k
          /\ Iter.seek_decrementing p (k - 1) [] = Iter.rightmost l st
      end
  end.
Proof.
  intros HI. revert k n st. induction p as [|a v e h l IHl r IHr];
    intros k n st Hp Hm Hk E; [discriminate|].
  destruct (size_node HI Hp) as (S & Pl & Pr & Hl & Hr).
  cbn [Iter.seek_decrementing] in E |- *.
  destruct (Internal.size l <? k) eqn:C1.
  - apply Z.ltb_lt in C1.
    rewrite (WordFacts.add_small (Internal.size l) 1) in E |- * by lia.
    rewrite WordFacts.sub_small in E by lia.
    rewrite seek_decrementing_acc in E.
    destruct (Iter.seek_decrementing r (k - (Internal.size l + 1)) [])
      as [[n' st']|] eqn:E'; [|discriminate].
    cbn [pushed] in E. injection E as <- <-.
    assert (B1 : Internal.size r < Word.modulus) by lia.
    assert (B2 : 0 <= k - (Internal.size l + 1) < Internal.size r) by lia.
    specialize (IHr _ n' st' Hr B1 B2 E').
    destruct n' as [|na nv ne nh nl nr]; [exact IHr|].
    destruct nl as [|la lv le lh ll lr].
    + destruct st' as [|top rest].
      * cbn [app]. split; [lia|].
        rewrite (proj2 (Z.ltb_ge _ _)) by lia.
        rewrite (proj2 (Z.ltb_ge _ _)) by lia. reflexivity.
      * destruct IHr as (B & R). cbn [app]. split; [lia|].
        rewrite (proj2 (Z.ltb_lt _ _)) by lia.
        rewrite WordFacts.sub_small by lia.
        replace (k - 1 - (Internal.size l + 1))
          with (k - (Internal.size l + 1) - 1) by lia.
        rewrite seek_decrementing_acc, R. reflexivity.
    + destruct IHr as (B & R). split; [lia|].
      rewrite (proj2 (Z.ltb_lt _ _)) by lia.
      rewrite WordFacts.sub_small by lia.
      replace (k - 1 - (Internal.size l + 1))
        with (k - (Internal.size l + 1) - 1) by lia.
      rewrite seek_decrementing_acc, R.
      rewrite (rightmost_acc _ st'), (rightmost_acc _ (st' ++ _)).
      apply pushed_pushed.
  - apply Z.ltb_ge in C1. destruct (k <? Internal.size l) eqn:C2.
    + apply Z.ltb_lt in C2.
      assert (B1 : Internal.size l < Word.modulus) by lia.
      assert (B2 : 0 <= k < Internal.size l) by lia.
      specialize (IHl k n st Hl B1 B2 E).
      destruct n as [|na nv ne nh nl nr]; [exact IHl|].
      destruct nl as [|la lv le lh ll lr].
      * destruct st as [|top rest]; [exact IHl|].
        destruct IHl as (B & R). split; [lia|].
        rewrite (proj2 (Z.ltb_ge _ _)) by lia.
        rewrite (proj2 (Z.ltb_lt _ _)) by lia. exact R.
      * destruct IHl as (B & R). split; [lia|].
        rewrite (proj2 (Z.ltb_ge _ _)) by lia.
        rewrite (proj2 (Z.ltb_lt _ _)) by lia. exact R.
    + apply Z.ltb_ge in C2. injection E as <- <-.
      destruct (null_dec l) as [->|Nl].
      * rewrite size_null in *. lia.
      * pose proof (size_not_null HI Hl Nl).
        assert (G : 0 < k
                    /\ (if Internal.size l <? k - 1
                        then Iter.seek_decrementing r
                               (Word.sub (k - 1)
                                  (Word.add (Internal.size l) 1))
                               [Node a v e h l r]
                        else if k - 1 <? Internal.size l
                             then Iter.seek_decrementing l (k - 1) []
                             else Some (Node a v e h l r, []))
                       = Iter.rightmost l []).
        { split; [lia|].
          rewrite (proj2 (Z.ltb_ge _ _)) by lia.
          rewrite (proj2 (Z.ltb_lt _ _)) by lia.
          replace (k - 1) with (Internal.size l - 1) by lia.
          apply (seek_decrementing_last _ HI Hl Nl). lia. }
        destruct l; [contradiction|exact G].
Qed.

Lemma seek_incrementing_some s (p : nodeptr) k :
  Inv s -> live s p -> 0 <= k < Internal.size p -> k < Word.modulus ->
  exists a v x h l r st,
    Iter.seek_incrementing p k [] = Some (Node a v x h l r, st)
    /\ nth_error (elems p) (Z.to_nat k) = Some v.
Proof.
  intros HI Hp Hk Hm.
  destruct (at_index_loop_ok HI Hp Hk Hm)
    as (a & v & x & h & l & r & E & N).
  rewrite <- (seek_incrementing_index p k []) in E.
  destruct (Iter.seek_incrementing p k []) as [[n st]|]; [|discriminate].
  cbn [option_map fst] in E. injection E as ->.
  exists a, v, x, h, l, r, st. auto.
Qed.

Lemma seek_decrementing_some s (p : nodeptr) k :
  Inv s -> live s p -> 0 <= k < Internal.size p -> k < Word.modulus ->
  exists a v x h l r st,
    Iter.seek_decrementing p k [] = Some (Node a v x h l r, st)
    /\ nth_error (elems p) (Z.to_nat k) = Some v.
Proof.
  intros HI Hp Hk Hm.
  destruct (at_index_loop_ok HI Hp Hk Hm)
    as (a & v & x & h & l & r & E & N).
  rewrite <- (seek_decrementing_index p k []) in E.
  destruct (Iter.seek_decrementing p k []) as [[n st]|]; [|discriminate].
  cbn [option_map fst] in E. injection E as ->.
  exists a, v, x, h, l, r, st. auto.
Qed.

Lemma iter_ok_make (root : nodeptr) pos :
  0 <= pos <= Internal.size root -> iter_ok root (Iter.make pos null).
Proof.
  intros H. split; [exact H|]. split; left; reflexivity.
Qed.

(** The stack of a valid iterator holds the look-up of its position. *)
Lemma iter_ok_stack s (root : nodeptr) it top rest :
  Inv s -> live s root -> Internal.size root < Word.modulus ->
  iter_ok root it -> Iter.stack_ it = top :: rest ->
  0 <= Iter.pos_ it < Internal.size root
  /\ (if Iter.decrementing_ it
      then Iter.seek_decrementing root (Iter.pos_ it) []
      else Iter.seek_incrementing root (Iter.pos_ it) [])
     = Some (Iter.node_ it, top :: rest).
Proof.
  intros HI Hr Hm (B & _ & [E|E]) Es; [congruence|].
  rewrite Es in E. split; [|exact E]. split; [lia|].
  apply (@at_index_loop_lt s root (Iter.pos_ it) (Iter.node_ it) HI Hr);
    [lia|].
  destruct (Iter.decrementing_ it).
  - rewrite <- (seek_decrementing_index root (Iter.pos_ it) []), E.
    reflexivity.
  - rewrite <- (seek_incrementing_index root (Iter.pos_ it) []), E.
    reflexivity.
Qed.

Lemma iter_ok_found (root : nodeptr) pos n st (d : bool) :
  0 <= pos <= Internal.size root ->
  (if d then Iter.seek_decrementing root pos []
   else Iter.seek_incrementing root pos []) = Some (n, st) ->
  iter_ok root {| Iter.pos_ := pos; Iter.node_ := n; Iter.stack_ := st;
                  Iter.decrementing_ := d |}.
Proof.
  intros B E. split; [exact B|]. cbn [Iter.pos_ Iter.node_ Iter.stack_
                                      Iter.decrementing_].
  split; [right|right; exact E]. destruct d.
  - rewrite <- (seek_decrementing_index root pos []), E. reflexivity.
  - rewrite <- (seek_incrementing_index root pos []), E. reflexivity.
Qed.

(** [increment] below the last position. *)
Lemma increment_ok s (root : nodeptr) it :
  Inv s -> live s root -> Internal.size root < Word.modulus ->
  iter_ok root it -> Iter.pos_ it + 1 < Internal.size root ->
  exists it', Iter.increment root it = Some it'
              /\ Iter.pos_ it' = Iter.pos_ it + 1 /\ iter_ok root it'.
Proof.
  intros HI Hr Hm Hok Hlt. pose proof Hok as (B & _).
  unfold Iter.increment. rewrite WordFacts.add_small by lia.
  assert (Full : exists it',
             Iter.moved (Iter.pos_ it + 1) false
               (Iter.seek_incrementing root (Iter.pos_ it + 1) [])
             = Some it'
             /\ Iter.pos_ it' = Iter.pos_ it + 1 /\ iter_ok root it').
  { destruct (@seek_incrementing_some s root (Iter.pos_ it + 1) HI Hr)
      as (a & v & x & h & l & r & st & E & _); [lia|lia|].
    rewrite E. cbn [Iter.moved]. eexists. split; [reflexivity|].
    split; [reflexivity|]. apply (@iter_ok_found root _ _ _ false); [lia|].
    exact E. }
  destruct (Iter.decrementing_ it) eqn:D; [exact Full|].
  destruct (Iter.stack_ it) as [|top rest] eqn:Es; [exact Full|].
  destruct (iter_ok_stack HI Hr Hm Hok Es) as (Bp & E). rewrite D in E.
  pose proof (seek_incrementing_next HI Hr Hm Bp E) as Nx.
  destruct (Iter.node_ it) as [|na nv ne nh nl nr]; [contradiction|].
  destruct nr as [|ra rv re rh rl rr].
  - destruct Nx as (_ & R). cbn [Iter.moved]. eexists.
    split; [reflexivity|]. split; [reflexivity|].
    apply (@iter_ok_found root _ _ _ false); [lia|exact R].
  - destruct Nx as (_ & R). rewrite <- R.
    destruct Full as (it' & F & P & O). exists it'. auto.
Qed.

(** [decrement] above the first position. *)
Lemma decrement_ok s (root : nodeptr) it :
  Inv s -> live s root -> Internal.size root < Word.modulus ->
  iter_ok root it -> 0 < Iter.pos_ it ->
  exists it', Iter.decrement root it = Some it'
              /\ Iter.pos_ it' = Iter.pos_ it - 1 /\ iter_ok root it'.
Proof.
  intros HI Hr Hm Hok Hlt. pose proof Hok as (B & _).
  unfold Iter.decrement. rewrite WordFacts.sub_small by lia.
  assert (Full : exists it',
             Iter.moved (Iter.pos_ it - 1) true
               (Iter.seek_decrementing root (Iter.pos_ it - 1) [])
             = Some it'
             /\ Iter.pos_ it' = Iter.pos_ it - 1 /\ iter_ok root it').
  { destruct (@seek_decrementing_some s root (Iter.pos_ it - 1) HI Hr)
      as (a & v & x & h & l & r & st & E & _); [lia|lia|].
    rewrite E. cbn [Iter.moved]. eexists. split; [reflexivity|].
    split; [reflexivity|]. apply (@iter_ok_found root _ _ _ true); [lia|].
    exact E. }
  destruct (Iter.decrementing_ it) eqn:D; [|exact Full].
  destruct (Iter.stack_ it) as [|top rest] eqn:Es; [exact Full|].
  destruct (iter_ok_stack HI Hr Hm Hok Es) as (Bp & E). rewrite D in E.
  pose proof (seek_decrementing_prev HI Hr Hm Bp E) as Nx.
  destruct (Iter.node_ it) as [|na nv ne nh nl nr]; [contradiction|].
  destruct nl as [|la lv le lh ll lr].
  - destruct Nx as (_ & R). cbn [Iter.moved]. eexists.
    split; [reflexivity|]. split; [reflexivity|].
    apply (@iter_ok_found root _ _ _ true); [lia|exact R].
  - destruct Nx as (_ & R). rewrite <- R.
    destruct Full as (it' & F & P & O). exists it'. auto.
Qed.

(** [reset] to a position of the container or to its end. *)
Lemma reset_ok s (root : nodeptr) it pos :
  Inv s -> live s root -> Internal.size root < Word.modulus - 1 ->
  iter_ok root it -> 0 <= pos <= Internal.size root ->
  exists it', Iter.reset root it pos = Some it'
              /\ Iter.pos_ it' = pos /\ iter_ok root it'.
Proof.
  intros HI Hr Hm Hok Hpos. pose proof Hok as (B & _).
  unfold Iter.reset. rewrite WordFacts.add_small by lia.
  destruct ((pos =? Iter.pos_ it + 1) && negb (pos =? Internal.size root))
    eqn:C1.
  - apply andb_true_iff in C1. destruct C1 as (C1 & C2).
    apply Z.eqb_eq in C1. apply negb_true_iff, Z.eqb_neq in C2.
    destruct (@increment_ok s root it HI Hr) as (it' & E & P & O);
      [lia|exact Hok|lia|].
    exists it'. split; [exact E|]. split; [lia|exact O].
  - destruct (pos =? Word.sub (Iter.pos_ it) 1) eqn:C2.
    + apply Z.eqb_eq in C2.
      assert (Hp : 0 < Iter.pos_ it).
      { destruct (Z.eq_dec (Iter.pos_ it) 0) as [Z0|]; [|lia].
        rewrite Z0 in C2. unfold Word.sub, Word.wrap in C2.
        rewrite WordFacts.modulus_eq in *. cbn in C2. lia. }
      rewrite WordFacts.sub_small in C2 by lia.
      destruct (@decrement_ok s root it HI Hr) as (it' & E & P & O);
        [lia|exact Hok|lia|].
      exists it'. split; [exact E|]. split; [lia|exact O].
    + destruct (Iter.pos_ it =? pos) eqn:C3; cbn [negb].
      * apply Z.eqb_eq in C3. exists it. auto.
      * eexists. split; [reflexivity|]. split; [reflexivity|].
        split; [exact Hpos|]. split; left; reflexivity.
Qed.

Lemma plus_assign_ok s (root : nodeptr) it k :
  Inv s -> live s root -> Internal.size root < Word.modulus - 1 ->
  iter_ok root it -> 0 <= Iter.pos_ it + k <= Internal.size root ->
  exists it', Iter.plus_assign root it k = Some it'
              /\ Iter.pos_ it' = Iter.pos_ it + k /\ iter_ok root it'.
Proof.
  intros HI Hr Hm Hok Hpos. unfold Iter.plus_assign.
  replace (Word.add (Iter.pos_ it) (Word.wrap k)) with (Iter.pos_ it + k).
  - apply (reset_ok HI Hr Hm Hok Hpos).
  - unfold Word.add, Word.wrap. rewrite Z.add_mod_idemp_r
      by (rewrite WordFacts.modulus_eq; lia).
    symmetry. apply Z.mod_small. lia.
Qed.

Lemma minus_assign_ok s (root : nodeptr) it k :
  Inv s -> live s root -> Internal.size root < Word.modulus - 1 ->
  iter_ok root it -> 0 <= Iter.pos_ it - k <= Internal.size root ->
  exists it', Iter.minus_assign root it k = Some it'
              /\ Iter.pos_ it' = Iter.pos_ it - k /\ iter_ok root it'.
Proof.
  intros HI Hr Hm Hok Hpos. unfold Iter.minus_assign.
  replace (Word.sub (Iter.pos_ it) (Word.wrap k)) with (Iter.pos_ it - k).
  - apply (reset_ok HI Hr Hm Hok Hpos).
  - unfold Word.sub, Word.wrap. rewrite Zminus_mod_idemp_r.
    symmetry. apply Z.mod_small. lia.
Qed.

(** A walk that stays in the container ends where the steps add up to. *)
Lemma walk_ok s (root : nodeptr) ms :
  Inv s -> live s root -> Internal.size root < Word.modulus - 1 ->
  forall it,
    iter_ok root it -> in_range (Internal.size root) (Iter.pos_ it) ms ->
    exists it', Iter.walk root it ms = Some it'
                /\ Iter.pos_ it' = destination (Iter.pos_ it) ms
                /\ iter_ok root it'.
Proof.
  intros HI Hr Hm. induction ms as [|m ms IH]; intros it Hok Hin.
  - exists it. auto.
  - destruct Hin as (B & Hin). cbn [Iter.walk destination].
    assert (Step : exists it1, Iter.walk_step root it m = Some it1
                   /\ Iter.pos_ it1 = Iter.pos_ it + offset m
                   /\ iter_ok root it1).
    { destruct m as [| |k|k]; cbn [Iter.walk_step offset] in *.
      - apply (@plus_assign_ok s root it 1 HI Hr Hm Hok B).
      - unfold Iter.pre_decrement.
        destruct (@minus_assign_ok s root it 1 HI Hr Hm Hok)
          as (it1 & E & P & O); [lia|].
        exists it1. split; [exact E|]. split; [lia|exact O].
      - apply (@plus_assign_ok s root it k HI Hr Hm Hok B).
      - destruct (@minus_assign_ok s root it k HI Hr Hm Hok)
          as (it1 & E & P & O); [lia|].
        exists it1. split; [exact E|]. split; [lia|exact O]. }
    destruct Step as (it1 & E & P & O). rewrite E, <- P.
    apply IH; [exact O|]. rewrite P. exact Hin.
Qed.

(** [operator*] below the end: the element at the position. *)
Lemma deref_ok s (root : nodeptr) it :
  Inv s -> live s root -> Internal.size root < Word.modulus ->
  iter_ok root it -> Iter.pos_ it < Internal.size root ->
  exists v it',
    Iter.deref root it = Some (v, it')
    /\ nth_error (elems root) (Z.to_nat (Iter.pos_ it)) = Some v
    /\ Iter.pos_ it' = Iter.pos_ it /\ iter_ok root it'.
Proof.
  intros HI Hr Hm Hok Hlt. pose proof Hok as (B & Hn & Hs).
  destruct (@at_index_loop_ok s root (Iter.pos_ it) HI Hr)
    as (a & v & x & h & l & r & E & N); [lia|lia|].
  unfold Iter.deref, Iter.find_node.
  rewrite (proj2 (Z.ltb_lt _ _)) by lia.
  destruct (Iter.node_ it) as [|na nv ne nh nl nr] eqn:En'.
  - unfold Internal.at_index. rewrite (proj2 (Z.ltb_lt _ _)) by lia.
    rewrite E. exists v. eexists. split; [reflexivity|].
    split; [exact N|]. split; [reflexivity|].
    split; [exact B|]. cbn [Iter.pos_ Iter.node_ Iter.stack_
                            Iter.decrementing_].
    split; [right; exact E|]. destruct Hs as [Hs|Hs]; [left; exact Hs|].
    exfalso. destruct (Iter.decrementing_ it).
    + rewrite <- (seek_decrementing_index root (Iter.pos_ it) []), Hs in E.
      discriminate.
    + rewrite <- (seek_incrementing_index root (Iter.pos_ it) []), Hs in E.
      discriminate.
  - destruct Hn as [Hn|Hn]; [discriminate|].
    rewrite E in Hn. injection Hn as <- <- <- <- <- <-.
    exists v, it. split; [reflexivity|]. auto.
Qed.

Lemma skipn_nth {A : Type} (l : list A) n x :
  nth_error l n = Some x -> skipn n l = x :: skipn (S n) l.
Proof.
  revert l. induction n as [|n IH]; intros [|y l] H; try discriminate.
  - injection H as ->. reflexivity.
  - cbn [nth_error] in H. cbn [skipn]. rewrite (IH l H). reflexivity.
Qed.

(** The [for] statement over a container binds its variable to the
    elements from the iterator on, in ascending order. *)
Lemma range_for_ok s (root : nodeptr) last fuel :
  Inv s -> live s root -> Internal.size root < Word.modulus - 1 ->
  Iter.pos_ last = Internal.size root ->
  forall it,
    iter_ok root it ->
    (Z.to_nat (Internal.size root - Iter.pos_ it) <= fuel)%nat ->
    Iter.range_for fuel root it last
    = Some (skipn (Z.to_nat (Iter.pos_ it)) (elems root)).
Proof.
  intros HI Hr Hm Hl. induction fuel as [|fuel IH]; intros it Hok Hf;
    pose proof Hok as (B & _).
  - assert (E : Iter.pos_ it = Internal.size root) by lia.
    cbn [Iter.range_for]. unfold Iter.eq. rewrite Hl, E, Z.eqb_refl.
    rewrite (size_live HI Hr), Nat2Z.id, skipn_all. reflexivity.
  - cbn [Iter.range_for]. unfold Iter.eq. rewrite Hl.
    destruct (Iter.pos_ it =? Internal.size root) eqn:C.
    + apply Z.eqb_eq in C.
      rewrite C, (size_live HI Hr), Nat2Z.id, skipn_all. reflexivity.
    + apply Z.eqb_neq in C.
      destruct (@deref_ok s root it HI Hr) as (v & it1 & E & N & P & O);
        [lia|exact Hok|lia|].
      rewrite E. unfold Iter.pre_increment.
      destruct (@plus_assign_ok s root it1 1 HI Hr Hm O)
        as (it2 & E2 & P2 & O2); [lia|].
      rewrite E2, (IH it2 O2) by lia.
      rewrite P2, P, (skipn_nth _ _ N). do 3 f_equal. lia.
Qed.

(** The iterators [lower_bound] makes hold the node at their position. *)
Lemma iter_ok_bound s (p : nodeptr) cmp :
  Inv s -> live s p -> treap p -> lower_part cmp ->
  Internal.size p < Word.modulus ->
  iter_ok p (Iter.of_bound (Internal.lower_bound p cmp)).
Proof.
  intros HI Hp Tp Hc Hm.
  destruct (lower_bound_pos HI Hp Tp Hc Hm) as (E & H).
  pose proof (filter_length_le cmp (elems p)) as Lf.
  unfold Iter.of_bound, Iter.make. split; [|split; [|left; reflexivity]];
    cbn [Iter.pos_ Iter.node_ Iter.stack_ Iter.decrementing_].
  - rewrite E, (size_live HI Hp). lia.
  - destruct H as [(_ & ->)|(a & v & x & h & l & r & -> & _ & _ & A)];
      [left; reflexivity|].
    right. rewrite E. exact A.
Qed.

End Store.


End Algo.

(** * The intern table keeps its invariant *)

Module TableFacts.

Import TableSpec.

Section TableFacts.

Context {V X : Type}.

Variable equal_value : V -> V -> bool.
Variable fields_ok : node V X -> Prop.

Hypothesis equal_value_spec : forall x y, equal_value x y = true <-> x = y.

Local Notation "'table_inv'" := (table_inv equal_value fields_ok).

Lemma live_null (t : @HashTable.hash_table V X) : live t null.
Proof. left. reflexivity. Qed.

Lemma live_app (t t' : @HashTable.hash_table V X) p :
  live t p -> live (t ++ t') p.
Proof.
  intros [->|H]; [left; reflexivity|right]. apply in_or_app. auto.
Qed.

Lemma in_table_address t (n : node V X) :
  table_inv t -> In n t -> Internal.address n <> O.
Proof.
  intros HI H. apply In_nth_error in H. destruct H as (i & H).
  rewrite (inv_address HI _ H). discriminate.
Qed.

Lemma live_address_eq t (p q : node V X) :
  table_inv t -> live t p -> live t q ->
  Internal.address p = Internal.address q -> p = q.
Proof.
  intros HI [->|Hp] [->|Hq] E; [reflexivity| | |].
  - exfalso. apply (in_table_address q HI Hq). symmetry. exact E.
  - exfalso. apply (in_table_address p HI Hp). exact E.
  - apply In_nth_error in Hp, Hq.
    destruct Hp as (i & Hi), Hq as (j & Hj).
    rewrite (inv_address HI _ Hi), (inv_address HI _ Hj) in E.
    injection E as ->. congruence.
Qed.

Lemma matches_sym (p q : node V X) :
  HashTable.matches equal_value p q = HashTable.matches equal_value q p.
Proof.
  destruct p as [|a v x h l r], q as [|a' v' x' h' l' r']; try reflexivity.
  unfold HashTable.matches, Internal.ptr_eq.
  rewrite (Z.eqb_sym h' h), (Nat.eqb_sym (Internal.address l')),
    (Nat.eqb_sym (Internal.address r')).
  f_equal. destruct (equal_value v' v) eqn:E1, (equal_value v v') eqn:E2;
    try reflexivity.
  - apply equal_value_spec in E1. subst.
    rewrite (proj2 (equal_value_spec v v) eq_refl) in E2. discriminate.
  - apply equal_value_spec in E2. subst.
    rewrite (proj2 (equal_value_spec v' v') eq_refl) in E1. discriminate.
Qed.

(** A node of the table that matches a candidate with live children is the
    candidate up to its address and its extra fields. *)
Lemma matches_node t a v x h (l r p : node V X) :
  table_inv t -> In p t -> live t l -> live t r ->
  HashTable.matches equal_value (Node a v x h l r) p = true ->
  exists a' x', p = Node a' v x' h l r.
Proof.
  intros HI Hp Hl Hr M.
  destruct p as [|a' v' x' h' l' r']; [discriminate|].
  unfold HashTable.matches in M.
  apply andb_true_iff in M. destruct M as (M & Ev).
  apply andb_true_iff in M. destruct M as (M & Er).
  apply andb_true_iff in M. destruct M as (Eh & El).
  apply Z.eqb_eq in Eh. apply equal_value_spec in Ev.
  apply Nat.eqb_eq in El, Er.
  destruct (inv_children HI _ _ _ _ _ _ Hp) as (Hl' & Hr').
  apply (live_address_eq HI Hl' Hl) in El.
  apply (live_address_eq HI Hr' Hr) in Er.
  subst. eauto.
Qed.

(** [hash_table::insert] of a well-formed candidate. *)
Lemma table_insert_ok t v x h (l r : node V X) :
  table_inv t -> live t l -> live t r ->
  fields_ok (Node (HashTable.fresh t) v x h l r) ->
  exists a' x' t',
    HashTable.insert equal_value (Node (HashTable.fresh t) v x h l r) t
      = (Node a' v x' h l r, t')
    /\ table_inv t' /\ (forall q, live t q -> live t' q)
    /\ In (Node a' v x' h l r) t'.
Proof.
  intros HI Hl Hr Hf. unfold HashTable.insert.
  set (c := Node (HashTable.fresh t) v x h l r).
  destruct (find (HashTable.matches equal_value c) t) as [p|] eqn:F.
  - apply find_some in F. destruct F as (Hp & M).
    edestruct matches_node as (a' & x' & E);
      [exact HI|exact Hp|exact Hl|exact Hr|exact M|]. subst p.
    exists a', x', t. auto.
  - pose proof (find_none _ _ F) as N.
    exists (HashTable.fresh t), x, (t ++ [c]).
    split; [reflexivity|]. split; [|split].
    + constructor.
      * intros i n Hn. destruct (Nat.lt_ge_cases i (length t)) as [Lt|Ge].
        -- rewrite nth_error_app1 in Hn by assumption.
           exact (inv_address HI _ Hn).
        -- rewrite nth_error_app2 in Hn by assumption.
           destruct (i - length t)%nat eqn:D; simpl in Hn.
           ++ injection Hn as <-. unfold c, HashTable.fresh. simpl.
              f_equal. lia.
           ++ destruct n0; discriminate.
      * intros a0 v0 x0 h0 l0 r0 H. apply in_app_or in H.
        destruct H as [H|[H|[]]].
        -- destruct (inv_children HI _ _ _ _ _ _ H).
           split; apply live_app; assumption.
        -- unfold c in H. injection H as <- <- <- <- <- <-.
           split; apply live_app; assumption.
      * intros n H. apply in_app_or in H. destruct H as [H|[<-|[]]].
        -- exact (inv_fields HI _ H).
        -- exact Hf.
      * intros p q Hp Hq M. apply in_app_or in Hp, Hq.
        destruct Hp as [Hp|[<-|[]]], Hq as [Hq|[<-|[]]].
        -- exact (inv_unique HI _ _ Hp Hq M).
        -- rewrite matches_sym, (N _ Hp) in M. discriminate.
        -- rewrite (N _ Hq) in M. discriminate.
        -- reflexivity.
    + intros q. apply live_app.
    + apply in_or_app. right. left. reflexivity.
Qed.

Lemma table_inv_nil : table_inv [].
Proof.
  constructor.
  - intros [|i] n H; discriminate.
  - intros a v x h l r [].
  - intros n [].
  - intros p q [].
Qed.

End TableFacts.

(** The fields predicate may be weakened. *)
Lemma table_inv_fields {V X : Type} (equal_value : V -> V -> bool)
    (P Q : node V X -> Prop) t :
  (forall n, In n t -> P n -> Q n) ->
  table_inv equal_value P t -> table_inv equal_value Q t.
Proof.
  intros H HI. constructor.
  - exact (inv_address HI).
  - exact (inv_children HI).
  - intros n Hn. apply H; [assumption|]. exact (inv_fields HI _ Hn).
  - exact (inv_unique HI).
Qed.

End TableFacts.

(** * The set provider is a store for the algorithms *)

Unset Implicit Arguments.

Module SetFacts.

Import TableSpec.

Section SetFacts.

Context {T : Type}.

Variable provider : set_provider T.

#[local] Existing Instance SetNode.set_traits.
#[local] Instance env : Env T T set_fields (@SetNode.table T) :=
  SetNode.set_env provider.

Hypothesis Hprov : SetSpec.provider_ok provider.

Local Notation "'Inv'" := (SetSpec.Inv provider).
Local Notation "'live'" := (@SetSpec.live T).

Lemma key_eq_spec x y : key_eq provider x y = true <-> x = y.
Proof. exact (Spec.equal_spec Hprov x y). Qed.

Lemma set_create_ok t v (l r : node T set_fields) p :
  Inv t -> live t l -> live t r -> p = SetSpec.prio provider v ->
  exists a' x' h' t',
    SetNode.create provider v l r p t = Some (Node a' v x' h' l r, t')
    /\ Inv t' /\ (forall q, live t q -> live t' q)
    /\ live t' (Node a' v x' h' l r).
Proof.
  intros HI Hl Hr ->.
  destruct (@TableFacts.table_insert_ok T set_fields (key_eq provider)
              (SetSpec.fields_ok provider) key_eq_spec t v
              {| priority_ := SetSpec.prio provider v;
                 size_ := 1 + Internal.size l + Internal.size r |}
              (hash_combine3 (Internal.hash l) (Internal.hash r)
                 (SetSpec.prio provider v)) l r HI Hl Hr)
    as (a' & x' & t' & E & HI' & Hx & Hn).
  { cbn [SetSpec.fields_ok priority_ size_]. repeat split. }
  exists a', x'. eexists. exists t'.
  split; [exact (f_equal Some E)|]. split; [exact HI'|]. split; [exact Hx|].
  right. exact Hn.
Qed.

Lemma set_store_ok :
  Spec.store_ok (SetSpec.prio provider) Inv live.
Proof.
  constructor.
  - intros s. left. reflexivity.
  - intros s a v x h l r HI [H|H]; [discriminate|].
    exact (inv_children HI _ _ _ _ _ _ H).
  - intros s a v x h l r HI [H|H]; [discriminate|].
    pose proof (inv_fields HI _ H) as (P & S & _).
    split; [exact P|]. split; [exact S|].
    exact (TableFacts.in_table_address _ HI H).
  - intros s p q HI. eapply TableFacts.live_address_eq. exact HI.
  - intros s a v x h l r a' x' h' HI [H|H] [H'|H']; try discriminate.
    apply (inv_unique HI _ _ H H').
    pose proof (inv_fields HI _ H) as (P & _ & Eh).
    pose proof (inv_fields HI _ H') as (P' & _ & Eh').
    unfold HashTable.matches, Internal.ptr_eq.
    rewrite !Nat.eqb_refl, (proj2 (key_eq_spec v v) eq_refl).
    rewrite Eh, Eh', P, P', Z.eqb_refl. reflexivity.
  - intros s a v x h l0 r0 l r HI [H|H] Hl Hr; [discriminate|].
    pose proof (inv_fields HI _ H) as (P & _).
    cbn [make_node_from env SetNode.set_env SetNode.make_node_parent].
    apply set_create_ok; assumption.
  - intros s v HI.
    cbn [make_node_value env SetNode.set_env]. unfold SetNode.make_node.
    apply set_create_ok; try assumption; try (left; reflexivity).
    unfold SetSpec.prio. reflexivity.
Qed.

Lemma Inv_nil : Inv [].
Proof. apply TableFacts.table_inv_nil. Qed.

End SetFacts.

End SetFacts.

(** * The map provider is a store for the algorithms *)

Module MapFacts.

Import TableSpec.

Section MapFacts.

Context {K T : Type}.

Variable provider : map_provider K T.

#[local] Existing Instance SetNode.set_traits.
#[local] Existing Instance MapNode.map_traits.
#[local] Instance env
  : Env K (K * T) (node K set_fields) (@MapNode.state K T) :=
  MapNode.map_env provider.

Hypothesis Hprov : MapSpec.provider_ok provider.

Local Notation "'Inv'" := (MapSpec.Inv provider).
Local Notation "'live'" := (@MapSpec.live K T).
Local Notation "'sp'" := (set_provider_ provider).

Lemma map_order_ok :
  @Spec.order_ok K (K * T) (node K set_fields) (@MapNode.state K T) env.
Proof.
  destruct Hprov as (Hs & _). destruct Hs as [H1 H2 H3 H4].
  constructor; assumption.
Qed.

Lemma value_eq_spec (x y : K * T) :
  MapNode.value_eq provider x y = true <-> x = y.
Proof.
  destruct Hprov as (Hs & Hm). unfold MapNode.value_eq.
  rewrite andb_true_iff, Hm, (SetFacts.key_eq_spec sp Hs).
  destruct x, y; simpl. split; [intros (-> & ->); reflexivity|].
  intros E; injection E; auto.
Qed.

(** A map node and its key node have the same size. *)
Lemma size_key_node (p : node (K * T) (node K set_fields)) :
  Internal.size p = Internal.size (MapNode.key_node_of p).
Proof. destruct p; reflexivity. Qed.

Lemma key_node_live s (p : node (K * T) (node K set_fields)) :
  Inv s -> live s p ->
  SetSpec.live (MapNode.key_table s) (MapNode.key_node_of p).
Proof.
  intros (_ & HI) [->|H]; [left; reflexivity|].
  destruct p as [|a v kn h l r]; [left; reflexivity|].
  destruct (inv_fields HI _ H) as (Hk & _). right. exact Hk.
Qed.

Lemma fields_ok_mono (kt kt' : @SetNode.table K) n :
  (forall q, SetSpec.live kt q -> SetSpec.live kt' q) ->
  SetSpec.Inv sp kt' ->
  MapSpec.fields_ok provider kt n -> MapSpec.fields_ok provider kt' n.
Proof.
  intros Hx HI'. destruct n as [|a v kn h l r]; [trivial|].
  intros (Hk & Hs & Hh). split; [|split; assumption].
  destruct (Hx kn (or_intror Hk)) as [E|H]; [|exact H].
  destruct Hs as (a' & x' & kh & E'). congruence.
Qed.

Lemma map_create_ok s v kn (l r : node (K * T) (node K set_fields)) :
  Inv s -> live s l -> live s r ->
  In kn (MapNode.key_table s) ->
  (exists a x kh,
     kn = Node a (fst v) x kh (MapNode.key_node_of l)
            (MapNode.key_node_of r)) ->
  exists a' x' h' s',
    MapNode.make_node_keyed provider v kn l r s
      = Some (Node a' v x' h' l r, s')
    /\ Inv s' /\ (forall q, live s q -> live s' q)
    /\ live s' (Node a' v x' h' l r)
    /\ MapNode.key_table s' = MapNode.key_table s.
Proof.
  intros (HIs & HIm) Hl Hr Hk Hs.
  unfold MapNode.make_node_keyed, MapNode.create.
  destruct Hs as (ka & kx & kh & ->).
  unfold HashTable.get_unique_node, MapNode.key_node. cbv zeta.
  destruct (@TableFacts.table_insert_ok (K * T) (node K set_fields)
              (MapNode.value_eq provider)
              (MapSpec.fields_ok provider (MapNode.key_table s))
              value_eq_spec (MapNode.table s) v
              (Node ka (fst v) kx kh (MapNode.key_node_of l)
                 (MapNode.key_node_of r))
              (hash_combine4 (Internal.hash l) (Internal.hash r)
                 (Word.wrap (mapped_hash provider (snd v))) kh)
              l r HIm Hl Hr)
    as (a' & x' & t' & E & HI' & Hx & Hn).
  { cbn [MapSpec.fields_ok]. split; [exact Hk|]. split; [eauto|].
    reflexivity. }
  rewrite E. exists a', x'. eexists. eexists.
  split; [reflexivity|]. split; [split; assumption|].
  split; [exact Hx|]. split; [right; exact Hn|reflexivity].
Qed.

Local Notation "'key_kept' s s'" :=
  (forall q, SetSpec.live (MapNode.key_table s) q ->
             SetSpec.live (MapNode.key_table s') q)
  (at level 10, s at level 9, s' at level 9).

Lemma make_node_parent_ok s a v x h l0 r0 l r :
  Inv s -> live s (Node a v x h l0 r0) -> live s l -> live s r ->
  exists a' x' h' s',
    MapNode.make_node_parent provider (Node a v x h l0 r0) l r s
      = Some (Node a' v x' h' l r, s')
    /\ Inv s' /\ (forall q, live s q -> live s' q)
    /\ live s' (Node a' v x' h' l r)
    /\ key_kept s s'.
Proof.
  pose proof Hprov as (Hsp & Hm).
  pose proof (SetFacts.set_store_ok sp Hsp) as SS.
  intros HI Hp Hl Hr.
  pose proof HI as (HIs & HIm).
  destruct Hp as [Hp|Hp]; [discriminate|].
  destruct (inv_fields HIm _ Hp) as (Hk & (ka & kx & kh & ->) & _).
  cbn [MapNode.make_node_parent].
  destruct (Spec.make_node_from_ok SS _ _ _ _ _ _ _
              (MapNode.key_node_of l) (MapNode.key_node_of r) HIs
              (or_intror Hk) (key_node_live _ _ HI Hl)
              (key_node_live _ _ HI Hr))
    as (ka' & kx' & kh' & kt' & E & HIs' & Hx & Hn).
  cbn [make_node_from SetFacts.env SetNode.set_env] in E.
  unfold bind, MapNode.in_key_set_env. rewrite E.
  destruct Hn as [Hn|Hn]; [discriminate|].
  set (s1 := {| MapNode.key_table := kt'; MapNode.table := MapNode.table s |}).
  assert (HI1 : Inv s1).
  { split; [exact HIs'|]. cbn [MapNode.key_table MapNode.table s1].
    eapply TableFacts.table_inv_fields; [|exact HIm].
    intros n _. apply fields_ok_mono; assumption. }
  destruct (map_create_ok s1 v _ l r HI1 Hl Hr Hn)
    as (a' & x' & h' & s' & E' & HI' & Hx' & Hn' & Ek); [eauto|].
  exists a', x', h', s'.
  split; [exact E'|]. split; [exact HI'|]. split; [exact Hx'|].
  split; [exact Hn'|]. rewrite Ek. exact Hx.
Qed.

Lemma make_node_ok s v :
  Inv s ->
  exists a' x' h' s',
    MapNode.make_node provider v null null s
      = Some (Node a' v x' h' null null, s')
    /\ Inv s' /\ (forall q, live s q -> live s' q)
    /\ live s' (Node a' v x' h' null null)
    /\ key_kept s s'.
Proof.
  pose proof Hprov as (Hsp & Hm).
  pose proof (SetFacts.set_store_ok sp Hsp) as SS.
  intros HI. pose proof HI as (HIs & HIm).
  unfold MapNode.make_node.
  destruct (Spec.make_node_value_ok SS _ (fst v) HIs)
    as (ka' & kx' & kh' & kt' & E & HIs' & Hx & Hn).
  cbn [make_node_value SetFacts.env SetNode.set_env] in E.
  unfold bind, MapNode.in_key_set_env.
  cbn [MapNode.key_node_of]. rewrite E.
  destruct Hn as [Hn|Hn]; [discriminate|].
  set (s1 := {| MapNode.key_table := kt'; MapNode.table := MapNode.table s |}).
  assert (HI1 : Inv s1).
  { split; [exact HIs'|]. cbn [MapNode.key_table MapNode.table s1].
    eapply TableFacts.table_inv_fields; [|exact HIm].
    intros n _. apply fields_ok_mono; assumption. }
  destruct (map_create_ok s1 v _ null null HI1 (or_introl eq_refl)
              (or_introl eq_refl) Hn)
    as (a' & x' & h' & s' & E' & HI' & Hx' & Hn' & Ek); [eauto|].
  exists a', x', h', s'.
  split; [exact E'|]. split; [exact HI'|]. split; [exact Hx'|].
  split; [exact Hn'|]. rewrite Ek. exact Hx.
Qed.

(** The store of the map provider, with the nodes of a key table [k0] kept
    so that the sets of the linked provider stay live. *)
Lemma map_store_from_ok k0 :
  Spec.store_ok (MapSpec.prio provider) (MapSpec.Inv_from provider k0) live.
Proof.
  pose proof Hprov as (Hsp & Hm).
  pose proof (SetFacts.set_store_ok sp Hsp) as SS.
  constructor.
  - intros s. left. reflexivity.
  - intros s a v x h l r ((_ & HI) & _) [H|H]; [discriminate|].
    exact (inv_children HI _ _ _ _ _ _ H).
  - intros s a v x h l r ((HIs & HI) & _) [H|H]; [discriminate|].
    destruct (inv_fields HI _ H) as (Hk & (ka & kx & kh & ->) & _).
    destruct (Spec.live_fields SS _ _ _ _ _ _ _ HIs (or_intror Hk))
      as (P & S & _).
    split; [exact P|]. split.
    + cbn [size_of MapNode.map_traits Internal.size].
      rewrite !size_key_node. exact S.
    + exact (TableFacts.in_table_address _ HI H).
  - intros s p q ((_ & HI) & _). eapply TableFacts.live_address_eq. exact HI.
  - intros s a v x h l r a' x' h' ((HIs & HI) & _) [H|H] [H'|H'];
      try discriminate.
    apply (inv_unique HI _ _ H H').
    destruct (inv_fields HI _ H) as (Hk & (ka & kx & kh & Ek) & Eh).
    destruct (inv_fields HI _ H') as (Hk' & (ka' & kx' & kh' & Ek') & Eh').
    assert (Ex : x = x').
    { subst x x'.
      exact (Spec.live_unique SS _ _ _ _ _ _ _ _ _ _ HIs
               (or_intror Hk) (or_intror Hk')). }
    rewrite <- Ex in Eh'.
    unfold HashTable.matches, Internal.ptr_eq.
    rewrite !Nat.eqb_refl, (proj2 (value_eq_spec v v) eq_refl).
    rewrite Eh, Eh', Z.eqb_refl. reflexivity.
  - intros s a v x h l0 r0 l r (HI & HK) Hp Hl Hr.
    cbn [make_node_from env MapNode.map_env].
    destruct (make_node_parent_ok s a v x h l0 r0 l r HI Hp Hl Hr)
      as (a' & x' & h' & s' & E & HI' & Hx & Hn & Hk).
    exists a', x', h', s'. split; [exact E|].
    split; [split; [exact HI'|]; intros q Hq; apply Hk, HK, Hq|]. auto.
  - intros s v (HI & HK).
    cbn [make_node_value env MapNode.map_env].
    destruct (make_node_ok s v HI)
      as (a' & x' & h' & s' & E & HI' & Hx & Hn & Hk).
    exists a', x', h', s'. split; [exact E|].
    split; [split; [exact HI'|]; intros q Hq; apply Hk, HK, Hq|]. auto.
Qed.

Lemma Inv_from_nil s : Inv s <-> MapSpec.Inv_from provider [] s.
Proof.
  split; [|intros (H & _); exact H].
  intros H. split; [exact H|]. intros q [->|[]]. left. reflexivity.
Qed.

Lemma map_store_ok :
  Spec.store_ok (MapSpec.prio provider) Inv live.
Proof.
  destruct (map_store_from_ok []) as [H1 H2 H3 H4 H5 H6 H7].
  constructor.
  - exact H1.
  - intros s a v x h l r HI. apply H2, Inv_from_nil, HI.
  - intros s a v x h l r HI. apply H3, Inv_from_nil, HI.
  - intros s p q HI. apply H4, Inv_from_nil, HI.
  - intros s a v x h l r a' x' h' HI. apply H5, Inv_from_nil, HI.
  - intros s a v x h l0 r0 l r HI Hp Hl Hr.
    destruct (H6 s a v x h l0 r0 l r (proj1 (Inv_from_nil s) HI) Hp Hl Hr)
      as (a' & x' & h' & s' & E & HI' & R).
    exists a', x', h', s'. split; [exact E|].
    split; [apply Inv_from_nil, HI'|exact R].
  - intros s v HI.
    destruct (H7 s v (proj1 (Inv_from_nil s) HI))
      as (a' & x' & h' & s' & E & HI' & R).
    exists a', x', h', s'. split; [exact E|].
    split; [apply Inv_from_nil, HI'|exact R].
Qed.

Lemma Inv_from_self s : Inv s -> MapSpec.Inv_from provider (MapNode.key_table s) s.
Proof. intros H. split; [exact H|auto]. Qed.

Lemma Inv_empty :
  Inv {| MapNode.key_table := []; MapNode.table := [] |}.
Proof.
  split; [apply SetFacts.Inv_nil|apply TableFacts.table_inv_nil].
Qed.

End MapFacts.

End MapFacts.
(** * The methods of [set] *)

Module CSetFacts.

Import Spec.

Section CSetFacts.

Context {T : Type}.

Variable provider : set_provider T.

(** Identity of the provider object. *)
Variable id : nat.

#[local] Existing Instance SetNode.set_traits.
#[local] Instance env : Env T T set_fields (@SetNode.table T) :=
  SetNode.set_env provider.

Hypothesis Hprov : SetSpec.provider_ok provider.

Local Notation "'Inv'" := (SetSpec.Inv provider).
Local Notation "'live'" := (@SetSpec.live T).
Local Notation "'valid'" := (SetSpec.valid provider id).
Local Notation "'returns'" := (Spec.returns Inv live).
Local Notation "'SS'" := (SetFacts.set_store_ok provider Hprov).
Local Notation "'els' s" := (elems (CSet.node_ s)) (at level 10).
Local Notation "'everything'" := (fun _ _ : T => true).

Lemma set_has_key (p : node T set_fields) k : has_key p k <-> In k (elems p).
Proof.
  unfold has_key. cbn [key_of SetNode.set_traits]. split.
  - intros (z & Hz & <-). exact Hz.
  - intros H. exists k. auto.
Qed.

Lemma set_agrees (p : node T set_fields) y :
  agrees everything y p <-> In y (elems p).
Proof.
  unfold agrees. cbn [key_of SetNode.set_traits]. split.
  - intros (z & Hz & <- & _). exact Hz.
  - intros H. exists y. auto.
Qed.

Lemma set_covers (p q : node T set_fields) :
  covers everything p q <-> (forall y, In y (elems q) -> In y (elems p)).
Proof.
  unfold covers. cbn [key_of SetNode.set_traits]. split.
  - intros H y Hy. destruct (H y Hy) as (z & Hz & -> & _). exact Hz.
  - intros H z Hz. exists z. auto.
Qed.

Lemma check_valid t (a b : CSet.set T) :
  valid t a -> valid t b -> CSet.check a b = true.
Proof.
  intros (Pa & _) (Pb & _). unfold CSet.check. rewrite Pa, Pb.
  apply Nat.eqb_refl.
Qed.

Lemma with_node_valid t (a : CSet.set T) p :
  valid t a -> live t p -> SetSpec.treap provider p ->
  valid t (CSet.with_node a p).
Proof. intros (Pa & _) L Tp. split; [exact Pa|]. split; assumption. Qed.

Lemma with_node_same (a : CSet.set T) : CSet.with_node a (CSet.node_ a) = a.
Proof. destruct a; reflexivity. Qed.

Lemma valid_mono t t' (a : CSet.set T) :
  (forall q, live t q -> live t' q) -> valid t a -> valid t' a.
Proof. intros X (Pa & L & Ta). split; [exact Pa|]. split; auto. Qed.

Lemma new_valid t : valid t (CSet.new id).
Proof.
  split; [reflexivity|]. split; [left; reflexivity|exact I].
Qed.

Lemma clear_valid t (a : CSet.set T) : valid t a -> valid t (CSet.clear a).
Proof.
  intros Va. unfold CSet.clear.
  destruct (Internal.is_null (CSet.node_ a)); [exact Va|].
  apply with_node_valid; [exact Va|left; reflexivity|exact I].
Qed.

Lemma clear_empty (a : CSet.set T) : els (CSet.clear a) = [].
Proof.
  unfold CSet.clear. destruct a as [i [|x v e h l r]]; reflexivity.
Qed.

(** [size()] is the number of elements. *)
Lemma size_spec t (a : CSet.set T) :
  Inv t -> valid t a -> CSet.size a = Z.of_nat (length (els a)).
Proof.
  intros HI (_ & L & _). unfold CSet.size.
  exact (Algo.size_live SS t _ HI L).
Qed.

(** Canonical form: sets of the same elements hold the same root. *)
Lemma set_canonical t (a b : CSet.set T) :
  Inv t -> valid t a -> valid t b ->
  (forall y, In y (els a) <-> In y (els b)) -> a = b.
Proof.
  intros HI (Pa & La & Ta) (Pb & Lb & Tb) H.
  pose proof (Algo.canonical Hprov SS t _ _ HI La Lb Ta Tb H) as E.
  destruct a, b. cbn in *. congruence.
Qed.

Lemma eq_spec t (a b : CSet.set T) :
  Inv t -> valid t a -> valid t b ->
  (CSet.eq a b = Some true <-> (forall y, In y (els a) <-> In y (els b)))
  /\ (CSet.eq a b = Some false \/ CSet.eq a b = Some true).
Proof.
  intros HI Va Vb. unfold CSet.eq. rewrite (check_valid t a b Va Vb).
  split.
  - split.
    + intros E. injection E as E.
      destruct Va as (_ & La & _), Vb as (_ & Lb & _).
      destruct (Internal.ptr_eq (CSet.node_ a) (CSet.node_ b)) eqn:P;
        [|discriminate].
      apply Nat.eqb_eq in P.
      rewrite (Spec.live_address SS t _ _ HI La Lb P). tauto.
    + intros H. rewrite (set_canonical t a b HI Va Vb H).
      unfold Internal.ptr_eq. rewrite Nat.eqb_refl. reflexivity.
  - destruct (Internal.ptr_eq (CSet.node_ a) (CSet.node_ b)); auto.
Qed.

Lemma set_in_dec (v : T) (l : list T) : In v l \/ ~ In v l.
Proof.
  induction l as [|x l IH]; [right; intros []|].
  destruct (key_eq provider x v) eqn:E.
  - left. left. exact (proj1 (SetFacts.key_eq_spec provider Hprov x v) E).
  - destruct IH as [IH|IH]; [left; right; exact IH|].
    right. intros [H|H]; [|tauto].
    apply (SetFacts.key_eq_spec provider Hprov) in H. congruence.
Qed.

Lemma rank_everything (p q : node T set_fields) :
  Internal.rank p q = rank_with everything p q.
Proof. apply Algo.rank_is_rank_with. Qed.

(** *** Single elements *)

Lemma insert_spec t (a : CSet.set T) v :
  Inv t -> valid t a ->
  returns (CSet.insert provider a v) t
    (fun r t' =>
       valid t' (snd r)
       /\ (forall y, In y (els (snd r)) <-> In y (els a) \/ y = v)
       /\ (In v (els a) -> fst r = 0 /\ snd r = a)
       /\ (~ In v (els a) -> fst r = 1)).
Proof.
  intros HI Va. pose proof Va as (Pa & La & Ta). unfold CSet.insert.
  eapply Algo.returns_bind;
    [exact (Algo.insert_ok Hprov SS _ v t HI La Ta)|].
  intros [n p] t1 HI1 X1 (L & Tp & I1 & H0 & H1). cbn [fst snd] in *.
  apply Algo.returns_ret; [assumption|]. cbn [fst snd].
  rewrite set_has_key in H0, H1.
  split; [apply with_node_valid; eauto using valid_mono|].
  split; [|split].
  - intros y. cbn [CSet.with_node CSet.node_]. rewrite I1.
    cbn [key_of SetNode.set_traits]. rewrite set_has_key.
    split; [tauto|]. intros [H| ->]; [tauto|].
    destruct (set_in_dec v (els a)) as [H|H]; tauto.
  - intros H. destruct (H0 H) as (-> & ->).
    split; [reflexivity|apply with_node_same].
  - exact H1.
Qed.

Lemma erase_spec t (a : CSet.set T) k :
  Inv t -> valid t a ->
  returns (CSet.erase provider a k) t
    (fun r t' =>
       valid t' (snd r)
       /\ (forall y, In y (els (snd r)) <-> In y (els a) /\ y <> k)
       /\ (In k (els a) -> fst r = 1)
       /\ (~ In k (els a) -> fst r = 0 /\ snd r = a)).
Proof.
  intros HI Va. pose proof Va as (Pa & La & Ta). unfold CSet.erase.
  eapply Algo.returns_bind;
    [exact (Algo.erase_ok Hprov SS _ k t HI La Ta)|].
  intros [n p] t1 HI1 X1 (L & Tp & I1 & H1 & H0). cbn [fst snd] in *.
  apply Algo.returns_ret; [assumption|]. cbn [fst snd].
  rewrite set_has_key in H0, H1.
  split; [apply with_node_valid; eauto using valid_mono|].
  split; [exact I1|]. split; [exact H1|].
  intros H. destruct (H0 H) as (-> & ->).
  split; [reflexivity|apply with_node_same].
Qed.

(** *** Whole sets *)

Lemma first_of_set (l : list T) y : first_of l y <-> In y l.
Proof.
  split; [apply Facts.first_of_in|]. intros H.
  destruct (proj1 (Facts.first_of_key Hprov l y)) as (z & Hz & E).
  { exists y. auto. }
  cbn [key_of SetNode.set_traits] in E. subst z. exact Hz.
Qed.

Lemma insert_set_spec t (a b : CSet.set T) :
  Inv t -> valid t a -> valid t b ->
  returns (CSet.insert_set provider a b) t
    (fun r t' =>
       valid t' (snd r)
       /\ (forall y, In y (els (snd r)) <-> In y (els a) \/ In y (els b))
       /\ fst r = Word.wrap (Z.of_nat (length (els (snd r))
                                       - length (els a)))
       /\ (length (els a) <= length (els (snd r)))%nat).
Proof.
  intros HI Va Vb. pose proof Va as (Pa & La & Ta).
  pose proof Vb as (Pb & Lb & Tb). unfold CSet.insert_set.
  rewrite (check_valid t a b Va Vb).
  eapply Algo.returns_bind;
    [exact (Algo.add_ok Hprov SS _ _ t HI La Lb Ta Tb)|].
  intros [n p] t1 HI1 X1 (L & Tp & I1 & E & Hle). cbn [fst snd] in *.
  apply Algo.returns_ret; [assumption|]. cbn [fst snd].
  split; [apply with_node_valid; eauto using valid_mono|].
  split; [|split; assumption].
  intros y. cbn [CSet.with_node CSet.node_]. rewrite I1, set_has_key.
  cbn [key_of SetNode.set_traits].
  destruct (set_in_dec y (els a)); tauto.
Qed.

Lemma insert_range_spec t (a : CSet.set T) l :
  Inv t -> valid t a ->
  returns (CSet.insert_range provider a l) t
    (fun r t' =>
       valid t' (snd r)
       /\ (forall y, In y (els (snd r)) -> In y (els a) \/ In y l)
       /\ (Z.of_nat (length l) < Word.modulus - 1 ->
           forall y, In y (els (snd r)) <-> In y (els a) \/ In y l)
       /\ fst r = Word.wrap (Z.of_nat (length (els (snd r))
                                       - length (els a)))
       /\ (length (els a) <= length (els (snd r)))%nat).
Proof.
  intros HI Va. pose proof Va as (Pa & La & Ta). unfold CSet.insert_range.
  eapply Algo.returns_bind;
    [exact (Algo.insert_range_ok Hprov SS _ l t HI La Ta)|].
  intros [n p] t1 HI1 X1 (L & Tp & I0 & I1 & E & Hle). cbn [fst snd] in *.
  apply Algo.returns_ret; [assumption|]. cbn [fst snd].
  split; [apply with_node_valid; eauto using valid_mono|].
  split; [exact I0|]. split; [|split; assumption].
  intros Hlen y. cbn [CSet.with_node CSet.node_]. rewrite (I1 Hlen).
  rewrite set_has_key, first_of_set. cbn [key_of SetNode.set_traits].
  destruct (set_in_dec y (els a)); tauto.
Qed.

Lemma from_range_spec t l :
  Inv t ->
  returns (CSet.from_range provider l id) t
    (fun r t' =>
       valid t' r
       /\ (forall y, In y (els r) -> In y l)
       /\ (Z.of_nat (length l) < Word.modulus - 1 ->
           forall y, In y (els r) <-> In y l)).
Proof.
  intros HI. unfold CSet.from_range.
  eapply Algo.returns_bind;
    [exact (insert_range_spec t (CSet.new id) l HI (new_valid t))|].
  intros [n r] t1 HI1 X1 (Vr & I0 & I1 & _). cbn [fst snd] in *.
  apply Algo.returns_ret; [assumption|].
  split; [exact Vr|]. split.
  - intros y Hy. destruct (I0 y Hy) as [[]|H]. exact H.
  - intros Hlen y. rewrite (I1 Hlen). cbn. tauto.
Qed.

Lemma assign_list_spec t (a : CSet.set T) l :
  Inv t -> valid t a ->
  returns (CSet.assign_list provider a l) t
    (fun r t' =>
       valid t' r
       /\ (forall y, In y (els r) -> In y l)
       /\ (Z.of_nat (length l) < Word.modulus - 1 ->
           forall y, In y (els r) <-> In y l)).
Proof.
  intros HI Va. unfold CSet.assign_list.
  eapply Algo.returns_bind; [exact (Algo.assign_ok Hprov SS l t HI)|].
  intros p t1 HI1 X1 (L & Tp & I0 & I1).
  apply Algo.returns_ret; [assumption|].
  split; [apply with_node_valid; eauto using valid_mono|].
  split; [exact I0|].
  intros Hlen y. cbn [CSet.with_node CSet.node_]. rewrite (I1 Hlen).
  apply first_of_set.
Qed.

Lemma erase_set_spec t (a b : CSet.set T) :
  Inv t -> valid t a -> valid t b ->
  returns (CSet.erase_set provider a b) t
    (fun r t' =>
       valid t' (snd r)
       /\ (forall y, In y (els (snd r)) <-> In y (els a) /\ ~ In y (els b))
       /\ fst r = Word.wrap (Z.of_nat (length (els a)
                                       - length (els (snd r))))).
Proof.
  intros HI Va Vb. pose proof Va as (Pa & La & Ta).
  pose proof Vb as (Pb & Lb & Tb). unfold CSet.erase_set.
  rewrite (check_valid t a b Va Vb).
  eapply Algo.returns_bind;
    [exact (Algo.diff_ok Hprov SS everything Internal.rank _ _ t
              (fun _ => eq_refl) rank_everything HI La Lb Ta Tb)|].
  intros [n p] t1 HI1 X1 (L & Tp & I1 & E). cbn [fst snd] in *.
  apply Algo.returns_ret; [assumption|]. cbn [fst snd].
  split; [apply with_node_valid; eauto using valid_mono|].
  split; [|assumption].
  intros y. cbn [CSet.with_node CSet.node_]. rewrite I1, set_agrees.
  reflexivity.
Qed.

Lemma retain_set_spec t (a b : CSet.set T) :
  Inv t -> valid t a -> valid t b ->
  returns (CSet.retain_set provider a b) t
    (fun r t' =>
       valid t' (snd r)
       /\ (forall y, In y (els (snd r)) <-> In y (els a) /\ In y (els b))
       /\ fst r = Word.wrap (Z.of_nat (length (els a)
                                       - length (els (snd r))))).
Proof.
  intros HI Va Vb. pose proof Va as (Pa & La & Ta).
  pose proof Vb as (Pb & Lb & Tb). unfold CSet.retain_set.
  rewrite (check_valid t a b Va Vb).
  eapply Algo.returns_bind;
    [exact (Algo.intersect_ok Hprov SS everything Internal.rank _ _ t
              (fun _ => eq_refl) rank_everything HI La Lb Ta Tb)|].
  intros [n p] t1 HI1 X1 (L & Tp & I1 & E). cbn [fst snd] in *.
  apply Algo.returns_ret; [assumption|]. cbn [fst snd].
  split; [apply with_node_valid; eauto using valid_mono|].
  split; [|assumption].
  intros y. cbn [CSet.with_node CSet.node_]. rewrite I1, set_agrees.
  reflexivity.
Qed.

(** *** Operators *)

Lemma union_spec t (a b : CSet.set T) :
  Inv t -> valid t a -> valid t b ->
  returns (CSet.union provider a b) t
    (fun r t' =>
       valid t' r
       /\ (forall y, In y (els r) <-> In y (els a) \/ In y (els b))).
Proof.
  intros HI Va Vb. pose proof Va as (Pa & La & Ta).
  pose proof Vb as (Pb & Lb & Tb). unfold CSet.union.
  rewrite (check_valid t a b Va Vb).
  eapply Algo.returns_bind;
    [exact (Algo.set_union_ok Hprov SS _ _ t HI La Lb Ta Tb)|].
  intros p t1 HI1 X1 (L & Tp & I1).
  apply Algo.returns_ret; [assumption|].
  split; [apply with_node_valid; eauto using valid_mono|].
  intros y. cbn [CSet.with_node CSet.node_]. rewrite I1, set_has_key.
  cbn [key_of SetNode.set_traits].
  destruct (set_in_dec y (els a)); tauto.
Qed.

Lemma intersection_spec t (a b : CSet.set T) :
  Inv t -> valid t a -> valid t b ->
  returns (CSet.intersection provider a b) t
    (fun r t' =>
       valid t' r
       /\ (forall y, In y (els r) <-> In y (els a) /\ In y (els b))).
Proof.
  intros HI Va Vb. pose proof Va as (Pa & La & Ta).
  pose proof Vb as (Pb & Lb & Tb). unfold CSet.intersection.
  rewrite (check_valid t a b Va Vb).
  eapply Algo.returns_bind;
    [exact (Algo.set_intersection_ok Hprov SS everything Internal.rank
              (fun _ => eq_refl) rank_everything _ _ t HI La Lb Ta Tb)|].
  intros p t1 HI1 X1 (L & Tp & I1).
  apply Algo.returns_ret; [assumption|].
  split; [apply with_node_valid; eauto using valid_mono|].
  intros y. cbn [CSet.with_node CSet.node_]. rewrite I1, set_agrees.
  reflexivity.
Qed.

Lemma difference_spec t (a b : CSet.set T) :
  Inv t -> valid t a -> valid t b ->
  returns (CSet.difference provider a b) t
    (fun r t' =>
       valid t' r
       /\ (forall y, In y (els r) <-> In y (els a) /\ ~ In y (els b))).
Proof.
  intros HI Va Vb. pose proof Va as (Pa & La & Ta).
  pose proof Vb as (Pb & Lb & Tb). unfold CSet.difference.
  rewrite (check_valid t a b Va Vb).
  eapply Algo.returns_bind;
    [exact (Algo.set_difference_ok Hprov SS everything Internal.rank
              (fun _ => eq_refl) rank_everything _ _ t HI La Lb Ta Tb)|].
  intros p t1 HI1 X1 (L & Tp & I1).
  apply Algo.returns_ret; [assumption|].
  split; [apply with_node_valid; eauto using valid_mono|].
  intros y. cbn [CSet.with_node CSet.node_]. rewrite I1, set_agrees.
  reflexivity.
Qed.

Lemma symmetric_spec t (a b : CSet.set T) :
  Inv t -> valid t a -> valid t b ->
  returns (CSet.symmetric provider a b) t
    (fun r t' =>
       valid t' r
       /\ (forall y, In y (els r) <->
             (In y (els a) /\ ~ In y (els b))
             \/ (In y (els b) /\ ~ In y (els a)))).
Proof.
  intros HI Va Vb. pose proof Va as (Pa & La & Ta).
  pose proof Vb as (Pb & Lb & Tb). unfold CSet.symmetric.
  rewrite (check_valid t a b Va Vb).
  eapply Algo.returns_bind;
    [exact (Algo.set_symmetric_ok Hprov SS _ _ t HI La Lb Ta Tb)|].
  intros p t1 HI1 X1 (L & Tp & I1).
  apply Algo.returns_ret; [assumption|].
  split; [apply with_node_valid; eauto using valid_mono|].
  intros y. cbn [CSet.with_node CSet.node_]. rewrite I1, !set_has_key.
  reflexivity.
Qed.

Lemma union_assign_spec t (a b : CSet.set T) :
  Inv t -> valid t a -> valid t b ->
  returns (CSet.union_assign provider a b) t
    (fun r t' =>
       valid t' r
       /\ (forall y, In y (els r) <-> In y (els a) \/ In y (els b))).
Proof.
  intros HI Va Vb. unfold CSet.union_assign.
  rewrite (check_valid t a b Va Vb).
  eapply Algo.returns_bind; [exact (insert_set_spec t a b HI Va Vb)|].
  intros [n r] t1 HI1 X1 (Vr & I1 & _). cbn [fst snd] in *.
  apply Algo.returns_ret; [assumption|]. auto.
Qed.

Lemma intersection_assign_spec t (a b : CSet.set T) :
  Inv t -> valid t a -> valid t b ->
  returns (CSet.intersection_assign provider a b) t
    (fun r t' =>
       valid t' r
       /\ (forall y, In y (els r) <-> In y (els a) /\ In y (els b))).
Proof.
  intros HI Va Vb. unfold CSet.intersection_assign.
  rewrite (check_valid t a b Va Vb).
  eapply Algo.returns_bind; [exact (retain_set_spec t a b HI Va Vb)|].
  intros [n r] t1 HI1 X1 (Vr & I1 & _). cbn [fst snd] in *.
  apply Algo.returns_ret; [assumption|]. auto.
Qed.

Lemma difference_assign_spec t (a b : CSet.set T) :
  Inv t -> valid t a -> valid t b ->
  returns (CSet.difference_assign provider a b) t
    (fun r t' =>
       valid t' r
       /\ (forall y, In y (els r) <-> In y (els a) /\ ~ In y (els b))).
Proof.
  intros HI Va Vb. unfold CSet.difference_assign.
  rewrite (check_valid t a b Va Vb).
  eapply Algo.returns_bind; [exact (erase_set_spec t a b HI Va Vb)|].
  intros [n r] t1 HI1 X1 (Vr & I1 & _). cbn [fst snd] in *.
  apply Algo.returns_ret; [assumption|]. auto.
Qed.

Lemma symmetric_assign_spec t (a b : CSet.set T) :
  Inv t -> valid t a -> valid t b ->
  returns (CSet.symmetric_assign provider a b) t
    (fun r t' =>
       valid t' r
       /\ (forall y, In y (els r) <->
             (In y (els a) /\ ~ In y (els b))
             \/ (In y (els b) /\ ~ In y (els a)))).
Proof.
  intros HI Va Vb. pose proof Va as (Pa & La & Ta).
  pose proof Vb as (Pb & Lb & Tb). unfold CSet.symmetric_assign.
  rewrite (check_valid t a b Va Vb). unfold Internal.symmetric.
  eapply Algo.returns_bind;
    [exact (Algo.set_symmetric_ok Hprov SS _ _ t HI La Lb Ta Tb)|].
  intros p t1 HI1 X1 (L & Tp & I1).
  apply Algo.returns_ret; [assumption|].
  split; [apply with_node_valid; eauto using valid_mono|].
  intros y. cbn [CSet.with_node CSet.node_]. rewrite I1, !set_has_key.
  reflexivity.
Qed.

Lemma includes_spec t (a b : CSet.set T) :
  Inv t -> valid t a -> valid t b ->
  returns (CSet.includes provider a b) t
    (fun r _ => r = true <-> forall y, In y (els b) -> In y (els a)).
Proof.
  intros HI Va Vb. pose proof Va as (Pa & La & Ta).
  pose proof Vb as (Pb & Lb & Tb). unfold CSet.includes.
  rewrite (check_valid t a b Va Vb).
  eapply Algo.returns_weaken;
    [exact (Algo.includes_ok Hprov SS everything Internal.rank
              (fun _ => eq_refl) rank_everything _ _ t HI La Lb Ta Tb)|].
  intros r t1 HI1 X1 H. cbv beta in H.
  etransitivity; [exact H|apply set_covers].
Qed.

(** *** Ranges of positions *)

Lemma check_range_true t (a : CSet.set T) first last :
  Inv t -> valid t a -> CSet.check_range a first last = true ->
  0 <= first <= last /\ last <= Internal.size (CSet.node_ a)
  /\ last < Word.modulus.
Proof.
  intros HI Va C. unfold CSet.check_range in C.
  apply andb_true_iff in C. destruct C as (C & C4).
  apply andb_true_iff in C. destruct C as (C & C3).
  apply andb_true_iff in C. destruct C as (C1 & C2).
  apply Z.leb_le in C1, C3, C4. apply Z.ltb_lt in C2. lia.
Qed.

Lemma erase_range_spec t (a : CSet.set T) first last :
  Inv t -> valid t a -> CSet.check_range a first last = true ->
  returns (CSet.erase_range provider a first last) t
    (fun r t' =>
       valid t' (snd r)
       /\ els (snd r) = firstn (Z.to_nat first) (els a)
                        ++ skipn (Z.to_nat last) (els a)
       /\ fst r = last - first).
Proof.
  intros HI Va C. pose proof Va as (Pa & La & Ta).
  unfold CSet.erase_range. rewrite C.
  destruct (check_range_true t a first last HI Va C) as (Hf & Hl & Hm).
  eapply Algo.returns_bind;
    [exact (Algo.erase_range_full Hprov SS _ t HI La Ta Hf Hl Hm)|].
  intros [n p] t1 HI1 X1 (L & Tp & E1 & En'). cbn [fst snd] in *.
  apply Algo.returns_ret; [assumption|]. cbn [fst snd].
  split; [apply with_node_valid; eauto using valid_mono|].
  split; assumption.
Qed.

Lemma retain_range_spec t (a : CSet.set T) first last :
  Inv t -> valid t a -> CSet.check_range a first last = true ->
  returns (CSet.retain_range provider a first last) t
    (fun r t' =>
       valid t' (snd r)
       /\ els (snd r)
          = skipn (Z.to_nat first) (firstn (Z.to_nat last) (els a))
       /\ fst r = Word.wrap (CSet.size a - (last - first))).
Proof.
  intros HI Va C. pose proof Va as (Pa & La & Ta).
  unfold CSet.retain_range. rewrite C.
  destruct (check_range_true t a first last HI Va C) as (Hf & Hl & Hm).
  eapply Algo.returns_bind;
    [exact (Algo.retain_full SS _ t HI La Ta Hf Hl Hm)|].
  intros [n p] t1 HI1 X1 (L & Tp & E1 & En'). cbn [fst snd] in *.
  apply Algo.returns_ret; [assumption|]. cbn [fst snd].
  split; [apply with_node_valid; eauto using valid_mono|].
  split; assumption.
Qed.

(** *** Lookup *)

Lemma count_spec t (a : CSet.set T) k :
  valid t a ->
  (In k (els a) -> CSet.count provider a k = 1)
  /\ (~ In k (els a) -> CSet.count provider a k = 0).
Proof.
  intros (Pa & La & Ta). unfold CSet.count.
  destruct (Algo.lower_bound_find (SetSpec.prio provider) Hprov
              (CSet.node_ a) k Ta) as (F & N).
  cbv zeta in F, N. cbn [compare env SetNode.set_env] in F, N.
  cbn [key_of SetNode.set_traits] in F, N. split.
  - intros H. destruct (F k H eq_refl) as (x & e & h & l & r & ->).
    rewrite (proj2 (SetFacts.key_eq_spec provider Hprov k k) eq_refl).
    reflexivity.
  - intros H. rewrite set_has_key in N.
    destruct (N H) as [->|(x & v & e & h & l & r & -> & Nv)];
      [reflexivity|].
    destruct (key_eq provider v k) eqn:E; [|reflexivity].
    apply (SetFacts.key_eq_spec provider Hprov) in E. contradiction.
Qed.

(** *** Positions *)

Lemma at_index_spec t (a : CSet.set T) k :
  Inv t -> valid t a -> 0 <= k < Word.modulus ->
  CSet.at_index a k
  = if k <? CSet.size a then nth_error (els a) (Z.to_nat k) else None.
Proof.
  intros HI (_ & La & _) Hk. unfold CSet.at_index, CSet.size.
  destruct (Algo.at_index_ok SS t (CSet.node_ a) HI La Hk) as (A & B).
  destruct (k <? Internal.size (CSet.node_ a)) eqn:C.
  - apply Z.ltb_lt in C.
    destruct (A C) as (x & v & e & h & l & r & -> & N). symmetry. exact N.
  - apply Z.ltb_ge in C. rewrite (B C). reflexivity.
Qed.

Lemma lower_bound_spec t (a : CSet.set T) key :
  Inv t -> valid t a -> CSet.size a < Word.modulus ->
  let it := CSet.lower_bound provider a key in
  iter_ok (CSet.node_ a) it
  /\ forall k v, nth_error (els a) k = Some v ->
                 (key_comp provider v key = true
                  <-> Z.of_nat k < Iter.pos_ it).
Proof.
  intros HI (_ & La & Ta) Hm. cbv zeta. split.
  - exact (Algo.iter_ok_bound SS t (CSet.node_ a) HI La Ta
             (Algo.lower_part_lower Hprov key) Hm).
  - exact (proj2 (Algo.bound_spec Hprov SS t (CSet.node_ a) HI La Ta
                    (Algo.lower_part_lower Hprov key) Hm)).
Qed.

Lemma upper_bound_spec t (a : CSet.set T) key :
  Inv t -> valid t a -> CSet.size a < Word.modulus ->
  let it := CSet.upper_bound provider a key in
  iter_ok (CSet.node_ a) it
  /\ forall k v, nth_error (els a) k = Some v ->
                 (key_comp provider key v = false
                  <-> Z.of_nat k < Iter.pos_ it).
Proof.
  intros HI (_ & La & Ta) Hm. cbv zeta. split.
  - exact (Algo.iter_ok_bound SS t (CSet.node_ a) HI La Ta
             (Algo.lower_part_upper Hprov key) Hm).
  - destruct (Algo.bound_spec Hprov SS t (CSet.node_ a) HI La Ta
                (Algo.lower_part_upper Hprov key) Hm) as (_ & P).
    intros k v Hk. etransitivity; [|exact (P k v Hk)].
    cbn [compare env SetNode.set_env key_of SetNode.set_traits].
    destruct (key_comp provider key v); cbn [negb]; split; congruence.
Qed.

Lemma find_spec t (a : CSet.set T) key :
  Inv t -> valid t a -> CSet.size a < Word.modulus ->
  let it := CSet.find provider a key in
  iter_ok (CSet.node_ a) it
  /\ (In key (els a) ->
      0 <= Iter.pos_ it < CSet.size a
      /\ nth_error (els a) (Z.to_nat (Iter.pos_ it)) = Some key)
  /\ (~ In key (els a) -> it = CSet.end_ a).
Proof.
  intros HI (_ & La & Ta) Hm. cbv zeta.
  assert (Oe : iter_ok (CSet.node_ a) (CSet.end_ a)).
  { apply Algo.iter_ok_make.
    pose proof (Algo.size_nonneg SS t _ HI La). lia. }
  assert (Ob : iter_ok (CSet.node_ a)
                 (Iter.of_bound
                    (Internal.lower_bound (CSet.node_ a)
                       (fun v => key_comp provider v key)))).
  { exact (Algo.iter_ok_bound SS t (CSet.node_ a) HI La Ta
             (Algo.lower_part_lower Hprov key) Hm). }
  unfold CSet.find. cbv zeta. split; [|split].
  - destruct (fst (Internal.lower_bound (CSet.node_ a)
                     (fun v => key_comp provider v key)))
      as [|x v e h l r]; [exact Oe|].
    destruct (key_eq provider v key); [exact Ob|exact Oe].
  - intros H.
    destruct (Algo.lower_bound_found Hprov SS t (CSet.node_ a) key
                HI La Ta Hm H eq_refl)
      as (x & e & h & l & r & k & E & N).
    cbn [compare env SetNode.set_env key_of SetNode.set_traits] in E.
    rewrite E. cbn [fst].
    rewrite (proj2 (SetFacts.key_eq_spec provider Hprov key key) eq_refl).
    cbn [Iter.of_bound Iter.make Iter.pos_ snd].
    rewrite Nat2Z.id. split; [|exact N].
    assert (k < length (els a))%nat
      by (apply nth_error_Some; rewrite N; discriminate).
    unfold CSet.size. rewrite (Algo.size_live SS t _ HI La). lia.
  - intros H.
    destruct (Algo.lower_bound_find (SetSpec.prio provider) Hprov
                (CSet.node_ a) key Ta) as (_ & N).
    cbv zeta in N.
    cbn [compare env SetNode.set_env key_of SetNode.set_traits] in N.
    rewrite set_has_key in N.
    destruct (N H) as [->|(x & v & e & h & l & r & -> & Nv)];
      [reflexivity|].
    destruct (key_eq provider v key) eqn:E; [|reflexivity].
    apply (SetFacts.key_eq_spec provider Hprov) in E. contradiction.
Qed.

Lemma equal_range_spec t (a : CSet.set T) key :
  Inv t -> valid t a -> CSet.size a < Word.modulus ->
  Iter.pos_ (snd (CSet.equal_range provider a key))
  = Iter.pos_ (fst (CSet.equal_range provider a key))
    + CSet.count provider a key.
Proof.
  intros HI Va Hm. pose proof Va as (_ & La & Ta).
  destruct (Algo.equal_range_width Hprov SS t (CSet.node_ a) key
              HI La Ta Hm) as (A & B).
  cbv zeta in A, B.
  cbn [compare env SetNode.set_env key_of SetNode.set_traits] in A, B.
  rewrite set_has_key in A, B.
  destruct (count_spec t a key Va) as (C1 & C0).
  unfold CSet.equal_range, CSet.lower_bound, CSet.upper_bound.
  cbn [fst snd Iter.of_bound Iter.make Iter.pos_].
  destruct (set_in_dec key (els a)) as [H|H].
  - rewrite (A H), (C1 H). reflexivity.
  - rewrite (B H), (C0 H). lia.
Qed.

(** *** Iterators *)

Lemma begin_ok t (a : CSet.set T) :
  Inv t -> valid t a -> iter_ok (CSet.node_ a) (CSet.begin_ a).
Proof.
  intros HI (_ & La & _). apply Algo.iter_ok_make.
  pose proof (Algo.size_nonneg SS t _ HI La). lia.
Qed.

Lemma end_ok t (a : CSet.set T) :
  Inv t -> valid t a -> iter_ok (CSet.node_ a) (CSet.end_ a).
Proof.
  intros HI (_ & La & _). apply Algo.iter_ok_make.
  pose proof (Algo.size_nonneg SS t _ HI La). lia.
Qed.

Lemma at_index_rank t (a : CSet.set T) k v :
  valid t a -> nth_error (els a) k = Some v ->
  length (filter (fun x => key_comp provider x v) (els a)) = k.
Proof.
  intros (_ & _ & Ta) N.
  exact (Algo.nth_rank (SetSpec.prio provider) Hprov (CSet.node_ a) k
           Ta N).
Qed.

Lemma set_deref t (a : CSet.set T) it :
  Inv t -> valid t a -> CSet.size a < Word.modulus ->
  iter_ok (CSet.node_ a) it -> Iter.pos_ it < CSet.size a ->
  exists v it',
    Iter.deref (CSet.node_ a) it = Some (v, it')
    /\ nth_error (els a) (Z.to_nat (Iter.pos_ it)) = Some v
    /\ Iter.pos_ it' = Iter.pos_ it /\ iter_ok (CSet.node_ a) it'.
Proof.
  intros HI (_ & La & _) Hm Hok Hlt.
  exact (Algo.deref_ok SS t HI La Hm Hok Hlt).
Qed.

Lemma set_walk t (a : CSet.set T) it ms :
  Inv t -> valid t a -> CSet.size a < Word.modulus - 1 ->
  iter_ok (CSet.node_ a) it -> in_range (CSet.size a) (Iter.pos_ it) ms ->
  exists it', Iter.walk (CSet.node_ a) it ms = Some it'
              /\ Iter.pos_ it' = destination (Iter.pos_ it) ms
              /\ iter_ok (CSet.node_ a) it'.
Proof.
  intros HI (_ & La & _) Hm Hok Hin.
  exact (Algo.walk_ok SS t ms HI La Hm Hok Hin).
Qed.

Lemma set_range_for t (a : CSet.set T) fuel :
  Inv t -> valid t a -> CSet.size a < Word.modulus - 1 ->
  (Z.to_nat (CSet.size a) <= fuel)%nat ->
  Iter.range_for fuel (CSet.node_ a) (CSet.begin_ a) (CSet.end_ a)
  = Some (els a).
Proof.
  intros HI Va Hm Hf. pose proof Va as (_ & La & _).
  assert (Hf' : (Z.to_nat (Internal.size (CSet.node_ a)
                            - Iter.pos_ (CSet.begin_ a)) <= fuel)%nat).
  { cbn [CSet.begin_ Iter.make Iter.pos_]. rewrite Z.sub_0_r. exact Hf. }
  rewrite (Algo.range_for_ok SS t (CSet.end_ a) HI La Hm eq_refl
             (begin_ok t a HI Va) Hf').
  reflexivity.
Qed.

(** The same multiset of elements is the same root pointer. *)
Lemma perm_address t (a b : CSet.set T) :
  Inv t -> valid t a -> valid t b ->
  (Permutation (els a) (els b)
   <-> Internal.address (CSet.node_ a) = Internal.address (CSet.node_ b)).
Proof.
  intros HI Va Vb. pose proof Va as (Pa & La & Ta).
  pose proof Vb as (Pb & Lb & Tb).
  rewrite (Facts.NoDup_perm_iff
             (Facts.treap_NoDup (SetSpec.prio provider) Hprov _ Ta)
             (Facts.treap_NoDup (SetSpec.prio provider) Hprov _ Tb)).
  split.
  - intros H. rewrite (set_canonical t a b HI Va Vb H). reflexivity.
  - intros E. rewrite (Spec.live_address SS t _ _ HI La Lb E). tauto.
Qed.

(** *** The laws of the merge operators *)

Lemma yields_of_returns {A} (c : M (@SetNode.table T) A) t (v : A) :
  returns c t (fun r _ => r = v) -> yields c t v.
Proof. intros (r & t' & E & _ & _ & ->). exists t'. exact E. Qed.

Lemma empty_spec (a : CSet.set T) :
  CSet.empty a = true <-> (forall y, ~ In y (els a)).
Proof.
  unfold CSet.empty. destruct a as [i [|x v e h l r]]; cbn.
  - split; [intros _ y []|reflexivity].
  - split; [discriminate|]. intros H. exfalso. apply (H v).
    apply in_or_app. right. left. reflexivity.
Qed.

Local Ltac op L x t HI X V I :=
  eapply Algo.returns_bind; [eapply L; eauto using valid_mono|];
  intros x t HI X (V & I);
  repeat match goal with
         | H : SetSpec.valid _ _ _ _ |- _ =>
             apply (valid_mono _ _ _ X) in H
         end.

Local Ltac same_elements t x y :=
  apply Algo.returns_ret; [assumption|];
  apply (proj2 (proj1 (eq_spec t x y ltac:(assumption) ltac:(assumption)
                         ltac:(assumption)))).

Local Ltac no_elements :=
  apply Algo.returns_ret; [assumption|]; apply empty_spec.

Local Ltac by_cases y a b c :=
  destruct (set_in_dec y (els a)), (set_in_dec y (els b)),
    (set_in_dec y (els c)); tauto.

Lemma union_idempotent t (a : CSet.set T) :
  Inv t -> valid t a ->
  yields (x <- CSet.union provider a a ;; ret (CSet.eq x a)) t (Some true).
Proof.
  intros HI Va. apply yields_of_returns.
  op union_spec x t1 HI1 X1 Vx Ix.
  same_elements t1 x a. intros y. rewrite Ix. tauto.
Qed.

Lemma intersection_idempotent t (a : CSet.set T) :
  Inv t -> valid t a ->
  yields (x <- CSet.intersection provider a a ;; ret (CSet.eq x a)) t
    (Some true).
Proof.
  intros HI Va. apply yields_of_returns.
  op intersection_spec x t1 HI1 X1 Vx Ix.
  same_elements t1 x a. intros y. rewrite Ix. tauto.
Qed.

Lemma difference_self t (a : CSet.set T) :
  Inv t -> valid t a ->
  yields (x <- CSet.difference provider a a ;; ret (CSet.empty x)) t true.
Proof.
  intros HI Va. apply yields_of_returns.
  op difference_spec x t1 HI1 X1 Vx Ix.
  no_elements. intros y. rewrite Ix. tauto.
Qed.

Lemma symmetric_self t (a : CSet.set T) :
  Inv t -> valid t a ->
  yields (x <- CSet.symmetric provider a a ;; ret (CSet.empty x)) t true.
Proof.
  intros HI Va. apply yields_of_returns.
  op symmetric_spec x t1 HI1 X1 Vx Ix.
  no_elements. intros y. rewrite Ix. tauto.
Qed.

Lemma union_commutative t (a b : CSet.set T) :
  Inv t -> valid t a -> valid t b ->
  yields (x <- CSet.union provider a b ;;
          y <- CSet.union provider b a ;;
          ret (CSet.eq x y)) t (Some true).
Proof.
  intros HI Va Vb. apply yields_of_returns.
  op union_spec x t1 HI1 X1 Vx Ix. op union_spec y t2 HI2 X2 Vy Iy.
  same_elements t2 x y. intros z. rewrite Ix, Iy. tauto.
Qed.

Lemma intersection_commutative t (a b : CSet.set T) :
  Inv t -> valid t a -> valid t b ->
  yields (x <- CSet.intersection provider a b ;;
          y <- CSet.intersection provider b a ;;
          ret (CSet.eq x y)) t (Some true).
Proof.
  intros HI Va Vb. apply yields_of_returns.
  op intersection_spec x t1 HI1 X1 Vx Ix.
  op intersection_spec y t2 HI2 X2 Vy Iy.
  same_elements t2 x y. intros z. rewrite Ix, Iy. tauto.
Qed.

Lemma symmetric_commutative t (a b : CSet.set T) :
  Inv t -> valid t a -> valid t b ->
  yields (x <- CSet.symmetric provider a b ;;
          y <- CSet.symmetric provider b a ;;
          ret (CSet.eq x y)) t (Some true).
Proof.
  intros HI Va Vb. apply yields_of_returns.
  op symmetric_spec x t1 HI1 X1 Vx Ix. op symmetric_spec y t2 HI2 X2 Vy Iy.
  same_elements t2 x y. intros z. rewrite Ix, Iy. tauto.
Qed.

Lemma union_associative t (a b c : CSet.set T) :
  Inv t -> valid t a -> valid t b -> valid t c ->
  yields (x <- CSet.union provider a b ;;
          x' <- CSet.union provider x c ;;
          y <- CSet.union provider b c ;;
          y' <- CSet.union provider a y ;;
          ret (CSet.eq x' y')) t (Some true).
Proof.
  intros HI Va Vb Vc. apply yields_of_returns.
  op union_spec x t1 HI1 X1 Vx Ix. op union_spec x' t2 HI2 X2 Vx' Ix'.
  op union_spec y t3 HI3 X3 Vy Iy. op union_spec y' t4 HI4 X4 Vy' Iy'.
  same_elements t4 x' y'. intros z. rewrite Ix', Iy', Ix, Iy. tauto.
Qed.

Lemma intersection_associative t (a b c : CSet.set T) :
  Inv t -> valid t a -> valid t b -> valid t c ->
  yields (x <- CSet.intersection provider a b ;;
          x' <- CSet.intersection provider x c ;;
          y <- CSet.intersection provider b c ;;
          y' <- CSet.intersection provider a y ;;
          ret (CSet.eq x' y')) t (Some true).
Proof.
  intros HI Va Vb Vc. apply yields_of_returns.
  op intersection_spec x t1 HI1 X1 Vx Ix.
  op intersection_spec x' t2 HI2 X2 Vx' Ix'.
  op intersection_spec y t3 HI3 X3 Vy Iy.
  op intersection_spec y' t4 HI4 X4 Vy' Iy'.
  same_elements t4 x' y'. intros z. rewrite Ix', Iy', Ix, Iy. tauto.
Qed.

Lemma symmetric_associative t (a b c : CSet.set T) :
  Inv t -> valid t a -> valid t b -> valid t c ->
  yields (x <- CSet.symmetric provider a b ;;
          x' <- CSet.symmetric provider x c ;;
          y <- CSet.symmetric provider b c ;;
          y' <- CSet.symmetric provider a y ;;
          ret (CSet.eq x' y')) t (Some true).
Proof.
  intros HI Va Vb Vc. apply yields_of_returns.
  op symmetric_spec x t1 HI1 X1 Vx Ix. op symmetric_spec x' t2 HI2 X2 Vx' Ix'.
  op symmetric_spec y t3 HI3 X3 Vy Iy. op symmetric_spec y' t4 HI4 X4 Vy' Iy'.
  same_elements t4 x' y'. intros z. rewrite Ix', Iy', Ix, Iy.
  by_cases z a b c.
Qed.

Lemma intersection_distributes t (a b c : CSet.set T) :
  Inv t -> valid t a -> valid t b -> valid t c ->
  yields (x <- CSet.union provider b c ;;
          x' <- CSet.intersection provider a x ;;
          y <- CSet.intersection provider a b ;;
          z <- CSet.intersection provider a c ;;
          y' <- CSet.union provider y z ;;
          ret (CSet.eq x' y')) t (Some true).
Proof.
  intros HI Va Vb Vc. apply yields_of_returns.
  op union_spec x t1 HI1 X1 Vx Ix.
  op intersection_spec x' t2 HI2 X2 Vx' Ix'.
  op intersection_spec y t3 HI3 X3 Vy Iy.
  op intersection_spec z t4 HI4 X4 Vz Iz.
  op union_spec y' t5 HI5 X5 Vy' Iy'.
  same_elements t5 x' y'. intros u. rewrite Ix', Iy', Ix, Iy, Iz. tauto.
Qed.

Lemma difference_of_union t (a b c : CSet.set T) :
  Inv t -> valid t a -> valid t b -> valid t c ->
  yields (x <- CSet.union provider b c ;;
          x' <- CSet.difference provider a x ;;
          y <- CSet.difference provider a b ;;
          z <- CSet.difference provider a c ;;
          y' <- CSet.intersection provider y z ;;
          ret (CSet.eq x' y')) t (Some true).
Proof.
  intros HI Va Vb Vc. apply yields_of_returns.
  op union_spec x t1 HI1 X1 Vx Ix.
  op difference_spec x' t2 HI2 X2 Vx' Ix'.
  op difference_spec y t3 HI3 X3 Vy Iy.
  op difference_spec z t4 HI4 X4 Vz Iz.
  op intersection_spec y' t5 HI5 X5 Vy' Iy'.
  same_elements t5 x' y'. intros u. rewrite Ix', Iy', Ix, Iy, Iz. tauto.
Qed.

(** *** [includes] and the difference *)

Lemma size_zero t (a : CSet.set T) :
  Inv t -> valid t a ->
  (CSet.size a = 0 <-> forall y, ~ In y (els a)).
Proof.
  intros HI Va. rewrite (size_spec t a HI Va).
  destruct (els a) as [|x l]; cbn [length].
  - split; [intros _ y []|reflexivity].
  - split; [lia|]. intros H. destruct (H x). left. reflexivity.
Qed.

Lemma includes_difference t (a b : CSet.set T) :
  Inv t -> valid t a -> valid t b ->
  exists r t1 d t2,
    CSet.includes provider a b t = Some (r, t1)
    /\ CSet.difference provider b a t1 = Some (d, t2)
    /\ (r = true <-> CSet.size d = 0)
    /\ (r = true <-> forall y, In y (els b) -> In y (els a)).
Proof.
  intros HI Va Vb.
  destruct (includes_spec t a b HI Va Vb) as (r & t1 & E1 & HI1 & X1 & R).
  destruct (difference_spec t1 b a HI1 (valid_mono _ _ _ X1 Vb)
              (valid_mono _ _ _ X1 Va))
    as (d & t2 & E2 & HI2 & X2 & Vd & Id).
  exists r, t1, d, t2. split; [exact E1|]. split; [exact E2|].
  split; [|exact R]. rewrite (size_zero t2 d HI2 Vd), R. split.
  - intros H y Hy. apply Id in Hy. destruct Hy as (Hb & Na). auto.
  - intros H y Hy. destruct (set_in_dec y (els a)) as [Ha|Na]; [exact Ha|].
    destruct (H y). apply Id. auto.
Qed.

(** With a smaller left tree [includes] answers at once: no node is
    compared, split or made. *)
Lemma includes_smaller t (a b : CSet.set T) :
  Inv t -> valid t a -> valid t b -> CSet.size a < CSet.size b ->
  CSet.includes provider a b t = Some (false, t).
Proof.
  intros HI Va Vb Hlt. pose proof Va as (Pa & La & Ta).
  pose proof Vb as (Pb & Lb & Tb). unfold CSet.includes.
  rewrite (check_valid t a b Va Vb). unfold Internal.includes.
  cbn [Internal.includes_rec]. unfold CSet.size in Hlt.
  assert (Ep : Internal.ptr_eq (CSet.node_ a) (CSet.node_ b) = false).
  { apply (Algo.ptr_eq_false SS t _ _ HI La Lb). intros E.
    rewrite E in Hlt. lia. }
  assert (En' : Internal.is_null (CSet.node_ b) = false).
  { destruct (CSet.node_ b) as [|x v e h l r]; [|reflexivity].
    pose proof (Algo.size_nonneg SS t _ HI La). cbn in Hlt. lia. }
  rewrite Ep, En'. cbn [orb]. rewrite (proj2 (Z.ltb_lt _ _) Hlt).
  reflexivity.
Qed.

(** *** The hash of a set *)

Lemma live_hashed t (p : node T set_fields) :
  Inv t -> live t p -> SetSpec.hashed p.
Proof.
  intros HI. induction p as [|a v x h l IHl r IHr]; intros Lp; [exact I|].
  destruct (Spec.live_children SS t _ _ _ _ _ _ HI Lp) as (Ll & Lr).
  destruct Lp as [Lp|Lp]; [discriminate|].
  destruct (TableSpec.inv_fields HI _ Lp) as (_ & _ & Eh).
  cbn [SetSpec.hashed]. split; [exact Eh|]. split; auto.
Qed.

(** *** Shape *)

Lemma valid_shape t (a : CSet.set T) :
  Inv t -> valid t a -> SetSpec.shape provider (CSet.node_ a).
Proof.
  intros HI (_ & La & Ta). split.
  - exact (Algo.treap_ascending (SetSpec.prio provider) Hprov _ Ta).
  - exact (Algo.treap_heap_ordered SS t _ HI La Ta).
Qed.

(** *** Compound assignments and round trips *)

Lemma union_assign_agrees t (a b : CSet.set T) :
  Inv t -> valid t a -> valid t b ->
  yields (x <- CSet.union provider a b ;;
          y <- CSet.union_assign provider a b ;;
          ret (CSet.eq x y)) t (Some true).
Proof.
  intros HI Va Vb. apply yields_of_returns.
  op union_spec x t1 HI1 X1 Vx Ix. op union_assign_spec y t2 HI2 X2 Vy Iy.
  same_elements t2 x y. intros z. rewrite Ix, Iy. tauto.
Qed.

Lemma intersection_assign_agrees t (a b : CSet.set T) :
  Inv t -> valid t a -> valid t b ->
  yields (x <- CSet.intersection provider a b ;;
          y <- CSet.intersection_assign provider a b ;;
          ret (CSet.eq x y)) t (Some true).
Proof.
  intros HI Va Vb. apply yields_of_returns.
  op intersection_spec x t1 HI1 X1 Vx Ix.
  op intersection_assign_spec y t2 HI2 X2 Vy Iy.
  same_elements t2 x y. intros z. rewrite Ix, Iy. tauto.
Qed.

Lemma difference_assign_agrees t (a b : CSet.set T) :
  Inv t -> valid t a -> valid t b ->
  yields (x <- CSet.difference provider a b ;;
          y <- CSet.difference_assign provider a b ;;
          ret (CSet.eq x y)) t (Some true).
Proof.
  intros HI Va Vb. apply yields_of_returns.
  op difference_spec x t1 HI1 X1 Vx Ix.
  op difference_assign_spec y t2 HI2 X2 Vy Iy.
  same_elements t2 x y. intros z. rewrite Ix, Iy. tauto.
Qed.

Lemma symmetric_assign_agrees t (a b : CSet.set T) :
  Inv t -> valid t a -> valid t b ->
  yields (x <- CSet.symmetric provider a b ;;
          y <- CSet.symmetric_assign provider a b ;;
          ret (CSet.eq x y)) t (Some true).
Proof.
  intros HI Va Vb. apply yields_of_returns.
  op symmetric_spec x t1 HI1 X1 Vx Ix.
  op symmetric_assign_spec y t2 HI2 X2 Vy Iy.
  same_elements t2 x y. intros z. rewrite Ix, Iy. tauto.
Qed.

(** Erasing an element just inserted gives back the same root. *)
Lemma insert_erase_round_trip t (a : CSet.set T) v :
  Inv t -> valid t a -> ~ In v (els a) ->
  yields ('(n, x) <- CSet.insert provider a v ;;
          '(m, y) <- CSet.erase provider x v ;;
          ret (n, m, CSet.eq y a)) t (1, 1, Some true).
Proof.
  intros HI Va Nv. apply yields_of_returns.
  eapply Algo.returns_bind; [exact (insert_spec t a v HI Va)|].
  intros [n x] t1 HI1 X1 (Vx & Ix & _ & H1). cbn [fst snd] in *.
  eapply Algo.returns_bind; [exact (erase_spec t1 x v HI1 Vx)|].
  intros [m y] t2 HI2 X2 (Vy & Iy & H1' & _). cbn [fst snd] in *.
  apply Algo.returns_ret; [assumption|].
  rewrite (H1 Nv), H1' by (apply Ix; auto).
  f_equal.
  apply (proj2 (proj1 (eq_spec t2 y a HI2 Vy
                         (valid_mono _ _ _ X2 (valid_mono _ _ _ X1 Va))))).
  intros z. rewrite Iy, Ix. split; [intros ([H|H] & N); tauto|].
  intros H. split; [auto|]. intros ->. contradiction.
Qed.

(** Inserting an element just erased gives back the same root. *)
Lemma erase_insert_round_trip t (a : CSet.set T) v :
  Inv t -> valid t a -> In v (els a) ->
  yields ('(n, x) <- CSet.erase provider a v ;;
          '(m, y) <- CSet.insert provider x v ;;
          ret (n, m, CSet.eq y a)) t (1, 1, Some true).
Proof.
  intros HI Va Hv. apply yields_of_returns.
  eapply Algo.returns_bind; [exact (erase_spec t a v HI Va)|].
  intros [n x] t1 HI1 X1 (Vx & Ix & H1 & _). cbn [fst snd] in *.
  eapply Algo.returns_bind; [exact (insert_spec t1 x v HI1 Vx)|].
  intros [m y] t2 HI2 X2 (Vy & Iy & _ & H1'). cbn [fst snd] in *.
  apply Algo.returns_ret; [assumption|].
  rewrite (H1 Hv), H1' by (rewrite Ix; tauto).
  f_equal.
  apply (proj2 (proj1 (eq_spec t2 y a HI2 Vy
                         (valid_mono _ _ _ X2 (valid_mono _ _ _ X1 Va))))).
  intros z. rewrite Iy, Ix. split; [intros [(H & _)| ->]; assumption|].
  intros H. destruct (set_in_dec z [v]) as [[<-|[]]|N]; [auto|].
  left. split; [exact H|]. intros ->. apply N. left. reflexivity.
Qed.

(** *** The intern table *)

Lemma table_unique t :
  Inv t ->
  (forall p q, In p t -> In q t ->
               Internal.address p = Internal.address q -> p = q)
  /\ (forall a v x h l r a' x' h',
        In (Node a v x h l r) t -> In (Node a' v x' h' l r) t ->
        Node a v x h l r = Node a' v x' h' l r).
Proof.
  intros HI. split.
  - intros p q Hp Hq.
    exact (Spec.live_address SS t p q HI (or_intror Hp) (or_intror Hq)).
  - intros a v x h l r a' x' h' Hp Hq.
    exact (Spec.live_unique SS t a v x h l r a' x' h' HI (or_intror Hp)
             (or_intror Hq)).
Qed.

(** [includes] as a step of a program: the set is the one it was, in the
    table the call leaves. *)
Lemma includes_observed t (a b : CSet.set T) :
  Inv t -> valid t a -> valid t b ->
  returns (World.observed (CSet.includes provider a b) a) t
    (fun r t' =>
       valid t' (snd r) /\ snd r = a
       /\ (fst r = true <-> forall y, In y (els b) -> In y (els a))).
Proof.
  intros HI Va Vb. unfold World.observed.
  eapply Algo.returns_bind; [exact (includes_spec t a b HI Va Vb)|].
  intros r t1 HI1 X1 H. apply Algo.returns_ret; [assumption|].
  cbn [fst snd]. split; [exact (valid_mono t t1 a X1 Va)|].
  split; [reflexivity|exact H].
Qed.

End CSetFacts.

End CSetFacts.
(** * Set objects: assignment and swap *)

Module ObjectFacts.

Section ObjectFacts.

Context {T : Type}.

Local Notation "'store'" := (@CSet.store T).

Lemma update_length (st : store) i f :
  length (CSet.update st i f) = length st.
Proof.
  unfold CSet.update. destruct (nth_error st i) as [s|] eqn:E;
    [|reflexivity].
  assert (Hi : (i < length st)%nat).
  { apply nth_error_Some. congruence. }
  rewrite length_app. cbn [length]. rewrite length_firstn, length_skipn.
  lia.
Qed.

Lemma update_same (st : store) i f s :
  nth_error st i = Some s -> nth_error (CSet.update st i f) i = Some (f s).
Proof.
  intros E. unfold CSet.update. rewrite E.
  assert (Hi : (i < length st)%nat).
  { apply nth_error_Some. congruence. }
  rewrite nth_error_app2; rewrite firstn_length_le by lia; [|lia].
  rewrite Nat.sub_diag. reflexivity.
Qed.

Lemma update_other (st : store) i f k :
  k <> i -> nth_error (CSet.update st i f) k = nth_error st k.
Proof.
  intros N. unfold CSet.update.
  destruct (nth_error st i) as [s|] eqn:E; [|reflexivity].
  assert (Hi : (i < length st)%nat).
  { apply nth_error_Some. congruence. }
  destruct (Nat.lt_ge_cases k i) as [Hk|Hk].
  - rewrite nth_error_app1 by (rewrite firstn_length_le; lia).
    rewrite nth_error_firstn. rewrite (proj2 (Nat.ltb_lt _ _) Hk).
    reflexivity.
  - rewrite nth_error_app2; rewrite firstn_length_le by lia; [|lia].
    destruct (k - i)%nat as [|m] eqn:D; [lia|].
    cbn [nth_error]. rewrite nth_error_skipn. f_equal. lia.
Qed.

Lemma set_eta (s : CSet.set T) :
  {| CSet.provider_ := CSet.provider_ s; CSet.node_ := CSet.node_ s |} = s.
Proof. destruct s; reflexivity. Qed.

(** [a = b] for two different objects: [a] becomes a copy of [b]. *)
Lemma assign_spec (st : store) i j a b :
  nth_error st i = Some a -> nth_error st j = Some b -> i <> j ->
  exists st',
    CSet.assign i j st = Some st'
    /\ nth_error st' i = Some b
    /\ (forall k, k <> i -> nth_error st' k = nth_error st k).
Proof.
  intros Ea Eb N. unfold CSet.assign. rewrite Ea, Eb.
  rewrite (update_other st i CSet.clear j (not_eq_sym N)), Eb.
  rewrite update_other by auto. rewrite update_other by auto. rewrite Eb.
  eexists. split; [reflexivity|]. split.
  - erewrite update_same;
      [|erewrite update_same; [reflexivity|apply update_same, Ea]].
    cbn [CSet.provider_ CSet.node_]. f_equal. apply set_eta.
  - intros k Hk. rewrite !update_other by exact Hk. reflexivity.
Qed.

(** [a = a] leaves [a] empty: [clear()] runs before the root is copied. *)
Lemma assign_self (st : store) i a :
  nth_error st i = Some a ->
  exists st',
    CSet.assign i i st = Some st'
    /\ nth_error st' i
       = Some {| CSet.provider_ := CSet.provider_ a; CSet.node_ := null |}
    /\ (forall k, k <> i -> nth_error st' k = nth_error st k).
Proof.
  intros Ea. unfold CSet.assign. rewrite Ea.
  rewrite (update_same st i CSet.clear a Ea).
  erewrite update_same by (apply update_same, Ea).
  eexists. split; [reflexivity|]. split.
  - erewrite update_same;
      [|erewrite update_same; [reflexivity|apply update_same, Ea]].
    cbn [CSet.provider_ CSet.node_]. unfold CSet.clear.
    destruct a as [p [|x v e h l r]]; reflexivity.
  - intros k Hk. rewrite !update_other by exact Hk. reflexivity.
Qed.

Lemma swap_spec (st : store) i j a b :
  nth_error st i = Some a -> nth_error st j = Some b ->
  exists st',
    CSet.swap i j st = Some st'
    /\ nth_error st' i = Some b
    /\ nth_error st' j = Some a
    /\ (forall k, k <> i -> k <> j -> nth_error st' k = nth_error st k).
Proof.
  intros Ea Eb. unfold CSet.swap. rewrite Ea, Eb.
  eexists. split; [reflexivity|].
  destruct (Nat.eq_dec i j) as [->|N].
  - assert (E : a = b) by congruence. subst b.
    split; [|split].
    + erewrite update_same;
        [|erewrite update_same;
          [reflexivity
          |erewrite update_same;
            [reflexivity|apply update_same, Ea]]].
      cbn [CSet.provider_ CSet.node_]. f_equal. apply set_eta.
    + erewrite update_same;
        [|erewrite update_same;
          [reflexivity
          |erewrite update_same;
            [reflexivity|apply update_same, Ea]]].
      cbn [CSet.provider_ CSet.node_]. f_equal. apply set_eta.
    + intros k Hk _. rewrite !update_other by exact Hk. reflexivity.
  - split; [|split].
    + rewrite update_other by exact N.
      erewrite update_same;
        [|rewrite update_other by exact N; apply update_same, Ea].
      cbn [CSet.provider_ CSet.node_]. f_equal. apply set_eta.
    + erewrite update_same;
        [|rewrite update_other by auto;
          erewrite update_same;
          [reflexivity|rewrite update_other by auto; exact Eb]].
      cbn [CSet.provider_ CSet.node_]. f_equal. apply set_eta.
    + intros k Hi Hj. rewrite !update_other by assumption. reflexivity.
Qed.

(** Swapping twice restores the store. *)
Lemma swap_twice (st st1 : store) i j :
  CSet.swap i j st = Some st1 -> CSet.swap i j st1 = Some st.
Proof.
  intros E1. pose proof E1 as E1'. unfold CSet.swap in E1'.
  destruct (nth_error st i) as [a|] eqn:Ea; [|discriminate].
  destruct (nth_error st j) as [b|] eqn:Eb; [|discriminate].
  clear E1'.
  destruct (swap_spec st i j a b Ea Eb) as (st1' & E1'' & Hi & Hj & Hk).
  assert (st1' = st1) by congruence. subst st1'.
  destruct (swap_spec st1 i j b a Hi Hj) as (st2 & E2 & Hi2 & Hj2 & Hk2).
  rewrite E2. f_equal. apply nth_error_ext. intros k.
  destruct (Nat.eq_dec k i) as [->|Ni]; [congruence|].
  destruct (Nat.eq_dec k j) as [->|Nj]; [congruence|].
  rewrite (Hk2 k Ni Nj). apply Hk; assumption.
Qed.

End ObjectFacts.

End ObjectFacts.
(** * The methods of [map] *)

Module CMapFacts.

Import Spec.

Section CMapFacts.

Context {K T : Type}.

Variable provider : map_provider K T.

(** Identities of the provider object and of its set provider. *)
Variable id : nat.
Variable set_id : nat.

(** The key table whose nodes are kept live. *)
Variable k0 : @SetNode.table K.

#[local] Existing Instance SetNode.set_traits.
#[local] Existing Instance MapNode.map_traits.
#[local] Instance env
  : Env K (K * T) (node K set_fields) (@MapNode.state K T) :=
  MapNode.map_env provider.

Hypothesis Hprov : MapSpec.provider_ok provider.

Local Notation "'sp'" := (set_provider_ provider).
Local Notation "'Inv'" := (MapSpec.Inv_from provider k0).
Local Notation "'live'" := (@MapSpec.live K T).
Local Notation "'valid'" := (MapSpec.valid provider id).
Local Notation "'returns'" := (Spec.returns Inv live).
Local Notation "'MS'" := (MapFacts.map_store_from_ok provider Hprov k0).
Local Notation "'MO'" := (MapFacts.map_order_ok provider Hprov).
Local Notation "'els' m" := (elems (CMap.node_ m)) (at level 10).
Local Notation "'same'" :=
  (fun lv rv : K * T => mapped_eq provider (snd lv) (snd rv)).
Local Notation "'mapnode'" := (node (K * T) (node K set_fields)).

Lemma mapped_eq_spec x y : mapped_eq provider x y = true <-> x = y.
Proof. exact (proj2 Hprov x y). Qed.

Lemma same_refl (y : K * T) : same y y = true.
Proof. apply mapped_eq_spec. reflexivity. Qed.

Lemma map_rank_spec (p q : mapnode) :
  CMap.rank provider p q = rank_with same p q.
Proof.
  unfold CMap.rank, rank_with.
  destruct p as [|a v x h l r], q as [|a' v' x' h' l' r']; try reflexivity.
  destruct (Internal.rank _ _); try reflexivity.
  destruct (mapped_eq provider (snd v) (snd v')); reflexivity.
Qed.

Lemma map_has_key (p : mapnode) k :
  has_key p k <-> exists v, In (k, v) (elems p).
Proof.
  unfold has_key. cbn [key_of MapNode.map_traits]. split.
  - intros ([k' v] & Hz & <-). exists v. exact Hz.
  - intros (v & H). exists (k, v). auto.
Qed.

Lemma map_agrees (p : mapnode) y :
  agrees same y p <-> In y (elems p).
Proof.
  unfold agrees. cbn [key_of MapNode.map_traits]. split.
  - intros ([k v] & Hz & Ek & Ev). apply mapped_eq_spec in Ev.
    destruct y as [k' v']. cbn in *. subst. exact Hz.
  - intros H. exists y. split; [exact H|]. split; [reflexivity|].
    apply same_refl.
Qed.

Lemma map_covers (p q : mapnode) :
  covers same p q <-> (forall y, In y (elems q) -> In y (elems p)).
Proof.
  unfold covers. cbn [key_of MapNode.map_traits]. split.
  - intros H y Hy. destruct (H y Hy) as ([k v] & Hz & Ek & Ev).
    apply mapped_eq_spec in Ev. destruct y as [k' v']. cbn in *. subst.
    exact Hz.
  - intros H z Hz. exists z. split; [auto|]. split; [reflexivity|].
    apply same_refl.
Qed.

Lemma map_in_dec (v : K * T) (l : list (K * T)) : In v l \/ ~ In v l.
Proof.
  induction l as [|x l IH]; [right; intros []|].
  destruct (MapNode.value_eq provider x v) eqn:E.
  - left. left. exact (proj1 (MapFacts.value_eq_spec provider Hprov x v) E).
  - destruct IH as [IH|IH]; [left; right; exact IH|].
    right. intros [H|H]; [|tauto].
    apply (MapFacts.value_eq_spec provider Hprov) in H. congruence.
Qed.

Lemma map_key_dec (p : mapnode) k : has_key p k \/ ~ has_key p k.
Proof.
  unfold has_key. induction (elems p) as [|x l IH].
  - right. intros (z & [] & _).
  - destruct (key_eq sp (fst x) k) eqn:E.
    + left. exists x. split; [left; reflexivity|].
      exact (proj1 (SetFacts.key_eq_spec sp (proj1 Hprov) _ _) E).
    + destruct IH as [(z & Hz & Ez)|IH];
        [left; exists z; split; [right; exact Hz|exact Ez]|].
      right. intros (z & [->|Hz] & Ez); [|apply IH; eauto].
      apply (SetFacts.key_eq_spec sp (proj1 Hprov)) in Ez.
      cbn [key_of MapNode.map_traits] in Ez. congruence.
Qed.

Lemma map_check_valid s (a b : CMap.map K T) :
  valid s a -> valid s b -> CMap.check a b = true.
Proof.
  intros (Pa & _) (Pb & _). unfold CMap.check. rewrite Pa, Pb.
  apply Nat.eqb_refl.
Qed.

Lemma map_with_node_valid s (a : CMap.map K T) p :
  valid s a -> live s p -> MapSpec.treap provider p ->
  valid s (CMap.with_node a p).
Proof. intros (Pa & _) L Tp. split; [exact Pa|]. split; assumption. Qed.

Lemma map_with_node_same (a : CMap.map K T) :
  CMap.with_node a (CMap.node_ a) = a.
Proof. destruct a; reflexivity. Qed.

Lemma map_valid_mono s s' (a : CMap.map K T) :
  (forall q, live s q -> live s' q) -> valid s a -> valid s' a.
Proof. intros X (Pa & L & Ta). split; [exact Pa|]. split; auto. Qed.

Lemma map_new_valid s : valid s (CMap.new id).
Proof.
  split; [reflexivity|]. split; [left; reflexivity|exact I].
Qed.

Lemma map_clear_valid s (a : CMap.map K T) :
  valid s a -> valid s (CMap.clear a).
Proof.
  intros Va. unfold CMap.clear.
  destruct (Internal.is_null (CMap.node_ a)); [exact Va|].
  apply map_with_node_valid; [exact Va|left; reflexivity|exact I].
Qed.

Lemma map_clear_empty (a : CMap.map K T) : els (CMap.clear a) = [].
Proof.
  unfold CMap.clear. destruct a as [i [|x v e h l r]]; reflexivity.
Qed.

Lemma map_size_spec s (a : CMap.map K T) :
  Inv s -> valid s a -> CMap.size a = Z.of_nat (length (els a)).
Proof.
  intros HI (_ & L & _). unfold CMap.size.
  exact (Algo.size_live MS s _ HI L).
Qed.

(** Canonical form: maps of the same elements hold the same root. *)
Lemma map_canonical s (a b : CMap.map K T) :
  Inv s -> valid s a -> valid s b ->
  (forall y, In y (els a) <-> In y (els b)) -> a = b.
Proof.
  intros HI (Pa & La & Ta) (Pb & Lb & Tb) H.
  pose proof (Algo.canonical MO MS s _ _ HI La Lb Ta Tb H) as E.
  destruct a, b. cbn in *. congruence.
Qed.

Lemma map_eq_spec s (a b : CMap.map K T) :
  Inv s -> valid s a -> valid s b ->
  (CMap.eq a b = true <-> (forall y, In y (els a) <-> In y (els b))).
Proof.
  intros HI Va Vb. unfold CMap.eq. split.
  - intros P. destruct Va as (_ & La & _), Vb as (_ & Lb & _).
    apply Nat.eqb_eq in P.
    rewrite (Spec.live_address MS s _ _ HI La Lb P). tauto.
  - intros H. rewrite (map_canonical s a b HI Va Vb H).
    unfold Internal.ptr_eq. apply Nat.eqb_refl.
Qed.

(** *** Single elements *)

Lemma map_insert_spec s (a : CMap.map K T) v :
  Inv s -> valid s a ->
  returns (CMap.insert provider a v) s
    (fun r s' =>
       valid s' (snd r)
       /\ (forall y, In y (els (snd r)) <->
             In y (els a) \/ (y = v /\ ~ has_key (CMap.node_ a) (fst v)))
       /\ (has_key (CMap.node_ a) (fst v) -> fst r = 0 /\ snd r = a)
       /\ (~ has_key (CMap.node_ a) (fst v) -> fst r = 1)).
Proof.
  intros HI Va. pose proof Va as (Pa & La & Ta). unfold CMap.insert.
  eapply Algo.returns_bind;
    [exact (Algo.insert_ok MO MS _ v s HI La Ta)|].
  intros [n p] s1 HI1 X1 (L & Tp & I1 & H0 & H1). cbn [fst snd] in *.
  apply Algo.returns_ret; [assumption|]. cbn [fst snd].
  split; [apply map_with_node_valid; eauto using map_valid_mono|].
  split; [exact I1|]. split; [|exact H1].
  intros H. destruct (H0 H) as (-> & ->).
  split; [reflexivity|apply map_with_node_same].
Qed.

Lemma map_erase_spec s (a : CMap.map K T) k :
  Inv s -> valid s a ->
  returns (CMap.erase provider a k) s
    (fun r s' =>
       valid s' (snd r)
       /\ (forall y, In y (els (snd r)) <-> In y (els a) /\ fst y <> k)
       /\ (has_key (CMap.node_ a) k -> fst r = 1)
       /\ (~ has_key (CMap.node_ a) k -> fst r = 0 /\ snd r = a)).
Proof.
  intros HI Va. pose proof Va as (Pa & La & Ta). unfold CMap.erase.
  eapply Algo.returns_bind;
    [exact (Algo.erase_ok MO MS _ k s HI La Ta)|].
  intros [n p] s1 HI1 X1 (L & Tp & I1 & H1 & H0). cbn [fst snd] in *.
  apply Algo.returns_ret; [assumption|]. cbn [fst snd].
  split; [apply map_with_node_valid; eauto using map_valid_mono|].
  split; [exact I1|]. split; [exact H1|].
  intros H. destruct (H0 H) as (-> & ->).
  split; [reflexivity|apply map_with_node_same].
Qed.

(** [insert_or_assign_n]: the elements of [q] replace those of [p] with the
    same key, and the flag tells whether the root changed. *)
Lemma insert_or_assign_n_spec s (p q : mapnode) :
  Inv s -> live s p -> live s q ->
  MapSpec.treap provider p -> MapSpec.treap provider q ->
  returns (MapNode.insert_or_assign_n provider p q) s
    (fun r s' =>
       live s' (snd r) /\ MapSpec.treap provider (snd r)
       /\ (forall y, In y (elems (snd r)) <->
             In y (elems q) \/ (In y (elems p) /\ ~ has_key q (fst y)))
       /\ (fst r = false <-> forall y, In y (elems q) -> In y (elems p))).
Proof.
  intros HI Lp Lq Tp Tq. unfold MapNode.insert_or_assign_n.
  eapply Algo.returns_bind;
    [exact (Algo.set_union_ok MO MS _ _ s HI Lq Lp Tq Tp)|].
  intros r s1 HI1 X1 (L & Tr' & I1).
  apply Algo.returns_ret; [assumption|]. cbn [fst snd].
  split; [exact L|]. split; [exact Tr'|]. split; [exact I1|].
  rewrite negb_false_iff, (Algo.ptr_eq_live MS s1 r p HI1 L (X1 _ Lp)).
  split.
  - intros -> y Hy. apply I1. auto.
  - intros H. apply (Algo.canonical MO MS s1 r p HI1 L (X1 _ Lp) Tr' Tp).
    intros y. rewrite I1. split; [intros [Hy|(Hy & _)]; auto|].
    intros Hy. destruct (map_key_dec q (fst y)) as [(z & Hz & Ez)|N];
      [|right; auto].
    left. pose proof (H z Hz) as Hz'.
    rewrite (Facts.treap_keys_unique (MapSpec.prio provider) MO p y z Tp Hy
               Hz' (eq_sym Ez)). exact Hz.
Qed.

Lemma insert_or_assign_spec s (a : CMap.map K T) v :
  Inv s -> valid s a ->
  returns (CMap.insert_or_assign provider a v) s
    (fun r s' =>
       valid s' (snd r)
       /\ (forall y, In y (els (snd r)) <->
             y = v \/ (In y (els a) /\ fst y <> fst v))
       /\ (fst r = false <-> In v (els a))
       /\ (fst r = false -> snd r = a)).
Proof.
  intros HI Va. pose proof Va as (Pa & La & Ta).
  unfold CMap.insert_or_assign, MapNode.insert_or_assign.
  change (MapNode.make_node provider v null null) with (make_node_value v).
  eapply Algo.returns_bind.
  { eapply Algo.returns_bind;
      [exact (Algo.make_node_value_returns MS s v HI)|].
    intros q s1 HI1 X1 (Lq & Tq & Eq).
    eapply Algo.returns_weaken;
      [exact (insert_or_assign_n_spec s1 _ q HI1 (X1 _ La) Lq Ta Tq)|].
    intros [b r] s2 HI2 X2 (L & Tr' & I1 & B). cbn [fst snd] in *.
    instantiate (1 := fun br s2 =>
      live s2 (snd br) /\ MapSpec.treap provider (snd br)
      /\ (forall y, In y (elems (snd br)) <->
            y = v \/ (In y (els a) /\ fst y <> fst v))
      /\ (fst br = false <-> In v (els a))).
    cbn [fst snd]. split; [exact L|]. split; [exact Tr'|].
    rewrite Eq in B. split.
    - intros y. rewrite I1, Eq. unfold has_key. rewrite Eq.
      cbn [In key_of MapNode.map_traits]. split.
      + intros [[<-|[]]|(Hy & N)]; [auto|]. right. split; [exact Hy|].
        intros E. apply N. exists v. auto.
      + intros [->|(Hy & N)]; [auto|]. right. split; [exact Hy|].
        intros (z & [<-|[]] & E). congruence.
    - rewrite B. cbn [In]. split; [auto|]. intros H y [<-|[]]. exact H. }
  intros [b r] s1 HI1 X1 (L & Tr' & I1 & B). cbn [fst snd] in *.
  apply Algo.returns_ret; [assumption|]. cbn [fst snd].
  split; [apply map_with_node_valid; eauto using map_valid_mono|].
  split; [exact I1|]. split; [exact B|].
  intros Hb. apply (map_canonical s1); auto;
    [apply map_with_node_valid; eauto using map_valid_mono
    |eauto using map_valid_mono|].
  apply B in Hb. intros y. cbn [CMap.with_node CMap.node_]. rewrite I1.
  split.
  - intros [->|(Hy & _)]; assumption.
  - intros Hy. destruct (map_in_dec y [v]) as [[<-|[]]|N]; [auto|].
    right. split; [exact Hy|]. intros E. apply N. left.
    exact (Facts.treap_keys_unique (MapSpec.prio provider) MO _ v y
             Ta Hb Hy (eq_sym E)).
Qed.

(** *** Whole maps *)

Lemma insert_map_spec s (a b : CMap.map K T) :
  Inv s -> valid s a -> valid s b ->
  returns (CMap.insert_map provider a b) s
    (fun r s' =>
       valid s' (snd r)
       /\ (forall y, In y (els (snd r)) <->
             In y (els a)
             \/ (In y (els b) /\ ~ has_key (CMap.node_ a) (fst y)))
       /\ fst r = Word.wrap (Z.of_nat (length (els (snd r))
                                       - length (els a)))).
Proof.
  intros HI Va Vb. pose proof Va as (Pa & La & Ta).
  pose proof Vb as (Pb & Lb & Tb). unfold CMap.insert_map.
  rewrite (map_check_valid s a b Va Vb).
  eapply Algo.returns_bind;
    [exact (Algo.add_ok MO MS _ _ s HI La Lb Ta Tb)|].
  intros [n p] s1 HI1 X1 (L & Tp & I1 & E & Hle). cbn [fst snd] in *.
  apply Algo.returns_ret; [assumption|]. cbn [fst snd].
  split; [apply map_with_node_valid; eauto using map_valid_mono|].
  split; assumption.
Qed.

Lemma insert_or_assign_map_spec s (a b : CMap.map K T) :
  Inv s -> valid s a -> valid s b ->
  returns (CMap.insert_or_assign_map provider a b) s
    (fun r s' =>
       valid s' (snd r)
       /\ (forall y, In y (els (snd r)) <->
             In y (els b)
             \/ (In y (els a) /\ ~ has_key (CMap.node_ b) (fst y)))
       /\ (fst r = false <-> forall y, In y (els b) -> In y (els a))).
Proof.
  intros HI Va Vb. pose proof Va as (Pa & La & Ta).
  pose proof Vb as (Pb & Lb & Tb). unfold CMap.insert_or_assign_map.
  rewrite (map_check_valid s a b Va Vb).
  eapply Algo.returns_bind;
    [exact (insert_or_assign_n_spec s _ _ HI La Lb Ta Tb)|].
  intros [n p] s1 HI1 X1 (L & Tp & I1 & B). cbn [fst snd] in *.
  apply Algo.returns_ret; [assumption|]. cbn [fst snd].
  split; [apply map_with_node_valid; eauto using map_valid_mono|].
  split; assumption.
Qed.

Lemma erase_map_spec s (a b : CMap.map K T) :
  Inv s -> valid s a -> valid s b ->
  returns (CMap.erase_map provider a b) s
    (fun r s' =>
       valid s' (snd r)
       /\ (forall y, In y (els (snd r)) <-> In y (els a) /\ ~ In y (els b))
       /\ fst r = Word.wrap (Z.of_nat (length (els a)
                                       - length (els (snd r))))).
Proof.
  intros HI Va Vb. pose proof Va as (Pa & La & Ta).
  pose proof Vb as (Pb & Lb & Tb). unfold CMap.erase_map.
  rewrite (map_check_valid s a b Va Vb).
  eapply Algo.returns_bind;
    [exact (Algo.diff_ok MO MS same (CMap.rank provider) _ _ s
              same_refl map_rank_spec HI La Lb Ta Tb)|].
  intros [n p] s1 HI1 X1 (L & Tp & I1 & E). cbn [fst snd] in *.
  apply Algo.returns_ret; [assumption|]. cbn [fst snd].
  split; [apply map_with_node_valid; eauto using map_valid_mono|].
  split; [|assumption].
  intros y. cbn [CMap.with_node CMap.node_]. rewrite I1, map_agrees.
  reflexivity.
Qed.

Lemma retain_map_spec s (a b : CMap.map K T) :
  Inv s -> valid s a -> valid s b ->
  returns (CMap.retain_map provider a b) s
    (fun r s' =>
       valid s' (snd r)
       /\ (forall y, In y (els (snd r)) <-> In y (els a) /\ In y (els b))
       /\ fst r = Word.wrap (Z.of_nat (length (els a)
                                       - length (els (snd r))))).
Proof.
  intros HI Va Vb. pose proof Va as (Pa & La & Ta).
  pose proof Vb as (Pb & Lb & Tb). unfold CMap.retain_map.
  rewrite (map_check_valid s a b Va Vb).
  eapply Algo.returns_bind;
    [exact (Algo.intersect_ok MO MS same (CMap.rank provider) _ _ s
              same_refl map_rank_spec HI La Lb Ta Tb)|].
  intros [n p] s1 HI1 X1 (L & Tp & I1 & E). cbn [fst snd] in *.
  apply Algo.returns_ret; [assumption|]. cbn [fst snd].
  split; [apply map_with_node_valid; eauto using map_valid_mono|].
  split; [|assumption].
  intros y. cbn [CMap.with_node CMap.node_]. rewrite I1, map_agrees.
  reflexivity.
Qed.

(** *** Operators *)

Lemma map_union_spec s (a b : CMap.map K T) :
  Inv s -> valid s a -> valid s b ->
  returns (CMap.union provider a b) s
    (fun r s' =>
       valid s' r
       /\ (forall y, In y (els r) <->
             In y (els a)
             \/ (In y (els b) /\ ~ has_key (CMap.node_ a) (fst y)))).
Proof.
  intros HI Va Vb. pose proof Va as (Pa & La & Ta).
  pose proof Vb as (Pb & Lb & Tb). unfold CMap.union.
  rewrite (map_check_valid s a b Va Vb).
  eapply Algo.returns_bind;
    [exact (Algo.set_union_ok MO MS _ _ s HI La Lb Ta Tb)|].
  intros p s1 HI1 X1 (L & Tp & I1).
  apply Algo.returns_ret; [assumption|].
  split; [apply map_with_node_valid; eauto using map_valid_mono|].
  exact I1.
Qed.

Lemma map_intersection_spec s (a b : CMap.map K T) :
  Inv s -> valid s a -> valid s b ->
  returns (CMap.intersection provider a b) s
    (fun r s' =>
       valid s' r
       /\ (forall y, In y (els r) <-> In y (els a) /\ In y (els b))).
Proof.
  intros HI Va Vb. pose proof Va as (Pa & La & Ta).
  pose proof Vb as (Pb & Lb & Tb). unfold CMap.intersection.
  rewrite (map_check_valid s a b Va Vb).
  eapply Algo.returns_bind;
    [exact (Algo.set_intersection_ok MO MS same (CMap.rank provider)
              same_refl map_rank_spec _ _ s HI La Lb Ta Tb)|].
  intros p s1 HI1 X1 (L & Tp & I1).
  apply Algo.returns_ret; [assumption|].
  split; [apply map_with_node_valid; eauto using map_valid_mono|].
  intros y. cbn [CMap.with_node CMap.node_]. rewrite I1, map_agrees.
  reflexivity.
Qed.

Lemma map_difference_spec s (a b : CMap.map K T) :
  Inv s -> valid s a -> valid s b ->
  returns (CMap.difference provider a b) s
    (fun r s' =>
       valid s' r
       /\ (forall y, In y (els r) <-> In y (els a) /\ ~ In y (els b))).
Proof.
  intros HI Va Vb. pose proof Va as (Pa & La & Ta).
  pose proof Vb as (Pb & Lb & Tb). unfold CMap.difference.
  rewrite (map_check_valid s a b Va Vb).
  eapply Algo.returns_bind;
    [exact (Algo.set_difference_ok MO MS same (CMap.rank provider)
              same_refl map_rank_spec _ _ s HI La Lb Ta Tb)|].
  intros p s1 HI1 X1 (L & Tp & I1).
  apply Algo.returns_ret; [assumption|].
  split; [apply map_with_node_valid; eauto using map_valid_mono|].
  intros y. cbn [CMap.with_node CMap.node_]. rewrite I1, map_agrees.
  reflexivity.
Qed.

Lemma map_includes_spec s (a b : CMap.map K T) :
  Inv s -> valid s a -> valid s b ->
  returns (CMap.includes provider a b) s
    (fun r _ => r = true <-> forall y, In y (els b) -> In y (els a)).
Proof.
  intros HI Va Vb. pose proof Va as (Pa & La & Ta).
  pose proof Vb as (Pb & Lb & Tb). unfold CMap.includes.
  rewrite (map_check_valid s a b Va Vb).
  eapply Algo.returns_weaken;
    [exact (Algo.includes_ok MO MS same (CMap.rank provider)
              same_refl map_rank_spec _ _ s HI La Lb Ta Tb)|].
  intros r s1 HI1 X1 H. cbv beta in H.
  etransitivity; [exact H|apply map_covers].
Qed.

(** *** Lookup *)

Lemma at_spec s (a : CMap.map K T) k :
  valid s a ->
  (forall v, In (k, v) (els a) -> CMap.at_ provider a k = inr v)
  /\ (~ has_key (CMap.node_ a) k ->
      CMap.at_ provider a k = inl out_of_range).
Proof.
  intros (Pa & La & Ta). unfold CMap.at_.
  destruct (Algo.lower_bound_find (MapSpec.prio provider) MO
              (CMap.node_ a) k Ta) as (F & N).
  cbv zeta in F, N.
  cbn [compare env MapFacts.env MapNode.map_env] in F, N.
  cbn [key_of MapNode.map_traits] in F, N. split.
  - intros v H. destruct (F (k, v) H eq_refl) as (x & e & h & l & r & ->).
    cbn [fst snd].
    rewrite (proj2 (SetFacts.key_eq_spec sp (proj1 Hprov) k k) eq_refl).
    reflexivity.
  - intros H.
    destruct (N H) as [->|(x & v & e & h & l & r & -> & Nv)];
      [reflexivity|].
    destruct (key_eq sp (fst v) k) eqn:E; [|reflexivity].
    apply (SetFacts.key_eq_spec sp (proj1 Hprov)) in E. contradiction.
Qed.

(** *** The key set *)

Lemma key_node_shape s a v kn h (l r : mapnode) :
  Inv s -> live s (Node a v kn h l r) ->
  live s l /\ live s r
  /\ exists ka kx kh,
       kn = Node ka (fst v) kx kh (MapNode.key_node_of l)
              (MapNode.key_node_of r).
Proof.
  intros ((_ & HI) & _) [H|H]; [discriminate|].
  destruct (TableSpec.inv_children HI _ _ _ _ _ _ H) as (Ll & Lr).
  destruct (TableSpec.inv_fields HI _ H) as (_ & Hs & _).
  split; [exact Ll|]. split; [exact Lr|exact Hs].
Qed.

Lemma key_node_elems s (p : mapnode) :
  Inv s -> live s p ->
  elems (MapNode.key_node_of p) = map fst (elems p).
Proof.
  intros HI. induction p as [|a v kn h l IHl r IHr]; intros Lp;
    [reflexivity|].
  destruct (key_node_shape s a v kn h l r HI Lp)
    as (Ll & Lr & ka & kx & kh & ->).
  cbn [MapNode.key_node_of elems]. rewrite IHl, IHr by assumption.
  rewrite map_app. reflexivity.
Qed.

Lemma map_prio_eq : MapSpec.prio provider = SetSpec.prio sp.
Proof. unfold MapSpec.prio. reflexivity. Qed.

Lemma key_node_treap_gen (pr : K -> Z) s (p : mapnode) :
  Inv s -> live s p ->
  @Spec.treap K (K * T) (node K set_fields) (@MapNode.state K T)
    MapNode.map_traits (MapNode.map_env provider) pr p ->
  @Spec.treap K K set_fields (@SetNode.table K) SetNode.set_traits
    (SetNode.set_env sp) pr (MapNode.key_node_of p).
Proof.
  intros HI. induction p as [|a v kn h l IHl r IHr]; intros Lp Tp;
    [exact I|].
  destruct (key_node_shape s a v kn h l r HI Lp)
    as (Ll & Lr & ka & kx & kh & ->).
  destruct Tp as (Tl & Tr' & Cl & Cr & Bl & Br).
  cbn [MapNode.key_node_of treap].
  rewrite (key_node_elems s l HI Ll), (key_node_elems s r HI Lr).
  split; [exact (IHl Ll Tl)|]. split; [exact (IHr Lr Tr')|].
  cbn [key_of SetNode.set_traits].
  repeat split; intros x Hx; apply in_map_iff in Hx;
    destruct Hx as (y & <- & Hy).
  - exact (Cl y Hy).
  - exact (Cr y Hy).
  - exact (Bl y Hy).
  - exact (Br y Hy).
Qed.

Lemma key_node_treap s (p : mapnode) :
  Inv s -> live s p -> MapSpec.treap provider p ->
  SetSpec.treap sp (MapNode.key_node_of p).
Proof.
  intros HI Lp Tp. unfold MapSpec.treap in Tp. rewrite map_prio_eq in Tp.
  exact (key_node_treap_gen (SetSpec.prio sp) s p HI Lp Tp).
Qed.

Lemma key_set_spec s (a : CMap.map K T) :
  Inv s -> valid s a ->
  SetSpec.valid sp set_id (MapNode.key_table s) (CMap.key_set set_id a)
  /\ elems (CSet.node_ (CMap.key_set set_id a)) = map fst (els a).
Proof.
  intros HI (Pa & La & Ta). split; [split; [reflexivity|split]|].
  - exact (MapFacts.key_node_live provider s _ (proj1 HI) La).
  - exact (key_node_treap s _ HI La Ta).
  - exact (key_node_elems s _ HI La).
Qed.

(** The same multiset of elements is the same root pointer. *)
Lemma map_perm_address s (a b : CMap.map K T) :
  Inv s -> valid s a -> valid s b ->
  (Permutation (els a) (els b)
   <-> Internal.address (CMap.node_ a) = Internal.address (CMap.node_ b)).
Proof.
  intros HI Va Vb. pose proof Va as (Pa & La & Ta).
  pose proof Vb as (Pb & Lb & Tb).
  rewrite (Facts.NoDup_perm_iff
             (Facts.treap_NoDup (MapSpec.prio provider) MO _ Ta)
             (Facts.treap_NoDup (MapSpec.prio provider) MO _ Tb)).
  split.
  - intros H. rewrite (map_canonical s a b HI Va Vb H). reflexivity.
  - intros E. rewrite (Spec.live_address MS s _ _ HI La Lb E). tauto.
Qed.

(** *** Shape *)

Lemma map_valid_shape s (a : CMap.map K T) :
  Inv s -> valid s a -> MapSpec.shape provider (CMap.node_ a).
Proof.
  intros HI (_ & La & Ta). split.
  - exact (Algo.treap_ascending (MapSpec.prio provider) MO _ Ta).
  - exact (Algo.treap_heap_ordered MS s _ HI La Ta).
Qed.

(** *** Lookup after an update *)

Lemma at_unchanged s s' (m m' : CMap.map K T) k :
  valid s m -> valid s' m' ->
  (forall v, In (k, v) (els m') <-> In (k, v) (els m)) ->
  CMap.at_ provider m' k = CMap.at_ provider m k.
Proof.
  intros Vm Vm' H.
  destruct (at_spec s m k Vm) as (F & N).
  destruct (at_spec s' m' k Vm') as (F' & N').
  destruct (map_key_dec (CMap.node_ m) k) as [Hk|Hk].
  - apply map_has_key in Hk. destruct Hk as (v & Hv).
    rewrite (F v Hv). apply F', H, Hv.
  - rewrite (N Hk). apply N'. intros Hk'. apply Hk.
    apply map_has_key in Hk'. destruct Hk' as (v & Hv).
    apply map_has_key. exists v. apply H, Hv.
Qed.

Lemma at_after_insert_or_assign s (m : CMap.map K T) k v :
  Inv s -> valid s m ->
  exists b m' s',
    CMap.insert_or_assign provider m (k, v) s = Some ((b, m'), s')
    /\ CMap.at_ provider m' k = inr v
    /\ (forall k', k' <> k ->
                   CMap.at_ provider m' k' = CMap.at_ provider m k').
Proof.
  intros HI Vm.
  destruct (insert_or_assign_spec s m (k, v) HI Vm)
    as ([b m'] & s' & E & _ & _ & Vm' & I1 & _).
  cbn [fst snd] in *. exists b, m', s'. split; [exact E|]. split.
  - apply (proj1 (at_spec s' m' k Vm')). apply I1. auto.
  - intros k' N. apply (at_unchanged s s' m m' k' Vm Vm').
    intros v'. rewrite I1. cbn [fst]. split.
    + intros [E'|(H & _)]; [congruence|exact H].
    + intros H. right. auto.
Qed.

Lemma at_after_erase s (m : CMap.map K T) k :
  Inv s -> valid s m ->
  exists n m' s',
    CMap.erase provider m k s = Some ((n, m'), s')
    /\ CMap.at_ provider m' k = inl out_of_range
    /\ (forall k', k' <> k ->
                   CMap.at_ provider m' k' = CMap.at_ provider m k').
Proof.
  intros HI Vm.
  destruct (map_erase_spec s m k HI Vm)
    as ([n m'] & s' & E & _ & _ & Vm' & I1 & _).
  cbn [fst snd] in *. exists n, m', s'. split; [exact E|]. split.
  - apply (proj2 (at_spec s' m' k Vm')). intros Hk.
    apply map_has_key in Hk. destruct Hk as (v & Hv). apply I1 in Hv.
    cbn [fst] in Hv. destruct Hv as (_ & N). apply N. reflexivity.
  - intros k' N. apply (at_unchanged s s' m m' k' Vm Vm').
    intros v'. rewrite I1. cbn [fst]. tauto.
Qed.

(** *** The hash of a map *)

Lemma map_live_hashed s (p : mapnode) :
  Inv s -> live s p -> MapSpec.hashed provider p.
Proof.
  intros HI. induction p as [|a v x h l IHl r IHr]; intros Lp; [exact I|].
  destruct (Spec.live_children MS s _ _ _ _ _ _ HI Lp) as (Ll & Lr).
  destruct Lp as [Lp|Lp]; [discriminate|].
  destruct HI as ((_ & HIm) & _).
  destruct (TableSpec.inv_fields HIm _ Lp) as (_ & _ & Eh).
  cbn [MapSpec.hashed]. split; [exact Eh|]. split; auto.
Qed.

(** *** The map table *)

Lemma map_table_unique s :
  Inv s ->
  (forall p q, In p (MapNode.table s) -> In q (MapNode.table s) ->
               Internal.address p = Internal.address q -> p = q)
  /\ (forall a v x h l r a' x' h',
        In (Node a v x h l r) (MapNode.table s) ->
        In (Node a' v x' h' l r) (MapNode.table s) ->
        Node a v x h l r = Node a' v x' h' l r).
Proof.
  intros HI. split.
  - intros p q Hp Hq.
    exact (Spec.live_address MS s p q HI (or_intror Hp) (or_intror Hq)).
  - intros a v x h l r a' x' h' Hp Hq.
    exact (Spec.live_unique MS s a v x h l r a' x' h' HI (or_intror Hp)
             (or_intror Hq)).
Qed.

(** *** The key set of a union *)

Lemma key_set_union s (a b : CMap.map K T) :
  Inv s -> valid s a -> valid s b ->
  exists m s1 ks t2,
    CMap.union provider a b s = Some (m, s1)
    /\ CSet.union sp (CMap.key_set set_id a) (CMap.key_set set_id b)
         (MapNode.key_table s1) = Some (ks, t2)
    /\ CSet.eq (CMap.key_set set_id m) ks = Some true.
Proof.
  intros HI Va Vb.
  destruct (map_union_spec s a b HI Va Vb)
    as (m & s1 & E & HI1 & X1 & Vm & Im).
  pose proof (map_valid_mono _ _ _ X1 Va) as Va1.
  pose proof (map_valid_mono _ _ _ X1 Vb) as Vb1.
  destruct (key_set_spec s1 a HI1 Va1) as (Vka & Eka).
  destruct (key_set_spec s1 b HI1 Vb1) as (Vkb & Ekb).
  destruct (key_set_spec s1 m HI1 Vm) as (Vkm & Ekm).
  pose proof (proj1 (proj1 HI1)) as HIs.
  destruct (CSetFacts.union_spec sp set_id (proj1 Hprov) _ _ _ HIs Vka Vkb)
    as (ks & t2 & E2 & HI2 & X2 & Vks & Iks).
  exists m, s1, ks, t2. split; [exact E|]. split; [exact E2|].
  apply (proj2 (proj1 (CSetFacts.eq_spec sp set_id (proj1 Hprov) t2 _ ks
                         HI2 (CSetFacts.valid_mono _ _ _ _ _ X2 Vkm)
                         Vks))).
  intros k. rewrite Iks, Ekm, Eka, Ekb, !in_map_iff. split.
  - intros ([k' v] & <- & H). apply Im in H.
    destruct H as [H|(H & _)]; [left|right]; exists (k', v); auto.
  - intros [([k' v] & <- & H)|([k' v] & <- & H)]; cbn [fst].
    + exists (k', v). split; [reflexivity|]. apply Im. auto.
    + destruct (map_key_dec (CMap.node_ a) k') as [Hk|Hk].
      * apply map_has_key in Hk. destruct Hk as (v' & Hv').
        exists (k', v'). split; [reflexivity|]. apply Im. auto.
      * exists (k', v). split; [reflexivity|]. apply Im. auto.
Qed.

(** *** Positions *)

Lemma map_at_index_spec s (a : CMap.map K T) k :
  Inv s -> valid s a -> 0 <= k < Word.modulus ->
  CMap.at_index a k
  = if k <? CMap.size a then nth_error (els a) (Z.to_nat k) else None.
Proof.
  intros HI (_ & La & _) Hk. unfold CMap.at_index, CMap.size.
  destruct (Algo.at_index_ok MS s (CMap.node_ a) HI La Hk) as (A & B).
  destruct (k <? Internal.size (CMap.node_ a)) eqn:C.
  - apply Z.ltb_lt in C.
    destruct (A C) as (x & v & e & h & l & r & -> & N). symmetry. exact N.
  - apply Z.ltb_ge in C. rewrite (B C). reflexivity.
Qed.

(** *** Counting *)

Lemma map_count_key_set (a : CMap.map K T) k :
  CMap.count provider a k = CSet.count sp (CMap.key_set set_id a) k.
Proof. reflexivity. Qed.

Lemma map_count_spec s (a : CMap.map K T) k :
  Inv s -> valid s a ->
  (has_key (CMap.node_ a) k -> CMap.count provider a k = 1)
  /\ (~ has_key (CMap.node_ a) k -> CMap.count provider a k = 0).
Proof.
  intros HI Va. destruct (key_set_spec s a HI Va) as (Vk & Ek).
  destruct (CSetFacts.count_spec sp set_id (proj1 Hprov) _ _ k Vk)
    as (C1 & C0).
  rewrite Ek in C1, C0. rewrite (map_count_key_set a k).
  split; intros H.
  - apply C1. destruct H as (z & Hz & <-). apply in_map. exact Hz.
  - apply C0. intros Hk. apply in_map_iff in Hk.
    destruct Hk as (z & Ez & Hz). apply H. exists z. auto.
Qed.

Lemma count_pair_spec s (a : CMap.map K T) k v :
  valid s a ->
  (In (k, v) (els a) -> CMap.count_pair provider a k v = 1)
  /\ (~ In (k, v) (els a) -> CMap.count_pair provider a k v = 0).
Proof.
  intros (Pa & La & Ta). unfold CMap.count_pair.
  destruct (Algo.lower_bound_find (MapSpec.prio provider) MO
              (CMap.node_ a) k Ta) as (F & N).
  cbv zeta in F, N.
  cbn [compare env MapFacts.env MapNode.map_env] in F, N.
  cbn [key_of MapNode.map_traits] in F, N. split.
  - intros H. destruct (F (k, v) H eq_refl) as (x & e & h & l & r & ->).
    cbn [fst snd].
    rewrite (proj2 (SetFacts.key_eq_spec sp (proj1 Hprov) k k) eq_refl).
    rewrite (proj2 (mapped_eq_spec v v) eq_refl). reflexivity.
  - intros H. destruct (map_key_dec (CMap.node_ a) k) as [Hk|Hk].
    + destruct Hk as ([k' v'] & Hz & Ez).
      cbn [key_of MapNode.map_traits fst] in Ez. subst k'.
      destruct (F (k, v') Hz eq_refl) as (x & e & h & l & r & ->).
      cbn [fst snd].
      destruct (mapped_eq provider v' v) eqn:E;
        [|rewrite andb_false_r; reflexivity].
      apply mapped_eq_spec in E. subst v'. contradiction.
    + destruct (N Hk) as [->|(x & z & e & h & l & r & -> & Nv)];
        [reflexivity|].
      destruct (key_eq sp (fst z) k) eqn:E; [|reflexivity].
      apply (SetFacts.key_eq_spec sp (proj1 Hprov)) in E. contradiction.
Qed.

Lemma map_lower_bound_spec s (a : CMap.map K T) key :
  Inv s -> valid s a -> CMap.size a < Word.modulus ->
  let it := CMap.lower_bound provider a key in
  iter_ok (CMap.node_ a) it
  /\ forall k v, nth_error (els a) k = Some v ->
                 (key_comp sp (fst v) key = true
                  <-> Z.of_nat k < Iter.pos_ it).
Proof.
  intros HI (_ & La & Ta) Hm. cbv zeta. split.
  - exact (Algo.iter_ok_bound MS s (CMap.node_ a) HI La Ta
             (Algo.lower_part_lower MO key) Hm).
  - exact (proj2 (Algo.bound_spec MO MS s (CMap.node_ a) HI La Ta
                    (Algo.lower_part_lower MO key) Hm)).
Qed.

Lemma map_upper_bound_spec s (a : CMap.map K T) key :
  Inv s -> valid s a -> CMap.size a < Word.modulus ->
  let it := CMap.upper_bound provider a key in
  iter_ok (CMap.node_ a) it
  /\ forall k v, nth_error (els a) k = Some v ->
                 (key_comp sp key (fst v) = false
                  <-> Z.of_nat k < Iter.pos_ it).
Proof.
  intros HI (_ & La & Ta) Hm. cbv zeta. split.
  - exact (Algo.iter_ok_bound MS s (CMap.node_ a) HI La Ta
             (Algo.lower_part_upper MO key) Hm).
  - destruct (Algo.bound_spec MO MS s (CMap.node_ a) HI La Ta
                (Algo.lower_part_upper MO key) Hm) as (_ & P).
    intros k v Hk. etransitivity; [|exact (P k v Hk)].
    cbn [compare env MapFacts.env MapNode.map_env key_of
         MapNode.map_traits].
    destruct (key_comp sp key (fst v)); cbn [negb]; split; congruence.
Qed.

Lemma map_find_spec s (a : CMap.map K T) key :
  Inv s -> valid s a -> CMap.size a < Word.modulus ->
  let it := CMap.find provider a key in
  iter_ok (CMap.node_ a) it
  /\ (forall v, In (key, v) (els a) ->
      0 <= Iter.pos_ it < CMap.size a
      /\ nth_error (els a) (Z.to_nat (Iter.pos_ it)) = Some (key, v))
  /\ (~ has_key (CMap.node_ a) key -> it = CMap.end_ a).
Proof.
  intros HI (_ & La & Ta) Hm. cbv zeta.
  assert (Oe : iter_ok (CMap.node_ a) (CMap.end_ a)).
  { apply Algo.iter_ok_make.
    pose proof (Algo.size_nonneg MS s _ HI La). lia. }
  assert (Ob : iter_ok (CMap.node_ a)
                 (Iter.of_bound
                    (Internal.lower_bound (CMap.node_ a)
                       (fun v => key_comp sp (fst v) key)))).
  { exact (Algo.iter_ok_bound MS s (CMap.node_ a) HI La Ta
             (Algo.lower_part_lower MO key) Hm). }
  unfold CMap.find. cbv zeta. split; [|split].
  - destruct (fst (Internal.lower_bound (CMap.node_ a)
                     (fun v => key_comp sp (fst v) key)))
      as [|x v e h l r]; [exact Oe|].
    destruct (key_eq sp (fst v) key); [exact Ob|exact Oe].
  - intros v H.
    destruct (Algo.lower_bound_found MO MS s (CMap.node_ a) (key, v)
                HI La Ta Hm H eq_refl)
      as (x & e & h & l & r & k & E & N).
    cbn [compare env MapFacts.env MapNode.map_env key_of
         MapNode.map_traits fst] in E.
    rewrite E. cbn [fst].
    rewrite (proj2 (SetFacts.key_eq_spec sp (proj1 Hprov) key key) eq_refl).
    cbn [Iter.of_bound Iter.make Iter.pos_ snd].
    rewrite Nat2Z.id. split; [|exact N].
    assert (k < length (els a))%nat
      by (apply nth_error_Some; rewrite N; discriminate).
    unfold CMap.size. rewrite (Algo.size_live MS s _ HI La). lia.
  - intros H.
    destruct (Algo.lower_bound_find (MapSpec.prio provider) MO
                (CMap.node_ a) key Ta) as (_ & N).
    cbv zeta in N.
    cbn [compare env MapFacts.env MapNode.map_env key_of
         MapNode.map_traits] in N.
    destruct (N H) as [->|(x & v & e & h & l & r & -> & Nv)];
      [reflexivity|].
    destruct (key_eq sp (fst v) key) eqn:E; [|reflexivity].
    apply (SetFacts.key_eq_spec sp (proj1 Hprov)) in E. contradiction.
Qed.

Lemma map_equal_range_spec s (a : CMap.map K T) key :
  Inv s -> valid s a -> CMap.size a < Word.modulus ->
  Iter.pos_ (snd (CMap.equal_range provider a key))
  = Iter.pos_ (fst (CMap.equal_range provider a key))
    + CMap.count provider a key.
Proof.
  intros HI Va Hm. pose proof Va as (_ & La & Ta).
  destruct (Algo.equal_range_width MO MS s (CMap.node_ a) key HI La Ta Hm)
    as (A & B).
  cbv zeta in A, B.
  cbn [compare env MapFacts.env MapNode.map_env key_of
       MapNode.map_traits] in A, B.
  destruct (map_count_spec s a key HI Va) as (C1 & C0).
  unfold CMap.equal_range, CMap.lower_bound, CMap.upper_bound.
  cbn [fst snd Iter.of_bound Iter.make Iter.pos_].
  destruct (map_key_dec (CMap.node_ a) key) as [H|H].
  - rewrite (A H), (C1 H). reflexivity.
  - rewrite (B H), (C0 H). lia.
Qed.

Lemma map_begin_ok s (a : CMap.map K T) :
  Inv s -> valid s a -> iter_ok (CMap.node_ a) (CMap.begin_ a).
Proof.
  intros HI (_ & La & _). apply Algo.iter_ok_make.
  pose proof (Algo.size_nonneg MS s _ HI La). lia.
Qed.

Lemma map_end_ok s (a : CMap.map K T) :
  Inv s -> valid s a -> iter_ok (CMap.node_ a) (CMap.end_ a).
Proof.
  intros HI (_ & La & _). apply Algo.iter_ok_make.
  pose proof (Algo.size_nonneg MS s _ HI La). lia.
Qed.

Lemma map_at_index_rank s (a : CMap.map K T) k v :
  valid s a -> nth_error (els a) k = Some v ->
  length (filter (fun x => key_comp sp (fst x) (fst v)) (els a)) = k.
Proof.
  intros (_ & _ & Ta) N.
  exact (Algo.nth_rank (MapSpec.prio provider) MO (CMap.node_ a) k
           Ta N).
Qed.

Lemma map_deref s (a : CMap.map K T) it :
  Inv s -> valid s a -> CMap.size a < Word.modulus ->
  iter_ok (CMap.node_ a) it -> Iter.pos_ it < CMap.size a ->
  exists v it',
    Iter.deref (CMap.node_ a) it = Some (v, it')
    /\ nth_error (els a) (Z.to_nat (Iter.pos_ it)) = Some v
    /\ Iter.pos_ it' = Iter.pos_ it /\ iter_ok (CMap.node_ a) it'.
Proof.
  intros HI (_ & La & _) Hm Hok Hlt.
  exact (Algo.deref_ok MS s HI La Hm Hok Hlt).
Qed.

Lemma map_walk s (a : CMap.map K T) it ms :
  Inv s -> valid s a -> CMap.size a < Word.modulus - 1 ->
  iter_ok (CMap.node_ a) it -> in_range (CMap.size a) (Iter.pos_ it) ms ->
  exists it', Iter.walk (CMap.node_ a) it ms = Some it'
              /\ Iter.pos_ it' = destination (Iter.pos_ it) ms
              /\ iter_ok (CMap.node_ a) it'.
Proof.
  intros HI (_ & La & _) Hm Hok Hin.
  exact (Algo.walk_ok MS s ms HI La Hm Hok Hin).
Qed.

Lemma map_range_for s (a : CMap.map K T) fuel :
  Inv s -> valid s a -> CMap.size a < Word.modulus - 1 ->
  (Z.to_nat (CMap.size a) <= fuel)%nat ->
  Iter.range_for fuel (CMap.node_ a) (CMap.begin_ a) (CMap.end_ a)
  = Some (els a).
Proof.
  intros HI Va Hm Hf. pose proof Va as (_ & La & _).
  assert (Hf' : (Z.to_nat (Internal.size (CMap.node_ a)
                            - Iter.pos_ (CMap.begin_ a)) <= fuel)%nat).
  { cbn [CMap.begin_ Iter.make Iter.pos_]. rewrite Z.sub_0_r. exact Hf. }
  rewrite (Algo.range_for_ok MS s (CMap.end_ a) HI La Hm eq_refl
             (map_begin_ok s a HI Va) Hf').
  reflexivity.
Qed.

(** *** Erasing a pair *)

Lemma ptr_eq_refl (p : mapnode) : Internal.ptr_eq p p = true.
Proof. unfold Internal.ptr_eq. apply Nat.eqb_refl. Qed.

(** No element is the pair: the tree and the state stay as they are. *)
Lemma erase_value_absent (p : mapnode) value s :
  ~ In value (elems p) ->
  exists b, MapNode.erase_value provider p value s = Some ((p, b), s).
Proof.
  induction p as [|a v e h l IHl r IHr]; intros H.
  - exists false. reflexivity.
  - cbn [MapNode.erase_value]. cbn [elems] in H.
    rewrite in_app_iff in H. cbn [In] in H.
    destruct (key_comp sp (fst v) (fst value)).
    + destruct IHr as (b & E); [tauto|]. unfold bind at 1. rewrite E.
      destruct b.
      * exists true. unfold bind, Internal.replace_right.
        rewrite ptr_eq_refl. reflexivity.
      * exists false. reflexivity.
    + destruct IHl as (b & E); [tauto|]. unfold bind at 1. rewrite E.
      destruct b.
      * exists true. unfold bind, Internal.replace_left.
        rewrite ptr_eq_refl. reflexivity.
      * exists true.
        destruct (MapNode.value_eq provider v value) eqn:Ev;
          [|reflexivity].
        apply (MapFacts.value_eq_spec provider Hprov) in Ev. tauto.
Qed.

Lemma bind_cong {St A B : Type} (c1 c2 : M St A) (k1 k2 : A -> M St B) s :
  c1 s = c2 s ->
  (forall a s', c2 s = Some (a, s') -> k1 a s' = k2 a s') ->
  bind c1 k1 s = bind c2 k2 s.
Proof.
  intros E H. unfold bind. rewrite E.
  destruct (c2 s) as [[a s']|]; [|reflexivity]. apply H. reflexivity.
Qed.

(** The pair is the element with its key, if there is one: the same steps
    as [erase] of the key. *)
Lemma erase_value_key (p : mapnode) value s :
  MapSpec.treap provider p ->
  (has_key p (fst value) -> In value (elems p)) ->
  MapNode.erase_value provider p value s
  = Internal.erase_key p (fst value) s.
Proof.
  revert s. induction p as [|a v e h l IHl r IHr]; intros s Tp H;
    [reflexivity|].
  pose proof Tp as (Tl & Tr' & Ll & Lr & _).
  assert (Hsub : forall c : mapnode,
             (forall y, In y (elems c) -> In y (elems (Node a v e h l r))) ->
             has_key c (fst value) -> In value (elems c)).
  { intros c Hc (z & Hz & Ez).
    assert (Hv : In value (elems (Node a v e h l r)))
      by (apply H; exists z; auto).
    rewrite (Facts.treap_keys_unique (MapSpec.prio provider) MO _ value z
               Tp Hv (Hc z Hz)); [exact Hz|].
    symmetry. exact Ez. }
  cbn [MapNode.erase_value Internal.erase_key].
  cbn [compare env MapFacts.env MapNode.map_env key_of MapNode.map_traits
       equal].
  destruct (key_comp sp (fst v) (fst value)) eqn:C.
  - apply bind_cong; [|intros [s1 s2] t1 _; reflexivity].
    apply IHr; [exact Tr'|].
    apply Hsub. intros y Hy. apply Facts.in_elems_node. auto.
  - apply bind_cong.
    { apply IHl; [exact Tl|].
      apply Hsub. intros y Hy. apply Facts.in_elems_node. auto. }
    intros [s1 s2] t1 _. destruct s2; [reflexivity|].
    replace (MapNode.value_eq provider v value)
      with (key_eq sp (fst v) (fst value)); [reflexivity|].
    destruct (key_eq sp (fst v) (fst value)) eqn:E.
    + symmetry. apply (MapFacts.value_eq_spec provider Hprov).
      apply (SetFacts.key_eq_spec sp (proj1 Hprov)) in E.
      apply (Facts.treap_keys_unique (MapSpec.prio provider) MO _ v value
               Tp); [apply Facts.in_elems_node; auto| |exact E].
      apply H. exists v. split; [apply Facts.in_elems_node; auto|exact E].
    + unfold MapNode.value_eq. rewrite E. reflexivity.
Qed.

Lemma map_erase_value_spec s (a : CMap.map K T) value :
  Inv s -> valid s a ->
  (In value (els a) ->
   CMap.erase_value provider a value s
   = CMap.erase provider a (fst value) s)
  /\ (~ In value (els a) ->
      CMap.erase_value provider a value s = Some ((0, a), s)).
Proof.
  intros HI (Pa & La & Ta). split; intros H.
  - unfold CMap.erase_value, CMap.erase, MapNode.erase_value_n,
      Internal.erase.
    unfold bind. rewrite erase_value_key; [reflexivity|exact Ta|].
    intros _. exact H.
  - unfold CMap.erase_value, MapNode.erase_value_n. unfold bind.
    destruct (erase_value_absent (CMap.node_ a) value s H) as (b & ->).
    unfold ret. unfold Word.sub. rewrite Z.sub_diag.
    rewrite map_with_node_same. reflexivity.
Qed.

(** *** Ranges *)

Lemma first_of_map (l : list (K * T)) (y : K * T) :
  first_of l y
  <-> exists l1 l2, l = l1 ++ y :: l2
                    /\ forall z, In z l1 -> fst z <> fst y.
Proof. reflexivity. Qed.

Lemma map_insert_range_spec s (a : CMap.map K T) l :
  Inv s -> valid s a ->
  returns (CMap.insert_range provider a l) s
    (fun r s' =>
       valid s' (snd r)
       /\ (forall y, In y (els (snd r)) -> In y (els a) \/ In y l)
       /\ (Z.of_nat (length l) < Word.modulus - 1 ->
           forall y, In y (els (snd r)) <->
             In y (els a)
             \/ (first_of l y /\ ~ has_key (CMap.node_ a) (fst y)))
       /\ fst r = Word.wrap (Z.of_nat (length (els (snd r))
                                       - length (els a)))
       /\ (length (els a) <= length (els (snd r)))%nat).
Proof.
  intros HI Va. pose proof Va as (Pa & La & Ta). unfold CMap.insert_range.
  eapply Algo.returns_bind;
    [exact (Algo.insert_range_ok MO MS _ l s HI La Ta)|].
  intros [n p] s1 HI1 X1 (L & Tp & I0 & I1 & E & Hle). cbn [fst snd] in *.
  apply Algo.returns_ret; [assumption|]. cbn [fst snd].
  split; [apply map_with_node_valid; eauto using map_valid_mono|].
  split; [exact I0|]. split; [exact I1|]. split; assumption.
Qed.

Lemma range_has_key (l : list (K * T)) (q : mapnode) k :
  (forall y, In y (elems q) <-> first_of l y) ->
  (has_key q k <-> exists z, In z l /\ fst z = k).
Proof.
  intros Iq. etransitivity; [|symmetry; exact (Facts.first_of_key MO l k)].
  unfold has_key. split.
  - intros (z & Hz & Ez). exists z. split; [apply Iq; exact Hz|exact Ez].
  - intros (z & Hz & Ez). exists z. split; [apply Iq; exact Hz|exact Ez].
Qed.

Lemma insert_or_assign_range_node s (p : mapnode) l :
  Inv s -> live s p -> MapSpec.treap provider p ->
  returns (MapNode.insert_or_assign_range provider p l) s
    (fun r s' =>
       live s' (snd r) /\ MapSpec.treap provider (snd r)
       /\ (Z.of_nat (length l) < Word.modulus - 1 ->
           (forall y, In y (elems (snd r)) <->
              first_of l y
              \/ (In y (elems p) /\ forall z, In z l -> fst z <> fst y))
           /\ (fst r = false <-> forall y, first_of l y -> In y (elems p)))).
Proof.
  intros HI Lp Tp. unfold MapNode.insert_or_assign_range.
  eapply Algo.returns_bind;
    [exact (Algo.make_node_range_valid MO MS l s HI)|].
  intros q s1 HI1 X1 (Lq & Tq & Sq & Iq).
  eapply Algo.returns_weaken;
    [exact (insert_or_assign_n_spec s1 p q HI1 (X1 _ Lp) Lq Tp Tq)|].
  intros [b r] s2 HI2 X2 (Lr & Tr' & Ir & Fr). cbn [fst snd] in *.
  split; [exact Lr|]. split; [exact Tr'|]. intros Hlen.
  specialize (Iq Hlen). split.
  - intros y. rewrite (Ir y), (Iq y), (range_has_key l q (fst y) Iq).
    apply or_iff_compat_l. split.
    + intros (Hy & N). split; [exact Hy|]. intros z Hz Ez. apply N.
      exists z. auto.
    + intros (Hy & N). split; [exact Hy|]. intros (z & Hz & Ez).
      exact (N z Hz Ez).
  - rewrite Fr. split; intros G y Hy; apply G; apply Iq; exact Hy.
Qed.

Lemma insert_or_assign_range_spec s (a : CMap.map K T) l :
  Inv s -> valid s a ->
  returns (CMap.insert_or_assign_range provider a l) s
    (fun r s' =>
       valid s' (snd r)
       /\ (Z.of_nat (length l) < Word.modulus - 1 ->
           (forall y, In y (els (snd r)) <->
              first_of l y
              \/ (In y (els a) /\ forall z, In z l -> fst z <> fst y))
           /\ (fst r = false <-> forall y, first_of l y -> In y (els a)))).
Proof.
  intros HI Va. pose proof Va as (Pa & La & Ta).
  unfold CMap.insert_or_assign_range.
  eapply Algo.returns_bind;
    [exact (insert_or_assign_range_node s _ l HI La Ta)|].
  intros [b r] s2 HI2 X2 (Lr & Tr' & Hr). cbn [fst snd] in *.
  apply Algo.returns_ret; [assumption|]. cbn [fst snd].
  split; [apply map_with_node_valid; eauto using map_valid_mono|].
  exact Hr.
Qed.

Lemma map_assign_list_spec s (a : CMap.map K T) l :
  Inv s -> valid s a ->
  returns (CMap.assign_list provider a l) s
    (fun r s' =>
       valid s' r
       /\ (forall y, In y (els r) -> In y l)
       /\ (Z.of_nat (length l) < Word.modulus - 1 ->
           forall y, In y (els r) <-> first_of l y)).
Proof.
  intros HI Va. unfold CMap.assign_list.
  eapply Algo.returns_bind; [exact (Algo.assign_ok MO MS l s HI)|].
  intros p s1 HI1 X1 (L & Tp & I0 & I1).
  apply Algo.returns_ret; [assumption|].
  split; [apply map_with_node_valid; eauto using map_valid_mono|].
  split; [exact I0|exact I1].
Qed.

Lemma map_check_range_true (a : CMap.map K T) first last :
  CMap.check_range a first last = true ->
  0 <= first <= last /\ last <= Internal.size (CMap.node_ a)
  /\ last < Word.modulus.
Proof.
  intros C. unfold CMap.check_range in C.
  apply andb_true_iff in C. destruct C as (C & C4).
  apply andb_true_iff in C. destruct C as (C & C3).
  apply andb_true_iff in C. destruct C as (C1 & C2).
  apply Z.leb_le in C1, C3, C4. apply Z.ltb_lt in C2. lia.
Qed.

Lemma map_erase_range_spec s (a : CMap.map K T) first last :
  Inv s -> valid s a -> CMap.check_range a first last = true ->
  returns (CMap.erase_range provider a first last) s
    (fun r s' =>
       valid s' (snd r)
       /\ els (snd r) = firstn (Z.to_nat first) (els a)
                        ++ skipn (Z.to_nat last) (els a)
       /\ fst r = last - first).
Proof.
  intros HI Va C. pose proof Va as (Pa & La & Ta).
  unfold CMap.erase_range. rewrite C.
  destruct (map_check_range_true a first last C) as (Hf & Hl & Hm).
  eapply Algo.returns_bind;
    [exact (Algo.erase_range_full MO MS _ s HI La Ta Hf Hl Hm)|].
  intros [n p] s1 HI1 X1 (L & Tp & E1 & En'). cbn [fst snd] in *.
  apply Algo.returns_ret; [assumption|]. cbn [fst snd].
  split; [apply map_with_node_valid; eauto using map_valid_mono|].
  split; assumption.
Qed.

Lemma map_retain_range_spec s (a : CMap.map K T) first last :
  Inv s -> valid s a -> CMap.check_range a first last = true ->
  returns (CMap.retain_range provider a first last) s
    (fun r s' =>
       valid s' (snd r)
       /\ els (snd r)
          = skipn (Z.to_nat first) (firstn (Z.to_nat last) (els a))
       /\ fst r = Word.wrap (CMap.size a - (last - first))).
Proof.
  intros HI Va C. pose proof Va as (Pa & La & Ta).
  unfold CMap.retain_range. rewrite C.
  destruct (map_check_range_true a first last C) as (Hf & Hl & Hm).
  eapply Algo.returns_bind;
    [exact (Algo.retain_full MS _ s HI La Ta Hf Hl Hm)|].
  intros [n p] s1 HI1 X1 (L & Tp & E1 & En'). cbn [fst snd] in *.
  apply Algo.returns_ret; [assumption|]. cbn [fst snd].
  split; [apply map_with_node_valid; eauto using map_valid_mono|].
  split; assumption.
Qed.

(** *** The assigning operators, [erase(value)], the range constructor and
    [includes] as a step of a program *)

Lemma map_union_assign_spec s (a b : CMap.map K T) :
  Inv s -> valid s a -> valid s b ->
  returns (CMap.union_assign provider a b) s
    (fun r s' =>
       valid s' r
       /\ (forall y, In y (els r) <->
             In y (els a)
             \/ (In y (els b) /\ ~ has_key (CMap.node_ a) (fst y)))).
Proof.
  intros HI Va Vb. unfold CMap.union_assign.
  rewrite (map_check_valid s a b Va Vb).
  eapply Algo.returns_bind; [exact (insert_map_spec s a b HI Va Vb)|].
  intros [n r] s1 HI1 X1 (Vr & I1 & _). cbn [fst snd] in *.
  apply Algo.returns_ret; [assumption|]. auto.
Qed.

Lemma map_intersection_assign_spec s (a b : CMap.map K T) :
  Inv s -> valid s a -> valid s b ->
  returns (CMap.intersection_assign provider a b) s
    (fun r s' =>
       valid s' r
       /\ (forall y, In y (els r) <-> In y (els a) /\ In y (els b))).
Proof.
  intros HI Va Vb. unfold CMap.intersection_assign.
  rewrite (map_check_valid s a b Va Vb).
  eapply Algo.returns_bind; [exact (retain_map_spec s a b HI Va Vb)|].
  intros [n r] s1 HI1 X1 (Vr & I1 & _). cbn [fst snd] in *.
  apply Algo.returns_ret; [assumption|]. auto.
Qed.

Lemma map_difference_assign_spec s (a b : CMap.map K T) :
  Inv s -> valid s a -> valid s b ->
  returns (CMap.difference_assign provider a b) s
    (fun r s' =>
       valid s' r
       /\ (forall y, In y (els r) <-> In y (els a) /\ ~ In y (els b))).
Proof.
  intros HI Va Vb. unfold CMap.difference_assign.
  rewrite (map_check_valid s a b Va Vb).
  eapply Algo.returns_bind; [exact (erase_map_spec s a b HI Va Vb)|].
  intros [n r] s1 HI1 X1 (Vr & I1 & _). cbn [fst snd] in *.
  apply Algo.returns_ret; [assumption|]. auto.
Qed.

Lemma map_from_range_spec s (l : list (K * T)) :
  Inv s ->
  returns (CMap.from_range provider l id) s
    (fun r s' =>
       valid s' r
       /\ (forall y, In y (els r) -> In y l)
       /\ (Z.of_nat (length l) < Word.modulus - 1 ->
           forall y, In y (els r) <-> first_of l y)).
Proof.
  intros HI. unfold CMap.from_range.
  eapply Algo.returns_bind;
    [exact (map_insert_range_spec s (CMap.new id) l HI (map_new_valid s))|].
  intros [n r] s1 HI1 X1 (Vr & I1 & I2 & _). cbn [fst snd] in *.
  apply Algo.returns_ret; [assumption|]. split; [exact Vr|]. split.
  - intros y Hy. destruct (I1 y Hy) as [[]|H]. exact H.
  - intros Hl y. rewrite (I2 Hl y). cbn [CMap.new CMap.node_ elems]. split.
    + intros [[]|(H & _)]. exact H.
    + intros H. right. split; [exact H|]. intros (z & [] & _).
Qed.

Lemma map_erase_value_returns s (a : CMap.map K T) value :
  Inv s -> valid s a ->
  returns (CMap.erase_value provider a value) s
    (fun r s' =>
       valid s' (snd r)
       /\ (forall y, In y (els (snd r)) <-> In y (els a) /\ y <> value)
       /\ (In value (els a) -> fst r = 1)
       /\ (~ In value (els a) -> fst r = 0 /\ snd r = a)).
Proof.
  intros HI Va. pose proof Va as (Pa & La & Ta).
  destruct (map_erase_value_spec s a value HI Va) as (E1 & E0).
  destruct (map_in_dec value (els a)) as [H|H].
  - destruct (map_erase_spec s a (fst value) HI Va)
      as (r & s' & E & HI' & X & Vr & I1 & C1 & _).
    exists r, s'. rewrite (E1 H). split; [exact E|].
    split; [exact HI'|]. split; [exact X|]. split; [exact Vr|].
    split; [|split; [|tauto]].
    + intros y. rewrite I1. split.
      * intros (Hy & N). split; [exact Hy|]. intros ->. tauto.
      * intros (Hy & N). split; [exact Hy|]. intros Ek. apply N.
        exact (Facts.treap_keys_unique (MapSpec.prio provider) MO _ y value
                 Ta Hy H Ek).
    + intros _. apply C1. exists value. auto.
  - exists (0, a), s. rewrite (E0 H). split; [reflexivity|].
    split; [exact HI|]. split; [auto|]. cbn [fst snd].
    split; [exact Va|]. split; [|split; [tauto|auto]].
    intros y. split; [|tauto]. intros Hy. split; [exact Hy|].
    intros ->. tauto.
Qed.

Lemma map_includes_observed s (a b : CMap.map K T) :
  Inv s -> valid s a -> valid s b ->
  returns (World.observed (CMap.includes provider a b) a) s
    (fun r s' =>
       valid s' (snd r) /\ snd r = a
       /\ (fst r = true <-> forall y, In y (els b) -> In y (els a))).
Proof.
  intros HI Va Vb. unfold World.observed.
  eapply Algo.returns_bind; [exact (map_includes_spec s a b HI Va Vb)|].
  intros r s1 HI1 X1 H. apply Algo.returns_ret; [assumption|].
  cbn [fst snd]. split; [exact (map_valid_mono s s1 a X1 Va)|].
  split; [reflexivity|exact H].
Qed.

End CMapFacts.

End CMapFacts.
(** * The merges of a map with a key set (map.h, 76-149) *)

Module KeyMergeFacts.

Import Spec.

Section KeyMergeFacts.

Context {K T : Type}.

Variable provider : map_provider K T.

#[local] Existing Instance SetNode.set_traits.
#[local] Existing Instance MapNode.map_traits.

Hypothesis Hprov : MapSpec.provider_ok provider.

Local Notation "'sp'" := (set_provider_ provider).
Local Notation "'Inv'" := (MapSpec.Inv provider).
Local Notation "'live'" := (@MapSpec.live K T).
Local Notation "'klive'" := (@SetSpec.live K).
Local Notation "'kt'" := (@MapNode.key_table K T).
Local Notation "'returns'" := (MapSpec.returns provider).
Local Notation "'mapnode'" := (node (K * T) (node K set_fields)).
Local Notation "'keynode'" := (node K set_fields).
Local Notation "'Hsp'" := (proj1 Hprov).
Local Notation "'MO'" := (MapFacts.map_order_ok provider Hprov).

Lemma key_returns_ret {A} (a : A) s (Q : A -> _ -> Prop) :
  Inv s -> Q a s -> returns (ret a) s Q.
Proof.
  intros HI H. exists a, s. split; [reflexivity|].
  split; [exact (MapFacts.Inv_from_self provider s HI)|]. auto.
Qed.

Lemma key_returns_bind {A B} (c : M _ A) (k : A -> M _ B) s
    (Q1 : A -> _ -> Prop) (Q2 : B -> _ -> Prop) :
  returns c s Q1 ->
  (forall a s',
     Inv s' -> (forall q, live s q -> live s' q) ->
     (forall q, klive (kt s) q -> klive (kt s') q) ->
     Q1 a s' -> returns (k a) s' Q2) ->
  returns (bind c k) s Q2.
Proof.
  intros (a & s1 & E1 & (HI1 & K1) & X1 & H1) Hk.
  destruct (Hk a s1 HI1 X1 K1 H1) as (b & s2 & E2 & (HI2 & K2) & X2 & H2).
  exists b, s2. unfold bind. rewrite E1. split; [exact E2|].
  split; [split; [exact HI2|]|]; auto.
Qed.

Lemma key_returns_weaken {A} (c : M _ A) s (Q1 Q2 : A -> _ -> Prop) :
  returns c s Q1 ->
  (forall a s',
     Inv s' -> (forall q, live s q -> live s' q) ->
     (forall q, klive (kt s) q -> klive (kt s') q) ->
     Q1 a s' -> Q2 a s') ->
  returns c s Q2.
Proof.
  intros (a & s1 & E1 & (HI1 & K1) & X1 & H1) Hk.
  exists a, s1. split; [exact E1|]. split; [split; assumption|].
  split; [exact X1|]. exact (Hk a s1 HI1 X1 K1 H1).
Qed.

(** A computation of the key set's environment, run on the key table. *)
Lemma returns_key_set {A} (c : M (@SetNode.table K) A) s
    (Q : A -> _ -> Prop) :
  Inv s ->
  Spec.returns (SetSpec.Inv sp) klive c (kt s) Q ->
  returns (MapNode.in_key_set_env c) s (fun a s' => Q a (kt s')).
Proof.
  intros HI (a & t' & E & HI' & X & H).
  exists a. eexists. unfold MapNode.in_key_set_env. rewrite E.
  split; [reflexivity|]. cbn [MapNode.key_table MapNode.table].
  split; [split; [split|]|].
  - exact HI'.
  - cbn [MapNode.key_table MapNode.table].
    eapply TableFacts.table_inv_fields; [|exact (proj2 HI)].
    intros n _. apply MapFacts.fields_ok_mono; assumption.
  - exact X.
  - split; [|exact H]. intros q Hq. exact Hq.
Qed.


Lemma returns_of_store {A} (c : M _ A) s (Q : A -> _ -> Prop) :
  Spec.returns (MapSpec.Inv_from provider (kt s)) live c s Q ->
  returns c s Q.
Proof. intros H. exact H. Qed.

Lemma store_of_returns {A} (c : M _ A) s (Q : A -> _ -> Prop) :
  returns c s Q ->
  Spec.returns (MapSpec.Inv_from provider (kt s)) live c s Q.
Proof. intros H. exact H. Qed.

(** *** The two orders are one order on keys

    The priority of a key is the same function in both tables; it is kept
    abstract here. *)

Section Priority.

Variable pr : K -> Z.

Hypothesis SS :
  @Spec.store_ok K K set_fields (@SetNode.table K) SetNode.set_traits
    (SetNode.set_env sp) pr (SetSpec.Inv sp) klive.

Hypothesis MSfrom : forall k0,
  @Spec.store_ok K (K * T) (node K set_fields) (@MapNode.state K T)
    MapNode.map_traits (MapNode.map_env provider) pr
    (MapSpec.Inv_from provider k0) live.

Local Notation "'MS' s" := (MSfrom (MapNode.key_table s))
  (at level 10, s at level 9).
Local Notation "'mtreap'" :=
  (@Spec.treap K (K * T) (node K set_fields) (@MapNode.state K T)
     MapNode.map_traits (MapNode.map_env provider) pr).
Local Notation "'ktreap'" :=
  (@Spec.treap K K set_fields (@SetNode.table K) SetNode.set_traits
     (SetNode.set_env sp) pr).
Local Notation "'kc'" := (key_comp sp).
Local Notation "'bb'" :=
  (@Spec.beforeb K K set_fields (@SetNode.table K) (SetNode.set_env sp) pr).

Lemma kc_trans x y z : kc x y = true -> kc y z = true -> kc x z = true.
Proof. exact (Spec.compare_trans Hsp x y z). Qed.

Lemma kc_asym x y : kc x y = true -> kc y x = false.
Proof. exact (Facts.compare_asym Hsp x y). Qed.

Lemma kc_irrefl x : kc x x = false.
Proof. exact (Spec.compare_irrefl Hsp x). Qed.

Lemma kc_lt_nlt x y k : kc x k = true -> kc y k = false -> kc x y = true.
Proof. exact (Facts.compare_lt_nlt Hsp x y k). Qed.

Lemma mtreap_inv a v kn h (l r : mapnode) :
  mtreap (Node a v kn h l r) ->
  mtreap l /\ mtreap r
  /\ (forall x, In x (elems l) -> kc (fst x) (fst v) = true)
  /\ (forall x, In x (elems r) -> kc (fst v) (fst x) = true)
  /\ (forall x, In x (elems l) -> bb (fst v) (fst x) = true)
  /\ (forall x, In x (elems r) -> bb (fst v) (fst x) = true).
Proof. intros H. exact H. Qed.

Lemma mtreap_node a v kn h (l r : mapnode) :
  mtreap l -> mtreap r ->
  (forall x, In x (elems l) -> kc (fst x) (fst v) = true) ->
  (forall x, In x (elems r) -> kc (fst v) (fst x) = true) ->
  (forall x, In x (elems l) -> bb (fst v) (fst x) = true) ->
  (forall x, In x (elems r) -> bb (fst v) (fst x) = true) ->
  mtreap (Node a v kn h l r).
Proof. intros H1 H2 H3 H4 H5 H6. exact (conj H1 (conj H2 (conj H3 (conj H4 (conj H5 H6))))). Qed.

Lemma ktreap_inv a v x h (l r : keynode) :
  ktreap (Node a v x h l r) ->
  ktreap l /\ ktreap r
  /\ (forall y, In y (elems l) -> kc y v = true)
  /\ (forall y, In y (elems r) -> kc v y = true)
  /\ (forall y, In y (elems l) -> bb v y = true)
  /\ (forall y, In y (elems r) -> bb v y = true).
Proof. intros H. exact H. Qed.

Lemma mtreap_after_no_key a v kn h (l r : mapnode) k y :
  mtreap (Node a v kn h l r) -> bb k (fst v) = true ->
  In y (elems (Node a v kn h l r)) -> fst y <> k.
Proof.
  intros Tp B Hy E.
  apply (Facts.treap_after_no_key MO Tp (k := k)); [exact B|].
  exists y. split; [exact Hy|exact E].
Qed.

Lemma ktreap_after_no_key a v x h (l r : keynode) k :
  ktreap (Node a v x h l r) -> bb k v = true ->
  ~ In k (elems (Node a v x h l r)).
Proof.
  intros Tq B Hk.
  apply (Facts.treap_after_no_key Hsp Tq (k := k)); [exact B|].
  exists k. split; [exact Hk|reflexivity].
Qed.

Lemma ktreap_left_iff a v x h (l r : keynode) z :
  ktreap (Node a v x h l r) ->
  In z (elems l) <-> In z (elems (Node a v x h l r)) /\ kc z v = true.
Proof. intros Tq. exact (Facts.treap_left_iff Hsp z Tq). Qed.

Lemma ktreap_right_iff a v x h (l r : keynode) z :
  ktreap (Node a v x h l r) ->
  In z (elems r) <-> In z (elems (Node a v x h l r)) /\ kc v z = true.
Proof. intros Tq. exact (Facts.treap_right_iff Hsp z Tq). Qed.

(** *** The node operations, over the two tables *)

Lemma key_split_ok s (q : keynode) key :
  Inv s -> klive (kt s) q -> ktreap q ->
  returns
    (MapNode.in_key_set_env
       (Internal.split (En := SetNode.set_env sp) q key)) s
    (fun ab s' =>
       klive (kt s') (fst ab) /\ klive (kt s') (snd ab)
       /\ ktreap (fst ab) /\ ktreap (snd ab)
       /\ (forall y, In y (elems (fst ab)) <->
                     In y (elems q) /\ kc y key = true)
       /\ (forall y, In y (elems (snd ab)) <->
                     In y (elems q) /\ kc y key = false)
       /\ (Internal.nodes (fst ab) <= Internal.nodes q)%nat
       /\ (Internal.nodes (snd ab) <= Internal.nodes q)%nat).
Proof.
  intros HI Lq Tq.
  eapply key_returns_weaken.
  { apply returns_key_set; [exact HI|].
    exact (Algo.split_ok Hsp SS q key (kt s) (proj1 HI) Lq Tq). }
  intros [s1 s2] s' _ _ _ (L1 & L2 & T1 & T2 & I1 & I2).
  cbn [fst snd] in *.
  repeat (split; [assumption|]). split.
  - apply (Facts.nodes_incl pr Hsp); [exact T1|].
    intros y Hy. apply I1 in Hy. tauto.
  - apply (Facts.nodes_incl pr Hsp); [exact T2|].
    intros y Hy. apply I2 in Hy. tauto.
Qed.

Lemma map_split_ok s (p : mapnode) key :
  Inv s -> live s p -> mtreap p ->
  returns (Internal.split (En := MapNode.map_env provider) p key) s
    (fun ab s' =>
       live s' (fst ab) /\ live s' (snd ab)
       /\ mtreap (fst ab) /\ mtreap (snd ab)
       /\ (forall y, In y (elems (fst ab)) <->
                     In y (elems p) /\ kc (fst y) key = true)
       /\ (forall y, In y (elems (snd ab)) <->
                     In y (elems p) /\ kc (fst y) key = false)
       /\ (Internal.nodes (fst ab) <= Internal.nodes p)%nat
       /\ (Internal.nodes (snd ab) <= Internal.nodes p)%nat).
Proof.
  intros HI Lp Tp.
  eapply key_returns_weaken.
  { apply returns_of_store.
    exact (Algo.split_ok MO (MS s) p key s
             (MapFacts.Inv_from_self provider s HI) Lp Tp). }
  intros [s1 s2] s' _ _ _ (L1 & L2 & T1 & T2 & I1 & I2).
  cbn [fst snd] in *.
  repeat (split; [assumption|]). split.
  - apply (Facts.nodes_incl pr MO); [exact T1|].
    intros y Hy. apply I1 in Hy. tauto.
  - apply (Facts.nodes_incl pr MO); [exact T2|].
    intros y Hy. apply I2 in Hy. tauto.
Qed.

Lemma map_join_ok s (p q : mapnode) :
  Inv s -> live s p -> live s q -> mtreap p -> mtreap q ->
  (forall x y, In x (elems p) -> In y (elems q) ->
               kc (fst x) (fst y) = true) ->
  returns (Internal.join (En := MapNode.map_env provider) p q) s
    (fun n s' =>
       live s' n /\ mtreap n
       /\ (forall y, In y (elems n) <-> In y (elems p) \/ In y (elems q))).
Proof.
  intros HI Lp Lq Tp Tq O. apply returns_of_store.
  exact (Algo.join_ok MO (MS s) p q s
           (MapFacts.Inv_from_self provider s HI) Lp Lq Tp Tq O).
Qed.

Lemma map_make_node_ok s a v kn h (l0 r0 l r : mapnode) :
  Inv s -> live s (Node a v kn h l0 r0) -> live s l -> live s r ->
  returns (MapNode.make_node_parent provider (Node a v kn h l0 r0) l r) s
    (fun n s' =>
       live s' n /\ exists a' x' h', n = Node a' v x' h' l r).
Proof.
  intros HI Lp Ll Lr. apply returns_of_store.
  exact (Algo.make_node_from_returns (MS s) s a v kn h l0 r0 l r
           (MapFacts.Inv_from_self provider s HI) Lp Ll Lr).
Qed.

(** *** Ranking a map node against a key node *)

Lemma key_rank_cases s a v kn h (l r : mapnode) a' v' x' h'
    (l' r' : keynode) :
  Inv s -> live s (Node a v kn h l r) ->
  klive (kt s) (Node a' v' x' h' l' r') ->
  let c := Internal.rank (En := SetNode.set_env sp)
             (MapNode.key_node_of (Node a v kn h l r))
             (Node a' v' x' h' l' r') in
  c = LEFT /\ bb (fst v) v' = true
  \/ c = RIGHT /\ bb v' (fst v) = true
  \/ c = SAME /\ fst v = v'.
Proof.
  intros HI Lp Lq c. subst c.
  pose proof (MapFacts.key_node_live provider s _ HI Lp) as Lk.
  destruct (CMapFacts.key_node_shape provider (kt s) s a v kn h l r
              (MapFacts.Inv_from_self provider s HI) Lp)
    as (_ & _ & ka & kx & kh & ->).
  cbn [MapNode.key_node_of] in *.
  rewrite (Algo.rank_live SS (kt s) _ _ _ _ _ _ _ _ _ _ _ _
             (proj1 HI) Lk Lq).
  exact (Facts.rank_keys_cases pr Hsp (fst v) v').
Qed.

Lemma key_ptr_eq s (p : mapnode) (q : keynode) :
  Inv s -> live s p -> klive (kt s) q ->
  Internal.ptr_eq (MapNode.key_node_of p) q = true ->
  elems q = map fst (elems p).
Proof.
  intros HI Lp Lq E.
  pose proof (MapFacts.key_node_live provider s _ HI Lp) as Lk.
  apply (Algo.ptr_eq_live SS (kt s) _ _ (proj1 HI) Lk Lq) in E.
  rewrite <- E.
  exact (CMapFacts.key_node_elems provider (kt s) s p
           (MapFacts.Inv_from_self provider s HI) Lp).
Qed.

(** *** [set_intersection] and [set_difference] with a key set *)

Local Ltac fuel_ok :=
  unfold MapNode.key_node, MapNode.map_node in *; lia.

Lemma set_intersection_keys_rec_ok fuel (p : mapnode) (q : keynode) s :
  Inv s -> live s p -> klive (kt s) q -> mtreap p -> ktreap q ->
  (Internal.nodes p + Internal.nodes q < fuel)%nat ->
  returns (MapNode.set_intersection_keys_rec provider fuel p q) s
    (fun n s' =>
       live s' n /\ mtreap n
       /\ (forall y, In y (elems n) <->
                     In y (elems p) /\ In (fst y) (elems q))).
Proof.
  revert p q s. induction fuel as [|fuel IH]; intros p q s HI Lp Lq Tp Tq Hf;
    [lia|].
  cbn [MapNode.set_intersection_keys_rec].
  match goal with
  | |- context [if ?b then _ else _] => destruct b eqn:E1
  end.
  { apply key_returns_ret; [assumption|]. split; [left; reflexivity|].
    split; [exact I|]. intros y. split; [intros []|].
    intros (H & Hz).
    apply orb_true_iff in E1. destruct E1 as [E1|E1].
    - destruct p; [destruct H|discriminate].
    - destruct q; [destruct Hz|discriminate]. }
  apply orb_false_iff in E1. destruct E1 as [E1 E2].
  match goal with
  | |- context [if ?b then _ else _] => destruct b eqn:E3
  end.
  { pose proof (key_ptr_eq s p q HI Lp Lq E3) as Eq.
    apply key_returns_ret; [assumption|]. split; [assumption|].
    split; [assumption|]. intros y. split; [|tauto].
    intros H. split; [assumption|]. rewrite Eq. apply in_map. exact H. }
  destruct p as [|a v e h l r]; [discriminate|].
  destruct q as [|a' v' e' h' l' r']; [discriminate|].
  destruct (Algo.st_children (MS s) s _ _ _ _ _ _
              (MapFacts.Inv_from_self provider s HI) Lp) as (Hl & Hr).
  destruct (Algo.st_children SS (kt s) _ _ _ _ _ _ (proj1 HI) Lq)
    as (Hl' & Hr').
  pose proof (mtreap_inv _ _ _ _ _ _ Tp) as (Tl & Tr' & Ll & Lr & Bl & Br).
  pose proof (ktreap_inv _ _ _ _ _ _ Tq)
    as (Tl' & Tr'' & Ll' & Lr' & Bl' & Br').
  cbn [Internal.nodes] in Hf.
  destruct (key_rank_cases s a v e h l r a' v' e' h' l' r' HI Lp Lq)
    as [(-> & B)|[(-> & B)|(-> & E)]].
  - (* LEFT *)
    eapply key_returns_bind; [apply (key_split_ok s _ (fst v) HI Lq Tq)|].
    intros [s1 s2] t1 HI1 X1 K1 (L1 & L2 & T1 & T2 & I1 & I2 & N1 & N2).
    cbn [fst snd Internal.nodes] in *.
    eapply key_returns_bind; [apply (IH l s1 t1); auto; fuel_ok|].
    intros a1 t2 HI2 X2 K2 (La & Ta & Ia).
    eapply key_returns_bind; [apply (IH r s2 t2); auto; fuel_ok|].
    intros b1 t3 HI3 X3 K3 (Lb & Tb & Ib).
    eapply key_returns_weaken.
    { apply map_join_ok; auto. intros x y Hx Hy.
      apply Ia in Hx. apply Ib in Hy.
      eapply kc_trans; [apply Ll|apply Lr]; tauto. }
    intros n t4 HI4 X4 K4 (Ln & Tn & In').
    split; [assumption|]. split; [assumption|].
    intros y. rewrite In', Ia, Ib, Facts.in_elems_node, I1, I2. split.
    + intros [(H & A)|(H & A)]; tauto.
    + intros ([H|[H|H]] & A).
      * left. split; [assumption|]. split; [assumption|]. auto.
      * subst y. exfalso. exact (ktreap_after_no_key _ _ _ _ _ _ _ Tq B A).
      * right. split; [assumption|]. split; [assumption|].
        apply kc_asym. auto.
  - (* RIGHT *)
    eapply key_returns_bind; [apply (map_split_ok s _ v' HI Lp Tp)|].
    intros [s1 s2] t1 HI1 X1 K1 (L1 & L2 & T1 & T2 & I1 & I2 & N1 & N2).
    cbn [fst snd Internal.nodes] in *.
    eapply key_returns_bind; [apply (IH s1 l' t1); auto; fuel_ok|].
    intros a1 t2 HI2 X2 K2 (La & Ta & Ia).
    eapply key_returns_bind; [apply (IH s2 r' t2); auto; fuel_ok|].
    intros b1 t3 HI3 X3 K3 (Lb & Tb & Ib).
    eapply key_returns_weaken.
    { apply map_join_ok; auto. intros x y Hx Hy.
      apply Ia in Hx. apply Ib in Hy.
      destruct Hx as (Hx & _). destruct Hy as (_ & Hz).
      apply I1 in Hx. apply Lr' in Hz.
      eapply kc_trans; [|exact Hz]. tauto. }
    intros n t4 HI4 X4 K4 (Ln & Tn & In').
    split; [assumption|]. split; [assumption|].
    intros y. rewrite In', Ia, Ib, I1, I2.
    rewrite (Facts.in_elems_node (fst y) a' v' e' h' l' r'). split.
    + intros [((H & C) & A)|((H & C) & A)]; tauto.
    + intros (H & [Hz|[Hz|Hz]]).
      * left. split; [|assumption]. split; [assumption|]. auto.
      * exfalso. exact (mtreap_after_no_key _ _ _ _ _ _ _ _ Tp B H Hz).
      * right. split; [|assumption]. split; [assumption|].
        apply kc_asym. auto.
  - (* SAME *)
    eapply key_returns_bind; [apply (IH l l' s); auto; fuel_ok|].
    intros a1 t2 HI2 X2 K2 (La & Ta & Ia).
    eapply key_returns_bind; [apply (IH r r' t2); auto; fuel_ok|].
    intros b1 t3 HI3 X3 K3 (Lb & Tb & Ib).
    eapply key_returns_weaken; [apply map_make_node_ok; auto|].
    intros n t4 HI4 X4 K4 (Ln & a2 & x2 & h2 & ->).
    split; [assumption|]. split.
    + apply mtreap_node; auto.
      * intros y Hy. apply Ia in Hy. apply Ll. tauto.
      * intros y Hy. apply Ib in Hy. apply Lr. tauto.
      * intros y Hy. apply Ia in Hy. apply Bl. tauto.
      * intros y Hy. apply Ib in Hy. apply Br. tauto.
    + intros y. rewrite (Facts.in_elems_node y a2 v x2 h2 a1 b1), Ia, Ib.
      rewrite (Facts.in_elems_node y a v e h l r).
      rewrite (Facts.in_elems_node (fst y) a' v' e' h' l' r'). split.
      * intros [(H & A)|[H|(H & A)]]; [tauto| |tauto].
        subst y. auto.
      * intros ([H|[H|H]] & A); auto.
        -- left. split; [assumption|].
           apply (ktreap_left_iff _ _ _ _ _ _ _ Tq).
           split; [apply Facts.in_elems_node; exact A|].
           rewrite <- E. auto.
        -- right. right. split; [assumption|].
           apply (ktreap_right_iff _ _ _ _ _ _ _ Tq).
           split; [apply Facts.in_elems_node; exact A|].
           rewrite <- E. auto.
Qed.


Lemma set_difference_keys_rec_ok fuel (p : mapnode) (q : keynode) s :
  Inv s -> live s p -> klive (kt s) q -> mtreap p -> ktreap q ->
  (Internal.nodes p + Internal.nodes q < fuel)%nat ->
  returns (MapNode.set_difference_keys_rec provider fuel p q) s
    (fun n s' =>
       live s' n /\ mtreap n
       /\ (forall y, In y (elems n) <->
                     In y (elems p) /\ ~ In (fst y) (elems q))).
Proof.
  revert p q s. induction fuel as [|fuel IH]; intros p q s HI Lp Lq Tp Tq Hf;
    [lia|].
  cbn [MapNode.set_difference_keys_rec].
  match goal with
  | |- context [if ?b then _ else _] => destruct b eqn:E1
  end.
  { apply key_returns_ret; [assumption|]. split; [left; reflexivity|].
    split; [exact I|]. intros y. split; [intros []|].
    intros (H & NA).
    apply orb_true_iff in E1. destruct E1 as [E1|E1].
    - destruct p; [destruct H|discriminate].
    - apply NA. rewrite (key_ptr_eq s p q HI Lp Lq E1).
      apply in_map. exact H. }
  apply orb_false_iff in E1. destruct E1 as [E1 E2].
  destruct q as [|a' v' e' h' l' r'].
  { cbn [Internal.is_null]. apply key_returns_ret; [assumption|].
    split; [assumption|]. split; [assumption|]. intros y. split; [|tauto].
    intros H. split; [assumption|]. intros []. }
  destruct p as [|a v e h l r]; [discriminate|].
  cbn [Internal.is_null]. cbv iota.
  destruct (Algo.st_children (MS s) s _ _ _ _ _ _
              (MapFacts.Inv_from_self provider s HI) Lp) as (Hl & Hr).
  destruct (Algo.st_children SS (kt s) _ _ _ _ _ _ (proj1 HI) Lq)
    as (Hl' & Hr').
  pose proof (mtreap_inv _ _ _ _ _ _ Tp) as (Tl & Tr' & Ll & Lr & Bl & Br).
  pose proof (ktreap_inv _ _ _ _ _ _ Tq)
    as (Tl' & Tr'' & Ll' & Lr' & Bl' & Br').
  cbn [Internal.nodes] in Hf.
  destruct (key_rank_cases s a v e h l r a' v' e' h' l' r' HI Lp Lq)
    as [(-> & B)|[(-> & B)|(-> & E)]].
  - (* LEFT *)
    eapply key_returns_bind; [apply (key_split_ok s _ (fst v) HI Lq Tq)|].
    intros [s1 s2] t1 HI1 X1 K1 (L1 & L2 & T1 & T2 & I1 & I2 & N1 & N2).
    cbn [fst snd Internal.nodes] in *.
    eapply key_returns_bind; [apply (IH l s1 t1); auto; fuel_ok|].
    intros a1 t2 HI2 X2 K2 (La & Ta & Ia).
    eapply key_returns_bind; [apply (IH r s2 t2); auto; fuel_ok|].
    intros b1 t3 HI3 X3 K3 (Lb & Tb & Ib).
    eapply key_returns_weaken; [apply map_make_node_ok; auto|].
    intros n t4 HI4 X4 K4 (Ln & a2 & x2 & h2 & ->).
    split; [assumption|]. split.
    + apply mtreap_node; auto.
      * intros y Hy. apply Ia in Hy. apply Ll. tauto.
      * intros y Hy. apply Ib in Hy. apply Lr. tauto.
      * intros y Hy. apply Ia in Hy. apply Bl. tauto.
      * intros y Hy. apply Ib in Hy. apply Br. tauto.
    + intros y. rewrite (Facts.in_elems_node y a2 v x2 h2 a1 b1), Ia, Ib.
      rewrite (Facts.in_elems_node y a v e h l r), I1, I2. split.
      * intros [(H & NA)|[H|(H & NA)]].
        -- split; [auto|]. intros A. apply NA. auto.
        -- subst y. split; [auto|].
           exact (ktreap_after_no_key _ _ _ _ _ _ _ Tq B).
        -- split; [auto|]. intros A. apply NA. split; [assumption|].
           apply kc_asym. auto.
      * intros ([H|[H|H]] & NA); auto.
        -- left. split; [assumption|]. tauto.
        -- right. right. split; [assumption|]. tauto.
  - (* RIGHT *)
    eapply key_returns_bind; [apply (map_split_ok s _ v' HI Lp Tp)|].
    intros [s1 s2] t1 HI1 X1 K1 (L1 & L2 & T1 & T2 & I1 & I2 & N1 & N2).
    cbn [fst snd Internal.nodes] in *.
    eapply key_returns_bind; [apply (IH s1 l' t1); auto; fuel_ok|].
    intros a1 t2 HI2 X2 K2 (La & Ta & Ia).
    eapply key_returns_bind; [apply (IH s2 r' t2); auto; fuel_ok|].
    intros b1 t3 HI3 X3 K3 (Lb & Tb & Ib).
    eapply key_returns_weaken.
    { apply map_join_ok; auto. intros x y Hx Hy.
      apply Ia in Hx. apply Ib in Hy.
      destruct Hx as (Hx & _). destruct Hy as (Hy & _).
      apply I1 in Hx. apply I2 in Hy.
      eapply kc_lt_nlt; [apply Hx|apply Hy]. }
    intros n t4 HI4 X4 K4 (Ln & Tn & In').
    split; [assumption|]. split; [assumption|].
    intros y. rewrite In', Ia, Ib, I1, I2.
    rewrite (Facts.in_elems_node (fst y) a' v' e' h' l' r'). split.
    + intros [((H & C) & NA)|((H & C) & NA)]; (split; [auto|]);
        intros [Hz|[Hz|Hz]].
      * auto.
      * rewrite Hz, kc_irrefl in C. discriminate.
      * apply Lr' in Hz. rewrite (kc_asym _ _ Hz) in C. discriminate.
      * apply Ll' in Hz. congruence.
      * exact (mtreap_after_no_key _ _ _ _ _ _ _ _ Tp B H Hz).
      * auto.
    + intros (H & NA).
      destruct (kc (fst y) v') eqn:C.
      * left. split; [auto|]. tauto.
      * right. split; [auto|]. tauto.
  - (* SAME *)
    eapply key_returns_bind; [apply (IH l l' s); auto; fuel_ok|].
    intros a1 t2 HI2 X2 K2 (La & Ta & Ia).
    eapply key_returns_bind; [apply (IH r r' t2); auto; fuel_ok|].
    intros b1 t3 HI3 X3 K3 (Lb & Tb & Ib).
    eapply key_returns_weaken.
    { apply map_join_ok; auto. intros x y Hx Hy.
      apply Ia in Hx. apply Ib in Hy.
      eapply kc_trans; [apply Ll|apply Lr]; tauto. }
    intros n t4 HI4 X4 K4 (Ln & Tn & In').
    split; [assumption|]. split; [assumption|].
    intros y. rewrite In', Ia, Ib.
    rewrite (Facts.in_elems_node y a v e h l r). split.
    + intros [(H & NA)|(H & NA)]; (split; [auto|]); intros A; apply NA.
      * apply (ktreap_left_iff _ _ _ _ _ _ _ Tq). split; [exact A|].
        rewrite <- E. auto.
      * apply (ktreap_right_iff _ _ _ _ _ _ _ Tq). split; [exact A|].
        rewrite <- E. auto.
    + intros ([H|[H|H]] & NA).
      * left. split; [assumption|]. intros A. apply NA.
        apply Facts.in_elems_node. auto.
      * subst y. exfalso. apply NA. rewrite E.
        apply Facts.in_elems_node. auto.
      * right. split; [assumption|]. intros A. apply NA.
        apply Facts.in_elems_node. auto.
Qed.

Lemma set_intersection_keys_ok (p : mapnode) (q : keynode) s :
  Inv s -> live s p -> klive (kt s) q -> mtreap p -> ktreap q ->
  returns (MapNode.set_intersection_keys provider p q) s
    (fun n s' =>
       live s' n /\ mtreap n
       /\ (forall y, In y (elems n) <->
                     In y (elems p) /\ In (fst y) (elems q))).
Proof.
  intros HI Lp Lq Tp Tq. unfold MapNode.set_intersection_keys.
  apply set_intersection_keys_rec_ok; auto.
Qed.

Lemma set_difference_keys_ok (p : mapnode) (q : keynode) s :
  Inv s -> live s p -> klive (kt s) q -> mtreap p -> ktreap q ->
  returns (MapNode.set_difference_keys provider p q) s
    (fun n s' =>
       live s' n /\ mtreap n
       /\ (forall y, In y (elems n) <->
                     In y (elems p) /\ ~ In (fst y) (elems q))).
Proof.
  intros HI Lp Lq Tp Tq. unfold MapNode.set_difference_keys.
  apply set_difference_keys_rec_ok; auto.
Qed.

End Priority.

(** *** The methods of [map] that take a key set *)

Section Methods.

(** Identities of the provider object and of its set provider. *)
Variable id : nat.
Variable set_id : nat.

Local Notation "'valid'" := (MapSpec.valid provider id).
Local Notation "'kvalid'" := (SetSpec.valid sp set_id).
Local Notation "'els' m" := (elems (CMap.node_ m)) (at level 10).
Local Notation "'kels' m" := (elems (CSet.node_ m)) (at level 10).
Local Notation "'pr'" := (SetSpec.prio sp).
Local Notation "'SS'" := (SetFacts.set_store_ok sp (proj1 Hprov)).

Lemma map_store_prio k0 :
  @Spec.store_ok K (K * T) (node K set_fields) (@MapNode.state K T)
    MapNode.map_traits (MapNode.map_env provider) pr
    (MapSpec.Inv_from provider k0) live.
Proof.
  rewrite <- (CMapFacts.map_prio_eq provider).
  exact (MapFacts.map_store_from_ok provider Hprov k0).
Qed.

Lemma map_treap_prio (p : mapnode) :
  MapSpec.treap provider p
  <-> @Spec.treap K (K * T) (node K set_fields) (@MapNode.state K T)
        MapNode.map_traits (MapNode.map_env provider) pr p.
Proof.
  unfold MapSpec.treap. rewrite (CMapFacts.map_prio_eq provider).
  reflexivity.
Qed.

Lemma map_valid_live s s' (a : CMap.map K T) :
  (forall q, live s q -> live s' q) -> valid s a -> valid s' a.
Proof. intros X (Pa & L & Ta). split; [exact Pa|]. split; auto. Qed.

Lemma map_intersection_keys_ok s (a : CMap.map K T) (b : CSet.set K) :
  Inv s -> valid s a -> kvalid (kt s) b ->
  returns
    (MapNode.set_intersection_keys provider (CMap.node_ a) (CSet.node_ b)) s
    (fun n s' =>
       valid s' (CMap.with_node a n)
       /\ (forall y, In y (elems n) <->
                     In y (els a) /\ In (fst y) (kels b))).
Proof.
  intros HI (Pa & La & Ta) (Pb & Lb & Tb).
  pose proof (proj1 (map_treap_prio _) Ta) as Ta'.
  eapply key_returns_weaken;
    [exact (set_intersection_keys_ok pr SS map_store_prio _ _ s
              HI La Lb Ta' Tb)|].
  intros n s' _ _ _ (Ln & Tn & In'). split; [|exact In'].
  split; [exact Pa|]. split; [exact Ln|].
  exact (proj2 (map_treap_prio n) Tn).
Qed.

Lemma map_difference_keys_ok s (a : CMap.map K T) (b : CSet.set K) :
  Inv s -> valid s a -> kvalid (kt s) b ->
  returns
    (MapNode.set_difference_keys provider (CMap.node_ a) (CSet.node_ b)) s
    (fun n s' =>
       valid s' (CMap.with_node a n)
       /\ (forall y, In y (elems n) <->
                     In y (els a) /\ ~ In (fst y) (kels b))).
Proof.
  intros HI (Pa & La & Ta) (Pb & Lb & Tb).
  pose proof (proj1 (map_treap_prio _) Ta) as Ta'.
  eapply key_returns_weaken;
    [exact (set_difference_keys_ok pr SS map_store_prio _ _ s
              HI La Lb Ta' Tb)|].
  intros n s' _ _ _ (Ln & Tn & In'). split; [|exact In'].
  split; [exact Pa|]. split; [exact Ln|].
  exact (proj2 (map_treap_prio n) Tn).
Qed.

Lemma check_key_set_valid t (a : CMap.map K T) (b : CSet.set K) :
  kvalid t b -> CMap.check_key_set set_id a b = true.
Proof.
  intros (Pb & _). unfold CMap.check_key_set. rewrite Pb.
  apply Nat.eqb_refl.
Qed.

(** [operator&] and [operator-]: the elements whose key is, or is not, an
    element of the key set. *)
Lemma intersection_key_set_spec s (a : CMap.map K T) (b : CSet.set K) :
  Inv s -> valid s a -> kvalid (kt s) b ->
  returns (CMap.intersection_key_set provider set_id a b) s
    (fun r s' =>
       valid s' r
       /\ (forall y, In y (els r) <-> In y (els a) /\ In (fst y) (kels b))).
Proof.
  intros HI Va Vb. unfold CMap.intersection_key_set.
  rewrite (check_key_set_valid _ a b Vb).
  eapply key_returns_bind; [exact (map_intersection_keys_ok s a b HI Va Vb)|].
  intros n s' HI' _ _ (Vn & In'). apply key_returns_ret; [exact HI'|].
  split; [exact Vn|exact In'].
Qed.

Lemma difference_key_set_spec s (a : CMap.map K T) (b : CSet.set K) :
  Inv s -> valid s a -> kvalid (kt s) b ->
  returns (CMap.difference_key_set provider set_id a b) s
    (fun r s' =>
       valid s' r
       /\ (forall y, In y (els r) <->
                     In y (els a) /\ ~ In (fst y) (kels b))).
Proof.
  intros HI Va Vb. unfold CMap.difference_key_set.
  rewrite (check_key_set_valid _ a b Vb).
  eapply key_returns_bind; [exact (map_difference_keys_ok s a b HI Va Vb)|].
  intros n s' HI' _ _ (Vn & In'). apply key_returns_ret; [exact HI'|].
  split; [exact Vn|exact In'].
Qed.

(** [retain] and [erase] with a key set: the same contents, and the number
    of elements removed. *)
Lemma intersect_keys_ok s (a : CMap.map K T) (b : CSet.set K) :
  Inv s -> valid s a -> kvalid (kt s) b ->
  returns (MapNode.intersect_keys provider (CMap.node_ a) (CSet.node_ b)) s
    (fun r s' =>
       valid s' (CMap.with_node a (snd r))
       /\ (forall y, In y (elems (snd r)) <->
                     In y (els a) /\ In (fst y) (kels b))
       /\ fst r = Word.sub (Internal.size (CMap.node_ a))
                    (Internal.size (snd r))).
Proof.
  intros HI Va Vb. unfold MapNode.intersect_keys. cbv zeta.
  eapply key_returns_bind; [exact (map_intersection_keys_ok s a b HI Va Vb)|].
  intros n s' HI' _ _ (Vn & In'). apply key_returns_ret; [exact HI'|].
  cbn [fst snd]. split; [exact Vn|]. split; [exact In'|reflexivity].
Qed.

Lemma retain_key_set_spec s (a : CMap.map K T) (b : CSet.set K) :
  Inv s -> valid s a -> kvalid (kt s) b ->
  returns (CMap.retain_key_set provider set_id a b) s
    (fun r s' =>
       valid s' (snd r)
       /\ (forall y, In y (els (snd r)) <->
                     In y (els a) /\ In (fst y) (kels b))
       /\ fst r = Word.sub (CMap.size a) (CMap.size (snd r))).
Proof.
  intros HI Va Vb. unfold CMap.retain_key_set.
  rewrite (check_key_set_valid _ a b Vb).
  eapply key_returns_bind; [exact (intersect_keys_ok s a b HI Va Vb)|].
  intros [c n] s' HI' _ _ (Vn & In' & E). cbn [fst snd] in *.
  apply key_returns_ret; [exact HI'|]. cbn [fst snd].
  split; [exact Vn|]. split; [exact In'|exact E].
Qed.

Lemma diff_keys_ok s (a : CMap.map K T) (b : CSet.set K) :
  Inv s -> valid s a -> kvalid (kt s) b ->
  returns (MapNode.diff_keys provider (CMap.node_ a) (CSet.node_ b)) s
    (fun r s' =>
       valid s' (CMap.with_node a (snd r))
       /\ (forall y, In y (elems (snd r)) <->
                     In y (els a) /\ ~ In (fst y) (kels b))
       /\ fst r = Word.sub (Internal.size (CMap.node_ a))
                    (Internal.size (snd r))).
Proof.
  intros HI Va Vb. unfold MapNode.diff_keys. cbv zeta.
  eapply key_returns_bind; [exact (map_difference_keys_ok s a b HI Va Vb)|].
  intros n s' HI' _ _ (Vn & In'). apply key_returns_ret; [exact HI'|].
  cbn [fst snd]. split; [exact Vn|]. split; [exact In'|reflexivity].
Qed.

Lemma erase_key_set_spec s (a : CMap.map K T) (b : CSet.set K) :
  Inv s -> valid s a -> kvalid (kt s) b ->
  returns (CMap.erase_key_set provider set_id a b) s
    (fun r s' =>
       valid s' (snd r)
       /\ (forall y, In y (els (snd r)) <->
                     In y (els a) /\ ~ In (fst y) (kels b))
       /\ fst r = Word.sub (CMap.size a) (CMap.size (snd r))).
Proof.
  intros HI Va Vb. unfold CMap.erase_key_set.
  rewrite (check_key_set_valid _ a b Vb).
  eapply key_returns_bind; [exact (diff_keys_ok s a b HI Va Vb)|].
  intros [c n] s' HI' _ _ (Vn & In' & E). cbn [fst snd] in *.
  apply key_returns_ret; [exact HI'|]. cbn [fst snd].
  split; [exact Vn|]. split; [exact In'|exact E].
Qed.

(** [operator&=] and [operator-=] with a key set. *)
Lemma intersection_key_set_assign_spec s (a : CMap.map K T)
    (b : CSet.set K) :
  Inv s -> valid s a -> kvalid (kt s) b ->
  returns (CMap.intersection_key_set_assign provider set_id a b) s
    (fun r s' =>
       valid s' r
       /\ (forall y, In y (els r) <-> In y (els a) /\ In (fst y) (kels b))).
Proof.
  intros HI Va Vb. unfold CMap.intersection_key_set_assign.
  rewrite (check_key_set_valid _ a b Vb).
  eapply key_returns_bind; [exact (retain_key_set_spec s a b HI Va Vb)|].
  intros [c m] s' HI' _ _ (Vm & In' & _). apply key_returns_ret; [exact HI'|].
  split; [exact Vm|exact In'].
Qed.

Lemma difference_key_set_assign_spec s (a : CMap.map K T)
    (b : CSet.set K) :
  Inv s -> valid s a -> kvalid (kt s) b ->
  returns (CMap.difference_key_set_assign provider set_id a b) s
    (fun r s' =>
       valid s' r
       /\ (forall y, In y (els r) <->
                     In y (els a) /\ ~ In (fst y) (kels b))).
Proof.
  intros HI Va Vb. unfold CMap.difference_key_set_assign.
  rewrite (check_key_set_valid _ a b Vb).
  eapply key_returns_bind; [exact (erase_key_set_spec s a b HI Va Vb)|].
  intros [c m] s' HI' _ _ (Vm & In' & _). apply key_returns_ret; [exact HI'|].
  split; [exact Vm|exact In'].
Qed.

End Methods.

End KeyMergeFacts.

End KeyMergeFacts.
(** * Programs keep the invariants *)

Module WorldFacts.

Import Spec.

Section WorldFacts.

Context {K T : Type}.

Variable provider : map_provider K T.

#[local] Existing Instance SetNode.set_traits.
#[local] Existing Instance MapNode.map_traits.

Hypothesis Hprov : MapSpec.provider_ok provider.

Local Notation "'sp'" := (set_provider_ provider).
Local Notation "'world'" := (@World.world K T).
Local Notation "'ok'" := (WorldSpec.ok provider).
Local Notation "'set_valid'" := (SetSpec.valid sp World.set_provider_id).
Local Notation "'map_valid'" :=
  (MapSpec.valid provider World.map_provider_id).
Local Notation "'set_returns'" :=
  (Spec.returns (SetSpec.Inv sp) (@SetSpec.live K)).
Local Notation "'map_returns' k0" :=
  (Spec.returns (MapSpec.Inv_from provider k0) (@MapSpec.live K T))
  (at level 10, k0 at level 9).
Local Notation "'key_table_of' w" := (MapNode.key_table (World.state w))
  (at level 10, w at level 9).

Lemma ok_init : ok World.init.
Proof.
  split; [apply MapFacts.Inv_empty|]. split; constructor.
Qed.

Lemma Forall_set_update (P : CSet.set K -> Prop) st i f :
  Forall P st ->
  (forall s, nth_error st i = Some s -> P s -> P (f s)) ->
  Forall P (CSet.update st i f).
Proof.
  intros F H. unfold CSet.update.
  destruct (nth_error st i) as [s|] eqn:E; [|exact F].
  pose proof (proj1 (Forall_forall P st) F) as F'.
  apply Forall_app. split.
  - apply Forall_forall. intros x Hx. apply F'.
    exact (Facts.in_firstn _ _ _ Hx).
  - constructor.
    + apply (H s eq_refl). apply F'. exact (nth_error_In _ _ E).
    + apply Forall_forall. intros x Hx. apply F'.
      exact (Facts.in_skipn _ _ _ Hx).
Qed.

Lemma Forall_map_update (P : CMap.map K T -> Prop) st i f :
  Forall P st ->
  (forall s, nth_error st i = Some s -> P s -> P (f s)) ->
  Forall P (CMap.update st i f).
Proof.
  intros F H. unfold CMap.update.
  destruct (nth_error st i) as [s|] eqn:E; [|exact F].
  pose proof (proj1 (Forall_forall P st) F) as F'.
  apply Forall_app. split.
  - apply Forall_forall. intros x Hx. apply F'.
    exact (Facts.in_firstn _ _ _ Hx).
  - constructor.
    + apply (H s eq_refl). apply F'. exact (nth_error_In _ _ E).
    + apply Forall_forall. intros x Hx. apply F'.
      exact (Facts.in_skipn _ _ _ Hx).
Qed.

Lemma Forall_nth {A} (P : A -> Prop) l i x :
  Forall P l -> nth_error l i = Some x -> P x.
Proof.
  intros F E. exact (proj1 (Forall_forall P l) F x (nth_error_In _ _ E)).
Qed.

Lemma Forall_snoc {A} (P : A -> Prop) l x :
  Forall P l -> P x -> Forall P (l ++ [x]).
Proof. intros F H. apply Forall_app. split; [exact F|]. auto. Qed.

(** Assignment and swap keep the sets of one provider valid. *)
Lemma set_assign_valid t i j st st' :
  Forall (set_valid t) st -> CSet.assign i j st = Some st' ->
  Forall (set_valid t) st'.
Proof.
  intros F. unfold CSet.assign.
  destruct (nth_error st i) as [a|]; [|discriminate].
  destruct (nth_error st j) as [b|]; [|discriminate].
  assert (F1 : Forall (set_valid t) (CSet.update st i CSet.clear)).
  { apply Forall_set_update; [exact F|]. intros s _.
    apply CSetFacts.clear_valid. }
  destruct (nth_error (CSet.update st i CSet.clear) j) as [o|] eqn:E1;
    [|discriminate].
  pose proof (Forall_nth _ _ _ _ F1 E1) as (Po & _).
  match goal with
  | |- match nth_error ?l _ with _ => _ end = _ -> _ =>
      assert (F2 : Forall (set_valid t) l)
  end.
  { apply Forall_set_update; [exact F1|]. intros s _ (_ & Ls & Ts).
    split; [exact Po|]. split; assumption. }
  match goal with
  | |- match ?x with _ => _ end = _ -> _ => destruct x as [o'|] eqn:E2
  end; [|discriminate].
  pose proof (Forall_nth _ _ _ _ F2 E2) as (_ & Lo & To).
  intros E. injection E as <-.
  apply Forall_set_update; [exact F2|]. intros s _ (Ps & _).
  split; [exact Ps|]. split; assumption.
Qed.

Lemma set_swap_valid t i j st st' :
  Forall (set_valid t) st -> CSet.swap i j st = Some st' ->
  Forall (set_valid t) st'.
Proof.
  intros F. unfold CSet.swap.
  destruct (nth_error st i) as [a|] eqn:Ea; [|discriminate].
  destruct (nth_error st j) as [b|] eqn:Eb; [|discriminate].
  pose proof (Forall_nth _ _ _ _ F Ea) as (Pa & La & Ta).
  pose proof (Forall_nth _ _ _ _ F Eb) as (Pb & Lb & Tb).
  intros E. injection E as <-.
  apply Forall_set_update;
    [|intros s _ (Ps & _); split; [exact Ps|split; assumption]].
  apply Forall_set_update;
    [|intros s _ (Ps & _); split; [exact Ps|split; assumption]].
  apply Forall_set_update;
    [|intros s _ (_ & Ls & Ts); split; [exact Pa|split; assumption]].
  apply Forall_set_update;
    [|intros s _ (_ & Ls & Ts); split; [exact Pb|split; assumption]].
  exact F.
Qed.

Lemma map_assign_valid s i j st st' :
  Forall (map_valid s) st -> CMap.assign i j st = Some st' ->
  Forall (map_valid s) st'.
Proof.
  intros F. unfold CMap.assign.
  destruct (nth_error st i) as [a|]; [|discriminate].
  destruct (nth_error st j) as [b|]; [|discriminate].
  assert (F1 : Forall (map_valid s) (CMap.update st i CMap.clear)).
  { apply Forall_map_update; [exact F|]. intros m _.
    apply CMapFacts.map_clear_valid. }
  destruct (nth_error (CMap.update st i CMap.clear) j) as [o|] eqn:E1;
    [|discriminate].
  pose proof (Forall_nth _ _ _ _ F1 E1) as (Po & _).
  match goal with
  | |- match nth_error ?l _ with _ => _ end = _ -> _ =>
      assert (F2 : Forall (map_valid s) l)
  end.
  { apply Forall_map_update; [exact F1|]. intros m _ (_ & Ls & Ts).
    split; [exact Po|]. split; assumption. }
  match goal with
  | |- match ?x with _ => _ end = _ -> _ => destruct x as [o'|] eqn:E2
  end; [|discriminate].
  pose proof (Forall_nth _ _ _ _ F2 E2) as (_ & Lo & To).
  intros E. injection E as <-.
  apply Forall_map_update; [exact F2|]. intros m _ (Ps & _).
  split; [exact Ps|]. split; assumption.
Qed.

Lemma map_swap_valid s i j st st' :
  Forall (map_valid s) st -> CMap.swap i j st = Some st' ->
  Forall (map_valid s) st'.
Proof.
  intros F. unfold CMap.swap.
  destruct (nth_error st i) as [a|] eqn:Ea; [|discriminate].
  destruct (nth_error st j) as [b|] eqn:Eb; [|discriminate].
  pose proof (Forall_nth _ _ _ _ F Ea) as (Pa & La & Ta).
  pose proof (Forall_nth _ _ _ _ F Eb) as (Pb & Lb & Tb).
  intros E. injection E as <-.
  apply Forall_map_update;
    [|intros m _ (Ps & _); split; [exact Ps|split; assumption]].
  apply Forall_map_update;
    [|intros m _ (Ps & _); split; [exact Ps|split; assumption]].
  apply Forall_map_update;
    [|intros m _ (_ & Ls & Ts); split; [exact Pa|split; assumption]].
  apply Forall_map_update;
    [|intros m _ (_ & Ls & Ts); split; [exact Pb|split; assumption]].
  exact F.
Qed.

(** *** One step *)

Lemma set_step_ok {A} (w : world) i
    (c : M (@SetNode.table K) (A * CSet.set K)) w' :
  ok w ->
  set_returns c (key_table_of w) (fun r t' => set_valid t' (snd r)) ->
  World.set_step w i c = Some w' -> ok w'.
Proof.
  intros (HI & Fs & Fm) ([a s] & t' & E & HI' & X & V) S.
  unfold World.set_step, MapNode.in_key_set_env in S. rewrite E in S.
  injection S as <-. cbn [snd] in V.
  split; [|split];
    cbn [World.state World.sets World.maps MapNode.key_table MapNode.table].
  - split; [exact HI'|].
    cbn [World.state World.sets World.maps MapNode.key_table MapNode.table].
    eapply TableFacts.table_inv_fields; [|exact (proj2 HI)].
    intros n _. apply MapFacts.fields_ok_mono; assumption.
  - assert (F : Forall (set_valid t') (World.sets w)).
    { eapply Forall_impl; [|exact Fs]. intros x.
      apply CSetFacts.valid_mono, X. }
    destruct i as [i|];
      [apply Forall_set_update; auto|apply Forall_snoc; auto].
  - exact Fm.
Qed.

Lemma map_step_ok {A} (w : world) i
    (c : M (@MapNode.state K T) (A * CMap.map K T)) w' :
  ok w ->
  map_returns (key_table_of w) c (World.state w)
    (fun r s' => map_valid s' (snd r)) ->
  World.map_step w i c = Some w' -> ok w'.
Proof.
  intros (HI & Fs & Fm) ([a m] & s' & E & (HI' & HK) & X & V) S.
  unfold World.map_step in S. rewrite E in S.
  injection S as <-. cbn [snd] in V.
  split; [|split]; cbn [World.state World.sets World.maps].
  - exact HI'.
  - eapply Forall_impl; [|exact Fs]. intros x.
    apply CSetFacts.valid_mono, HK.
  - assert (F : Forall (map_valid s') (World.maps w)).
    { eapply Forall_impl; [|exact Fm]. intros x.
      apply CMapFacts.map_valid_mono, X. }
    destruct i as [i|];
      [apply Forall_map_update; auto|apply Forall_snoc; auto].
Qed.

Lemma unit_of_returns {St V X A} (Inv : St -> Prop)
    (live : St -> node V X -> Prop) (c : M St A) s (Q : A -> St -> Prop) :
  Spec.returns Inv live c s Q ->
  Spec.returns Inv live (World.unit_of c) s (fun r s' => Q (snd r) s').
Proof.
  intros (a & s' & E & HI & X' & H). exists (tt, a), s'.
  unfold World.unit_of, bind, ret. rewrite E. auto.
Qed.

(** *** Every command keeps the world well formed *)

Local Ltac lookups E :=
  repeat match type of E with
         | match nth_error ?l ?i with _ => _ end = _ =>
             let a := fresh "a" in
             let Ea := fresh "Ea" in
             destruct (nth_error l i) as [a|] eqn:Ea; [|discriminate]
         end.

Local Ltac first_valid := intros ? ? ? ? H; apply H.

Local Ltac set_op Hok E L :=
  eapply set_step_ok; [exact Hok| |exact E];
  eapply Algo.returns_weaken; [eapply L; eassumption|first_valid].

Local Ltac set_operator Hok E L :=
  eapply set_step_ok; [exact Hok| |exact E];
  apply unit_of_returns
    with (Q := fun a t' =>
                 SetSpec.valid (set_provider_ provider)
                   World.set_provider_id t' a);
  eapply Algo.returns_weaken; [eapply L; eassumption|first_valid].

Local Ltac map_op Hok E L :=
  eapply map_step_ok; [exact Hok| |exact E];
  eapply Algo.returns_weaken; [eapply L; eassumption|first_valid].

Local Ltac map_operator Hok E L :=
  eapply map_step_ok; [exact Hok| |exact E];
  apply unit_of_returns
    with (Q := fun a s' =>
                 MapSpec.valid provider World.map_provider_id s' a);
  eapply Algo.returns_weaken; [eapply L; eassumption|first_valid].

Local Ltac range_case E C unfolder :=
  match type of E with
  | World.set_step _ _ (_ _ ?a ?f ?l) = _ =>
      destruct (CSet.check_range a f l) eqn:C;
      [|unfold unfolder in E; rewrite C in E;
        unfold World.set_step, MapNode.in_key_set_env, fail in E;
        discriminate]
  end.

Local Ltac map_range_case E C unfolder :=
  match type of E with
  | World.map_step _ _ (_ _ ?a ?f ?l) = _ =>
      destruct (CMap.check_range a f l) eqn:C;
      [|unfold unfolder in E; rewrite C in E;
        unfold World.map_step, fail in E; discriminate]
  end.

Local Ltac key_op Hok E L :=
  eapply map_step_ok; [exact Hok| |exact E];
  apply KeyMergeFacts.store_of_returns;
  eapply KeyMergeFacts.key_returns_weaken;
  [eapply L; eassumption|intros ? ? ? ? ? H; apply H].

Local Ltac key_operator Hok E L :=
  eapply map_step_ok; [exact Hok| |exact E];
  apply unit_of_returns
    with (Q := fun a s' =>
                 MapSpec.valid provider World.map_provider_id s' a);
  apply KeyMergeFacts.store_of_returns;
  eapply KeyMergeFacts.key_returns_weaken;
  [eapply L; eassumption|intros ? ? ? ? ? H; apply H].

Theorem exec_ok c w w' :
  ok w -> World.exec provider c w = Some w' -> ok w'.
Proof.
  intros Hok E. pose proof Hok as (HI & Fs & Fm).
  pose proof (proj1 Hprov) as Hsp. pose proof (proj1 HI) as HIs.
  pose proof (MapFacts.Inv_from_self provider (World.state w) HI) as HIf.
  unfold World.exec in E. destruct c; cbv zeta beta in E; lookups E;
    repeat match goal with
           | Ea : nth_error (World.sets w) _ = Some _ |- _ =>
               let V := fresh "V" in
               pose proof (Forall_nth _ _ _ _ Fs Ea) as V; revert Ea
           | Ea : nth_error (World.maps w) _ = Some _ |- _ =>
               let V := fresh "V" in
               pose proof (Forall_nth _ _ _ _ Fm Ea) as V; revert Ea
           end; intros.
  - (* SNew *)
    injection E as <-. split; [exact HI|]. split; [|exact Fm].
    apply Forall_snoc; [exact Fs|apply CSetFacts.new_valid].
  - (* SCopy *)
    injection E as <-. split; [exact HI|]. split; [|exact Fm].
    apply Forall_snoc; assumption.
  - (* SFromRange *)
    set_operator Hok E
      (CSetFacts.from_range_spec sp World.set_provider_id Hsp).
  - (* SFromIterators *)
    range_case E C @CSet.retain_range.
    set_op Hok E (CSetFacts.retain_range_spec sp World.set_provider_id Hsp).
  - (* SInsert *)
    set_op Hok E (CSetFacts.insert_spec sp World.set_provider_id Hsp).
  - (* SInsertRange *)
    set_op Hok E (CSetFacts.insert_range_spec sp World.set_provider_id Hsp).
  - (* SInsertSet *)
    set_op Hok E (CSetFacts.insert_set_spec sp World.set_provider_id Hsp).
  - (* SErase *)
    set_op Hok E (CSetFacts.erase_spec sp World.set_provider_id Hsp).
  - (* SEraseRange *)
    range_case E C @CSet.erase_range.
    set_op Hok E (CSetFacts.erase_range_spec sp World.set_provider_id Hsp).
  - (* SEraseSet *)
    set_op Hok E (CSetFacts.erase_set_spec sp World.set_provider_id Hsp).
  - (* SRetainRange *)
    range_case E C @CSet.retain_range.
    set_op Hok E (CSetFacts.retain_range_spec sp World.set_provider_id Hsp).
  - (* SRetainSet *)
    set_op Hok E (CSetFacts.retain_set_spec sp World.set_provider_id Hsp).
  - (* SClear *)
    injection E as <-. split; [exact HI|]. split; [|exact Fm].
    apply Forall_set_update; [exact Fs|]. intros s _.
    apply CSetFacts.clear_valid.
  - (* SSwap *)
    destruct (CSet.swap i j (World.sets w)) as [st|] eqn:S;
      [|discriminate].
    injection E as <-. split; [exact HI|]. split; [|exact Fm].
    exact (set_swap_valid _ _ _ _ _ Fs S).
  - (* SAssign *)
    destruct (CSet.assign i j (World.sets w)) as [st|] eqn:S;
      [|discriminate].
    injection E as <-. split; [exact HI|]. split; [|exact Fm].
    exact (set_assign_valid _ _ _ _ _ Fs S).
  - (* SAssignList *)
    set_operator Hok E
      (CSetFacts.assign_list_spec sp World.set_provider_id Hsp).
  - set_operator Hok E (CSetFacts.union_spec sp World.set_provider_id Hsp).
  - set_operator Hok E
      (CSetFacts.union_assign_spec sp World.set_provider_id Hsp).
  - set_operator Hok E
      (CSetFacts.intersection_spec sp World.set_provider_id Hsp).
  - set_operator Hok E
      (CSetFacts.intersection_assign_spec sp World.set_provider_id Hsp).
  - set_operator Hok E
      (CSetFacts.difference_spec sp World.set_provider_id Hsp).
  - set_operator Hok E
      (CSetFacts.difference_assign_spec sp World.set_provider_id Hsp).
  - set_operator Hok E
      (CSetFacts.symmetric_spec sp World.set_provider_id Hsp).
  - set_operator Hok E
      (CSetFacts.symmetric_assign_spec sp World.set_provider_id Hsp).
  - (* MNew *)
    injection E as <-. split; [exact HI|]. split; [exact Fs|].
    apply Forall_snoc; [exact Fm|apply CMapFacts.map_new_valid].
  - (* MCopy *)
    injection E as <-. split; [exact HI|]. split; [exact Fs|].
    apply Forall_snoc; assumption.
  - map_op Hok E
      (CMapFacts.map_insert_spec provider World.map_provider_id
         (key_table_of w) Hprov).
  - map_op Hok E
      (CMapFacts.insert_map_spec provider World.map_provider_id
         (key_table_of w) Hprov).
  - map_op Hok E
      (CMapFacts.insert_or_assign_spec provider World.map_provider_id
         (key_table_of w) Hprov).
  - map_op Hok E
      (CMapFacts.insert_or_assign_map_spec provider World.map_provider_id
         (key_table_of w) Hprov).
  - map_op Hok E
      (CMapFacts.map_erase_spec provider World.map_provider_id
         (key_table_of w) Hprov).
  - map_op Hok E
      (CMapFacts.erase_map_spec provider World.map_provider_id
         (key_table_of w) Hprov).
  - map_op Hok E
      (CMapFacts.retain_map_spec provider World.map_provider_id
         (key_table_of w) Hprov).
  - (* MClear *)
    injection E as <-. split; [exact HI|]. split; [exact Fs|].
    apply Forall_map_update; [exact Fm|]. intros s _.
    apply CMapFacts.map_clear_valid.
  - (* MSwap *)
    destruct (CMap.swap i j (World.maps w)) as [st|] eqn:S;
      [|discriminate].
    injection E as <-. split; [exact HI|]. split; [exact Fs|].
    exact (map_swap_valid _ _ _ _ _ Fm S).
  - (* MAssign *)
    destruct (CMap.assign i j (World.maps w)) as [st|] eqn:S;
      [|discriminate].
    injection E as <-. split; [exact HI|]. split; [exact Fs|].
    exact (map_assign_valid _ _ _ _ _ Fm S).
  - map_operator Hok E
      (CMapFacts.map_union_spec provider World.map_provider_id
         (key_table_of w) Hprov).
  - map_operator Hok E
      (CMapFacts.map_intersection_spec provider World.map_provider_id
         (key_table_of w) Hprov).
  - map_operator Hok E
      (CMapFacts.map_difference_spec provider World.map_provider_id
         (key_table_of w) Hprov).
  - (* MKeySet *)
    injection E as <-. split; [exact HI|]. split; [|exact Fm].
    apply Forall_snoc; [exact Fs|].
    exact (proj1 (CMapFacts.key_set_spec provider World.map_provider_id
                    World.set_provider_id (key_table_of w)
                    (World.state w) _ HIf V)).
  - (* SIncludes *)
    set_op Hok E (CSetFacts.includes_observed sp World.set_provider_id Hsp).
  - (* MFromRange *)
    map_operator Hok E
      (CMapFacts.map_from_range_spec provider World.map_provider_id
         (key_table_of w) Hprov).
  - (* MFromIterators *)
    map_range_case E C @CMap.retain_range.
    map_op Hok E
      (CMapFacts.map_retain_range_spec provider World.map_provider_id
         (key_table_of w) Hprov).
  - (* MInsertRange *)
    map_op Hok E
      (CMapFacts.map_insert_range_spec provider World.map_provider_id
         (key_table_of w) Hprov).
  - (* MInsertOrAssignRange *)
    map_op Hok E
      (CMapFacts.insert_or_assign_range_spec provider World.map_provider_id
         (key_table_of w) Hprov).
  - (* MAssignList *)
    map_operator Hok E
      (CMapFacts.map_assign_list_spec provider World.map_provider_id
         (key_table_of w) Hprov).
  - (* MEraseValue *)
    map_op Hok E
      (CMapFacts.map_erase_value_returns provider World.map_provider_id
         (key_table_of w) Hprov).
  - (* MEraseRange *)
    map_range_case E C @CMap.erase_range.
    map_op Hok E
      (CMapFacts.map_erase_range_spec provider World.map_provider_id
         (key_table_of w) Hprov).
  - (* MRetainRange *)
    map_range_case E C @CMap.retain_range.
    map_op Hok E
      (CMapFacts.map_retain_range_spec provider World.map_provider_id
         (key_table_of w) Hprov).
  - (* MEraseKeySet *)
    key_op Hok E
      (KeyMergeFacts.erase_key_set_spec provider Hprov
         World.map_provider_id World.set_provider_id).
  - (* MRetainKeySet *)
    key_op Hok E
      (KeyMergeFacts.retain_key_set_spec provider Hprov
         World.map_provider_id World.set_provider_id).
  - (* MUnionAssign *)
    map_operator Hok E
      (CMapFacts.map_union_assign_spec provider World.map_provider_id
         (key_table_of w) Hprov).
  - (* MIntersectionAssign *)
    map_operator Hok E
      (CMapFacts.map_intersection_assign_spec provider World.map_provider_id
         (key_table_of w) Hprov).
  - (* MDifferenceAssign *)
    map_operator Hok E
      (CMapFacts.map_difference_assign_spec provider World.map_provider_id
         (key_table_of w) Hprov).
  - (* MIntersectionKeySet *)
    key_operator Hok E
      (KeyMergeFacts.intersection_key_set_spec provider Hprov
         World.map_provider_id World.set_provider_id).
  - (* MDifferenceKeySet *)
    key_operator Hok E
      (KeyMergeFacts.difference_key_set_spec provider Hprov
         World.map_provider_id World.set_provider_id).
  - (* MIntersectionKeySetAssign *)
    key_operator Hok E
      (KeyMergeFacts.intersection_key_set_assign_spec provider Hprov
         World.map_provider_id World.set_provider_id).
  - (* MDifferenceKeySetAssign *)
    key_operator Hok E
      (KeyMergeFacts.difference_key_set_assign_spec provider Hprov
         World.map_provider_id World.set_provider_id).
  - (* MIncludes *)
    map_op Hok E
      (CMapFacts.map_includes_observed provider World.map_provider_id
         (key_table_of w) Hprov).
Qed.

Theorem run_ok prog w w' :
  ok w -> World.run provider prog w = Some w' -> ok w'.
Proof.
  revert w. induction prog as [|c prog IH]; intros w Hok E; cbn in E.
  - injection E as <-. exact Hok.
  - destruct (World.exec provider c w) as [w1|] eqn:E1; [|discriminate].
    exact (IH w1 (exec_ok c w w1 Hok E1) E).
Qed.

Theorem reachable_ok w : WorldSpec.reachable provider w -> ok w.
Proof. intros (prog & E). exact (run_ok prog World.init w ok_init E). Qed.

End WorldFacts.

End WorldFacts.
(** * Facts about the containers of a program *)

Module ProgramFacts.

Import Spec.

Section ProgramFacts.

Context {K T : Type}.

Variable provider : map_provider K T.

#[local] Existing Instance SetNode.set_traits.
#[local] Existing Instance MapNode.map_traits.

Hypothesis Hprov : MapSpec.provider_ok provider.

Variable prog : list (@World.command K T).
Variable w : @World.world K T.

Hypothesis Hrun : World.run provider prog World.init = Some w.

Local Notation "'sp'" := (set_provider_ provider).
Local Notation "'key_table_of' w" := (MapNode.key_table (World.state w))
  (at level 10, w at level 9).

Lemma world_ok : WorldSpec.ok provider w.
Proof.
  apply (WorldFacts.reachable_ok provider Hprov). exists prog. exact Hrun.
Qed.

Lemma set_table_ok : SetSpec.Inv sp (key_table_of w).
Proof. exact (proj1 (proj1 world_ok)). Qed.

Lemma map_state_ok :
  MapSpec.Inv_from provider (key_table_of w) (World.state w).
Proof. apply MapFacts.Inv_from_self. exact (proj1 world_ok). Qed.

Lemma set_in_world i a :
  nth_error (World.sets w) i = Some a ->
  SetSpec.valid sp World.set_provider_id (key_table_of w) a.
Proof.
  intros E. exact (WorldFacts.Forall_nth _ _ _ _ (proj1 (proj2 world_ok)) E).
Qed.

Lemma map_in_world i a :
  nth_error (World.maps w) i = Some a ->
  MapSpec.valid provider World.map_provider_id (World.state w) a.
Proof.
  intros E. exact (WorldFacts.Forall_nth _ _ _ _ (proj2 (proj2 world_ok)) E).
Qed.

End ProgramFacts.

End ProgramFacts.

(** * The providers of the demonstration program *)

Module DemoFacts.

Lemma set_of_int_ok : SetSpec.provider_ok Demo.set_of_int.
Proof.
  constructor; cbn [compare equal SetNode.set_env Demo.set_of_int key_comp
                      key_eq].
  - intros x. apply Z.ltb_irrefl.
  - intros x y z H1 H2. apply Z.ltb_lt in H1, H2. apply Z.ltb_lt. lia.
  - intros x y H1 H2. apply Z.ltb_ge in H1, H2. lia.
  - intros x y. apply Z.eqb_eq.
Qed.

Lemma map_of_int_ok : MapSpec.provider_ok Demo.map_of_int.
Proof.
  split; [exact set_of_int_ok|]. intros x y. apply Z.eqb_eq.
Qed.

End DemoFacts.
(** * The properties of the specification *)

(** C1 (canonical form).  Two sets, or two maps, of a program hold the same
    multiset of elements exactly when their root pointers are the same
    address; [operator==] is the one comparison of the two root addresses,
    and it returns true exactly when the contents are equal. *)
Theorem C1_canonical_form {K T : Type} (provider : map_provider K T)
    (prog : list World.command) (w : World.world) (i j : nat)
    (a b : CSet.set K) (mi mj : nat) (ma mb : CMap.map K T) :
  MapSpec.provider_ok provider ->
  World.run provider prog World.init = Some w ->
  nth_error (World.sets w) i = Some a ->
  nth_error (World.sets w) j = Some b ->
  nth_error (World.maps w) mi = Some ma ->
  nth_error (World.maps w) mj = Some mb ->
  (Permutation (Spec.elems (CSet.node_ a)) (Spec.elems (CSet.node_ b))
   <-> Internal.address (CSet.node_ a) = Internal.address (CSet.node_ b))
  /\ CSet.eq a b
     = Some (Nat.eqb (Internal.address (CSet.node_ a))
               (Internal.address (CSet.node_ b)))
  /\ (CSet.eq a b = Some true
      <-> Permutation (Spec.elems (CSet.node_ a))
            (Spec.elems (CSet.node_ b)))
  /\ (Permutation (Spec.elems (CMap.node_ ma)) (Spec.elems (CMap.node_ mb))
      <-> Internal.address (CMap.node_ ma)
          = Internal.address (CMap.node_ mb))
  /\ CMap.eq ma mb
     = Nat.eqb (Internal.address (CMap.node_ ma))
         (Internal.address (CMap.node_ mb))
  /\ (CMap.eq ma mb = true
      <-> Permutation (Spec.elems (CMap.node_ ma))
            (Spec.elems (CMap.node_ mb))).
Proof.
  intros Hprov Hrun Ea Eb Ema Emb.
  pose proof (ProgramFacts.set_table_ok provider Hprov prog w Hrun) as HIs.
  pose proof (ProgramFacts.map_state_ok provider Hprov prog w Hrun) as HIm.
  pose proof (ProgramFacts.set_in_world provider Hprov prog w Hrun i a Ea)
    as Va.
  pose proof (ProgramFacts.set_in_world provider Hprov prog w Hrun j b Eb)
    as Vb.
  pose proof (ProgramFacts.map_in_world provider Hprov prog w Hrun mi ma Ema)
    as Vma.
  pose proof (ProgramFacts.map_in_world provider Hprov prog w Hrun mj mb Emb)
    as Vmb.
  pose proof (CSetFacts.perm_address (set_provider_ provider) _
                (proj1 Hprov) _ a b HIs Va Vb) as Ps.
  pose proof (CMapFacts.map_perm_address provider _ _ Hprov _ ma mb HIm
                Vma Vmb) as Pm.
  assert (Es : CSet.eq a b
               = Some (Nat.eqb (Internal.address (CSet.node_ a))
                         (Internal.address (CSet.node_ b)))).
  { unfold CSet.eq.
    rewrite (CSetFacts.check_valid (set_provider_ provider) _ _ a b Va Vb).
    reflexivity. }
  split; [exact Ps|]. split; [exact Es|]. split.
  { rewrite Es, Ps. split.
    - intros E. injection E as E. apply Nat.eqb_eq, E.
    - intros E. rewrite (proj2 (Nat.eqb_eq _ _) E). reflexivity. }
  split; [exact Pm|]. split; [reflexivity|].
  rewrite Pm. unfold CMap.eq, Internal.ptr_eq. apply Nat.eqb_eq.
Qed.

Lemma C1_canonical_form_witness :
  MapSpec.provider_ok Demo.map_of_int
  /\ World.run Demo.map_of_int Demo.merge_program World.init
     = Some Demo.merge_world
  /\ nth_error (World.sets Demo.merge_world) 1 = Some (Demo.merged_set 1)
  /\ nth_error (World.sets Demo.merge_world) 3 = Some (Demo.merged_set 3)
  /\ nth_error (World.maps Demo.merge_world) 0 = Some (Demo.merged_map 0)
  /\ nth_error (World.maps Demo.merge_world) 1 = Some (Demo.merged_map 1)
  /\ nth_error (World.maps Demo.merge_world) 2 = Some (Demo.merged_map 2)
  /\ (CSet.eq (Demo.merged_set 1) (Demo.merged_set 3) = Some true
      <-> Permutation (Spec.elems (CSet.node_ (Demo.merged_set 1)))
            (Spec.elems (CSet.node_ (Demo.merged_set 3))))
  /\ (Permutation (Spec.elems (CMap.node_ (Demo.merged_map 0)))
        (Spec.elems (CMap.node_ (Demo.merged_map 2)))
      <-> Internal.address (CMap.node_ (Demo.merged_map 0))
          = Internal.address (CMap.node_ (Demo.merged_map 2)))
  /\ (CMap.eq (Demo.merged_map 0) (Demo.merged_map 2) = true
      <-> Permutation (Spec.elems (CMap.node_ (Demo.merged_map 0)))
            (Spec.elems (CMap.node_ (Demo.merged_map 2))))
  /\ CMap.eq (Demo.merged_map 0) (Demo.merged_map 2) = true
  /\ (CMap.eq (Demo.merged_map 0) (Demo.merged_map 1) = true
      <-> Permutation (Spec.elems (CMap.node_ (Demo.merged_map 0)))
            (Spec.elems (CMap.node_ (Demo.merged_map 1))))
  /\ CMap.eq (Demo.merged_map 0) (Demo.merged_map 1) = false.
Proof.
  assert (R : World.run Demo.map_of_int Demo.merge_program World.init
              = Some Demo.merge_world) by (vm_compute; reflexivity).
  assert (E1 : nth_error (World.sets Demo.merge_world) 1
               = Some (Demo.merged_set 1)) by reflexivity.
  assert (E3 : nth_error (World.sets Demo.merge_world) 3
               = Some (Demo.merged_set 3)) by reflexivity.
  assert (M0 : nth_error (World.maps Demo.merge_world) 0
               = Some (Demo.merged_map 0)) by reflexivity.
  assert (M1 : nth_error (World.maps Demo.merge_world) 1
               = Some (Demo.merged_map 1)) by reflexivity.
  assert (M2 : nth_error (World.maps Demo.merge_world) 2
               = Some (Demo.merged_map 2)) by reflexivity.
  pose proof (C1_canonical_form Demo.map_of_int Demo.merge_program
                Demo.merge_world 1 3 (Demo.merged_set 1)
                (Demo.merged_set 3) 0 2 (Demo.merged_map 0)
                (Demo.merged_map 2) DemoFacts.map_of_int_ok R E1 E3 M0 M2)
    as (_ & _ & Hs & Ha & _ & Hm).
  pose proof (C1_canonical_form Demo.map_of_int Demo.merge_program
                Demo.merge_world 1 3 (Demo.merged_set 1)
                (Demo.merged_set 3) 0 1 (Demo.merged_map 0)
                (Demo.merged_map 1) DemoFacts.map_of_int_ok R E1 E3 M0 M1)
    as (_ & _ & _ & _ & _ & Hn).
  split; [exact DemoFacts.map_of_int_ok|]. split; [exact R|].
  split; [exact E1|]. split; [exact E3|]. split; [exact M0|].
  split; [exact M1|]. split; [exact M2|].
  split; [exact Hs|]. split; [exact Ha|]. split; [exact Hm|].
  split; [reflexivity|]. split; [exact Hn|reflexivity].
Defined.

(** C2 (merge laws).  For sets [a], [b], [c] of a program, evaluating both
    sides of each law and comparing them with [operator==] returns true:
    [a | a == a], [a & a == a], [a - a] and [a ^ a] are empty; [|], [&] and
    [^] are commutative and associative; [a & (b | c) == (a & b) | (a & c)]
    and [a - (b | c) == (a - b) & (a - c)]. *)
Theorem C2_merge_laws {K T : Type} (provider : map_provider K T)
    (prog : list World.command) (w : World.world) (i j k : nat)
    (a b c : CSet.set K) :
  MapSpec.provider_ok provider ->
  World.run provider prog World.init = Some w ->
  nth_error (World.sets w) i = Some a ->
  nth_error (World.sets w) j = Some b ->
  nth_error (World.sets w) k = Some c ->
  let sp := set_provider_ provider in
  let t := MapNode.key_table (World.state w) in
  yields (x <- CSet.union sp a a ;; ret (CSet.eq x a)) t (Some true)
  /\ yields (x <- CSet.intersection sp a a ;; ret (CSet.eq x a)) t
       (Some true)
  /\ yields (x <- CSet.difference sp a a ;; ret (CSet.empty x)) t true
  /\ yields (x <- CSet.symmetric sp a a ;; ret (CSet.empty x)) t true
  /\ yields (x <- CSet.union sp a b ;;
             y <- CSet.union sp b a ;;
             ret (CSet.eq x y)) t (Some true)
  /\ yields (x <- CSet.intersection sp a b ;;
             y <- CSet.intersection sp b a ;;
             ret (CSet.eq x y)) t (Some true)
  /\ yields (x <- CSet.symmetric sp a b ;;
             y <- CSet.symmetric sp b a ;;
             ret (CSet.eq x y)) t (Some true)
  /\ yields (x <- CSet.union sp a b ;;
             x' <- CSet.union sp x c ;;
             y <- CSet.union sp b c ;;
             y' <- CSet.union sp a y ;;
             ret (CSet.eq x' y')) t (Some true)
  /\ yields (x <- CSet.intersection sp a b ;;
             x' <- CSet.intersection sp x c ;;
             y <- CSet.intersection sp b c ;;
             y' <- CSet.intersection sp a y ;;
             ret (CSet.eq x' y')) t (Some true)
  /\ yields (x <- CSet.symmetric sp a b ;;
             x' <- CSet.symmetric sp x c ;;
             y <- CSet.symmetric sp b c ;;
             y' <- CSet.symmetric sp a y ;;
             ret (CSet.eq x' y')) t (Some true)
  /\ yields (x <- CSet.union sp b c ;;
             x' <- CSet.intersection sp a x ;;
             y <- CSet.intersection sp a b ;;
             z <- CSet.intersection sp a c ;;
             y' <- CSet.union sp y z ;;
             ret (CSet.eq x' y')) t (Some true)
  /\ yields (x <- CSet.union sp b c ;;
             x' <- CSet.difference sp a x ;;
             y <- CSet.difference sp a b ;;
             z <- CSet.difference sp a c ;;
             y' <- CSet.intersection sp y z ;;
             ret (CSet.eq x' y')) t (Some true).
Proof.
  intros Hprov Hrun Ea Eb Ec sp t.
  pose proof (ProgramFacts.set_table_ok provider Hprov prog w Hrun) as HI.
  pose proof (ProgramFacts.set_in_world provider Hprov prog w Hrun i a Ea)
    as Va.
  pose proof (ProgramFacts.set_in_world provider Hprov prog w Hrun j b Eb)
    as Vb.
  pose proof (ProgramFacts.set_in_world provider Hprov prog w Hrun k c Ec)
    as Vc.
  pose proof (proj1 Hprov) as Hsp.
  split; [exact (CSetFacts.union_idempotent sp _ Hsp t a HI Va)|].
  split; [exact (CSetFacts.intersection_idempotent sp _ Hsp t a HI Va)|].
  split; [exact (CSetFacts.difference_self sp _ Hsp t a HI Va)|].
  split; [exact (CSetFacts.symmetric_self sp _ Hsp t a HI Va)|].
  split; [exact (CSetFacts.union_commutative sp _ Hsp t a b HI Va Vb)|].
  split;
    [exact (CSetFacts.intersection_commutative sp _ Hsp t a b HI Va Vb)|].
  split; [exact (CSetFacts.symmetric_commutative sp _ Hsp t a b HI Va Vb)|].
  split; [exact (CSetFacts.union_associative sp _ Hsp t a b c HI Va Vb Vc)|].
  split;
    [exact (CSetFacts.intersection_associative sp _ Hsp t a b c HI Va Vb
              Vc)|].
  split;
    [exact (CSetFacts.symmetric_associative sp _ Hsp t a b c HI Va Vb Vc)|].
  split;
    [exact (CSetFacts.intersection_distributes sp _ Hsp t a b c HI Va Vb
              Vc)|].
  exact (CSetFacts.difference_of_union sp _ Hsp t a b c HI Va Vb Vc).
Qed.

Lemma C2_merge_laws_witness :
  MapSpec.provider_ok Demo.map_of_int
  /\ World.run Demo.map_of_int Demo.program World.init = Some Demo.world
  /\ nth_error (World.sets Demo.world) 0 = Some (Demo.set_at 0)
  /\ nth_error (World.sets Demo.world) 1 = Some (Demo.set_at 1)
  /\ nth_error (World.sets Demo.world) 2 = Some (Demo.set_at 2)
  /\ yields
       (x <- CSet.union Demo.set_of_int (Demo.set_at 1) (Demo.set_at 2) ;;
        x' <- CSet.difference Demo.set_of_int (Demo.set_at 0) x ;;
        y <- CSet.difference Demo.set_of_int (Demo.set_at 0)
               (Demo.set_at 1) ;;
        z <- CSet.difference Demo.set_of_int (Demo.set_at 0)
               (Demo.set_at 2) ;;
        y' <- CSet.intersection Demo.set_of_int y z ;;
        ret (CSet.eq x' y'))
       (MapNode.key_table (World.state Demo.world)) (Some true).
Proof.
  assert (R : World.run Demo.map_of_int Demo.program World.init
              = Some Demo.world) by (vm_compute; reflexivity).
  assert (E0 : nth_error (World.sets Demo.world) 0 = Some (Demo.set_at 0))
    by reflexivity.
  assert (E1 : nth_error (World.sets Demo.world) 1 = Some (Demo.set_at 1))
    by reflexivity.
  assert (E2 : nth_error (World.sets Demo.world) 2 = Some (Demo.set_at 2))
    by reflexivity.
  split; [exact DemoFacts.map_of_int_ok|]. split; [exact R|].
  split; [exact E0|]. split; [exact E1|]. split; [exact E2|].
  exact (proj2 (proj2 (proj2 (proj2 (proj2 (proj2 (proj2 (proj2 (proj2
           (proj2 (proj2
              (C2_merge_laws Demo.map_of_int Demo.program Demo.world 0 1 2
                 (Demo.set_at 0) (Demo.set_at 1) (Demo.set_at 2)
                 DemoFacts.map_of_int_ok R E0 E1 E2)))))))))))).
Defined.

(** C3 ([includes]).  For sets [a] and [b] of a program, [a.includes(b)]
    returns, and it returns true exactly when [(b - a).size()] is 0, that
    is, when every element of [b] is in [a]; when [size(a) < size(b)] it
    returns false at once, leaving the provider as it was. *)
Theorem C3_includes {K T : Type} (provider : map_provider K T)
    (prog : list World.command) (w : World.world) (i j : nat)
    (a b : CSet.set K) :
  MapSpec.provider_ok provider ->
  World.run provider prog World.init = Some w ->
  nth_error (World.sets w) i = Some a ->
  nth_error (World.sets w) j = Some b ->
  (exists r t1 d t2,
     CSet.includes (set_provider_ provider) a b
       (MapNode.key_table (World.state w)) = Some (r, t1)
     /\ CSet.difference (set_provider_ provider) b a t1 = Some (d, t2)
     /\ (r = true <-> CSet.size d = 0)
     /\ (r = true
         <-> forall y, In y (Spec.elems (CSet.node_ b)) ->
                       In y (Spec.elems (CSet.node_ a))))
  /\ (CSet.size a < CSet.size b ->
      CSet.includes (set_provider_ provider) a b
        (MapNode.key_table (World.state w))
      = Some (false, MapNode.key_table (World.state w))).
Proof.
  intros Hprov Hrun Ea Eb.
  pose proof (ProgramFacts.set_table_ok provider Hprov prog w Hrun) as HI.
  pose proof (ProgramFacts.set_in_world provider Hprov prog w Hrun i a Ea)
    as Va.
  pose proof (ProgramFacts.set_in_world provider Hprov prog w Hrun j b Eb)
    as Vb.
  split.
  - exact (CSetFacts.includes_difference _ _ (proj1 Hprov) _ a b HI Va Vb).
  - exact (CSetFacts.includes_smaller _ _ (proj1 Hprov) _ a b HI Va Vb).
Qed.

Lemma C3_includes_witness :
  MapSpec.provider_ok Demo.map_of_int
  /\ World.run Demo.map_of_int Demo.program World.init = Some Demo.world
  /\ nth_error (World.sets Demo.world) 2 = Some (Demo.set_at 2)
  /\ nth_error (World.sets Demo.world) 0 = Some (Demo.set_at 0)
  /\ (CSet.size (Demo.set_at 2) < CSet.size (Demo.set_at 0) ->
      CSet.includes Demo.set_of_int (Demo.set_at 2) (Demo.set_at 0)
        (MapNode.key_table (World.state Demo.world))
      = Some (false, MapNode.key_table (World.state Demo.world))).
Proof.
  assert (R : World.run Demo.map_of_int Demo.program World.init
              = Some Demo.world) by (vm_compute; reflexivity).
  assert (E2 : nth_error (World.sets Demo.world) 2 = Some (Demo.set_at 2))
    by reflexivity.
  assert (E0 : nth_error (World.sets Demo.world) 0 = Some (Demo.set_at 0))
    by reflexivity.
  split; [exact DemoFacts.map_of_int_ok|]. split; [exact R|].
  split; [exact E2|]. split; [exact E0|].
  exact (proj2 (C3_includes Demo.map_of_int Demo.program Demo.world 2 0
                  (Demo.set_at 2) (Demo.set_at 0) DemoFacts.map_of_int_ok R
                  E2 E0)).
Defined.

(** C4 (treap shape).  Every set and every map of a program has an
    ascending in-order traversal (I1), and at every node the priority is at
    most the priority of each child and the node ranks before each child in
    the order on priority and then key (I2). *)
Theorem C4_treap_shape {K T : Type} (provider : map_provider K T)
    (prog : list World.command) (w : World.world) :
  MapSpec.provider_ok provider ->
  World.run provider prog World.init = Some w ->
  Forall (fun s => SetSpec.shape (set_provider_ provider) (CSet.node_ s))
    (World.sets w)
  /\ Forall (fun m => MapSpec.shape provider (CMap.node_ m)) (World.maps w).
Proof.
  intros Hprov Hrun.
  pose proof (ProgramFacts.world_ok provider Hprov prog w Hrun)
    as (HI & Fs & Fm).
  split.
  - eapply Forall_impl; [|exact Fs]. intros s Vs.
    exact (CSetFacts.valid_shape _ _ (proj1 Hprov) _ s (proj1 HI) Vs).
  - eapply Forall_impl; [|exact Fm]. intros m Vm.
    exact (CMapFacts.map_valid_shape provider _ _ Hprov _ m
             (MapFacts.Inv_from_self provider _ HI) Vm).
Qed.

Lemma C4_treap_shape_witness :
  MapSpec.provider_ok Demo.map_of_int
  /\ World.run Demo.map_of_int Demo.merge_program World.init
     = Some Demo.merge_world
  /\ length (World.sets Demo.merge_world) = 5%nat
  /\ length (World.maps Demo.merge_world) = 21%nat
  /\ Forall (fun s => SetSpec.shape Demo.set_of_int (CSet.node_ s))
       (World.sets Demo.merge_world)
  /\ Forall (fun m => MapSpec.shape Demo.map_of_int (CMap.node_ m))
       (World.maps Demo.merge_world).
Proof.
  assert (R : World.run Demo.map_of_int Demo.merge_program World.init
              = Some Demo.merge_world) by (vm_compute; reflexivity).
  split; [exact DemoFacts.map_of_int_ok|]. split; [exact R|].
  split; [reflexivity|]. split; [reflexivity|].
  exact (C4_treap_shape Demo.map_of_int Demo.merge_program Demo.merge_world
           DemoFacts.map_of_int_ok R).
Defined.

(** C5 ([map::at]).  For a map [m] of a program and a key [k]: when [m]
    holds an element with key [k], [m.at(k)] returns its mapped value, which
    is the only one; when it holds none, [m.at(k)] is the exception
    [out_of_range]; and a value it returns is the mapped value of an
    element of [m]. *)
Theorem C5_map_at {K T : Type} (provider : map_provider K T)
    (prog : list World.command) (w : World.world) (i : nat)
    (m : CMap.map K T) (k : K) :
  MapSpec.provider_ok provider ->
  World.run provider prog World.init = Some w ->
  nth_error (World.maps w) i = Some m ->
  (forall v, In (k, v) (Spec.elems (CMap.node_ m)) ->
             CMap.at_ provider m k = inr v)
  /\ ((forall v, ~ In (k, v) (Spec.elems (CMap.node_ m))) ->
      CMap.at_ provider m k = inl out_of_range)
  /\ (forall v, CMap.at_ provider m k = inr v ->
                In (k, v) (Spec.elems (CMap.node_ m)))
  /\ (forall v v', In (k, v) (Spec.elems (CMap.node_ m)) ->
                   In (k, v') (Spec.elems (CMap.node_ m)) -> v = v').
Proof.
  intros Hprov Hrun Em.
  pose proof (ProgramFacts.map_in_world provider Hprov prog w Hrun i m Em)
    as Vm.
  destruct (CMapFacts.at_spec provider _ Hprov _ m k Vm) as (F & N).
  assert (N' : (forall v, ~ In (k, v) (Spec.elems (CMap.node_ m))) ->
               CMap.at_ provider m k = inl out_of_range).
  { intros H. apply N. intros H'.
    apply CMapFacts.map_has_key in H'.
    destruct H' as (v & Hv). exact (H v Hv). }
  split; [exact F|]. split; [exact N'|]. split.
  - intros v E.
    destruct (CMapFacts.map_key_dec provider Hprov (CMap.node_ m) k)
      as [H|H].
    + apply CMapFacts.map_has_key in H. destruct H as (v' & Hv').
      rewrite (F v' Hv') in E. injection E as <-. exact Hv'.
    + rewrite (N H) in E. discriminate.
  - intros v v' Hv Hv'. pose proof (F v Hv) as E.
    rewrite (F v' Hv') in E. injection E as ->. reflexivity.
Qed.

Lemma C5_map_at_witness :
  MapSpec.provider_ok Demo.map_of_int
  /\ World.run Demo.map_of_int Demo.program World.init = Some Demo.world
  /\ nth_error (World.maps Demo.world) 0 = Some (Demo.map_at 0)
  /\ CMap.at_ Demo.map_of_int (Demo.map_at 0) 2 = inr 21
  /\ CMap.at_ Demo.map_of_int (Demo.map_at 0) 7 = inl out_of_range.
Proof.
  assert (R : World.run Demo.map_of_int Demo.program World.init
              = Some Demo.world) by (vm_compute; reflexivity).
  assert (M0 : nth_error (World.maps Demo.world) 0 = Some (Demo.map_at 0))
    by reflexivity.
  split; [exact DemoFacts.map_of_int_ok|]. split; [exact R|].
  split; [exact M0|]. split.
  - apply (proj1 (C5_map_at Demo.map_of_int Demo.program Demo.world 0
                    (Demo.map_at 0) 2 DemoFacts.map_of_int_ok R M0)).
    vm_compute. auto.
  - apply (proj1 (proj2 (C5_map_at Demo.map_of_int Demo.program Demo.world
                           0 (Demo.map_at 0) 7 DemoFacts.map_of_int_ok R
                           M0))).
    intros v. vm_compute. intros [H|[H|[]]]; discriminate.
Defined.

(** C6 (element operations of a set).  For a set [s] of a program:
    [s.insert(v)] returns 1 and adds [v] when [v] was not an element, and
    returns 0 and leaves [s] as it was otherwise; [s.erase(k)] returns 1 and
    removes [k] when it was an element, and returns 0 and leaves [s] as it
    was otherwise; inserting a range or another set gives the union and
    returns the number of elements by which the set grew; [clear()] leaves
    the set empty. *)
Theorem C6_set_element_operations {K T : Type} (provider : map_provider K T)
    (prog : list World.command) (w : World.world) (i j : nat)
    (s other : CSet.set K) (v k : K) (l : list K) :
  MapSpec.provider_ok provider ->
  World.run provider prog World.init = Some w ->
  nth_error (World.sets w) i = Some s ->
  nth_error (World.sets w) j = Some other ->
  Z.of_nat (length l) < Word.modulus - 1 ->
  let sp := set_provider_ provider in
  let t := MapNode.key_table (World.state w) in
  let els := fun x : CSet.set K => Spec.elems (CSet.node_ x) in
  (exists n s' t',
     CSet.insert sp s v t = Some ((n, s'), t')
     /\ (forall y, In y (els s') <-> In y (els s) \/ y = v)
     /\ (~ In v (els s) -> n = 1)
     /\ (In v (els s) -> n = 0 /\ s' = s))
  /\ (exists n s' t',
        CSet.erase sp s k t = Some ((n, s'), t')
        /\ (forall y, In y (els s') <-> In y (els s) /\ y <> k)
        /\ (In k (els s) -> n = 1)
        /\ (~ In k (els s) -> n = 0 /\ s' = s))
  /\ (exists n s' t',
        CSet.insert_range sp s l t = Some ((n, s'), t')
        /\ (forall y, In y (els s') <-> In y (els s) \/ In y l)
        /\ n = Word.wrap (Z.of_nat (length (els s') - length (els s)))
        /\ (Z.of_nat (length (els s')) < Word.modulus ->
            n = Z.of_nat (length (els s') - length (els s))))
  /\ (exists n s' t',
        CSet.insert_set sp s other t = Some ((n, s'), t')
        /\ (forall y, In y (els s') <-> In y (els s) \/ In y (els other))
        /\ n = Word.wrap (Z.of_nat (length (els s') - length (els s)))
        /\ (Z.of_nat (length (els s')) < Word.modulus ->
            n = Z.of_nat (length (els s') - length (els s))))
  /\ els (CSet.clear s) = []
  /\ CSet.empty (CSet.clear s) = true.
Proof.
  intros Hprov Hrun Es Eo Hlen sp t els.
  pose proof (ProgramFacts.set_table_ok provider Hprov prog w Hrun) as HI.
  pose proof (ProgramFacts.set_in_world provider Hprov prog w Hrun i s Es)
    as Vs.
  pose proof (ProgramFacts.set_in_world provider Hprov prog w Hrun j other
                Eo) as Vo.
  pose proof (proj1 Hprov) as Hsp.
  assert (Small : forall n m : nat,
            Z.of_nat n < Word.modulus ->
            Word.wrap (Z.of_nat (n - m)) = Z.of_nat (n - m)).
  { intros n m H. apply WordFacts.wrap_small. lia. }
  split; [|split; [|split; [|split; [|split]]]].
  - destruct (CSetFacts.insert_spec sp _ Hsp t s v HI Vs)
      as ([n s'] & t' & E & _ & _ & _ & I1 & H0 & H1).
    exists n, s', t'. cbn [fst snd] in *. auto.
  - destruct (CSetFacts.erase_spec sp _ Hsp t s k HI Vs)
      as ([n s'] & t' & E & _ & _ & _ & I1 & H1 & H0).
    exists n, s', t'. cbn [fst snd] in *. auto.
  - destruct (CSetFacts.insert_range_spec sp _ Hsp t s l HI Vs)
      as ([n s'] & t' & E & _ & _ & _ & _ & I1 & En & _).
    exists n, s', t'. cbn [fst snd] in *.
    split; [exact E|]. split; [exact (I1 Hlen)|]. split; [exact En|].
    intros H. rewrite En. apply Small, H.
  - destruct (CSetFacts.insert_set_spec sp _ Hsp t s other HI Vs Vo)
      as ([n s'] & t' & E & _ & _ & _ & I1 & En & _).
    exists n, s', t'. cbn [fst snd] in *.
    split; [exact E|]. split; [exact I1|]. split; [exact En|].
    intros H. rewrite En. apply Small, H.
  - apply CSetFacts.clear_empty.
  - apply CSetFacts.empty_spec. intros y.
    unfold els. rewrite CSetFacts.clear_empty. intros [].
Qed.

Lemma C6_set_element_operations_witness :
  MapSpec.provider_ok Demo.map_of_int
  /\ World.run Demo.map_of_int Demo.program World.init = Some Demo.world
  /\ nth_error (World.sets Demo.world) 0 = Some (Demo.set_at 0)
  /\ nth_error (World.sets Demo.world) 1 = Some (Demo.set_at 1)
  /\ Z.of_nat (length [4; 8; 4]) < Word.modulus - 1
  /\ (exists n s' t',
        CSet.insert_range Demo.set_of_int (Demo.set_at 0) [4; 8; 4]
          (MapNode.key_table (World.state Demo.world)) = Some ((n, s'), t')
        /\ (forall y,
              In y (Spec.elems (CSet.node_ s'))
              <-> In y (Spec.elems (CSet.node_ (Demo.set_at 0)))
                  \/ In y [4; 8; 4])
        /\ n = Word.wrap
                 (Z.of_nat
                    (length (Spec.elems (CSet.node_ s'))
                     - length (Spec.elems (CSet.node_ (Demo.set_at 0)))))
        /\ (Z.of_nat (length (Spec.elems (CSet.node_ s'))) < Word.modulus ->
            n = Z.of_nat
                  (length (Spec.elems (CSet.node_ s'))
                   - length (Spec.elems (CSet.node_ (Demo.set_at 0)))))).
Proof.
  assert (R : World.run Demo.map_of_int Demo.program World.init
              = Some Demo.world) by (vm_compute; reflexivity).
  assert (E0 : nth_error (World.sets Demo.world) 0 = Some (Demo.set_at 0))
    by reflexivity.
  assert (E1 : nth_error (World.sets Demo.world) 1 = Some (Demo.set_at 1))
    by reflexivity.
  assert (L : Z.of_nat (length [4; 8; 4]) < Word.modulus - 1)
    by (vm_compute; reflexivity).
  split; [exact DemoFacts.map_of_int_ok|]. split; [exact R|].
  split; [exact E0|]. split; [exact E1|]. split; [exact L|].
  exact (proj1 (proj2 (proj2
           (C6_set_element_operations Demo.map_of_int Demo.program
              Demo.world 0 1 (Demo.set_at 0) (Demo.set_at 1) 4 3 [4; 8; 4]
              DemoFacts.map_of_int_ok R E0 E1 L)))).
Defined.

(** C7 ([insert_or_assign]).  For a map [m] of a program and a pair
    [(k, v)], [m.insert_or_assign((k, v))] returns; afterwards the map holds
    [(k, v)] and the elements of [m] with another key; and it returns false
    exactly when [m] held an element with a key equal to [k] and a mapped
    value equal to [v], which is exactly when the map is as it was. *)
Theorem C7_insert_or_assign {K T : Type} (provider : map_provider K T)
    (prog : list World.command) (w : World.world) (i : nat)
    (m : CMap.map K T) (k : K) (v : T) :
  MapSpec.provider_ok provider ->
  World.run provider prog World.init = Some w ->
  nth_error (World.maps w) i = Some m ->
  let els := fun x : CMap.map K T => Spec.elems (CMap.node_ x) in
  exists b m' s',
    CMap.insert_or_assign provider m (k, v) (World.state w)
      = Some ((b, m'), s')
    /\ In (k, v) (els m')
    /\ (forall y, In y (els m') <-> y = (k, v) \/ (In y (els m) /\ fst y <> k))
    /\ (b = false
        <-> exists y, In y (els m)
                      /\ key_eq (set_provider_ provider) (fst y) k = true
                      /\ mapped_eq provider (snd y) v = true)
    /\ (b = false <-> m' = m)
    /\ (b = true <-> els m' <> els m).
Proof.
  intros Hprov Hrun Em els.
  pose proof (ProgramFacts.map_state_ok provider Hprov prog w Hrun) as HI.
  pose proof (ProgramFacts.map_in_world provider Hprov prog w Hrun i m Em)
    as Vm.
  destruct (CMapFacts.insert_or_assign_spec provider _ _ Hprov _ m (k, v)
              HI Vm)
    as ([b m'] & s' & E & _ & _ & _ & I1 & B & Same).
  cbn [fst snd] in *. exists b, m', s'.
  assert (Hin : In (k, v) (els m')) by (apply I1; auto).
  assert (Back : m' = m -> b = false).
  { intros <-. apply B. exact Hin. }
  split; [exact E|]. split; [exact Hin|]. split; [exact I1|].
  split; [|split].
  - rewrite B. split.
    + intros H. exists (k, v). split; [exact H|]. cbn [fst snd]. split.
      * apply (SetFacts.key_eq_spec _ (proj1 Hprov)). reflexivity.
      * apply (proj2 Hprov). reflexivity.
    + intros ([k' v'] & Hy & Ek & Ev). cbn [fst snd] in *.
      apply (SetFacts.key_eq_spec _ (proj1 Hprov)) in Ek.
      apply (proj2 Hprov) in Ev. subst. exact Hy.
  - split; [exact Same|exact Back].
  - split.
    + intros Hb Eq. destruct b; [|discriminate].
      assert (Hm : In (k, v) (els m)) by (rewrite <- Eq; exact Hin).
      apply B in Hm. discriminate.
    + intros Hne. destruct b; [reflexivity|].
      destruct Hne. rewrite (Same eq_refl). reflexivity.
Qed.

Lemma C7_insert_or_assign_witness :
  MapSpec.provider_ok Demo.map_of_int
  /\ World.run Demo.map_of_int Demo.program World.init = Some Demo.world
  /\ nth_error (World.maps Demo.world) 0 = Some (Demo.map_at 0)
  /\ exists b m' s',
       CMap.insert_or_assign Demo.map_of_int (Demo.map_at 0) (2, 22)
         (World.state Demo.world) = Some ((b, m'), s')
       /\ In (2, 22) (Spec.elems (CMap.node_ m'))
       /\ (b = false <-> m' = Demo.map_at 0).
Proof.
  assert (R : World.run Demo.map_of_int Demo.program World.init
              = Some Demo.world) by (vm_compute; reflexivity).
  assert (M0 : nth_error (World.maps Demo.world) 0 = Some (Demo.map_at 0))
    by reflexivity.
  split; [exact DemoFacts.map_of_int_ok|]. split; [exact R|].
  split; [exact M0|].
  destruct (C7_insert_or_assign Demo.map_of_int Demo.program Demo.world 0
              (Demo.map_at 0) 2 22 DemoFacts.map_of_int_ok R M0)
    as (b & m' & s' & E & Hin & _ & _ & Same & _).
  exists b, m', s'. split; [exact E|]. split; [exact Hin|exact Same].
Defined.

(** C8 ([key_set]).  For a map [m] of a program, [m.key_set()] is a set of
    the linked set provider whose root is the key node of the root of [m],
    a node of the set provider's table; its elements are the keys of the
    elements of [m], in the same order; and it compares equal to the set
    built from those keys. *)
Theorem C8_key_set {K T : Type} (provider : map_provider K T)
    (prog : list World.command) (w : World.world) (i : nat)
    (m : CMap.map K T) :
  MapSpec.provider_ok provider ->
  World.run provider prog World.init = Some w ->
  nth_error (World.maps w) i = Some m ->
  Z.of_nat (length (Spec.elems (CMap.node_ m))) < Word.modulus - 1 ->
  let ks := CMap.key_set World.set_provider_id m in
  CSet.provider_ ks = World.set_provider_id
  /\ CSet.node_ ks = MapNode.key_node_of (CMap.node_ m)
  /\ SetSpec.live (MapNode.key_table (World.state w)) (CSet.node_ ks)
  /\ Spec.elems (CSet.node_ ks) = map fst (Spec.elems (CMap.node_ m))
  /\ exists r t',
       CSet.from_range (set_provider_ provider)
         (map fst (Spec.elems (CMap.node_ m))) World.set_provider_id
         (MapNode.key_table (World.state w)) = Some (r, t')
       /\ CSet.eq ks r = Some true.
Proof.
  intros Hprov Hrun Em Hlen ks.
  pose proof (ProgramFacts.set_table_ok provider Hprov prog w Hrun) as HIs.
  pose proof (ProgramFacts.map_state_ok provider Hprov prog w Hrun) as HI.
  pose proof (ProgramFacts.map_in_world provider Hprov prog w Hrun i m Em)
    as Vm.
  destruct (CMapFacts.key_set_spec provider _ World.set_provider_id _ _ m
              HI Vm) as (Vk & Ek).
  fold ks in Vk, Ek.
  split; [reflexivity|]. split; [reflexivity|].
  split; [exact (proj1 (proj2 Vk))|]. split; [exact Ek|].
  destruct (CSetFacts.from_range_spec (set_provider_ provider)
              World.set_provider_id (proj1 Hprov) _
              (map fst (Spec.elems (CMap.node_ m))) HIs)
    as (r & t' & E & HI' & X & Vr & _ & Ir).
  exists r, t'. split; [exact E|].
  apply (proj2 (proj1 (CSetFacts.eq_spec (set_provider_ provider) _
                         (proj1 Hprov) t' ks r HI'
                         (CSetFacts.valid_mono _ _ _ _ _ X Vk) Vr))).
  intros y. rewrite Ek. symmetry. apply Ir. rewrite length_map. exact Hlen.
Qed.

Lemma C8_key_set_witness :
  MapSpec.provider_ok Demo.map_of_int
  /\ World.run Demo.map_of_int Demo.program World.init = Some Demo.world
  /\ nth_error (World.maps Demo.world) 0 = Some (Demo.map_at 0)
  /\ Z.of_nat (length (Spec.elems (CMap.node_ (Demo.map_at 0))))
     < Word.modulus - 1
  /\ Spec.elems
       (CSet.node_ (CMap.key_set World.set_provider_id (Demo.map_at 0)))
     = map fst (Spec.elems (CMap.node_ (Demo.map_at 0)))
  /\ exists r t',
       CSet.from_range Demo.set_of_int
         (map fst (Spec.elems (CMap.node_ (Demo.map_at 0))))
         World.set_provider_id
         (MapNode.key_table (World.state Demo.world)) = Some (r, t')
       /\ CSet.eq (CMap.key_set World.set_provider_id (Demo.map_at 0)) r
          = Some true.
Proof.
  assert (R : World.run Demo.map_of_int Demo.program World.init
              = Some Demo.world) by (vm_compute; reflexivity).
  assert (M0 : nth_error (World.maps Demo.world) 0 = Some (Demo.map_at 0))
    by reflexivity.
  assert (L : Z.of_nat (length (Spec.elems (CMap.node_ (Demo.map_at 0))))
              < Word.modulus - 1) by (vm_compute; reflexivity).
  split; [exact DemoFacts.map_of_int_ok|]. split; [exact R|].
  split; [exact M0|]. split; [exact L|].
  exact (proj2 (proj2 (proj2
           (C8_key_set Demo.map_of_int Demo.program Demo.world 0
              (Demo.map_at 0) DemoFacts.map_of_int_ok R M0 L)))).
Defined.

(** C9 (hash).  For a set [s] of a program, [hash()] is 0 when the set is
    empty and the hash of the root otherwise; at every node of the tree the
    hash is [combine(hash(left), hash(right), priority)], with the hash of
    a null child 0, three inputs combined from the left, and
    [combine(h1, h2) = h1 xor (h2 + 0x9e3779b9 + (h1 << 6) + (h1 >> 2))]
    reduced modulo [2 ^ 64]. *)
Theorem C9_hash {K T : Type} (provider : map_provider K T)
    (prog : list World.command) (w : World.world) (i : nat)
    (s : CSet.set K) :
  MapSpec.provider_ok provider ->
  World.run provider prog World.init = Some w ->
  nth_error (World.sets w) i = Some s ->
  (CSet.empty s = true -> CSet.hash s = 0)
  /\ (forall a v x h l r,
        CSet.node_ s = Node a v x h l r ->
        CSet.hash s
        = hash_combine (hash_combine (Internal.hash l) (Internal.hash r))
            (priority_ x))
  /\ SetSpec.hashed (CSet.node_ s)
  /\ Internal.hash (@null K set_fields) = 0
  /\ (forall h1 h2 h3,
        hash_combine3 h1 h2 h3 = hash_combine (hash_combine h1 h2) h3)
  /\ (forall h1 h2,
        hash_combine h1 h2
        = Z.lxor h1
            ((h2 + 0x9e3779b9 + Z.shiftl h1 6 + Z.shiftr h1 2)
             mod 2 ^ 64)).
Proof.
  intros Hprov Hrun Es.
  pose proof (ProgramFacts.set_table_ok provider Hprov prog w Hrun) as HI.
  pose proof (ProgramFacts.set_in_world provider Hprov prog w Hrun i s Es)
    as (_ & Ls & _).
  pose proof (CSetFacts.live_hashed _ (proj1 Hprov) _ _ HI Ls) as Hh.
  split; [|split; [|split; [|split; [|split]]]].
  - unfold CSet.empty, CSet.hash.
    destruct (CSet.node_ s); [reflexivity|discriminate].
  - intros a v x h l r E. unfold CSet.hash. rewrite E in *.
    cbn [Internal.hash]. exact (proj1 Hh).
  - exact Hh.
  - reflexivity.
  - reflexivity.
  - exact WordFacts.hash_combine_spec.
Qed.

Lemma C9_hash_witness :
  MapSpec.provider_ok Demo.map_of_int
  /\ World.run Demo.map_of_int Demo.program World.init = Some Demo.world
  /\ nth_error (World.sets Demo.world) 0 = Some (Demo.set_at 0)
  /\ SetSpec.hashed (CSet.node_ (Demo.set_at 0)).
Proof.
  assert (R : World.run Demo.map_of_int Demo.program World.init
              = Some Demo.world) by (vm_compute; reflexivity).
  assert (E0 : nth_error (World.sets Demo.world) 0 = Some (Demo.set_at 0))
    by reflexivity.
  split; [exact DemoFacts.map_of_int_ok|]. split; [exact R|].
  split; [exact E0|].
  exact (proj1 (proj2 (proj2
           (C9_hash Demo.map_of_int Demo.program Demo.world 0
              (Demo.set_at 0) DemoFacts.map_of_int_ok R E0)))).
Defined.

(** C10 (assignment and swap).  For two different set objects [a] and [b],
    whatever their providers, [a = b] is defined and leaves in [a] the root
    and the provider of [b], with [b] as it was, so that [a == b] is true;
    [swap(a, b)] exchanges the roots and the providers of the two
    objects. *)
Theorem C10_assign_swap {T : Type} (st : @CSet.store T) (i j : nat)
    (a b : CSet.set T) :
  nth_error st i = Some a ->
  nth_error st j = Some b ->
  i <> j ->
  (exists st' a',
     CSet.assign i j st = Some st'
     /\ nth_error st' i = Some a'
     /\ nth_error st' j = Some b
     /\ CSet.node_ a' = CSet.node_ b
     /\ CSet.provider_ a' = CSet.provider_ b
     /\ CSet.eq a' b = Some true)
  /\ (exists st' a' b',
        CSet.swap i j st = Some st'
        /\ nth_error st' i = Some a'
        /\ nth_error st' j = Some b'
        /\ CSet.node_ a' = CSet.node_ b
        /\ CSet.provider_ a' = CSet.provider_ b
        /\ CSet.node_ b' = CSet.node_ a
        /\ CSet.provider_ b' = CSet.provider_ a).
Proof.
  intros Ea Eb N. split.
  - destruct (ObjectFacts.assign_spec st i j a b Ea Eb N)
      as (st' & E & Hi & Hk).
    exists st', b. split; [exact E|]. split; [exact Hi|].
    split; [rewrite (Hk j (not_eq_sym N)); exact Eb|].
    split; [reflexivity|]. split; [reflexivity|].
    unfold CSet.eq, CSet.check, Internal.ptr_eq. rewrite !Nat.eqb_refl.
    reflexivity.
  - destruct (ObjectFacts.swap_spec st i j a b Ea Eb)
      as (st' & E & Hi & Hj & _).
    exists st', b, a. auto 10.
Qed.

Lemma C10_assign_swap_witness :
  nth_error Demo.objects 1 = Some (nth 1 Demo.objects (CSet.new 0))
  /\ nth_error Demo.objects 0 = Some (nth 0 Demo.objects (CSet.new 0))
  /\ 1%nat <> 0%nat
  /\ CSet.provider_ (nth 1 Demo.objects (CSet.new 0))
     <> CSet.provider_ (nth 0 Demo.objects (CSet.new 0))
  /\ exists st' a',
       CSet.assign 1 0 Demo.objects = Some st'
       /\ nth_error st' 1 = Some a'
       /\ nth_error st' 0 = Some (nth 0 Demo.objects (CSet.new 0))
       /\ CSet.node_ a' = CSet.node_ (nth 0 Demo.objects (CSet.new 0))
       /\ CSet.provider_ a'
          = CSet.provider_ (nth 0 Demo.objects (CSet.new 0))
       /\ CSet.eq a' (nth 0 Demo.objects (CSet.new 0)) = Some true.
Proof.
  assert (E1 : nth_error Demo.objects 1
               = Some (nth 1 Demo.objects (CSet.new 0))) by reflexivity.
  assert (E0 : nth_error Demo.objects 0
               = Some (nth 0 Demo.objects (CSet.new 0))) by reflexivity.
  assert (N : 1%nat <> 0%nat) by lia.
  split; [exact E1|]. split; [exact E0|]. split; [exact N|].
  split; [cbn; lia|].
  exact (proj1 (C10_assign_swap Demo.objects 1 0 _ _ E1 E0 N)).
Defined.

(** * Further properties of the code *)

(** X1 (set operators).  For sets [a] and [b] of a program, [a | b] holds
    the elements of either, [a & b] the elements of both, [a - b] the
    elements of [a] that are not in [b], and [a ^ b] the elements of exactly
    one of the two. *)
Theorem set_operators_contents {K T : Type} (provider : map_provider K T)
    (prog : list World.command) (w : World.world) (i j : nat)
    (a b : CSet.set K) :
  MapSpec.provider_ok provider ->
  World.run provider prog World.init = Some w ->
  nth_error (World.sets w) i = Some a ->
  nth_error (World.sets w) j = Some b ->
  let sp := set_provider_ provider in
  let t := MapNode.key_table (World.state w) in
  let els := fun x : CSet.set K => Spec.elems (CSet.node_ x) in
  (exists r t',
     CSet.union sp a b t = Some (r, t')
     /\ forall y, In y (els r) <-> In y (els a) \/ In y (els b))
  /\ (exists r t',
        CSet.intersection sp a b t = Some (r, t')
        /\ forall y, In y (els r) <-> In y (els a) /\ In y (els b))
  /\ (exists r t',
        CSet.difference sp a b t = Some (r, t')
        /\ forall y, In y (els r) <-> In y (els a) /\ ~ In y (els b))
  /\ (exists r t',
        CSet.symmetric sp a b t = Some (r, t')
        /\ forall y,
             In y (els r)
             <-> (In y (els a) /\ ~ In y (els b))
                 \/ (In y (els b) /\ ~ In y (els a))).
Proof.
  intros Hprov Hrun Ea Eb sp t els.
  pose proof (ProgramFacts.set_table_ok provider Hprov prog w Hrun) as HI.
  pose proof (ProgramFacts.set_in_world provider Hprov prog w Hrun i a Ea)
    as Va.
  pose proof (ProgramFacts.set_in_world provider Hprov prog w Hrun j b Eb)
    as Vb.
  pose proof (proj1 Hprov) as Hsp.
  split; [|split; [|split]].
  - destruct (CSetFacts.union_spec sp _ Hsp t a b HI Va Vb)
      as (r & t' & E & _ & _ & _ & I1).
    exists r, t'. auto.
  - destruct (CSetFacts.intersection_spec sp _ Hsp t a b HI Va Vb)
      as (r & t' & E & _ & _ & _ & I1).
    exists r, t'. auto.
  - destruct (CSetFacts.difference_spec sp _ Hsp t a b HI Va Vb)
      as (r & t' & E & _ & _ & _ & I1).
    exists r, t'. auto.
  - destruct (CSetFacts.symmetric_spec sp _ Hsp t a b HI Va Vb)
      as (r & t' & E & _ & _ & _ & I1).
    exists r, t'. auto.
Qed.

Lemma set_operators_contents_witness :
  MapSpec.provider_ok Demo.map_of_int
  /\ World.run Demo.map_of_int Demo.program World.init = Some Demo.world
  /\ nth_error (World.sets Demo.world) 0 = Some (Demo.set_at 0)
  /\ nth_error (World.sets Demo.world) 1 = Some (Demo.set_at 1)
  /\ exists r t',
       CSet.symmetric Demo.set_of_int (Demo.set_at 0) (Demo.set_at 1)
         (MapNode.key_table (World.state Demo.world)) = Some (r, t')
       /\ forall y,
            In y (Spec.elems (CSet.node_ r))
            <-> (In y (Spec.elems (CSet.node_ (Demo.set_at 0)))
                 /\ ~ In y (Spec.elems (CSet.node_ (Demo.set_at 1))))
                \/ (In y (Spec.elems (CSet.node_ (Demo.set_at 1)))
                    /\ ~ In y (Spec.elems (CSet.node_ (Demo.set_at 0)))).
Proof.
  assert (R : World.run Demo.map_of_int Demo.program World.init
              = Some Demo.world) by (vm_compute; reflexivity).
  assert (E0 : nth_error (World.sets Demo.world) 0 = Some (Demo.set_at 0))
    by reflexivity.
  assert (E1 : nth_error (World.sets Demo.world) 1 = Some (Demo.set_at 1))
    by reflexivity.
  split; [exact DemoFacts.map_of_int_ok|]. split; [exact R|].
  split; [exact E0|]. split; [exact E1|].
  exact (proj2 (proj2 (proj2
           (set_operators_contents Demo.map_of_int Demo.program Demo.world
              0 1 (Demo.set_at 0) (Demo.set_at 1) DemoFacts.map_of_int_ok R
              E0 E1)))).
Defined.

(** X2 (compound assignments).  For sets [a] and [b] of a program, [a |= b],
    [a &= b], [a -= b] and [a ^= b] leave in [a] a set that compares equal
    to [a | b], [a & b], [a - b] and [a ^ b]. *)
Theorem set_compound_assignments {K T : Type} (provider : map_provider K T)
    (prog : list World.command) (w : World.world) (i j : nat)
    (a b : CSet.set K) :
  MapSpec.provider_ok provider ->
  World.run provider prog World.init = Some w ->
  nth_error (World.sets w) i = Some a ->
  nth_error (World.sets w) j = Some b ->
  let sp := set_provider_ provider in
  let t := MapNode.key_table (World.state w) in
  yields (x <- CSet.union sp a b ;;
          y <- CSet.union_assign sp a b ;;
          ret (CSet.eq x y)) t (Some true)
  /\ yields (x <- CSet.intersection sp a b ;;
             y <- CSet.intersection_assign sp a b ;;
             ret (CSet.eq x y)) t (Some true)
  /\ yields (x <- CSet.difference sp a b ;;
             y <- CSet.difference_assign sp a b ;;
             ret (CSet.eq x y)) t (Some true)
  /\ yields (x <- CSet.symmetric sp a b ;;
             y <- CSet.symmetric_assign sp a b ;;
             ret (CSet.eq x y)) t (Some true).
Proof.
  intros Hprov Hrun Ea Eb sp t.
  pose proof (ProgramFacts.set_table_ok provider Hprov prog w Hrun) as HI.
  pose proof (ProgramFacts.set_in_world provider Hprov prog w Hrun i a Ea)
    as Va.
  pose proof (ProgramFacts.set_in_world provider Hprov prog w Hrun j b Eb)
    as Vb.
  pose proof (proj1 Hprov) as Hsp.
  split; [exact (CSetFacts.union_assign_agrees sp _ Hsp t a b HI Va Vb)|].
  split;
    [exact (CSetFacts.intersection_assign_agrees sp _ Hsp t a b HI Va Vb)|].
  split;
    [exact (CSetFacts.difference_assign_agrees sp _ Hsp t a b HI Va Vb)|].
  exact (CSetFacts.symmetric_assign_agrees sp _ Hsp t a b HI Va Vb).
Qed.

Lemma set_compound_assignments_witness :
  MapSpec.provider_ok Demo.map_of_int
  /\ World.run Demo.map_of_int Demo.program World.init = Some Demo.world
  /\ nth_error (World.sets Demo.world) 0 = Some (Demo.set_at 0)
  /\ nth_error (World.sets Demo.world) 2 = Some (Demo.set_at 2)
  /\ yields
       (x <- CSet.union Demo.set_of_int (Demo.set_at 0) (Demo.set_at 2) ;;
        y <- CSet.union_assign Demo.set_of_int (Demo.set_at 0)
               (Demo.set_at 2) ;;
        ret (CSet.eq x y))
       (MapNode.key_table (World.state Demo.world)) (Some true).
Proof.
  assert (R : World.run Demo.map_of_int Demo.program World.init
              = Some Demo.world) by (vm_compute; reflexivity).
  assert (E0 : nth_error (World.sets Demo.world) 0 = Some (Demo.set_at 0))
    by reflexivity.
  assert (E2 : nth_error (World.sets Demo.world) 2 = Some (Demo.set_at 2))
    by reflexivity.
  split; [exact DemoFacts.map_of_int_ok|]. split; [exact R|].
  split; [exact E0|]. split; [exact E2|].
  exact (proj1
           (set_compound_assignments Demo.map_of_int Demo.program Demo.world
              0 2 (Demo.set_at 0) (Demo.set_at 2) DemoFacts.map_of_int_ok R
              E0 E2)).
Defined.

(** X3 (erase and retain with a set).  For sets [a] and [b] of a program,
    [a.erase(b)] leaves the elements of [a] that are not in [b] and
    [a.retain(b)] those that are; each returns the number of elements
    removed, reduced modulo [2 ^ 64]. *)
Theorem set_erase_retain_counts {K T : Type} (provider : map_provider K T)
    (prog : list World.command) (w : World.world) (i j : nat)
    (a b : CSet.set K) :
  MapSpec.provider_ok provider ->
  World.run provider prog World.init = Some w ->
  nth_error (World.sets w) i = Some a ->
  nth_error (World.sets w) j = Some b ->
  let sp := set_provider_ provider in
  let t := MapNode.key_table (World.state w) in
  let els := fun x : CSet.set K => Spec.elems (CSet.node_ x) in
  (exists n a' t',
     CSet.erase_set sp a b t = Some ((n, a'), t')
     /\ (forall y, In y (els a') <-> In y (els a) /\ ~ In y (els b))
     /\ n = Word.wrap (Z.of_nat (length (els a) - length (els a')))
     /\ (Z.of_nat (length (els a)) < Word.modulus ->
         n = Z.of_nat (length (els a) - length (els a'))))
  /\ (exists n a' t',
        CSet.retain_set sp a b t = Some ((n, a'), t')
        /\ (forall y, In y (els a') <-> In y (els a) /\ In y (els b))
        /\ n = Word.wrap (Z.of_nat (length (els a) - length (els a')))
        /\ (Z.of_nat (length (els a)) < Word.modulus ->
            n = Z.of_nat (length (els a) - length (els a')))).
Proof.
  intros Hprov Hrun Ea Eb sp t els.
  pose proof (ProgramFacts.set_table_ok provider Hprov prog w Hrun) as HI.
  pose proof (ProgramFacts.set_in_world provider Hprov prog w Hrun i a Ea)
    as Va.
  pose proof (ProgramFacts.set_in_world provider Hprov prog w Hrun j b Eb)
    as Vb.
  pose proof (proj1 Hprov) as Hsp.
  assert (Small : forall n m : nat,
            Z.of_nat n < Word.modulus ->
            Word.wrap (Z.of_nat (n - m)) = Z.of_nat (n - m)).
  { intros n m H. apply WordFacts.wrap_small. lia. }
  split.
  - destruct (CSetFacts.erase_set_spec sp _ Hsp t a b HI Va Vb)
      as ([n a'] & t' & E & _ & _ & _ & I1 & En).
    exists n, a', t'. cbn [fst snd] in *.
    split; [exact E|]. split; [exact I1|]. split; [exact En|].
    intros H. rewrite En. apply Small, H.
  - destruct (CSetFacts.retain_set_spec sp _ Hsp t a b HI Va Vb)
      as ([n a'] & t' & E & _ & _ & _ & I1 & En).
    exists n, a', t'. cbn [fst snd] in *.
    split; [exact E|]. split; [exact I1|]. split; [exact En|].
    intros H. rewrite En. apply Small, H.
Qed.

Lemma set_erase_retain_counts_witness :
  MapSpec.provider_ok Demo.map_of_int
  /\ World.run Demo.map_of_int Demo.program World.init = Some Demo.world
  /\ nth_error (World.sets Demo.world) 0 = Some (Demo.set_at 0)
  /\ nth_error (World.sets Demo.world) 1 = Some (Demo.set_at 1)
  /\ exists n a' t',
       CSet.erase_set Demo.set_of_int (Demo.set_at 0) (Demo.set_at 1)
         (MapNode.key_table (World.state Demo.world)) = Some ((n, a'), t')
       /\ (forall y,
             In y (Spec.elems (CSet.node_ a'))
             <-> In y (Spec.elems (CSet.node_ (Demo.set_at 0)))
                 /\ ~ In y (Spec.elems (CSet.node_ (Demo.set_at 1))))
       /\ n = Word.wrap
                (Z.of_nat
                   (length (Spec.elems (CSet.node_ (Demo.set_at 0)))
                    - length (Spec.elems (CSet.node_ a'))))
       /\ (Z.of_nat (length (Spec.elems (CSet.node_ (Demo.set_at 0))))
           < Word.modulus ->
           n = Z.of_nat
                 (length (Spec.elems (CSet.node_ (Demo.set_at 0)))
                  - length (Spec.elems (CSet.node_ a')))).
Proof.
  assert (R : World.run Demo.map_of_int Demo.program World.init
              = Some Demo.world) by (vm_compute; reflexivity).
  assert (E0 : nth_error (World.sets Demo.world) 0 = Some (Demo.set_at 0))
    by reflexivity.
  assert (E1 : nth_error (World.sets Demo.world) 1 = Some (Demo.set_at 1))
    by reflexivity.
  split; [exact DemoFacts.map_of_int_ok|]. split; [exact R|].
  split; [exact E0|]. split; [exact E1|].
  exact (proj1
           (set_erase_retain_counts Demo.map_of_int Demo.program Demo.world
              0 1 (Demo.set_at 0) (Demo.set_at 1) DemoFacts.map_of_int_ok R
              E0 E1)).
Defined.

(** X4 (erase a range of positions).  For a set [s] of a program and the
    positions [first <= last <= size()] of two iterators,
    [s.erase(first, last)] leaves the elements before position [first] and
    from position [last] on, in order, and returns [last - first]; with
    positions that fail the assertions of [check] it fails. *)
Theorem set_erase_positions {K T : Type} (provider : map_provider K T)
    (prog : list World.command) (w : World.world) (i : nat)
    (s : CSet.set K) (first last : Z) :
  MapSpec.provider_ok provider ->
  World.run provider prog World.init = Some w ->
  nth_error (World.sets w) i = Some s ->
  let sp := set_provider_ provider in
  let t := MapNode.key_table (World.state w) in
  let els := fun x : CSet.set K => Spec.elems (CSet.node_ x) in
  (CSet.check_range s first last = true ->
   exists n s' t',
     CSet.erase_range sp s first last t = Some ((n, s'), t')
     /\ els s' = firstn (Z.to_nat first) (els s)
                 ++ skipn (Z.to_nat last) (els s)
     /\ n = last - first)
  /\ (CSet.check_range s first last = false ->
      CSet.erase_range sp s first last t = None)
  /\ (CSet.check_range s first last = true
      <-> 0 <= first <= last
          /\ last <= Z.of_nat (length (els s)) /\ last < Word.modulus).
Proof.
  intros Hprov Hrun Es sp t els.
  pose proof (ProgramFacts.set_table_ok provider Hprov prog w Hrun) as HI.
  pose proof (ProgramFacts.set_in_world provider Hprov prog w Hrun i s Es)
    as Vs.
  pose proof (proj1 Hprov) as Hsp.
  split; [|split].
  - intros C.
    destruct (CSetFacts.erase_range_spec sp _ Hsp t s first last HI Vs C)
      as ([n s'] & t' & E & _ & _ & _ & E1 & En).
    exists n, s', t'. cbn [fst snd] in *. auto.
  - intros C. unfold CSet.erase_range. rewrite C. reflexivity.
  - unfold CSet.check_range.
    change (Internal.size (CSet.node_ s)) with (CSet.size s).
    rewrite (CSetFacts.size_spec sp _ Hsp t s HI Vs).
    rewrite !andb_true_iff, !Z.leb_le, Z.ltb_lt. fold (els s). lia.
Qed.

Lemma set_erase_positions_witness :
  MapSpec.provider_ok Demo.map_of_int
  /\ World.run Demo.map_of_int Demo.program World.init = Some Demo.world
  /\ nth_error (World.sets Demo.world) 0 = Some (Demo.set_at 0)
  /\ CSet.check_range (Demo.set_at 0) 1 3 = true
  /\ exists n s' t',
       CSet.erase_range Demo.set_of_int (Demo.set_at 0) 1 3
         (MapNode.key_table (World.state Demo.world)) = Some ((n, s'), t')
       /\ Spec.elems (CSet.node_ s')
          = firstn (Z.to_nat 1) (Spec.elems (CSet.node_ (Demo.set_at 0)))
            ++ skipn (Z.to_nat 3) (Spec.elems (CSet.node_ (Demo.set_at 0)))
       /\ n = 3 - 1.
Proof.
  assert (R : World.run Demo.map_of_int Demo.program World.init
              = Some Demo.world) by (vm_compute; reflexivity).
  assert (E0 : nth_error (World.sets Demo.world) 0 = Some (Demo.set_at 0))
    by reflexivity.
  assert (C : CSet.check_range (Demo.set_at 0) 1 3 = true)
    by (vm_compute; reflexivity).
  split; [exact DemoFacts.map_of_int_ok|]. split; [exact R|].
  split; [exact E0|]. split; [exact C|].
  exact (proj1
           (set_erase_positions Demo.map_of_int Demo.program Demo.world 0
              (Demo.set_at 0) 1 3 DemoFacts.map_of_int_ok R E0) C).
Defined.

(** X5 (retain a range of positions).  For a set [s] of a program and the
    positions [first <= last <= size()] of two iterators,
    [s.retain(first, last)], which is also what the constructor from two
    iterators runs on a copy, leaves the elements at the positions from
    [first] up to [last], in order, and returns the number of elements
    removed, reduced modulo [2 ^ 64]. *)
Theorem set_retain_positions {K T : Type} (provider : map_provider K T)
    (prog : list World.command) (w : World.world) (i : nat)
    (s : CSet.set K) (first last : Z) :
  MapSpec.provider_ok provider ->
  World.run provider prog World.init = Some w ->
  nth_error (World.sets w) i = Some s ->
  CSet.check_range s first last = true ->
  let sp := set_provider_ provider in
  let t := MapNode.key_table (World.state w) in
  let els := fun x : CSet.set K => Spec.elems (CSet.node_ x) in
  exists n s' t',
    CSet.retain_range sp s first last t = Some ((n, s'), t')
    /\ els s' = skipn (Z.to_nat first) (firstn (Z.to_nat last) (els s))
    /\ Z.of_nat (length (els s')) = last - first
    /\ n = Word.wrap (CSet.size s - (last - first)).
Proof.
  intros Hprov Hrun Es C sp t els.
  pose proof (ProgramFacts.set_table_ok provider Hprov prog w Hrun) as HI.
  pose proof (ProgramFacts.set_in_world provider Hprov prog w Hrun i s Es)
    as Vs.
  pose proof (proj1 Hprov) as Hsp.
  destruct (CSetFacts.retain_range_spec sp _ Hsp t s first last HI Vs C)
    as ([n s'] & t' & E & _ & _ & _ & E1 & En).
  destruct (CSetFacts.check_range_true sp _ t s first last HI Vs C)
    as (Hf & Hl & _).
  change (Internal.size (CSet.node_ s)) with (CSet.size s) in Hl.
  rewrite (CSetFacts.size_spec sp _ Hsp t s HI Vs) in Hl.
  exists n, s', t'. cbn [fst snd] in *.
  split; [exact E|]. split; [exact E1|]. split; [|exact En].
  unfold els. rewrite E1, length_skipn, length_firstn. lia.
Qed.

Lemma set_retain_positions_witness :
  MapSpec.provider_ok Demo.map_of_int
  /\ World.run Demo.map_of_int Demo.program World.init = Some Demo.world
  /\ nth_error (World.sets Demo.world) 0 = Some (Demo.set_at 0)
  /\ CSet.check_range (Demo.set_at 0) 1 3 = true
  /\ exists n s' t',
       CSet.retain_range Demo.set_of_int (Demo.set_at 0) 1 3
         (MapNode.key_table (World.state Demo.world)) = Some ((n, s'), t')
       /\ Spec.elems (CSet.node_ s')
          = skipn (Z.to_nat 1)
              (firstn (Z.to_nat 3)
                 (Spec.elems (CSet.node_ (Demo.set_at 0))))
       /\ Z.of_nat (length (Spec.elems (CSet.node_ s'))) = 3 - 1
       /\ n = Word.wrap (CSet.size (Demo.set_at 0) - (3 - 1)).
Proof.
  assert (R : World.run Demo.map_of_int Demo.program World.init
              = Some Demo.world) by (vm_compute; reflexivity).
  assert (E0 : nth_error (World.sets Demo.world) 0 = Some (Demo.set_at 0))
    by reflexivity.
  assert (C : CSet.check_range (Demo.set_at 0) 1 3 = true)
    by (vm_compute; reflexivity).
  split; [exact DemoFacts.map_of_int_ok|]. split; [exact R|].
  split; [exact E0|]. split; [exact C|].
  exact (set_retain_positions Demo.map_of_int Demo.program Demo.world 0
           (Demo.set_at 0) 1 3 DemoFacts.map_of_int_ok R E0 C).
Defined.

(** X6 (building from a range).  In the table of a program, the constructor
    from a range of fewer than [2 ^ 64 - 1] values returns a set of the
    given provider whose elements are the values of the range, each once;
    assigning an initializer list to a set of the program leaves the same
    elements in it. *)
Theorem set_from_range {K T : Type} (provider : map_provider K T)
    (prog : list World.command) (w : World.world) (i : nat)
    (s : CSet.set K) (l : list K) :
  MapSpec.provider_ok provider ->
  World.run provider prog World.init = Some w ->
  nth_error (World.sets w) i = Some s ->
  Z.of_nat (length l) < Word.modulus - 1 ->
  let sp := set_provider_ provider in
  let t := MapNode.key_table (World.state w) in
  let els := fun x : CSet.set K => Spec.elems (CSet.node_ x) in
  (exists r t',
     CSet.from_range sp l World.set_provider_id t = Some (r, t')
     /\ CSet.provider_ r = World.set_provider_id
     /\ (forall y, In y (els r) <-> In y l)
     /\ NoDup (els r)
     /\ (length (els r) <= length l)%nat)
  /\ (exists r t',
        CSet.assign_list sp s l t = Some (r, t')
        /\ CSet.provider_ r = CSet.provider_ s
        /\ (forall y, In y (els r) <-> In y l)
        /\ NoDup (els r)).
Proof.
  intros Hprov Hrun Es Hlen sp t els.
  pose proof (ProgramFacts.set_table_ok provider Hprov prog w Hrun) as HI.
  pose proof (ProgramFacts.set_in_world provider Hprov prog w Hrun i s Es)
    as Vs.
  pose proof (proj1 Hprov) as Hsp.
  split.
  - destruct (CSetFacts.from_range_spec sp World.set_provider_id Hsp t l HI)
      as (r & t' & E & _ & _ & (Pr & Lr & Tr) & _ & Ir).
    pose proof (Facts.treap_NoDup (SetSpec.prio sp) Hsp _ Tr) as N.
    exists r, t'. split; [exact E|]. split; [exact Pr|].
    split; [exact (Ir Hlen)|]. split; [exact N|].
    apply NoDup_incl_length; [exact N|]. intros y Hy.
    apply (Ir Hlen). exact Hy.
  - destruct (CSetFacts.assign_list_spec sp _ Hsp t s l HI Vs)
      as (r & t' & E & _ & _ & (Pr & Lr & Tr) & _ & Ir).
    pose proof (Facts.treap_NoDup (SetSpec.prio sp) Hsp _ Tr) as N.
    exists r, t'. split; [exact E|]. split.
    + unfold CSet.assign_list, bind in E.
      destruct (Internal.assign l t) as [[p t1]|]; [|discriminate].
      unfold ret in E. injection E as <- _. reflexivity.
    + split; [exact (Ir Hlen)|exact N].
Qed.

Lemma set_from_range_witness :
  MapSpec.provider_ok Demo.map_of_int
  /\ World.run Demo.map_of_int Demo.program World.init = Some Demo.world
  /\ nth_error (World.sets Demo.world) 0 = Some (Demo.set_at 0)
  /\ Z.of_nat (length [6; 2; 6; 1]) < Word.modulus - 1
  /\ exists r t',
       CSet.from_range Demo.set_of_int [6; 2; 6; 1] World.set_provider_id
         (MapNode.key_table (World.state Demo.world)) = Some (r, t')
       /\ CSet.provider_ r = World.set_provider_id
       /\ (forall y, In y (Spec.elems (CSet.node_ r)) <-> In y [6; 2; 6; 1])
       /\ NoDup (Spec.elems (CSet.node_ r))
       /\ (length (Spec.elems (CSet.node_ r)) <= length [6; 2; 6; 1])%nat.
Proof.
  assert (R : World.run Demo.map_of_int Demo.program World.init
              = Some Demo.world) by (vm_compute; reflexivity).
  assert (E0 : nth_error (World.sets Demo.world) 0 = Some (Demo.set_at 0))
    by reflexivity.
  assert (L : Z.of_nat (length [6; 2; 6; 1]) < Word.modulus - 1)
    by (vm_compute; reflexivity).
  split; [exact DemoFacts.map_of_int_ok|]. split; [exact R|].
  split; [exact E0|]. split; [exact L|].
  exact (proj1
           (set_from_range Demo.map_of_int Demo.program Demo.world 0
              (Demo.set_at 0) [6; 2; 6; 1] DemoFacts.map_of_int_ok R E0 L)).
Defined.

(** X7 (size).  For a set of a program, [size()] is the number of
    elements, and [empty()] is true exactly when there is none. *)
Theorem set_size_counts_elements {K T : Type} (provider : map_provider K T)
    (prog : list World.command) (w : World.world) (i : nat)
    (s : CSet.set K) :
  MapSpec.provider_ok provider ->
  World.run provider prog World.init = Some w ->
  nth_error (World.sets w) i = Some s ->
  CSet.size s = Z.of_nat (length (Spec.elems (CSet.node_ s)))
  /\ (CSet.empty s = true <-> Spec.elems (CSet.node_ s) = [])
  /\ (CSet.empty s = true <-> CSet.size s = 0).
Proof.
  intros Hprov Hrun Es.
  pose proof (ProgramFacts.set_table_ok provider Hprov prog w Hrun) as HI.
  pose proof (ProgramFacts.set_in_world provider Hprov prog w Hrun i s Es)
    as Vs.
  pose proof (CSetFacts.size_spec _ _ (proj1 Hprov) _ s HI Vs) as Sz.
  assert (Em : CSet.empty s = true <-> Spec.elems (CSet.node_ s) = []).
  { rewrite CSetFacts.empty_spec.
    destruct (Spec.elems (CSet.node_ s)) as [|x l].
    - split; [reflexivity|]. intros _ y [].
    - split; [|discriminate]. intros H. destruct (H x). left. reflexivity. }
  split; [exact Sz|]. split; [exact Em|].
  rewrite Em, Sz. destruct (Spec.elems (CSet.node_ s)); cbn [length].
  - split; reflexivity.
  - split; [discriminate|lia].
Qed.

Lemma set_size_counts_elements_witness :
  MapSpec.provider_ok Demo.map_of_int
  /\ World.run Demo.map_of_int Demo.program World.init = Some Demo.world
  /\ nth_error (World.sets Demo.world) 0 = Some (Demo.set_at 0)
  /\ CSet.size (Demo.set_at 0)
     = Z.of_nat (length (Spec.elems (CSet.node_ (Demo.set_at 0)))).
Proof.
  assert (R : World.run Demo.map_of_int Demo.program World.init
              = Some Demo.world) by (vm_compute; reflexivity).
  assert (E0 : nth_error (World.sets Demo.world) 0 = Some (Demo.set_at 0))
    by reflexivity.
  split; [exact DemoFacts.map_of_int_ok|]. split; [exact R|].
  split; [exact E0|].
  exact (proj1
           (set_size_counts_elements Demo.map_of_int Demo.program Demo.world
              0 (Demo.set_at 0) DemoFacts.map_of_int_ok R E0)).
Defined.

(** X8 (count).  For a set [s] of a program, [s.count(k)] is 1 when [k] is
    an element of [s] and 0 when it is not. *)
Theorem set_count {K T : Type} (provider : map_provider K T)
    (prog : list World.command) (w : World.world) (i : nat)
    (s : CSet.set K) (k : K) :
  MapSpec.provider_ok provider ->
  World.run provider prog World.init = Some w ->
  nth_error (World.sets w) i = Some s ->
  (In k (Spec.elems (CSet.node_ s)) ->
   CSet.count (set_provider_ provider) s k = 1)
  /\ (~ In k (Spec.elems (CSet.node_ s)) ->
      CSet.count (set_provider_ provider) s k = 0).
Proof.
  intros Hprov Hrun Es.
  pose proof (ProgramFacts.set_in_world provider Hprov prog w Hrun i s Es)
    as Vs.
  exact (CSetFacts.count_spec _ _ (proj1 Hprov) _ s k Vs).
Qed.

Lemma set_count_witness :
  MapSpec.provider_ok Demo.map_of_int
  /\ World.run Demo.map_of_int Demo.program World.init = Some Demo.world
  /\ nth_error (World.sets Demo.world) 0 = Some (Demo.set_at 0)
  /\ CSet.count Demo.set_of_int (Demo.set_at 0) 5 = 1
  /\ CSet.count Demo.set_of_int (Demo.set_at 0) 4 = 0.
Proof.
  assert (R : World.run Demo.map_of_int Demo.program World.init
              = Some Demo.world) by (vm_compute; reflexivity).
  assert (E0 : nth_error (World.sets Demo.world) 0 = Some (Demo.set_at 0))
    by reflexivity.
  split; [exact DemoFacts.map_of_int_ok|]. split; [exact R|].
  split; [exact E0|]. split.
  - apply (proj1 (set_count Demo.map_of_int Demo.program Demo.world 0
                    (Demo.set_at 0) 5 DemoFacts.map_of_int_ok R E0)).
    vm_compute. auto.
  - apply (proj2 (set_count Demo.map_of_int Demo.program Demo.world 0
                    (Demo.set_at 0) 4 DemoFacts.map_of_int_ok R E0)).
    vm_compute. intros [H|[H|[H|[H|[]]]]]; discriminate.
Defined.

(** X9 (insert and erase undo each other).  For a set [s] of a program:
    inserting a value that is not an element and erasing it again returns
    1 twice and a set that compares equal to [s]; erasing an element and
    inserting it again does the same. *)
Theorem set_insert_erase_round_trip {K T : Type}
    (provider : map_provider K T) (prog : list World.command)
    (w : World.world) (i : nat) (s : CSet.set K) (v : K) :
  MapSpec.provider_ok provider ->
  World.run provider prog World.init = Some w ->
  nth_error (World.sets w) i = Some s ->
  let sp := set_provider_ provider in
  let t := MapNode.key_table (World.state w) in
  (~ In v (Spec.elems (CSet.node_ s)) ->
   yields ('(n, x) <- CSet.insert sp s v ;;
           '(m, y) <- CSet.erase sp x v ;;
           ret (n, m, CSet.eq y s)) t (1, 1, Some true))
  /\ (In v (Spec.elems (CSet.node_ s)) ->
      yields ('(n, x) <- CSet.erase sp s v ;;
              '(m, y) <- CSet.insert sp x v ;;
              ret (n, m, CSet.eq y s)) t (1, 1, Some true)).
Proof.
  intros Hprov Hrun Es sp t.
  pose proof (ProgramFacts.set_table_ok provider Hprov prog w Hrun) as HI.
  pose proof (ProgramFacts.set_in_world provider Hprov prog w Hrun i s Es)
    as Vs.
  split.
  - exact (CSetFacts.insert_erase_round_trip sp _ (proj1 Hprov) t s v HI Vs).
  - exact (CSetFacts.erase_insert_round_trip sp _ (proj1 Hprov) t s v HI Vs).
Qed.

Lemma set_insert_erase_round_trip_witness :
  MapSpec.provider_ok Demo.map_of_int
  /\ World.run Demo.map_of_int Demo.program World.init = Some Demo.world
  /\ nth_error (World.sets Demo.world) 0 = Some (Demo.set_at 0)
  /\ yields
       ('(n, x) <- CSet.erase Demo.set_of_int (Demo.set_at 0) 5 ;;
        '(m, y) <- CSet.insert Demo.set_of_int x 5 ;;
        ret (n, m, CSet.eq y (Demo.set_at 0)))
       (MapNode.key_table (World.state Demo.world)) (1, 1, Some true).
Proof.
  assert (R : World.run Demo.map_of_int Demo.program World.init
              = Some Demo.world) by (vm_compute; reflexivity).
  assert (E0 : nth_error (World.sets Demo.world) 0 = Some (Demo.set_at 0))
    by reflexivity.
  split; [exact DemoFacts.map_of_int_ok|]. split; [exact R|].
  split; [exact E0|].
  apply (proj2 (set_insert_erase_round_trip Demo.map_of_int Demo.program
                  Demo.world 0 (Demo.set_at 0) 5 DemoFacts.map_of_int_ok R
                  E0)).
  vm_compute. auto.
Defined.

(** X10 (self-assignment).  Assigning a set object to itself is defined and
    leaves it empty, whatever it held: [clear()] runs before the root of
    the other set, which is the same object, is copied.  The provider and
    the other objects are as they were. *)
Theorem set_self_assignment {T : Type} (st : @CSet.store T) (i : nat)
    (a : CSet.set T) :
  nth_error st i = Some a ->
  exists st' a',
    CSet.assign i i st = Some st'
    /\ nth_error st' i = Some a'
    /\ CSet.empty a' = true
    /\ CSet.node_ a' = null
    /\ CSet.provider_ a' = CSet.provider_ a
    /\ (forall k, k <> i -> nth_error st' k = nth_error st k).
Proof.
  intros Ea.
  destruct (ObjectFacts.assign_self st i a Ea) as (st' & E & Hi & Hk).
  exists st', {| CSet.provider_ := CSet.provider_ a; CSet.node_ := null |}.
  auto 10.
Qed.

Lemma set_self_assignment_witness :
  nth_error Demo.objects 0 = Some (nth 0 Demo.objects (CSet.new 0))
  /\ CSet.empty (nth 0 Demo.objects (CSet.new 0)) = false
  /\ exists st' a',
       CSet.assign 0 0 Demo.objects = Some st'
       /\ nth_error st' 0 = Some a'
       /\ CSet.empty a' = true
       /\ CSet.node_ a' = null
       /\ CSet.provider_ a'
          = CSet.provider_ (nth 0 Demo.objects (CSet.new 0))
       /\ (forall k, k <> 0%nat ->
                     nth_error st' k = nth_error Demo.objects k).
Proof.
  assert (E0 : nth_error Demo.objects 0
               = Some (nth 0 Demo.objects (CSet.new 0))) by reflexivity.
  split; [exact E0|]. split; [reflexivity|].
  exact (set_self_assignment Demo.objects 0 _ E0).
Defined.

(** X11 (swap twice).  Swapping two set objects and swapping them again
    gives back the store of objects as it was. *)
Theorem set_swap_twice {T : Type} (st st1 : @CSet.store T) (i j : nat) :
  CSet.swap i j st = Some st1 -> CSet.swap i j st1 = Some st.
Proof. exact (ObjectFacts.swap_twice st st1 i j). Qed.

Lemma set_swap_twice_witness :
  CSet.swap 0 1 Demo.objects
  = Some [nth 1 Demo.objects (CSet.new 0); nth 0 Demo.objects (CSet.new 0)]
  /\ CSet.swap 0 1
       [nth 1 Demo.objects (CSet.new 0); nth 0 Demo.objects (CSet.new 0)]
     = Some Demo.objects.
Proof.
  assert (E : CSet.swap 0 1 Demo.objects
              = Some [nth 1 Demo.objects (CSet.new 0);
                      nth 0 Demo.objects (CSet.new 0)]) by reflexivity.
  split; [exact E|]. exact (set_swap_twice Demo.objects _ 0 1 E).
Defined.

(** X12 (the intern tables).  In the tables of the two providers of a
    program, no two nodes have the same address, and two nodes with the
    same value and the same children are the same node. *)
Theorem intern_tables_unique {K T : Type} (provider : map_provider K T)
    (prog : list World.command) (w : World.world) :
  MapSpec.provider_ok provider ->
  World.run provider prog World.init = Some w ->
  let kt := MapNode.key_table (World.state w) in
  let mt := MapNode.table (World.state w) in
  (forall p q, In p kt -> In q kt ->
               Internal.address p = Internal.address q -> p = q)
  /\ (forall a v x h l r a' x' h',
        In (Node a v x h l r) kt -> In (Node a' v x' h' l r) kt ->
        Node a v x h l r = Node a' v x' h' l r)
  /\ (forall p q, In p mt -> In q mt ->
                  Internal.address p = Internal.address q -> p = q)
  /\ (forall a v x h l r a' x' h',
        In (Node a v x h l r) mt -> In (Node a' v x' h' l r) mt ->
        Node a v x h l r = Node a' v x' h' l r).
Proof.
  intros Hprov Hrun kt mt.
  pose proof (ProgramFacts.set_table_ok provider Hprov prog w Hrun) as HIs.
  pose proof (ProgramFacts.map_state_ok provider Hprov prog w Hrun) as HIm.
  destruct (CSetFacts.table_unique _ (proj1 Hprov) kt HIs) as (A1 & A2).
  destruct (CMapFacts.map_table_unique provider _ Hprov _ HIm)
    as (B1 & B2).
  auto.
Qed.

Lemma intern_tables_unique_witness :
  MapSpec.provider_ok Demo.map_of_int
  /\ World.run Demo.map_of_int Demo.merge_program World.init
     = Some Demo.merge_world
  /\ length (MapNode.key_table (World.state Demo.merge_world)) = 21%nat
  /\ length (MapNode.table (World.state Demo.merge_world)) = 21%nat
  /\ (forall p q,
        In p (MapNode.key_table (World.state Demo.merge_world)) ->
        In q (MapNode.key_table (World.state Demo.merge_world)) ->
        Internal.address p = Internal.address q -> p = q)
  /\ (forall a v x h l r a' x' h',
        In (Node a v x h l r)
          (MapNode.table (World.state Demo.merge_world)) ->
        In (Node a' v x' h' l r)
          (MapNode.table (World.state Demo.merge_world)) ->
        Node a v x h l r = Node a' v x' h' l r).
Proof.
  assert (R : World.run Demo.map_of_int Demo.merge_program World.init
              = Some Demo.merge_world) by (vm_compute; reflexivity).
  pose proof (intern_tables_unique Demo.map_of_int Demo.merge_program
                Demo.merge_world DemoFacts.map_of_int_ok R)
    as (A1 & _ & _ & B2).
  split; [exact DemoFacts.map_of_int_ok|]. split; [exact R|].
  split; [reflexivity|]. split; [reflexivity|].
  split; [exact A1|exact B2].
Defined.

(** X13 ([map::insert] of one pair).  For a map [m] of a program and a pair
    [(k, v)]: when [m] holds an element with key [k], [m.insert((k, v))]
    returns 0 and leaves [m] as it was, whatever the mapped values; when it
    holds none, it returns 1 and adds the pair. *)
Theorem map_insert_keeps_existing {K T : Type} (provider : map_provider K T)
    (prog : list World.command) (w : World.world) (i : nat)
    (m : CMap.map K T) (k : K) (v : T) :
  MapSpec.provider_ok provider ->
  World.run provider prog World.init = Some w ->
  nth_error (World.maps w) i = Some m ->
  let els := fun x : CMap.map K T => Spec.elems (CMap.node_ x) in
  exists n m' s',
    CMap.insert provider m (k, v) (World.state w) = Some ((n, m'), s')
    /\ ((exists v', In (k, v') (els m)) -> n = 0 /\ m' = m)
    /\ ((forall v', ~ In (k, v') (els m)) ->
        n = 1 /\ forall y, In y (els m') <-> In y (els m) \/ y = (k, v)).
Proof.
  intros Hprov Hrun Em els.
  pose proof (ProgramFacts.map_state_ok provider Hprov prog w Hrun) as HI.
  pose proof (ProgramFacts.map_in_world provider Hprov prog w Hrun i m Em)
    as Vm.
  destruct (CMapFacts.map_insert_spec provider _ _ Hprov _ m (k, v) HI Vm)
    as ([n m'] & s' & E & _ & _ & _ & I1 & H0 & H1).
  cbn [fst snd] in *. exists n, m', s'. split; [exact E|]. split.
  - intros H. apply H0. apply CMapFacts.map_has_key. exact H.
  - intros H.
    assert (N : ~ Spec.has_key (Tr := MapNode.map_traits) (CMap.node_ m) k).
    { intros Hk. apply CMapFacts.map_has_key in Hk.
      destruct Hk as (v' & Hv'). exact (H v' Hv'). }
    split; [exact (H1 N)|]. intros y. unfold els. rewrite I1. tauto.
Qed.

Lemma map_insert_keeps_existing_witness :
  MapSpec.provider_ok Demo.map_of_int
  /\ World.run Demo.map_of_int Demo.program World.init = Some Demo.world
  /\ nth_error (World.maps Demo.world) 0 = Some (Demo.map_at 0)
  /\ exists n m' s',
       CMap.insert Demo.map_of_int (Demo.map_at 0) (2, 99)
         (World.state Demo.world) = Some ((n, m'), s')
       /\ n = 0 /\ m' = Demo.map_at 0.
Proof.
  assert (R : World.run Demo.map_of_int Demo.program World.init
              = Some Demo.world) by (vm_compute; reflexivity).
  assert (M0 : nth_error (World.maps Demo.world) 0 = Some (Demo.map_at 0))
    by reflexivity.
  split; [exact DemoFacts.map_of_int_ok|]. split; [exact R|].
  split; [exact M0|].
  destruct (map_insert_keeps_existing Demo.map_of_int Demo.program
              Demo.world 0 (Demo.map_at 0) 2 99 DemoFacts.map_of_int_ok R
              M0) as (n & m' & s' & E & H0 & _).
  exists n, m', s'. split; [exact E|]. apply H0.
  exists 21. vm_compute. auto.
Defined.

(** X14 ([map::erase] of a key).  For a map [m] of a program and a key
    [k], [m.erase(k)] leaves the elements of [m] with another key; it
    returns 1 when [m] held an element with key [k], and returns 0 and
    leaves [m] as it was when it held none. *)
Theorem map_erase_key {K T : Type} (provider : map_provider K T)
    (prog : list World.command) (w : World.world) (i : nat)
    (m : CMap.map K T) (k : K) :
  MapSpec.provider_ok provider ->
  World.run provider prog World.init = Some w ->
  nth_error (World.maps w) i = Some m ->
  let els := fun x : CMap.map K T => Spec.elems (CMap.node_ x) in
  exists n m' s',
    CMap.erase provider m k (World.state w) = Some ((n, m'), s')
    /\ (forall y, In y (els m') <-> In y (els m) /\ fst y <> k)
    /\ ((exists v, In (k, v) (els m)) -> n = 1)
    /\ ((forall v, ~ In (k, v) (els m)) -> n = 0 /\ m' = m).
Proof.
  intros Hprov Hrun Em els.
  pose proof (ProgramFacts.map_state_ok provider Hprov prog w Hrun) as HI.
  pose proof (ProgramFacts.map_in_world provider Hprov prog w Hrun i m Em)
    as Vm.
  destruct (CMapFacts.map_erase_spec provider _ _ Hprov _ m k HI Vm)
    as ([n m'] & s' & E & _ & _ & _ & I1 & H1 & H0).
  cbn [fst snd] in *. exists n, m', s'. split; [exact E|].
  split; [exact I1|]. split.
  - intros H. apply H1. apply CMapFacts.map_has_key. exact H.
  - intros H. apply H0. intros Hk. apply CMapFacts.map_has_key in Hk.
    destruct Hk as (v' & Hv'). exact (H v' Hv').
Qed.

Lemma map_erase_key_witness :
  MapSpec.provider_ok Demo.map_of_int
  /\ World.run Demo.map_of_int Demo.program World.init = Some Demo.world
  /\ nth_error (World.maps Demo.world) 0 = Some (Demo.map_at 0)
  /\ exists n m' s',
       CMap.erase Demo.map_of_int (Demo.map_at 0) 2 (World.state Demo.world)
       = Some ((n, m'), s')
       /\ (forall y,
             In y (Spec.elems (CMap.node_ m'))
             <-> In y (Spec.elems (CMap.node_ (Demo.map_at 0)))
                 /\ fst y <> 2)
       /\ n = 1.
Proof.
  assert (R : World.run Demo.map_of_int Demo.program World.init
              = Some Demo.world) by (vm_compute; reflexivity).
  assert (M0 : nth_error (World.maps Demo.world) 0 = Some (Demo.map_at 0))
    by reflexivity.
  split; [exact DemoFacts.map_of_int_ok|]. split; [exact R|].
  split; [exact M0|].
  destruct (map_erase_key Demo.map_of_int Demo.program Demo.world 0
              (Demo.map_at 0) 2 DemoFacts.map_of_int_ok R M0)
    as (n & m' & s' & E & I1 & H1 & _).
  exists n, m', s'. split; [exact E|]. split; [exact I1|]. apply H1.
  exists 21. vm_compute. auto.
Defined.

(** X15 (map operators).  For maps [a] and [b] of a program: [a | b] holds
    the elements of [a] and the elements of [b] whose key is not a key of
    [a]; [a & b] holds the pairs that are in both maps, with the same key
    and the same mapped value; [a - b] holds the pairs of [a] that are not
    pairs of [b]. *)
Theorem map_operators_contents {K T : Type} (provider : map_provider K T)
    (prog : list World.command) (w : World.world) (i j : nat)
    (a b : CMap.map K T) :
  MapSpec.provider_ok provider ->
  World.run provider prog World.init = Some w ->
  nth_error (World.maps w) i = Some a ->
  nth_error (World.maps w) j = Some b ->
  let s := World.state w in
  let els := fun x : CMap.map K T => Spec.elems (CMap.node_ x) in
  (exists r s',
     CMap.union provider a b s = Some (r, s')
     /\ forall y,
          In y (els r)
          <-> In y (els a)
              \/ (In y (els b) /\ forall v, ~ In (fst y, v) (els a)))
  /\ (exists r s',
        CMap.intersection provider a b s = Some (r, s')
        /\ forall y, In y (els r) <-> In y (els a) /\ In y (els b))
  /\ (exists r s',
        CMap.difference provider a b s = Some (r, s')
        /\ forall y, In y (els r) <-> In y (els a) /\ ~ In y (els b)).
Proof.
  intros Hprov Hrun Ea Eb s els.
  pose proof (ProgramFacts.map_state_ok provider Hprov prog w Hrun) as HI.
  pose proof (ProgramFacts.map_in_world provider Hprov prog w Hrun i a Ea)
    as Va.
  pose proof (ProgramFacts.map_in_world provider Hprov prog w Hrun j b Eb)
    as Vb.
  split; [|split].
  - destruct (CMapFacts.map_union_spec provider _ _ Hprov s a b HI Va Vb)
      as (r & s' & E & _ & _ & _ & I1).
    exists r, s'. split; [exact E|]. intros y. unfold els. rewrite I1.
    rewrite CMapFacts.map_has_key. split.
    + intros [H|(H & N)]; [auto|]. right. split; [exact H|].
      intros v Hv. apply N. exists v. exact Hv.
    + intros [H|(H & N)]; [auto|]. right. split; [exact H|].
      intros (v & Hv). exact (N v Hv).
  - destruct (CMapFacts.map_intersection_spec provider _ _ Hprov s a b HI
                Va Vb) as (r & s' & E & _ & _ & _ & I1).
    exists r, s'. auto.
  - destruct (CMapFacts.map_difference_spec provider _ _ Hprov s a b HI Va
                Vb) as (r & s' & E & _ & _ & _ & I1).
    exists r, s'. auto.
Qed.

Lemma map_operators_contents_witness :
  MapSpec.provider_ok Demo.map_of_int
  /\ World.run Demo.map_of_int Demo.merge_program World.init
     = Some Demo.merge_world
  /\ nth_error (World.maps Demo.merge_world) 0 = Some (Demo.merged_map 0)
  /\ nth_error (World.maps Demo.merge_world) 1 = Some (Demo.merged_map 1)
  /\ Spec.elems (CMap.node_ (Demo.merged_map 0)) = [(1, 10); (2, 21)]
  /\ Spec.elems (CMap.node_ (Demo.merged_map 1)) = [(2, 20); (3, 30)]
  /\ (let s := World.state Demo.merge_world in
      let els := fun x : CMap.map Z Z => Spec.elems (CMap.node_ x) in
      let a := Demo.merged_map 0 in
      let b := Demo.merged_map 1 in
      (exists r s',
         CMap.union Demo.map_of_int a b s = Some (r, s')
         /\ forall y,
              In y (els r)
              <-> In y (els a)
                  \/ (In y (els b) /\ forall v, ~ In (fst y, v) (els a)))
      /\ (exists r s',
            CMap.intersection Demo.map_of_int a b s = Some (r, s')
            /\ forall y, In y (els r) <-> In y (els a) /\ In y (els b))
      /\ (exists r s',
            CMap.difference Demo.map_of_int a b s = Some (r, s')
            /\ forall y, In y (els r) <-> In y (els a) /\ ~ In y (els b))).
Proof.
  assert (R : World.run Demo.map_of_int Demo.merge_program World.init
              = Some Demo.merge_world) by (vm_compute; reflexivity).
  assert (M0 : nth_error (World.maps Demo.merge_world) 0
               = Some (Demo.merged_map 0)) by reflexivity.
  assert (M1 : nth_error (World.maps Demo.merge_world) 1
               = Some (Demo.merged_map 1)) by reflexivity.
  split; [exact DemoFacts.map_of_int_ok|]. split; [exact R|].
  split; [exact M0|]. split; [exact M1|].
  split; [reflexivity|]. split; [reflexivity|].
  exact (map_operators_contents Demo.map_of_int Demo.merge_program
           Demo.merge_world 0 1 (Demo.merged_map 0) (Demo.merged_map 1)
           DemoFacts.map_of_int_ok R M0 M1).
Defined.

(** X16 (merging a map into a map).  For maps [a] and [b] of a program:
    [a.insert(b)] adds the elements of [b] whose key is new and returns by
    how many elements [a] grew; [a.erase(b)] removes the pairs of [b] and
    [a.retain(b)] keeps them, each returning the number of elements
    removed; [a.insert_or_assign(b)] takes every pair of [b], keeps the
    elements of [a] with other keys, and returns false exactly when every
    pair of [b] was in [a].  The counts are reduced modulo [2 ^ 64]. *)
Theorem map_merge_counts {K T : Type} (provider : map_provider K T)
    (prog : list World.command) (w : World.world) (i j : nat)
    (a b : CMap.map K T) :
  MapSpec.provider_ok provider ->
  World.run provider prog World.init = Some w ->
  nth_error (World.maps w) i = Some a ->
  nth_error (World.maps w) j = Some b ->
  let s := World.state w in
  let els := fun x : CMap.map K T => Spec.elems (CMap.node_ x) in
  (exists n a' s',
     CMap.insert_map provider a b s = Some ((n, a'), s')
     /\ (forall y,
           In y (els a')
           <-> In y (els a)
               \/ (In y (els b) /\ forall v, ~ In (fst y, v) (els a)))
     /\ n = Word.wrap (Z.of_nat (length (els a') - length (els a))))
  /\ (exists n a' s',
        CMap.erase_map provider a b s = Some ((n, a'), s')
        /\ (forall y, In y (els a') <-> In y (els a) /\ ~ In y (els b))
        /\ n = Word.wrap (Z.of_nat (length (els a) - length (els a'))))
  /\ (exists n a' s',
        CMap.retain_map provider a b s = Some ((n, a'), s')
        /\ (forall y, In y (els a') <-> In y (els a) /\ In y (els b))
        /\ n = Word.wrap (Z.of_nat (length (els a) - length (els a'))))
  /\ (exists c a' s',
        CMap.insert_or_assign_map provider a b s = Some ((c, a'), s')
        /\ (forall y,
              In y (els a')
              <-> In y (els b)
                  \/ (In y (els a) /\ forall v, ~ In (fst y, v) (els b)))
        /\ (c = false <-> forall y, In y (els b) -> In y (els a))).
Proof.
  intros Hprov Hrun Ea Eb s els.
  pose proof (ProgramFacts.map_state_ok provider Hprov prog w Hrun) as HI.
  pose proof (ProgramFacts.map_in_world provider Hprov prog w Hrun i a Ea)
    as Va.
  pose proof (ProgramFacts.map_in_world provider Hprov prog w Hrun j b Eb)
    as Vb.
  assert (Keys : forall (x : CMap.map K T) k,
            ~ Spec.has_key (Tr := MapNode.map_traits) (CMap.node_ x) k
            <-> forall v, ~ In (k, v) (els x)).
  { intros x k. rewrite CMapFacts.map_has_key. split.
    - intros N v Hv. apply N. exists v. exact Hv.
    - intros N (v & Hv). exact (N v Hv). }
  split; [|split; [|split]].
  - destruct (CMapFacts.insert_map_spec provider _ _ Hprov s a b HI Va Vb)
      as ([n a'] & s' & E & _ & _ & _ & I1 & En).
    cbn [fst snd] in *. exists n, a', s'. split; [exact E|].
    split; [|exact En]. intros y. unfold els. rewrite I1, Keys. reflexivity.
  - destruct (CMapFacts.erase_map_spec provider _ _ Hprov s a b HI Va Vb)
      as ([n a'] & s' & E & _ & _ & _ & I1 & En).
    cbn [fst snd] in *. exists n, a', s'. auto.
  - destruct (CMapFacts.retain_map_spec provider _ _ Hprov s a b HI Va Vb)
      as ([n a'] & s' & E & _ & _ & _ & I1 & En).
    cbn [fst snd] in *. exists n, a', s'. auto.
  - destruct (CMapFacts.insert_or_assign_map_spec provider _ _ Hprov s a b
                HI Va Vb) as ([c a'] & s' & E & _ & _ & _ & I1 & B).
    cbn [fst snd] in *. exists c, a', s'. split; [exact E|].
    split; [|exact B]. intros y. unfold els. rewrite I1, Keys. reflexivity.
Qed.

Lemma map_merge_counts_witness :
  MapSpec.provider_ok Demo.map_of_int
  /\ World.run Demo.map_of_int Demo.merge_program World.init
     = Some Demo.merge_world
  /\ nth_error (World.maps Demo.merge_world) 0 = Some (Demo.merged_map 0)
  /\ nth_error (World.maps Demo.merge_world) 1 = Some (Demo.merged_map 1)
  /\ Spec.elems (CMap.node_ (Demo.merged_map 0)) = [(1, 10); (2, 21)]
  /\ Spec.elems (CMap.node_ (Demo.merged_map 1)) = [(2, 20); (3, 30)]
  /\ (let s := World.state Demo.merge_world in
      let els := fun x : CMap.map Z Z => Spec.elems (CMap.node_ x) in
      let a := Demo.merged_map 0 in
      let b := Demo.merged_map 1 in
      (exists n a' s',
         CMap.insert_map Demo.map_of_int a b s = Some ((n, a'), s')
         /\ (forall y,
               In y (els a')
               <-> In y (els a)
                   \/ (In y (els b) /\ forall v, ~ In (fst y, v) (els a)))
         /\ n = Word.wrap (Z.of_nat (length (els a') - length (els a))))
      /\ (exists n a' s',
            CMap.erase_map Demo.map_of_int a b s = Some ((n, a'), s')
            /\ (forall y, In y (els a') <-> In y (els a) /\ ~ In y (els b))
            /\ n = Word.wrap (Z.of_nat (length (els a) - length (els a'))))
      /\ (exists n a' s',
            CMap.retain_map Demo.map_of_int a b s = Some ((n, a'), s')
            /\ (forall y, In y (els a') <-> In y (els a) /\ In y (els b))
            /\ n = Word.wrap (Z.of_nat (length (els a) - length (els a'))))
      /\ (exists c a' s',
            CMap.insert_or_assign_map Demo.map_of_int a b s
            = Some ((c, a'), s')
            /\ (forall y,
                  In y (els a')
                  <-> In y (els b)
                      \/ (In y (els a)
                          /\ forall v, ~ In (fst y, v) (els b)))
            /\ (c = false <-> forall y, In y (els b) -> In y (els a)))).
Proof.
  assert (R : World.run Demo.map_of_int Demo.merge_program World.init
              = Some Demo.merge_world) by (vm_compute; reflexivity).
  assert (M0 : nth_error (World.maps Demo.merge_world) 0
               = Some (Demo.merged_map 0)) by reflexivity.
  assert (M1 : nth_error (World.maps Demo.merge_world) 1
               = Some (Demo.merged_map 1)) by reflexivity.
  split; [exact DemoFacts.map_of_int_ok|]. split; [exact R|].
  split; [exact M0|]. split; [exact M1|].
  split; [reflexivity|]. split; [reflexivity|].
  exact (map_merge_counts Demo.map_of_int Demo.merge_program
           Demo.merge_world 0 1 (Demo.merged_map 0) (Demo.merged_map 1)
           DemoFacts.map_of_int_ok R M0 M1).
Defined.

(** X17 ([map::includes]).  For maps [a] and [b] of a program,
    [a.includes(b)] returns, and it returns true exactly when every pair of
    [b], key and mapped value, is a pair of [a]. *)
Theorem map_includes {K T : Type} (provider : map_provider K T)
    (prog : list World.command) (w : World.world) (i j : nat)
    (a b : CMap.map K T) :
  MapSpec.provider_ok provider ->
  World.run provider prog World.init = Some w ->
  nth_error (World.maps w) i = Some a ->
  nth_error (World.maps w) j = Some b ->
  exists r s',
    CMap.includes provider a b (World.state w) = Some (r, s')
    /\ (r = true
        <-> forall y, In y (Spec.elems (CMap.node_ b)) ->
                      In y (Spec.elems (CMap.node_ a))).
Proof.
  intros Hprov Hrun Ea Eb.
  pose proof (ProgramFacts.map_state_ok provider Hprov prog w Hrun) as HI.
  pose proof (ProgramFacts.map_in_world provider Hprov prog w Hrun i a Ea)
    as Va.
  pose proof (ProgramFacts.map_in_world provider Hprov prog w Hrun j b Eb)
    as Vb.
  destruct (CMapFacts.map_includes_spec provider _ _ Hprov _ a b HI Va Vb)
    as (r & s' & E & _ & _ & H).
  exists r, s'. auto.
Qed.

Lemma map_includes_witness :
  MapSpec.provider_ok Demo.map_of_int
  /\ World.run Demo.map_of_int Demo.merge_program World.init
     = Some Demo.merge_world
  /\ nth_error (World.maps Demo.merge_world) 0 = Some (Demo.merged_map 0)
  /\ nth_error (World.maps Demo.merge_world) 3 = Some (Demo.merged_map 3)
  /\ nth_error (World.maps Demo.merge_world) 4 = Some (Demo.merged_map 4)
  /\ Spec.elems (CMap.node_ (Demo.merged_map 0)) = [(1, 10); (2, 21)]
  /\ Spec.elems (CMap.node_ (Demo.merged_map 3)) = [(1, 10)]
  /\ Spec.elems (CMap.node_ (Demo.merged_map 4)) = [(2, 20)]
  /\ (exists r s',
        CMap.includes Demo.map_of_int (Demo.merged_map 0)
          (Demo.merged_map 3) (World.state Demo.merge_world) = Some (r, s')
        /\ (r = true
            <-> forall y,
                  In y (Spec.elems (CMap.node_ (Demo.merged_map 3))) ->
                  In y (Spec.elems (CMap.node_ (Demo.merged_map 0)))))
  /\ (exists r s',
        CMap.includes Demo.map_of_int (Demo.merged_map 0)
          (Demo.merged_map 4) (World.state Demo.merge_world) = Some (r, s')
        /\ (r = true
            <-> forall y,
                  In y (Spec.elems (CMap.node_ (Demo.merged_map 4))) ->
                  In y (Spec.elems (CMap.node_ (Demo.merged_map 0)))))
  /\ (exists s',
        CMap.includes Demo.map_of_int (Demo.merged_map 0)
          (Demo.merged_map 3) (World.state Demo.merge_world)
        = Some (true, s'))
  /\ (exists s',
        CMap.includes Demo.map_of_int (Demo.merged_map 0)
          (Demo.merged_map 4) (World.state Demo.merge_world)
        = Some (false, s')).
Proof.
  assert (R : World.run Demo.map_of_int Demo.merge_program World.init
              = Some Demo.merge_world) by (vm_compute; reflexivity).
  assert (M0 : nth_error (World.maps Demo.merge_world) 0
               = Some (Demo.merged_map 0)) by reflexivity.
  assert (M3 : nth_error (World.maps Demo.merge_world) 3
               = Some (Demo.merged_map 3)) by reflexivity.
  assert (M4 : nth_error (World.maps Demo.merge_world) 4
               = Some (Demo.merged_map 4)) by reflexivity.
  split; [exact DemoFacts.map_of_int_ok|]. split; [exact R|].
  split; [exact M0|]. split; [exact M3|]. split; [exact M4|].
  split; [reflexivity|]. split; [reflexivity|]. split; [reflexivity|].
  split.
  { exact (map_includes Demo.map_of_int Demo.merge_program Demo.merge_world
             0 3 (Demo.merged_map 0) (Demo.merged_map 3)
             DemoFacts.map_of_int_ok R M0 M3). }
  split.
  { exact (map_includes Demo.map_of_int Demo.merge_program Demo.merge_world
             0 4 (Demo.merged_map 0) (Demo.merged_map 4)
             DemoFacts.map_of_int_ok R M0 M4). }
  split; vm_compute; eexists; reflexivity.
Defined.

(** X18 (lookup after an update).  For a map [m] of a program: after
    [m.insert_or_assign((k, v))], [at(k)] returns [v]; after [m.erase(k)],
    [at(k)] is the exception [out_of_range]; in both cases [at] of any
    other key is what it was. *)
Theorem map_at_after_update {K T : Type} (provider : map_provider K T)
    (prog : list World.command) (w : World.world) (i : nat)
    (m : CMap.map K T) (k : K) (v : T) :
  MapSpec.provider_ok provider ->
  World.run provider prog World.init = Some w ->
  nth_error (World.maps w) i = Some m ->
  (exists b m' s',
     CMap.insert_or_assign provider m (k, v) (World.state w)
     = Some ((b, m'), s')
     /\ CMap.at_ provider m' k = inr v
     /\ forall k', k' <> k ->
                   CMap.at_ provider m' k' = CMap.at_ provider m k')
  /\ (exists n m' s',
        CMap.erase provider m k (World.state w) = Some ((n, m'), s')
        /\ CMap.at_ provider m' k = inl out_of_range
        /\ forall k', k' <> k ->
                      CMap.at_ provider m' k' = CMap.at_ provider m k').
Proof.
  intros Hprov Hrun Em.
  pose proof (ProgramFacts.map_state_ok provider Hprov prog w Hrun) as HI.
  pose proof (ProgramFacts.map_in_world provider Hprov prog w Hrun i m Em)
    as Vm.
  split.
  - exact (CMapFacts.at_after_insert_or_assign provider _ _ Hprov _ m k v
             HI Vm).
  - exact (CMapFacts.at_after_erase provider _ _ Hprov _ m k HI Vm).
Qed.

Lemma map_at_after_update_witness :
  MapSpec.provider_ok Demo.map_of_int
  /\ World.run Demo.map_of_int Demo.program World.init = Some Demo.world
  /\ nth_error (World.maps Demo.world) 0 = Some (Demo.map_at 0)
  /\ exists b m' s',
       CMap.insert_or_assign Demo.map_of_int (Demo.map_at 0) (3, 30)
         (World.state Demo.world) = Some ((b, m'), s')
       /\ CMap.at_ Demo.map_of_int m' 3 = inr 30
       /\ forall k', k' <> 3 ->
                     CMap.at_ Demo.map_of_int m' k'
                     = CMap.at_ Demo.map_of_int (Demo.map_at 0) k'.
Proof.
  assert (R : World.run Demo.map_of_int Demo.program World.init
              = Some Demo.world) by (vm_compute; reflexivity).
  assert (M0 : nth_error (World.maps Demo.world) 0 = Some (Demo.map_at 0))
    by reflexivity.
  split; [exact DemoFacts.map_of_int_ok|]. split; [exact R|].
  split; [exact M0|].
  exact (proj1
           (map_at_after_update Demo.map_of_int Demo.program Demo.world 0
              (Demo.map_at 0) 3 30 DemoFacts.map_of_int_ok R M0)).
Defined.

(** X19 (the key set of a union).  For maps [a] and [b] of a program, the
    key set of [a | b] compares equal to the union of the key sets of [a]
    and [b]. *)
Theorem key_set_of_union {K T : Type} (provider : map_provider K T)
    (prog : list World.command) (w : World.world) (i j : nat)
    (a b : CMap.map K T) :
  MapSpec.provider_ok provider ->
  World.run provider prog World.init = Some w ->
  nth_error (World.maps w) i = Some a ->
  nth_error (World.maps w) j = Some b ->
  exists m s1 ks t2,
    CMap.union provider a b (World.state w) = Some (m, s1)
    /\ CSet.union (set_provider_ provider)
         (CMap.key_set World.set_provider_id a)
         (CMap.key_set World.set_provider_id b) (MapNode.key_table s1)
       = Some (ks, t2)
    /\ CSet.eq (CMap.key_set World.set_provider_id m) ks = Some true.
Proof.
  intros Hprov Hrun Ea Eb.
  pose proof (ProgramFacts.map_state_ok provider Hprov prog w Hrun) as HI.
  pose proof (ProgramFacts.map_in_world provider Hprov prog w Hrun i a Ea)
    as Va.
  pose proof (ProgramFacts.map_in_world provider Hprov prog w Hrun j b Eb)
    as Vb.
  exact (CMapFacts.key_set_union provider _ World.set_provider_id _ Hprov _
           a b HI Va Vb).
Qed.

Lemma key_set_of_union_witness :
  MapSpec.provider_ok Demo.map_of_int
  /\ World.run Demo.map_of_int Demo.merge_program World.init
     = Some Demo.merge_world
  /\ nth_error (World.maps Demo.merge_world) 0 = Some (Demo.merged_map 0)
  /\ nth_error (World.maps Demo.merge_world) 1 = Some (Demo.merged_map 1)
  /\ Spec.elems (CMap.node_ (Demo.merged_map 0)) = [(1, 10); (2, 21)]
  /\ Spec.elems (CMap.node_ (Demo.merged_map 1)) = [(2, 20); (3, 30)]
  /\ exists m s1 ks t2,
       CMap.union Demo.map_of_int (Demo.merged_map 0) (Demo.merged_map 1)
         (World.state Demo.merge_world) = Some (m, s1)
       /\ CSet.union Demo.set_of_int
            (CMap.key_set World.set_provider_id (Demo.merged_map 0))
            (CMap.key_set World.set_provider_id (Demo.merged_map 1))
            (MapNode.key_table s1) = Some (ks, t2)
       /\ CSet.eq (CMap.key_set World.set_provider_id m) ks = Some true.
Proof.
  assert (R : World.run Demo.map_of_int Demo.merge_program World.init
              = Some Demo.merge_world) by (vm_compute; reflexivity).
  assert (M0 : nth_error (World.maps Demo.merge_world) 0
               = Some (Demo.merged_map 0)) by reflexivity.
  assert (M1 : nth_error (World.maps Demo.merge_world) 1
               = Some (Demo.merged_map 1)) by reflexivity.
  split; [exact DemoFacts.map_of_int_ok|]. split; [exact R|].
  split; [exact M0|]. split; [exact M1|].
  split; [reflexivity|]. split; [reflexivity|].
  exact (key_set_of_union Demo.map_of_int Demo.merge_program
           Demo.merge_world 0 1 (Demo.merged_map 0) (Demo.merged_map 1)
           DemoFacts.map_of_int_ok R M0 M1).
Defined.

(** X20 (the hash of a map).  For a map [m] of a program, [hash()] is 0
    when the map is empty and the hash of the root otherwise; at every node
    the hash is [combine(combine(hash(left), hash(right)),
    combine(hash of the mapped value, hash of the key node))]. *)
Theorem map_hash {K T : Type} (provider : map_provider K T)
    (prog : list World.command) (w : World.world) (i : nat)
    (m : CMap.map K T) :
  MapSpec.provider_ok provider ->
  World.run provider prog World.init = Some w ->
  nth_error (World.maps w) i = Some m ->
  (CMap.node_ m = null -> CMap.hash m = 0)
  /\ (forall a v kn h l r,
        CMap.node_ m = Node a v kn h l r ->
        CMap.hash m
        = hash_combine
            (hash_combine (Internal.hash l) (Internal.hash r))
            (hash_combine (Word.wrap (mapped_hash provider (snd v)))
               (Internal.hash kn)))
  /\ MapSpec.hashed provider (CMap.node_ m).
Proof.
  intros Hprov Hrun Em.
  pose proof (ProgramFacts.map_state_ok provider Hprov prog w Hrun) as HI.
  pose proof (ProgramFacts.map_in_world provider Hprov prog w Hrun i m Em)
    as (_ & Lm & _).
  pose proof (CMapFacts.map_live_hashed provider _ Hprov _ _ HI Lm) as Hh.
  split; [|split].
  - intros E. unfold CMap.hash. rewrite E. reflexivity.
  - intros a v kn h l r E. unfold CMap.hash. rewrite E in *.
    cbn [Internal.hash]. exact (proj1 Hh).
  - exact Hh.
Qed.

Lemma map_hash_witness :
  MapSpec.provider_ok Demo.map_of_int
  /\ World.run Demo.map_of_int Demo.program World.init = Some Demo.world
  /\ nth_error (World.maps Demo.world) 0 = Some (Demo.map_at 0)
  /\ MapSpec.hashed Demo.map_of_int (CMap.node_ (Demo.map_at 0)).
Proof.
  assert (R : World.run Demo.map_of_int Demo.program World.init
              = Some Demo.world) by (vm_compute; reflexivity).
  assert (M0 : nth_error (World.maps Demo.world) 0 = Some (Demo.map_at 0))
    by reflexivity.
  split; [exact DemoFacts.map_of_int_ok|]. split; [exact R|].
  split; [exact M0|].
  exact (proj2 (proj2
           (map_hash Demo.map_of_int Demo.program Demo.world 0
              (Demo.map_at 0) DemoFacts.map_of_int_ok R M0))).
Defined.
(** X21 ([at_index]).  For a set [s] of a program and an index [k] that
    fits [size_t]: below [s.size()], [s.at_index(k)] is the element at
    position [k] of the ascending sequence of [s], the one with exactly [k]
    elements of [s] before it in the order of the provider; from
    [s.size()] on the assertion of [at_index] fails. *)
Theorem set_at_index {K T : Type} (provider : map_provider K T)
    (prog : list World.command) (w : World.world) (i : nat)
    (s : CSet.set K) (k : Z) :
  MapSpec.provider_ok provider ->
  World.run provider prog World.init = Some w ->
  nth_error (World.sets w) i = Some s ->
  0 <= k < Word.modulus ->
  let sp := set_provider_ provider in
  let els := Spec.elems (CSet.node_ s) in
  (k < CSet.size s ->
   exists v,
     CSet.at_index s k = Some v
     /\ nth_error els (Z.to_nat k) = Some v
     /\ Z.of_nat (length (filter (fun x => key_comp sp x v) els)) = k)
  /\ (CSet.size s <= k -> CSet.at_index s k = None).
Proof.
  intros Hprov Hrun Es Hk sp els.
  pose proof (ProgramFacts.set_table_ok provider Hprov prog w Hrun) as HI.
  pose proof (ProgramFacts.set_in_world provider Hprov prog w Hrun i s Es)
    as Vs.
  pose proof (proj1 Hprov) as Hsp.
  rewrite (CSetFacts.at_index_spec sp _ Hsp _ s k HI Vs Hk).
  pose proof (CSetFacts.size_spec sp _ Hsp _ s HI Vs) as Sz.
  split; intros H.
  - rewrite (proj2 (Z.ltb_lt _ _)) by exact H.
    destruct (nth_error (Spec.elems (CSet.node_ s)) (Z.to_nat k))
      as [v|] eqn:N.
    + exists v. split; [reflexivity|]. split; [exact N|].
      unfold els. rewrite (CSetFacts.at_index_rank sp _ Hsp _ s _ v Vs N).
      lia.
    + apply nth_error_None in N. lia.
  - rewrite (proj2 (Z.ltb_ge _ _)) by exact H. reflexivity.
Qed.

Lemma set_at_index_witness :
  MapSpec.provider_ok Demo.map_of_int
  /\ World.run Demo.map_of_int Demo.program World.init = Some Demo.world
  /\ nth_error (World.sets Demo.world) 0 = Some (Demo.set_at 0)
  /\ 0 <= 2 < Word.modulus
  /\ (2 < CSet.size (Demo.set_at 0) ->
      exists v,
        CSet.at_index (Demo.set_at 0) 2 = Some v
        /\ nth_error (Spec.elems (CSet.node_ (Demo.set_at 0))) (Z.to_nat 2)
           = Some v
        /\ Z.of_nat
             (length (filter (fun x => key_comp Demo.set_of_int x v)
                        (Spec.elems (CSet.node_ (Demo.set_at 0))))) = 2).
Proof.
  assert (R : World.run Demo.map_of_int Demo.program World.init
              = Some Demo.world) by (vm_compute; reflexivity).
  assert (E0 : nth_error (World.sets Demo.world) 0 = Some (Demo.set_at 0))
    by reflexivity.
  assert (B : 0 <= 2 < Word.modulus) by (rewrite WordFacts.modulus_eq; lia).
  split; [exact DemoFacts.map_of_int_ok|]. split; [exact R|].
  split; [exact E0|]. split; [exact B|].
  exact (proj1 (set_at_index Demo.map_of_int Demo.program Demo.world 0
                  (Demo.set_at 0) 2 DemoFacts.map_of_int_ok R E0 B)).
Defined.

(** X22 ([lower_bound], [upper_bound], [equal_range]).  For a set [s] of a
    program with fewer than [2 ^ 64] elements and a key: the iterators of
    [s.lower_bound(key)] and [s.upper_bound(key)] stand at positions of [s]
    or at its end, the first not after the second; the elements of [s]
    before the first are those less than the key, the elements before the
    second those the key is not less than; the two iterators of
    [s.equal_range(key)] are [s.count(key)] apart. *)
Theorem set_bounds {K T : Type} (provider : map_provider K T)
    (prog : list World.command) (w : World.world) (i : nat)
    (s : CSet.set K) (key : K) :
  MapSpec.provider_ok provider ->
  World.run provider prog World.init = Some w ->
  nth_error (World.sets w) i = Some s ->
  CSet.size s < Word.modulus ->
  let sp := set_provider_ provider in
  let lb := Iter.pos_ (CSet.lower_bound sp s key) in
  let ub := Iter.pos_ (CSet.upper_bound sp s key) in
  0 <= lb <= ub /\ ub <= CSet.size s
  /\ (forall k v,
        0 <= k < Word.modulus -> CSet.at_index s k = Some v ->
        (key_comp sp v key = true <-> k < lb)
        /\ (key_comp sp key v = false <-> k < ub))
  /\ Iter.pos_ (snd (CSet.equal_range sp s key))
     = Iter.pos_ (fst (CSet.equal_range sp s key)) + CSet.count sp s key.
Proof.
  intros Hprov Hrun Es Hm sp lb ub.
  pose proof (ProgramFacts.set_table_ok provider Hprov prog w Hrun) as HI.
  pose proof (ProgramFacts.set_in_world provider Hprov prog w Hrun i s Es)
    as Vs.
  pose proof (proj1 Hprov) as Hsp.
  destruct (CSetFacts.lower_bound_spec sp _ Hsp _ s key HI Vs Hm)
    as ((Bl & _) & Pl).
  destruct (CSetFacts.upper_bound_spec sp _ Hsp _ s key HI Vs Hm)
    as ((Bu & _) & Pu).
  pose proof (CSetFacts.equal_range_spec sp _ Hsp _ s key HI Vs Hm) as W.
  assert (C : CSet.count sp s key = 0 \/ CSet.count sp s key = 1).
  { destruct (CSetFacts.count_spec sp World.set_provider_id Hsp _ s key Vs)
      as (C1 & C0).
    destruct (CSetFacts.set_in_dec sp Hsp key (Spec.elems (CSet.node_ s)));
      auto. }
  cbn [CSet.equal_range fst snd] in W. fold lb ub in W, Bl, Bu.
  split; [lia|]. split; [exact (proj2 Bu)|]. split.
  - intros k v Hk A.
    rewrite (CSetFacts.at_index_spec sp _ Hsp _ s k HI Vs Hk) in A.
    destruct (k <? CSet.size s); [|discriminate].
    specialize (Pl _ _ A). specialize (Pu _ _ A).
    rewrite Z2Nat.id in Pl, Pu by lia. split; assumption.
  - exact W.
Qed.

Lemma set_bounds_witness :
  MapSpec.provider_ok Demo.map_of_int
  /\ World.run Demo.map_of_int Demo.program World.init = Some Demo.world
  /\ nth_error (World.sets Demo.world) 0 = Some (Demo.set_at 0)
  /\ CSet.size (Demo.set_at 0) < Word.modulus
  /\ Iter.pos_ (snd (CSet.equal_range Demo.set_of_int (Demo.set_at 0) 5))
     = Iter.pos_ (fst (CSet.equal_range Demo.set_of_int (Demo.set_at 0) 5))
       + CSet.count Demo.set_of_int (Demo.set_at 0) 5.
Proof.
  assert (R : World.run Demo.map_of_int Demo.program World.init
              = Some Demo.world) by (vm_compute; reflexivity).
  assert (E0 : nth_error (World.sets Demo.world) 0 = Some (Demo.set_at 0))
    by reflexivity.
  assert (B : CSet.size (Demo.set_at 0) < Word.modulus) by reflexivity.
  split; [exact DemoFacts.map_of_int_ok|]. split; [exact R|].
  split; [exact E0|]. split; [exact B|].
  exact (proj2 (proj2 (proj2
           (set_bounds Demo.map_of_int Demo.program Demo.world 0
              (Demo.set_at 0) 5 DemoFacts.map_of_int_ok R E0 B)))).
Defined.

(** X23 ([find]).  For a set [s] of a program with fewer than [2 ^ 64]
    elements: when [key] is an element, [s.find(key)] is an iterator other
    than [s.end()] that dereferences to [key] and stands at the index of
    [key]; when it is not, [s.find(key)] is [s.end()], which the assertion
    of [operator*] refuses. *)
Theorem set_find {K T : Type} (provider : map_provider K T)
    (prog : list World.command) (w : World.world) (i : nat)
    (s : CSet.set K) (key : K) :
  MapSpec.provider_ok provider ->
  World.run provider prog World.init = Some w ->
  nth_error (World.sets w) i = Some s ->
  CSet.size s < Word.modulus ->
  let sp := set_provider_ provider in
  let it := CSet.find sp s key in
  (In key (Spec.elems (CSet.node_ s)) ->
   Iter.eq it (CSet.end_ s) = false
   /\ CSet.at_index s (Iter.pos_ it) = Some key
   /\ exists it',
        Iter.deref (Tr := SetNode.set_traits) (CSet.node_ s) it
        = Some (key, it'))
  /\ (~ In key (Spec.elems (CSet.node_ s)) ->
      it = CSet.end_ s
      /\ Iter.deref (Tr := SetNode.set_traits) (CSet.node_ s) it = None).
Proof.
  intros Hprov Hrun Es Hm sp it.
  pose proof (ProgramFacts.set_table_ok provider Hprov prog w Hrun) as HI.
  pose proof (ProgramFacts.set_in_world provider Hprov prog w Hrun i s Es)
    as Vs.
  pose proof (proj1 Hprov) as Hsp.
  destruct (CSetFacts.find_spec sp _ Hsp _ s key HI Vs Hm) as (O & F & N).
  fold it in O, F, N. split; intros H.
  - destruct (F H) as (B & E). split; [|split].
    + unfold Iter.eq. cbn [CSet.end_ Iter.make Iter.pos_].
      apply Z.eqb_neq. unfold CSet.size in B. lia.
    + rewrite (CSetFacts.at_index_spec sp _ Hsp _ s _ HI Vs) by lia.
      rewrite (proj2 (Z.ltb_lt _ _)) by lia. exact E.
    + destruct (CSetFacts.set_deref sp _ Hsp _ s it HI Vs Hm O (proj2 B))
        as (v & it' & D & Nv & _).
      rewrite E in Nv. injection Nv as <-. exists it'. exact D.
  - split; [exact (N H)|]. rewrite (N H).
    unfold Iter.deref, Iter.find_node. cbn [CSet.end_ Iter.make Iter.pos_].
    rewrite Z.ltb_irrefl. reflexivity.
Qed.

Lemma set_find_witness :
  MapSpec.provider_ok Demo.map_of_int
  /\ World.run Demo.map_of_int Demo.program World.init = Some Demo.world
  /\ nth_error (World.sets Demo.world) 0 = Some (Demo.set_at 0)
  /\ CSet.size (Demo.set_at 0) < Word.modulus
  /\ In 5 (Spec.elems (CSet.node_ (Demo.set_at 0)))
  /\ ~ In 4 (Spec.elems (CSet.node_ (Demo.set_at 0)))
  /\ CSet.at_index (Demo.set_at 0)
       (Iter.pos_ (CSet.find Demo.set_of_int (Demo.set_at 0) 5)) = Some 5
  /\ CSet.find Demo.set_of_int (Demo.set_at 0) 4 = CSet.end_ (Demo.set_at 0).
Proof.
  assert (R : World.run Demo.map_of_int Demo.program World.init
              = Some Demo.world) by (vm_compute; reflexivity).
  assert (E0 : nth_error (World.sets Demo.world) 0 = Some (Demo.set_at 0))
    by reflexivity.
  assert (B : CSet.size (Demo.set_at 0) < Word.modulus) by reflexivity.
  assert (I5 : In 5 (Spec.elems (CSet.node_ (Demo.set_at 0))))
    by (vm_compute; auto).
  assert (N4 : ~ In 4 (Spec.elems (CSet.node_ (Demo.set_at 0))))
    by (vm_compute; intros [H|[H|[H|[H|[]]]]]; discriminate).
  split; [exact DemoFacts.map_of_int_ok|]. split; [exact R|].
  split; [exact E0|]. split; [exact B|]. split; [exact I5|].
  split; [exact N4|]. split.
  - exact (proj1 (proj2 (proj1
             (set_find Demo.map_of_int Demo.program Demo.world 0
                (Demo.set_at 0) 5 DemoFacts.map_of_int_ok R E0 B) I5))).
  - exact (proj1 (proj2
             (set_find Demo.map_of_int Demo.program Demo.world 0
                (Demo.set_at 0) 4 DemoFacts.map_of_int_ok R E0 B) N4)).
Defined.

(** X24 (the [for] statement over a set).  For a set [s] of a program with
    fewer than [2 ^ 64 - 1] elements, the statement [for (auto x : s)],
    which dereferences and increments an iterator from [s.begin()] until
    it equals [s.end()], ends after [s.size()] rounds and binds [x] to the
    elements of [s], each once, in ascending order. *)
Theorem set_range_for_visits {K T : Type} (provider : map_provider K T)
    (prog : list World.command) (w : World.world) (i : nat)
    (s : CSet.set K) (fuel : nat) :
  MapSpec.provider_ok provider ->
  World.run provider prog World.init = Some w ->
  nth_error (World.sets w) i = Some s ->
  CSet.size s < Word.modulus - 1 ->
  (Z.to_nat (CSet.size s) <= fuel)%nat ->
  let sp := set_provider_ provider in
  exists xs,
    Iter.range_for (Tr := SetNode.set_traits) fuel (CSet.node_ s)
      (CSet.begin_ s) (CSet.end_ s)
    = Some xs
    /\ xs = Spec.elems (CSet.node_ s)
    /\ Z.of_nat (length xs) = CSet.size s
    /\ (forall x, In x xs <-> CSet.count sp s x = 1)
    /\ StronglySorted (fun x y => key_comp sp x y = true) xs.
Proof.
  intros Hprov Hrun Es Hm Hf sp.
  pose proof (ProgramFacts.set_table_ok provider Hprov prog w Hrun) as HI.
  pose proof (ProgramFacts.set_in_world provider Hprov prog w Hrun i s Es)
    as Vs.
  pose proof (proj1 Hprov) as Hsp.
  exists (Spec.elems (CSet.node_ s)).
  split; [exact (CSetFacts.set_range_for sp _ Hsp _ s fuel HI Vs Hm Hf)|].
  split; [reflexivity|].
  split; [symmetry; exact (CSetFacts.size_spec sp _ Hsp _ s HI Vs)|].
  split.
  - intros x.
    destruct (CSetFacts.count_spec sp World.set_provider_id Hsp _ s x Vs)
      as (C1 & C0).
    split; [exact C1|]. intros C.
    destruct (CSetFacts.set_in_dec sp Hsp x (Spec.elems (CSet.node_ s)))
      as [H|H]; [exact H|].
    rewrite (C0 H) in C. discriminate.
  - destruct Vs as (_ & _ & Ts).
    exact (Facts.treap_sorted (SetSpec.prio sp) Hsp _ Ts).
Qed.

Lemma set_range_for_visits_witness :
  MapSpec.provider_ok Demo.map_of_int
  /\ World.run Demo.map_of_int Demo.program World.init = Some Demo.world
  /\ nth_error (World.sets Demo.world) 0 = Some (Demo.set_at 0)
  /\ CSet.size (Demo.set_at 0) < Word.modulus - 1
  /\ (Z.to_nat (CSet.size (Demo.set_at 0)) <= 4)%nat
  /\ exists xs,
       Iter.range_for (Tr := SetNode.set_traits) 4 (CSet.node_ (Demo.set_at 0))
         (CSet.begin_ (Demo.set_at 0)) (CSet.end_ (Demo.set_at 0))
       = Some xs
       /\ xs = Spec.elems (CSet.node_ (Demo.set_at 0)).
Proof.
  assert (R : World.run Demo.map_of_int Demo.program World.init
              = Some Demo.world) by (vm_compute; reflexivity).
  assert (E0 : nth_error (World.sets Demo.world) 0 = Some (Demo.set_at 0))
    by reflexivity.
  assert (B : CSet.size (Demo.set_at 0) < Word.modulus - 1) by reflexivity.
  assert (F : (Z.to_nat (CSet.size (Demo.set_at 0)) <= 4)%nat)
    by (vm_compute; lia).
  split; [exact DemoFacts.map_of_int_ok|]. split; [exact R|].
  split; [exact E0|]. split; [exact B|]. split; [exact F|].
  destruct (set_range_for_visits Demo.map_of_int Demo.program Demo.world 0
              (Demo.set_at 0) 4 DemoFacts.map_of_int_ok R E0 B F)
    as (xs & E & X & _).
  exists xs. split; [exact E|exact X].
Defined.

(** X25 (walking a set with an iterator).  For a set [s] of a program with
    fewer than [2 ^ 64 - 1] elements, take the iterator of [s.begin()],
    [s.end()], [s.find(key)], [s.lower_bound(key)] or [s.upper_bound(key)]
    and apply any sequence of [++], [--], [+= k] and [-= k] that never
    leaves the positions from the beginning to the end of [s]: no step
    dereferences a null pointer, the iterator ends at the position the
    steps add up to, and below the end it dereferences to the element
    [s.at_index] gives for that position. *)
Theorem set_iterator_walk {K T : Type} (provider : map_provider K T)
    (prog : list World.command) (w : World.world) (i : nat)
    (s : CSet.set K) (key : K) (start : Iter.iterator)
    (ms : list Iter.step) :
  MapSpec.provider_ok provider ->
  World.run provider prog World.init = Some w ->
  nth_error (World.sets w) i = Some s ->
  CSet.size s < Word.modulus - 1 ->
  let sp := set_provider_ provider in
  In start [CSet.begin_ s; CSet.end_ s; CSet.find sp s key;
            CSet.lower_bound sp s key; CSet.upper_bound sp s key] ->
  Spec.in_range (CSet.size s) (Iter.pos_ start) ms ->
  exists it,
    Iter.walk (Tr := SetNode.set_traits) (CSet.node_ s) start ms = Some it
    /\ Iter.pos_ it = Spec.destination (Iter.pos_ start) ms
    /\ (Iter.pos_ it < CSet.size s ->
        exists v it',
          Iter.deref (Tr := SetNode.set_traits) (CSet.node_ s) it
          = Some (v, it')
          /\ CSet.at_index s (Iter.pos_ it) = Some v).
Proof.
  intros Hprov Hrun Es Hm sp Hstart Hin.
  pose proof (ProgramFacts.set_table_ok provider Hprov prog w Hrun) as HI.
  pose proof (ProgramFacts.set_in_world provider Hprov prog w Hrun i s Es)
    as Vs.
  pose proof (proj1 Hprov) as Hsp.
  assert (Hm' : CSet.size s < Word.modulus) by lia.
  assert (Ok : Spec.iter_ok (Tr := SetNode.set_traits) (CSet.node_ s) start).
  { destruct Hstart as [<-|[<-|[<-|[<-|[<-|[]]]]]].
    - exact (CSetFacts.begin_ok sp _ Hsp _ s HI Vs).
    - exact (CSetFacts.end_ok sp _ Hsp _ s HI Vs).
    - exact (proj1 (CSetFacts.find_spec sp _ Hsp _ s key HI Vs Hm')).
    - exact (proj1 (CSetFacts.lower_bound_spec sp _ Hsp _ s key HI Vs Hm')).
    - exact (proj1 (CSetFacts.upper_bound_spec sp _ Hsp _ s key HI Vs Hm')).
  }
  destruct (CSetFacts.set_walk sp _ Hsp _ s start ms HI Vs Hm Ok Hin)
    as (it & E & P & O).
  exists it. split; [exact E|]. split; [exact P|]. intros Hlt.
  destruct (CSetFacts.set_deref sp _ Hsp _ s it HI Vs Hm' O Hlt)
    as (v & it' & D & N & _).
  exists v, it'. split; [exact D|].
  destruct O as (B & _).
  rewrite (CSetFacts.at_index_spec sp _ Hsp _ s _ HI Vs) by lia.
  rewrite (proj2 (Z.ltb_lt _ _)) by lia. exact N.
Qed.

Lemma set_iterator_walk_witness :
  MapSpec.provider_ok Demo.map_of_int
  /\ World.run Demo.map_of_int Demo.program World.init = Some Demo.world
  /\ nth_error (World.sets Demo.world) 0 = Some (Demo.set_at 0)
  /\ CSet.size (Demo.set_at 0) < Word.modulus - 1
  /\ Spec.in_range (CSet.size (Demo.set_at 0))
       (Iter.pos_ (CSet.lower_bound Demo.set_of_int (Demo.set_at 0) 4))
       [Iter.Increment; Iter.Decrement; Iter.Decrement; Iter.Plus 2;
        Iter.Minus 3; Iter.Increment]
  /\ exists it,
       Iter.walk (Tr := SetNode.set_traits) (CSet.node_ (Demo.set_at 0))
         (CSet.lower_bound Demo.set_of_int (Demo.set_at 0) 4)
         [Iter.Increment; Iter.Decrement; Iter.Decrement; Iter.Plus 2;
          Iter.Minus 3; Iter.Increment] = Some it
       /\ Iter.pos_ it = 1.
Proof.
  assert (R : World.run Demo.map_of_int Demo.program World.init
              = Some Demo.world) by (vm_compute; reflexivity).
  assert (E0 : nth_error (World.sets Demo.world) 0 = Some (Demo.set_at 0))
    by reflexivity.
  assert (B : CSet.size (Demo.set_at 0) < Word.modulus - 1) by reflexivity.
  assert (G : Spec.in_range (CSet.size (Demo.set_at 0))
                (Iter.pos_
                   (CSet.lower_bound Demo.set_of_int (Demo.set_at 0) 4))
                [Iter.Increment; Iter.Decrement; Iter.Decrement;
                 Iter.Plus 2; Iter.Minus 3; Iter.Increment]).
  { vm_compute. repeat split; discriminate. }
  split; [exact DemoFacts.map_of_int_ok|]. split; [exact R|].
  split; [exact E0|]. split; [exact B|]. split; [exact G|].
  destruct (set_iterator_walk Demo.map_of_int Demo.program Demo.world 0
              (Demo.set_at 0) 4
              (CSet.lower_bound Demo.set_of_int (Demo.set_at 0) 4)
              [Iter.Increment; Iter.Decrement; Iter.Decrement;
               Iter.Plus 2; Iter.Minus 3; Iter.Increment]
              DemoFacts.map_of_int_ok R E0 B
              (or_intror (or_intror (or_intror (or_introl eq_refl)))) G)
    as (it & E & P & _).
  exists it. split; [exact E|]. rewrite P. reflexivity.
Defined.
(** X26 (looking a key up in a map).  For a map [m] of a program with fewer
    than [2 ^ 64] elements and a key: [m.at_index(k)] is the element at
    position [k] of the sequence of [m] in ascending order of the keys, and
    its assertion fails from [m.size()] on; the elements before
    [m.lower_bound(key)] are those whose key is less than [key], the
    elements before [m.upper_bound(key)] those whose key [key] is not less
    than, and the two are [m.count(key)] apart; [m.find(key)] stands at the
    element with the key and dereferences to it, and is [m.end()] when no
    element has the key. *)
Theorem map_lookup {K T : Type} (provider : map_provider K T)
    (prog : list World.command) (w : World.world) (i : nat)
    (m : CMap.map K T) (key : K) :
  MapSpec.provider_ok provider ->
  World.run provider prog World.init = Some w ->
  nth_error (World.maps w) i = Some m ->
  CMap.size m < Word.modulus ->
  let sp := set_provider_ provider in
  let els := Spec.elems (CMap.node_ m) in
  let lb := Iter.pos_ (CMap.lower_bound provider m key) in
  let ub := Iter.pos_ (CMap.upper_bound provider m key) in
  let it := CMap.find provider m key in
  (forall k, 0 <= k < Word.modulus ->
     CMap.at_index m k
     = if k <? CMap.size m then nth_error els (Z.to_nat k) else None)
  /\ 0 <= lb <= ub /\ ub <= CMap.size m
  /\ (forall k v,
        0 <= k < Word.modulus -> CMap.at_index m k = Some v ->
        (key_comp sp (fst v) key = true <-> k < lb)
        /\ (key_comp sp key (fst v) = false <-> k < ub))
  /\ Iter.pos_ (snd (CMap.equal_range provider m key))
     = Iter.pos_ (fst (CMap.equal_range provider m key))
       + CMap.count provider m key
  /\ (forall v, In (key, v) els ->
        CMap.at_index m (Iter.pos_ it) = Some (key, v)
        /\ exists it',
             Iter.deref (Tr := MapNode.map_traits) (CMap.node_ m) it
             = Some ((key, v), it'))
  /\ ((forall v, ~ In (key, v) els) -> it = CMap.end_ m).
Proof.
  intros Hprov Hrun Em Hm sp els lb ub it.
  pose proof (ProgramFacts.map_state_ok provider Hprov prog w Hrun) as HI.
  pose proof (ProgramFacts.map_in_world provider Hprov prog w Hrun i m Em)
    as Vm.
  destruct (CMapFacts.map_lower_bound_spec provider _ _ Hprov _ m key
              HI Vm Hm) as ((Bl & _) & Pl).
  destruct (CMapFacts.map_upper_bound_spec provider _ _ Hprov _ m key
              HI Vm Hm) as ((Bu & _) & Pu).
  pose proof (CMapFacts.map_equal_range_spec provider _
                World.set_provider_id _ Hprov _ m key HI Vm Hm) as W.
  destruct (CMapFacts.map_find_spec provider _ _ Hprov _ m key HI Vm Hm)
    as (O & F & N).
  assert (C : CMap.count provider m key = 0
              \/ CMap.count provider m key = 1).
  { destruct (CMapFacts.map_count_spec provider _ World.set_provider_id _
                Hprov _ m key HI Vm) as (C1 & C0).
    destruct (CMapFacts.map_key_dec provider Hprov (CMap.node_ m) key);
      auto. }
  pose proof W as W'. cbn [CMap.equal_range fst snd] in W'.
  fold lb ub in W', Bl, Bu. fold it in O, F, N.
  split; [|split; [lia|split; [exact (proj2 Bu)|split; [|split;
                                                         [exact W|split]]]]].
  - intros k Hk.
    exact (CMapFacts.map_at_index_spec provider _ _ Hprov _ m k HI Vm Hk).
  - intros k v Hk A.
    rewrite (CMapFacts.map_at_index_spec provider _ _ Hprov _ m k HI Vm Hk)
      in A.
    destruct (k <? CMap.size m); [|discriminate].
    specialize (Pl _ _ A). specialize (Pu _ _ A).
    rewrite Z2Nat.id in Pl, Pu by lia. split; assumption.
  - intros v H. destruct (F v H) as (B & E). split.
    + rewrite (CMapFacts.map_at_index_spec provider _ _ Hprov _ m _ HI Vm)
        by lia.
      rewrite (proj2 (Z.ltb_lt _ _)) by lia. exact E.
    + destruct (CMapFacts.map_deref provider _ _ Hprov _ m it HI Vm Hm O
                  (proj2 B)) as (x & it' & D & Nx & _).
      rewrite E in Nx. injection Nx as <-. exists it'. exact D.
  - intros H. apply N. intros Hk. apply CMapFacts.map_has_key in Hk.
    destruct Hk as (v & Hv). exact (H v Hv).
Qed.

Lemma map_lookup_witness :
  MapSpec.provider_ok Demo.map_of_int
  /\ World.run Demo.map_of_int Demo.program World.init = Some Demo.world
  /\ nth_error (World.maps Demo.world) 0 = Some (Demo.map_at 0)
  /\ CMap.size (Demo.map_at 0) < Word.modulus
  /\ In (2, 21) (Spec.elems (CMap.node_ (Demo.map_at 0)))
  /\ CMap.at_index (Demo.map_at 0)
       (Iter.pos_ (CMap.find Demo.map_of_int (Demo.map_at 0) 2))
     = Some (2, 21).
Proof.
  assert (R : World.run Demo.map_of_int Demo.program World.init
              = Some Demo.world) by (vm_compute; reflexivity).
  assert (M0 : nth_error (World.maps Demo.world) 0 = Some (Demo.map_at 0))
    by reflexivity.
  assert (B : CMap.size (Demo.map_at 0) < Word.modulus) by reflexivity.
  assert (I2 : In (2, 21) (Spec.elems (CMap.node_ (Demo.map_at 0))))
    by (vm_compute; auto).
  split; [exact DemoFacts.map_of_int_ok|]. split; [exact R|].
  split; [exact M0|]. split; [exact B|]. split; [exact I2|].
  destruct (map_lookup Demo.map_of_int Demo.program Demo.world 0
              (Demo.map_at 0) 2 DemoFacts.map_of_int_ok R M0 B)
    as (_ & _ & _ & _ & _ & F & _).
  exact (proj1 (F 21 I2)).
Defined.

(** X27 ([map::count]).  For a map [m] of a program: [m.count(key)], which
    searches the key nodes of [m], is the count of [key] in [m.key_set()];
    it is 1 when an element of [m] has the key and 0 when none has;
    [m.count(key, mapped)] is 1 when the pair is an element of [m] and 0
    when it is not, also when the key is there with another mapped
    value. *)
Theorem map_count {K T : Type} (provider : map_provider K T)
    (prog : list World.command) (w : World.world) (i : nat)
    (m : CMap.map K T) (key : K) (mapped : T) :
  MapSpec.provider_ok provider ->
  World.run provider prog World.init = Some w ->
  nth_error (World.maps w) i = Some m ->
  let sp := set_provider_ provider in
  let els := Spec.elems (CMap.node_ m) in
  CMap.count provider m key
  = CSet.count sp (CMap.key_set World.set_provider_id m) key
  /\ ((exists v, In (key, v) els) -> CMap.count provider m key = 1)
  /\ ((forall v, ~ In (key, v) els) -> CMap.count provider m key = 0)
  /\ (In (key, mapped) els -> CMap.count_pair provider m key mapped = 1)
  /\ (~ In (key, mapped) els -> CMap.count_pair provider m key mapped = 0).
Proof.
  intros Hprov Hrun Em sp els.
  pose proof (ProgramFacts.map_state_ok provider Hprov prog w Hrun) as HI.
  pose proof (ProgramFacts.map_in_world provider Hprov prog w Hrun i m Em)
    as Vm.
  destruct (CMapFacts.map_count_spec provider _ World.set_provider_id _
              Hprov _ m key HI Vm) as (C1 & C0).
  destruct (CMapFacts.count_pair_spec provider _ Hprov _ m key mapped Vm)
    as (P1 & P0).
  split; [reflexivity|]. split; [|split; [|split; [exact P1|exact P0]]].
  - intros H. apply C1. apply CMapFacts.map_has_key. exact H.
  - intros H. apply C0. intros Hk. apply CMapFacts.map_has_key in Hk.
    destruct Hk as (v & Hv). exact (H v Hv).
Qed.

Lemma map_count_witness :
  MapSpec.provider_ok Demo.map_of_int
  /\ World.run Demo.map_of_int Demo.program World.init = Some Demo.world
  /\ nth_error (World.maps Demo.world) 0 = Some (Demo.map_at 0)
  /\ CMap.count Demo.map_of_int (Demo.map_at 0) 2 = 1
  /\ CMap.count_pair Demo.map_of_int (Demo.map_at 0) 2 20 = 0.
Proof.
  assert (R : World.run Demo.map_of_int Demo.program World.init
              = Some Demo.world) by (vm_compute; reflexivity).
  assert (M0 : nth_error (World.maps Demo.world) 0 = Some (Demo.map_at 0))
    by reflexivity.
  split; [exact DemoFacts.map_of_int_ok|]. split; [exact R|].
  split; [exact M0|].
  destruct (map_count Demo.map_of_int Demo.program Demo.world 0
              (Demo.map_at 0) 2 20 DemoFacts.map_of_int_ok R M0)
    as (_ & C1 & _ & _ & P0).
  split.
  - apply C1. exists 21. vm_compute. auto.
  - apply P0. vm_compute. intros [H|[H|[]]]; discriminate.
Defined.

(** X28 ([map::erase] of a pair).  For a map [m] of a program and a pair:
    when the pair is an element of [m], [m.erase(pair)] returns 1 and
    leaves the other elements of [m]; when it is not, also when [m] holds
    its key with another mapped value, [m.erase(pair)] returns 0, leaves
    [m] as it was and creates no node. *)
Theorem map_erase_pair {K T : Type} (provider : map_provider K T)
    (prog : list World.command) (w : World.world) (i : nat)
    (m : CMap.map K T) (value : K * T) :
  MapSpec.provider_ok provider ->
  World.run provider prog World.init = Some w ->
  nth_error (World.maps w) i = Some m ->
  let els := fun x : CMap.map K T => Spec.elems (CMap.node_ x) in
  (In value (els m) ->
   exists m' s',
     CMap.erase_value provider m value (World.state w) = Some ((1, m'), s')
     /\ forall y, In y (els m') <-> In y (els m) /\ y <> value)
  /\ (~ In value (els m) ->
      CMap.erase_value provider m value (World.state w)
      = Some ((0, m), World.state w)).
Proof.
  intros Hprov Hrun Em els.
  pose proof (ProgramFacts.map_state_ok provider Hprov prog w Hrun) as HI.
  pose proof (ProgramFacts.map_in_world provider Hprov prog w Hrun i m Em)
    as Vm.
  destruct (CMapFacts.map_erase_value_spec provider _ _ Hprov _ m value
              HI Vm) as (E1 & E0).
  split; [|exact E0]. intros H. rewrite (E1 H).
  destruct (CMapFacts.map_erase_spec provider _ _ Hprov _ m (fst value)
              HI Vm) as ([n m'] & s' & E & _ & _ & _ & I1 & H1 & _).
  cbn [fst snd] in *.
  assert (Hk : Spec.has_key (Tr := MapNode.map_traits) (CMap.node_ m)
                 (fst value)) by (exists value; auto).
  rewrite (H1 Hk) in E. exists m', s'. split; [exact E|].
  intros y. unfold els. rewrite (I1 y). split.
  - intros (Hy & N). split; [exact Hy|]. intros ->. apply N. reflexivity.
  - intros (Hy & N). split; [exact Hy|]. intros Ek. apply N.
    destruct Vm as (_ & _ & Tm).
    exact (Facts.treap_keys_unique (MapSpec.prio provider)
             (MapFacts.map_order_ok provider Hprov) _ y value Tm Hy H Ek).
Qed.

Lemma map_erase_pair_witness :
  MapSpec.provider_ok Demo.map_of_int
  /\ World.run Demo.map_of_int Demo.program World.init = Some Demo.world
  /\ nth_error (World.maps Demo.world) 0 = Some (Demo.map_at 0)
  /\ In (2, 21) (Spec.elems (CMap.node_ (Demo.map_at 0)))
  /\ ~ In (2, 20) (Spec.elems (CMap.node_ (Demo.map_at 0)))
  /\ (exists m' s',
        CMap.erase_value Demo.map_of_int (Demo.map_at 0) (2, 21)
          (World.state Demo.world) = Some ((1, m'), s'))
  /\ CMap.erase_value Demo.map_of_int (Demo.map_at 0) (2, 20)
       (World.state Demo.world)
     = Some ((0, Demo.map_at 0), World.state Demo.world).
Proof.
  assert (R : World.run Demo.map_of_int Demo.program World.init
              = Some Demo.world) by (vm_compute; reflexivity).
  assert (M0 : nth_error (World.maps Demo.world) 0 = Some (Demo.map_at 0))
    by reflexivity.
  assert (I1 : In (2, 21) (Spec.elems (CMap.node_ (Demo.map_at 0))))
    by (vm_compute; auto).
  assert (N0 : ~ In (2, 20) (Spec.elems (CMap.node_ (Demo.map_at 0))))
    by (vm_compute; intros [H|[H|[]]]; discriminate).
  split; [exact DemoFacts.map_of_int_ok|]. split; [exact R|].
  split; [exact M0|]. split; [exact I1|]. split; [exact N0|]. split.
  - destruct (proj1 (map_erase_pair Demo.map_of_int Demo.program Demo.world
                       0 (Demo.map_at 0) (2, 21) DemoFacts.map_of_int_ok
                       R M0) I1) as (m' & s' & E & _).
    exists m', s'. exact E.
  - exact (proj2 (map_erase_pair Demo.map_of_int Demo.program Demo.world
                    0 (Demo.map_at 0) (2, 20) DemoFacts.map_of_int_ok
                    R M0) N0).
Defined.

(** X29 (updating a map from a range).  For a map [m] of a program and a
    range of fewer than [2 ^ 64 - 1] pairs, of which only the first pair
    with each key counts: [m.insert(first, last)] adds the pairs whose key
    [m] does not hold and returns how many it added;
    [m.insert_or_assign(first, last)] holds the pairs of the range and the
    elements of [m] with a key that is not in the range, and returns false
    exactly when [m] already held every pair; assigning an initializer
    list leaves the pairs of the list. *)
Theorem map_range_updates {K T : Type} (provider : map_provider K T)
    (prog : list World.command) (w : World.world) (i : nat)
    (m : CMap.map K T) (l : list (K * T)) :
  MapSpec.provider_ok provider ->
  World.run provider prog World.init = Some w ->
  nth_error (World.maps w) i = Some m ->
  Z.of_nat (length l) < Word.modulus - 1 ->
  let els := fun x : CMap.map K T => Spec.elems (CMap.node_ x) in
  let first := Spec.first_of (Tr := MapNode.map_traits) l in
  (exists n m' s',
     CMap.insert_range provider m l (World.state w) = Some ((n, m'), s')
     /\ (forall y, In y (els m') <->
           In y (els m)
           \/ (first y /\ forall v, ~ In (fst y, v) (els m)))
     /\ n = Word.wrap (Z.of_nat (length (els m') - length (els m))))
  /\ (exists b m' s',
        CMap.insert_or_assign_range provider m l (World.state w)
        = Some ((b, m'), s')
        /\ (forall y, In y (els m') <->
              first y
              \/ (In y (els m) /\ forall z, In z l -> fst z <> fst y))
        /\ (b = false <-> forall y, first y -> In y (els m)))
  /\ (exists m' s',
        CMap.assign_list provider m l (World.state w) = Some (m', s')
        /\ forall y, In y (els m') <-> first y).
Proof.
  intros Hprov Hrun Em Hlen els first.
  pose proof (ProgramFacts.map_state_ok provider Hprov prog w Hrun) as HI.
  pose proof (ProgramFacts.map_in_world provider Hprov prog w Hrun i m Em)
    as Vm.
  split; [|split].
  - destruct (CMapFacts.map_insert_range_spec provider _ _ Hprov _ m l
                HI Vm) as ([n m'] & s' & E & _ & _ & _ & _ & I1 & En & _).
    cbn [fst snd] in *. exists n, m', s'. split; [exact E|].
    split; [|exact En]. intros y. unfold els. rewrite (I1 Hlen y).
    apply or_iff_compat_l. apply and_iff_compat_l. split.
    + intros N v Hv. apply N. apply CMapFacts.map_has_key. exists v.
      exact Hv.
    + intros N Hk. apply CMapFacts.map_has_key in Hk.
      destruct Hk as (v & Hv). exact (N v Hv).
  - destruct (CMapFacts.insert_or_assign_range_spec provider _ _ Hprov _
                m l HI Vm) as ([b m'] & s' & E & _ & _ & _ & H).
    cbn [fst snd] in *. exists b, m', s'. split; [exact E|].
    exact (H Hlen).
  - destruct (CMapFacts.map_assign_list_spec provider _ _ Hprov _ m l
                HI Vm) as (m' & s' & E & _ & _ & _ & _ & I1).
    exists m', s'. split; [exact E|exact (I1 Hlen)].
Qed.

Lemma map_range_updates_witness :
  MapSpec.provider_ok Demo.map_of_int
  /\ World.run Demo.map_of_int Demo.program World.init = Some Demo.world
  /\ nth_error (World.maps Demo.world) 0 = Some (Demo.map_at 0)
  /\ Z.of_nat (length [(2, 5); (3, 30); (3, 31)]) < Word.modulus - 1
  /\ exists b m' s',
       CMap.insert_or_assign_range Demo.map_of_int (Demo.map_at 0)
         [(2, 5); (3, 30); (3, 31)] (World.state Demo.world)
       = Some ((b, m'), s')
       /\ (forall y,
             In y (Spec.elems (CMap.node_ m')) <->
             Spec.first_of (Tr := MapNode.map_traits)
               [(2, 5); (3, 30); (3, 31)] y
             \/ (In y (Spec.elems (CMap.node_ (Demo.map_at 0)))
                 /\ forall z, In z [(2, 5); (3, 30); (3, 31)] ->
                              fst z <> fst y)).
Proof.
  assert (R : World.run Demo.map_of_int Demo.program World.init
              = Some Demo.world) by (vm_compute; reflexivity).
  assert (M0 : nth_error (World.maps Demo.world) 0 = Some (Demo.map_at 0))
    by reflexivity.
  assert (B : Z.of_nat (length [(2, 5); (3, 30); (3, 31)])
              < Word.modulus - 1) by reflexivity.
  split; [exact DemoFacts.map_of_int_ok|]. split; [exact R|].
  split; [exact M0|]. split; [exact B|].
  destruct (map_range_updates Demo.map_of_int Demo.program Demo.world 0
              (Demo.map_at 0) [(2, 5); (3, 30); (3, 31)]
              DemoFacts.map_of_int_ok R M0 B)
    as (_ & (b & m' & s' & E & I1 & _) & _).
  exists b, m', s'. split; [exact E|exact I1].
Defined.

(** X30 (iterating over a map).  For a map [m] of a program with fewer than
    [2 ^ 64 - 1] elements: the statement [for (auto x : m)] ends after
    [m.size()] rounds and binds [x] to the elements of [m] in ascending
    order of their keys; and a walk of [++], [--], [+= k] and [-= k] from
    the iterator of [m.begin()], [m.end()], [m.find(key)],
    [m.lower_bound(key)] or [m.upper_bound(key)] that stays between the
    beginning and the end of [m] dereferences no null pointer, ends at the
    position the steps add up to, and below the end dereferences to the
    element [m.at_index] gives for it. *)
Theorem map_iteration {K T : Type} (provider : map_provider K T)
    (prog : list World.command) (w : World.world) (i : nat)
    (m : CMap.map K T) (key : K) (start : Iter.iterator)
    (ms : list Iter.step) (fuel : nat) :
  MapSpec.provider_ok provider ->
  World.run provider prog World.init = Some w ->
  nth_error (World.maps w) i = Some m ->
  CMap.size m < Word.modulus - 1 ->
  (Z.to_nat (CMap.size m) <= fuel)%nat ->
  let sp := set_provider_ provider in
  In start [CMap.begin_ m; CMap.end_ m; CMap.find provider m key;
            CMap.lower_bound provider m key;
            CMap.upper_bound provider m key] ->
  Spec.in_range (CMap.size m) (Iter.pos_ start) ms ->
  (Iter.range_for (Tr := MapNode.map_traits) fuel (CMap.node_ m)
     (CMap.begin_ m) (CMap.end_ m)
   = Some (Spec.elems (CMap.node_ m))
   /\ StronglySorted (fun x y => key_comp sp (fst x) (fst y) = true)
        (Spec.elems (CMap.node_ m)))
  /\ exists it,
       Iter.walk (Tr := MapNode.map_traits) (CMap.node_ m) start ms
       = Some it
       /\ Iter.pos_ it = Spec.destination (Iter.pos_ start) ms
       /\ (Iter.pos_ it < CMap.size m ->
           exists v it',
             Iter.deref (Tr := MapNode.map_traits) (CMap.node_ m) it
             = Some (v, it')
             /\ CMap.at_index m (Iter.pos_ it) = Some v).
Proof.
  intros Hprov Hrun Em Hm Hf sp Hstart Hin.
  pose proof (ProgramFacts.map_state_ok provider Hprov prog w Hrun) as HI.
  pose proof (ProgramFacts.map_in_world provider Hprov prog w Hrun i m Em)
    as Vm.
  assert (Hm' : CMap.size m < Word.modulus) by lia.
  split.
  - split.
    + exact (CMapFacts.map_range_for provider _ _ Hprov _ m fuel HI Vm Hm
               Hf).
    + destruct Vm as (_ & _ & Tm).
      exact (Facts.treap_sorted (MapSpec.prio provider)
               (MapFacts.map_order_ok provider Hprov) _ Tm).
  - assert (Ok : Spec.iter_ok (Tr := MapNode.map_traits) (CMap.node_ m)
                   start).
    { destruct Hstart as [<-|[<-|[<-|[<-|[<-|[]]]]]].
      - exact (CMapFacts.map_begin_ok provider _ _ Hprov _ m HI Vm).
      - exact (CMapFacts.map_end_ok provider _ _ Hprov _ m HI Vm).
      - exact (proj1 (CMapFacts.map_find_spec provider _ _ Hprov _ m key
                        HI Vm Hm')).
      - exact (proj1 (CMapFacts.map_lower_bound_spec provider _ _ Hprov _
                        m key HI Vm Hm')).
      - exact (proj1 (CMapFacts.map_upper_bound_spec provider _ _ Hprov _
                        m key HI Vm Hm')). }
    destruct (CMapFacts.map_walk provider _ _ Hprov _ m start ms HI Vm Hm
                Ok Hin) as (it & E & P & O).
    exists it. split; [exact E|]. split; [exact P|]. intros Hlt.
    destruct (CMapFacts.map_deref provider _ _ Hprov _ m it HI Vm Hm' O
                Hlt) as (v & it' & D & N & _).
    exists v, it'. split; [exact D|].
    assert (Bp : 0 <= Iter.pos_ it < Word.modulus)
      by (destruct O as (B & _); unfold CMap.size in Hm'; lia).
    pose proof (CMapFacts.map_at_index_spec provider _ _ Hprov _ m _ HI Vm
                  Bp) as Q.
    rewrite (proj2 (Z.ltb_lt _ _)) in Q by exact Hlt.
    exact (eq_trans Q N).
Qed.

Lemma map_iteration_witness :
  MapSpec.provider_ok Demo.map_of_int
  /\ World.run Demo.map_of_int Demo.program World.init = Some Demo.world
  /\ nth_error (World.maps Demo.world) 0 = Some (Demo.map_at 0)
  /\ CMap.size (Demo.map_at 0) < Word.modulus - 1
  /\ (Z.to_nat (CMap.size (Demo.map_at 0)) <= 2)%nat
  /\ Spec.in_range (CMap.size (Demo.map_at 0))
       (Iter.pos_ (CMap.end_ (Demo.map_at 0)))
       [Iter.Decrement; Iter.Decrement; Iter.Increment]
  /\ Iter.range_for (Tr := MapNode.map_traits) 2
       (CMap.node_ (Demo.map_at 0)) (CMap.begin_ (Demo.map_at 0))
       (CMap.end_ (Demo.map_at 0))
     = Some (Spec.elems (CMap.node_ (Demo.map_at 0)))
  /\ exists it,
       Iter.walk (Tr := MapNode.map_traits) (CMap.node_ (Demo.map_at 0))
         (CMap.end_ (Demo.map_at 0))
         [Iter.Decrement; Iter.Decrement; Iter.Increment] = Some it
       /\ Iter.pos_ it = 1.
Proof.
  assert (R : World.run Demo.map_of_int Demo.program World.init
              = Some Demo.world) by (vm_compute; reflexivity).
  assert (M0 : nth_error (World.maps Demo.world) 0 = Some (Demo.map_at 0))
    by reflexivity.
  assert (B : CMap.size (Demo.map_at 0) < Word.modulus - 1) by reflexivity.
  assert (F : (Z.to_nat (CMap.size (Demo.map_at 0)) <= 2)%nat)
    by (vm_compute; lia).
  assert (G : Spec.in_range (CMap.size (Demo.map_at 0))
                (Iter.pos_ (CMap.end_ (Demo.map_at 0)))
                [Iter.Decrement; Iter.Decrement; Iter.Increment]).
  { vm_compute. repeat split; discriminate. }
  split; [exact DemoFacts.map_of_int_ok|]. split; [exact R|].
  split; [exact M0|]. split; [exact B|]. split; [exact F|].
  split; [exact G|].
  destruct (map_iteration Demo.map_of_int Demo.program Demo.world 0
              (Demo.map_at 0) 0 (CMap.end_ (Demo.map_at 0))
              [Iter.Decrement; Iter.Decrement; Iter.Increment] 2
              DemoFacts.map_of_int_ok R M0 B F
              (or_intror (or_introl eq_refl)) G)
    as ((E & _) & it & W & P & _).
  split; [exact E|]. exists it. split; [exact W|]. rewrite P. reflexivity.
Defined.
